(** * CUDA-Q runtime: argument conversion and circuit drawing

    A shallow embedding of two translation units of the CUDA-Q runtime,

    - [runtime/cudaq/algorithms/draw.cpp]: the glyph merge function
      [merge_chars], the rendering of the glyphs, the class [Diagram]
      with its three shapes, and [cudaq::__internal__::draw] from the
      layering loop to the printed text;
    - [runtime/common/ArgumentConversion.cpp]: [readStateData], the
      constant emitters [genConstant], the recursive walker
      [dispatchSubtype], the constructor of [ArgumentConverter] and the
      driver [ArgumentConverter::gen];

    followed by the properties established about them. *)

From Stdlib Require Import ZArith Lia String Ascii.
From stdpp Require Import base tactics option list sorting.

Local Open Scope Z_scope.
#[local] Set Warnings "-register-all,-clear-no-such-hyp".
#[local] Set Default Proof Using "Type".

(** ** Part I.  The program *)

(** *** [draw.cpp] *)

Module Draw.

(** [enum CharSet : char].  A [char] is modelled by its integer value; the
    comparisons of [merge_chars] are comparisons of these values. *)
Definition WIRE_LINE : Z := 0.
Definition CONTROL_LINE : Z := 1.
Definition WIRE_CONTROL_CROSS : Z := 2.
Definition CONTROL : Z := 3.
Definition BOX_LEFT_WIRE : Z := 4.
Definition BOX_RIGHT_WIRE : Z := 5.
Definition BOX_TOP_CONTROL : Z := 6.
Definition BOX_BOTTOM_CONTROL : Z := 7.
Definition BOX_TOP_LEFT_CORNER : Z := 8.
Definition BOX_TOP_RIGHT_CORNER : Z := 9.
Definition BOX_BOTTOM_LEFT_CORNER : Z := 10.
Definition BOX_BOTTOM_RIGHT_CORNER : Z := 11.
Definition SWAP_X : Z := 12.

(** The blank [' '] that fills the even rows of the diagram. *)
Definition BLANK : Z := 32.

(** The thirteen members of [CharSet]. *)
Definition CharSet : list Z :=
  [WIRE_LINE; CONTROL_LINE; WIRE_CONTROL_CROSS; CONTROL; BOX_LEFT_WIRE;
   BOX_RIGHT_WIRE; BOX_TOP_CONTROL; BOX_BOTTOM_CONTROL; BOX_TOP_LEFT_CORNER;
   BOX_TOP_RIGHT_CORNER; BOX_BOTTOM_LEFT_CORNER; BOX_BOTTOM_RIGHT_CORNER;
   SWAP_X].

(** [void merge_chars(char &c0, char c1)]: the cell [c0] is passed by
    reference, the result is its content on return. *)
Definition merge_chars (c0 c1 : Z) : Z :=
  if c0 =? c1 then c0
  else if c0 =? BLANK then c1
  else if c1 =? CONTROL_LINE then
    if (c0 =? CONTROL) || (c0 =? WIRE_CONTROL_CROSS) then c0
    else if c0 =? WIRE_LINE then WIRE_CONTROL_CROSS
    else CONTROL_LINE
  else
    (* if (c0 > c1) std::swap(c0, c1); *)
    let '(c0, c1) := if c0 >? c1 then (c1, c0) else (c0, c1) in
    if (c0 =? WIRE_LINE)
       && ((c1 =? BOX_TOP_LEFT_CORNER) || (c1 =? BOX_TOP_RIGHT_CORNER))
    then BOX_BOTTOM_CONTROL
    else if (c0 =? WIRE_LINE)
       && ((c1 =? BOX_BOTTOM_LEFT_CORNER) || (c1 =? BOX_BOTTOM_RIGHT_CORNER))
    then BOX_TOP_CONTROL
    else if (c0 =? BOX_TOP_LEFT_CORNER) && (c1 =? BOX_BOTTOM_LEFT_CORNER)
    then BOX_RIGHT_WIRE
    else if (c0 =? BOX_TOP_RIGHT_CORNER) && (c1 =? BOX_BOTTOM_RIGHT_CORNER)
    then BOX_LEFT_WIRE
    else c1 (* std::swap(c0, c1) *).

(** The trace consumed by [draw].  [QuditInfo::id] is converted to
    [Diagram::Wire = int] by [convertToIDs], and the number of qudits to
    the [int] parameter of [Diagram(int num_qubits)]; wires are integers.
    The numbers are held as they are in the trace: what is proved of the
    layering is proved of the traces whose number of qudits, and so whose
    wires, fit an [int], on which the conversions change nothing. *)
Record QuditInfo := { levels : Z; id : Z }.

Record Instruction := {
  name : string;
  params : list Z; (* the bit patterns of the [double] parameters *)
  controls : list QuditInfo;
  targets : list QuditInfo
}.

Record Trace := { getNumQudits : Z; instructions : list Instruction }.

Definition convertToIDs (qudits : list QuditInfo) : list Z := map id qudits.

(** The three shapes, with the fields of [Diagram::Operator]. *)
Inductive Operator :=
| Box (label : string) (wires : list Z) (num_targets num_controls : Z)
| DiagramSwap (wires : list Z) (num_controls : Z)
| ControlledBox (label : string) (wires : list Z)
                (num_targets num_controls : Z).

Definition width (shape : Operator) : Z :=
  match shape with
  | Box label _ _ num_controls =>
      Z.of_nat (String.length label) + 2
      + (if num_controls >? 0 then 1 else 0)
  | DiagramSwap _ _ => 3
  | ControlledBox label _ _ _ => Z.of_nat (String.length label) + 2
  end.

(** [v.at(i)] with an [int] index: a negative index converts to a huge
    [size_t], so it throws [std::out_of_range] like any index past the
    end.  [None] stands for the exception. *)
Definition at_ {A} (v : list A) (i : Z) : option A :=
  if i <? 0 then None else v !! Z.to_nat i.

Definition set_at {A} (v : list A) (i : Z) (x : A) : option (list A) :=
  match at_ v i with
  | Some _ => Some (<[Z.to_nat i := x]> v)
  | None => None
  end.

(** The wires visited by [for (auto i = min_dwire; i <= max_dwire; ++i)]. *)
Definition wire_range (min_dwire max_dwire : Z) : list Z :=
  seqZ min_dwire (max_dwire - min_dwire + 1).

(** [layer = std::max(layer, wire_layer.at(i))] over the range. *)
Fixpoint max_layer (wire_layer : list Z) (range : list Z) (layer : Z)
  : option Z :=
  match range with
  | [] => Some layer
  | i :: range =>
      l ← at_ wire_layer i;
      max_layer wire_layer range (Z.max layer l)
  end.

(** [wire_layer.at(i) = layer] over the range. *)
Fixpoint set_layer (wire_layer : list Z) (range : list Z) (layer : Z)
  : option (list Z) :=
  match range with
  | [] => Some wire_layer
  | i :: range =>
      wire_layer ← set_at wire_layer i layer;
      set_layer wire_layer range layer
  end.

(** The walk over the controls: each control is pushed on [wires], may set
    [overlap], and widens [min_dwire, max_dwire]. *)
Fixpoint scan_controls (min_target max_target : Z) (controls : list Z)
    (acc : list Z * bool * Z * Z) : list Z * bool * Z * Z :=
  match controls with
  | [] => acc
  | control :: controls =>
      let '(wires, overlap, min_dwire, max_dwire) := acc in
      scan_controls min_target max_target controls
        (wires ++ [control],
         overlap || ((control >? min_target) && (control <? max_target)),
         Z.min control min_dwire, Z.max control max_dwire)
  end.

(** The state of the layering loop of [draw].  The [int] counters of the
    loop are integers here: a layer index is at most the number of
    instructions seen, a wire index is below the number of wires. *)
Record Layering := {
  boxes : list Operator;
  layers : list (list nat);
  layer_width : list Z;
  wire_layer : list Z;
  ref : nat
}.

Section Layers.

(** [fmt::format("{}({:.4})", inst.name, fmt::join(params, ","))]: the
    formatting of floating-point parameters is left to the formatter. *)
Variable format_name : string → list Z → string.

Definition inst_name (inst : Instruction) : string :=
  match params inst with
  | [] => name inst
  | _ => format_name (name inst) (params inst)
  end.

(** [fmt::format("{: ^{}}", name, name.size() + 2 * padding)] with
    [padding = 1]. *)
Definition inst_label (inst : Instruction) : string :=
  (" " ++ inst_name inst ++ " ")%string.

(** The sorted targets, and what the controls add: the wires of the
    shape, the [overlap] flag and the span [min_dwire, max_dwire].
    [wires.front()] on an empty vector is undefined: [None]. *)
Definition inst_wires (inst : Instruction)
  : option (list Z * bool * Z * Z) :=
  let wires := merge_sort Z.le (convertToIDs (targets inst)) in
  min_target ← head wires;
  max_target ← last wires;
  Some (scan_controls min_target max_target (convertToIDs (controls inst))
          (wires, false, min_target, max_target)).

Definition inst_span (inst : Instruction) : option (Z * Z) :=
  '(_, _, min_dwire, max_dwire) ← inst_wires inst;
  Some (min_dwire, max_dwire).

Definition inst_shape (inst : Instruction) (wires : list Z)
    (overlap : bool) : Operator :=
  let num_targets := Z.of_nat (length (targets inst)) in
  let num_controls := Z.of_nat (length (controls inst)) in
  if overlap then Box (inst_label inst) wires num_targets num_controls
  else if String.eqb (inst_name inst) "swap"
  then DiagramSwap wires num_controls
  else ControlledBox (inst_label inst) wires num_targets num_controls.

(** One iteration of [for (const auto &inst : trace)]. *)
Definition place (s : Layering) (inst : Instruction) : option Layering :=
  '(wires, overlap, min_dwire, max_dwire) ← inst_wires inst;
  let shape := inst_shape inst wires overlap in
  let range := wire_range min_dwire max_dwire in
  layer ← max_layer (wire_layer s) range (-1);
  let layer := layer + 1 in
  let '(layers0, layer_width0) :=
    if layer =? Z.of_nat (length (layers s))
    then (layers s ++ [[]], layer_width s ++ [0])
    else (layers s, layer_width s) in
  members ← at_ layers0 layer;
  layers1 ← set_at layers0 layer (members ++ [ref s]);
  wire_layer1 ← set_layer (wire_layer s) range layer;
  w ← at_ layer_width0 layer;
  layer_width1 ← set_at layer_width0 layer (Z.max w (width shape));
  Some {| boxes := boxes s ++ [shape];
          layers := layers1;
          layer_width := layer_width1;
          wire_layer := wire_layer1;
          ref := S (ref s) |}.

(** [std::vector<int> wire_layer(diagram.num_wires(), -1)] and empty
    [boxes], [layers], [layer_width]. *)
Definition initial (num_wires : Z) : Layering :=
  {| boxes := []; layers := []; layer_width := [];
     wire_layer := replicate (Z.to_nat num_wires) (-1); ref := 0 |}.

Fixpoint place_all (s : Layering) (trace : list Instruction)
  : option Layering :=
  match trace with
  | [] => Some s
  | inst :: trace => s ← place s inst; place_all s trace
  end.

(** The layering computed by [draw] for a trace. *)
Definition layering (trace : Trace) : option Layering :=
  place_all (initial (getNumQudits trace)) (instructions trace).

End Layers.

(** **** The vocabulary of the properties *)

(** The wires an instruction names. *)
Definition inst_ids (inst : Instruction) : list Z :=
  convertToIDs (targets inst) ++ convertToIDs (controls inst).

(** An instruction the loop can place on [num_wires] wires: it has a
    target, and every wire it names is one of the diagram. *)
Definition placeable (num_wires : Z) (inst : Instruction) : Prop :=
  targets inst ≠ [] ∧ ∀ w, w ∈ inst_ids inst → 0 ≤ w < num_wires.

(** Two inclusive spans that share a wire. *)
Definition overlapping (a b : Z * Z) : Prop :=
  ∃ w, a.1 ≤ w ≤ a.2 ∧ b.1 ≤ w ≤ b.2.

(** Instruction number [r] is a member of layer [L]. *)
Definition in_layer (s : Layering) (L : Z) (r : nat) : Prop :=
  ∃ members, at_ (layers s) L = Some members ∧ r ∈ members.

(** What the loop maintains after the instructions [done]: [wire_layer]
    has one entry per wire, each of them the index of an existing layer or
    [-1]; the members of a layer are instructions already seen, whose
    wires have all reached that layer; and two members of one layer do
    not share a wire. *)
Record layering_inv (nw : Z) (done : list Instruction) (s : Layering)
  : Prop := {
  inv_wires : length (wire_layer s) = Z.to_nat nw;
  inv_ref : ref s = length done;
  inv_widths : length (layer_width s) = length (layers s);
  inv_bound : ∀ (i : nat) (l : Z),
    wire_layer s !! i = Some l → -1 ≤ l < Z.of_nat (length (layers s));
  inv_members : ∀ L r,
    in_layer s L r →
    ∃ inst mn mx,
      done !! r = Some inst ∧ inst_span inst = Some (mn, mx) ∧ 0 ≤ mn
      ∧ ∀ w, mn ≤ w ≤ mx →
             ∃ l, wire_layer s !! Z.to_nat w = Some l ∧ L ≤ l;
  inv_disjoint : ∀ L r1 r2 i1 i2 sp1 sp2,
    r1 ≠ r2 → in_layer s L r1 → in_layer s L r2 →
    done !! r1 = Some i1 → done !! r2 = Some i2 →
    inst_span i1 = Some sp1 → inst_span i2 = Some sp2 →
    ¬ overlapping sp1 sp2
}.

(** **** Rendering *)

(** [render_char]: the UTF-8 encoding of a member of [CharSet], and the
    empty view for any other character.  A string is the list of its
    bytes. *)
Definition render_char (c : Z) : list Z :=
  if c =? WIRE_LINE then [226; 148; 128]
  else if c =? CONTROL_LINE then [226; 148; 130]
  else if c =? WIRE_CONTROL_CROSS then [226; 148; 188]
  else if c =? CONTROL then [226; 151; 143]
  else if c =? BOX_LEFT_WIRE then [226; 148; 164]
  else if c =? BOX_RIGHT_WIRE then [226; 148; 156]
  else if c =? BOX_TOP_CONTROL then [226; 148; 180]
  else if c =? BOX_BOTTOM_CONTROL then [226; 148; 172]
  else if c =? BOX_TOP_LEFT_CORNER then [226; 149; 173]
  else if c =? BOX_TOP_RIGHT_CORNER then [226; 149; 174]
  else if c =? BOX_BOTTOM_LEFT_CORNER then [226; 149; 176]
  else if c =? BOX_BOTTOM_RIGHT_CORNER then [226; 149; 175]
  else if c =? SWAP_X then [226; 149; 179]
  else [].

(** [render_chars(begin, end)] over the cells between the two pointers: a
    cell whose rendering is empty is appended as the byte it is. *)
Fixpoint render_chars (cells : list Z) : list Z :=
  match cells with
  | [] => []
  | c :: cells =>
      match render_char c with
      | [] => [c mod 256]
      | rendered_char => rendered_char
      end ++ render_chars cells
  end.

(** **** More of what the layering loop maintains

    After the instructions [done]: instructions that share a wire are in
    layers that follow the order of the trace; a wire whose entry is a
    layer is a wire of a member of that layer; an instruction that is not
    in the first layer shares a wire with an earlier member of the layer
    before; an instruction is in one layer, each instruction seen is in a
    layer, and no layer is empty; there is one box per instruction, the shape
    made for it, and the width of a layer is the width of its widest member. *)
Record layering_inv2 (format_name : string → list Z → string)
    (done : list Instruction) (s : Layering) : Prop := {
  inv2_order : ∀ L1 L2 r1 r2 i1 i2 sp1 sp2,
    (r1 < r2)%nat → in_layer s L1 r1 → in_layer s L2 r2 →
    done !! r1 = Some i1 → done !! r2 = Some i2 →
    inst_span i1 = Some sp1 → inst_span i2 = Some sp2 →
    overlapping sp1 sp2 → L1 < L2;
  inv2_wire : ∀ (w : nat) (l : Z),
    wire_layer s !! w = Some l → 0 ≤ l →
    ∃ r i mn mx,
      in_layer s l r ∧ done !! r = Some i ∧ inst_span i = Some (mn, mx)
      ∧ mn ≤ Z.of_nat w ≤ mx;
  inv2_asap : ∀ L r,
    in_layer s L r → 0 < L →
    ∃ r' i i' sp sp',
      (r' < r)%nat ∧ in_layer s (L - 1) r'
      ∧ done !! r = Some i ∧ done !! r' = Some i'
      ∧ inst_span i = Some sp ∧ inst_span i' = Some sp'
      ∧ overlapping sp' sp;
  inv2_unique : ∀ L1 L2 r, in_layer s L1 r → in_layer s L2 r → L1 = L2;
  inv2_total : ∀ r, (r < ref s)%nat → ∃ L, in_layer s L r;
  inv2_nonempty : ∀ L,
    0 ≤ L < Z.of_nat (length (layers s)) → ∃ r, in_layer s L r;
  inv2_boxes : length (boxes s) = ref s;
  inv2_shapes : ∀ r b,
    boxes s !! r = Some b →
    ∃ i wires ov mn mx,
      done !! r = Some i ∧ inst_wires i = Some (wires, ov, mn, mx)
      ∧ b = inst_shape format_name i wires ov;
  inv2_width_ge : ∀ L r b,
    in_layer s L r → boxes s !! r = Some b →
    ∃ w, at_ (layer_width s) L = Some w ∧ width b ≤ w;
  inv2_width_max : ∀ L w,
    at_ (layer_width s) L = Some w →
    ∃ r b, in_layer s L r ∧ boxes s !! r = Some b ∧ width b = w
}.

(** **** The columns

    The second loop of [draw] gives every box its columns and cuts the
    diagram in chunks of at most [max_columns].  [curr_width] is an
    [unsigned], [acc_width] a [std::size_t]; their wrap-around and the
    conversions to [int] are written out. *)
Definition to_unsigned_int (z : Z) : Z := z mod 2 ^ 32.
Definition to_size_t (z : Z) : Z := z mod 2 ^ 64.
Definition to_int (z : Z) : Z := (z + 2 ^ 31) mod 2 ^ 32 - 2 ^ 31.

(** [Operator::set_cols]: the pair [left_col_], [right_col_]. *)
Definition set_cols (shape : Operator) (left_col : Z) : Z * Z :=
  (left_col, left_col + width shape - 1).

Definition max_columns : Z := 80.

(** [cols] holds the columns of each box, [None] until [set_cols] is
    called on it. *)
Record Columns := {
  cols : list (option (Z * Z));
  curr_width : Z;
  acc_width : Z;
  cutting_point : list Z
}.

(** [for (auto ref : layers.at(layer))]: [boxes.at(ref)] and
    [box->set_cols(curr_width +
                   (layer_width.at(layer) - box->width()) / 2u)]. *)
Fixpoint set_layer_cols (boxes : list Operator) (curr_width width_ : Z)
    (members : list nat) (cols : list (option (Z * Z)))
  : option (list (option (Z * Z))) :=
  match members with
  | [] => Some cols
  | ref :: members =>
      box ← boxes !! ref;
      let left_col :=
        to_int (to_unsigned_int
                  (curr_width + to_unsigned_int (width_ - width box) / 2)) in
      set_layer_cols boxes curr_width width_ members
        (<[ref := Some (set_cols box left_col)]> cols)
  end.

(** One iteration of [for (auto layer = 0u; layer < layers.size(); ++layer)]. *)
Definition width_step (s : Layering) (st : Columns) (layer : nat)
  : option Columns :=
  members ← layers s !! layer;
  width_ ← layer_width s !! layer;
  cols1 ← set_layer_cols (boxes s) (curr_width st) width_ members (cols st);
  let '(cuts, acc) :=
    if to_size_t (acc_width st + to_size_t width_) >=? max_columns - 1
    then (cutting_point st ++ [to_int (curr_width st)], 0)
    else (cutting_point st, acc_width st) in
  Some {| cols := cols1;
          curr_width :=
            to_unsigned_int (curr_width st + to_unsigned_int width_);
          acc_width := to_size_t (acc + to_size_t width_);
          cutting_point := cuts |}.

Fixpoint width_loop (s : Layering) (st : Columns) (todo : list nat)
  : option Columns :=
  match todo with
  | [] => Some st
  | layer :: todo => st ← width_step s st layer; width_loop s st todo
  end.

(** The loop, and [cutting_point.push_back(curr_width)] after it. *)
Definition compute_width (s : Layering) (prefix_size : Z) : option Columns :=
  st ← width_loop s
         {| cols := replicate (length (boxes s)) None;
            curr_width := 0; acc_width := prefix_size; cutting_point := [] |}
         (seq 0 (length (layers s)));
  Some {| cols := cols st;
          curr_width := curr_width st;
          acc_width := acc_width st;
          cutting_point := cutting_point st ++ [to_int (curr_width st)] |}.

(** The sum of widths, and the column where layer [L] starts. *)
Definition total (widths : list Z) : Z := foldr Z.add 0 widths.

Definition band_start (widths : list Z) (L : nat) : Z :=
  total (take L widths).

(** A printed chunk [lo, hi) of the diagram, the [i]-th: with the prefix
    of the first chunk it is narrower than [max_columns - 1], or it is
    one layer. *)
Definition chunk_ok (widths : list Z) (prefix_size : Z) (i : nat)
    (lo hi : Z) : Prop :=
  hi - lo + (if i is O then prefix_size else 0) < max_columns - 1
  ∨ ∃ L, lo = band_start widths L ∧ hi = band_start widths (S L).

(** What the loop over the layers maintains before layer [j]:
    [curr_width] is the column where layer [j] starts; a box of an
    earlier layer is centred in the band of its layer; the cutting points
    are starts of layers, in increasing order; the chunks closed so far
    and the chunk still open satisfy [chunk_ok]; and [acc_width] is the
    width of the open chunk, with the prefix while no cut was made. *)
Record columns_inv (s : Layering) (prefix_size : Z) (j : nat)
    (st : Columns) : Prop := {
  ci_curr : curr_width st = band_start (layer_width s) j;
  ci_len : length (cols st) = length (boxes s);
  ci_cols : ∀ (L k : nat) b w,
    (L < j)%nat → in_layer s (Z.of_nat L) k → boxes s !! k = Some b →
    layer_width s !! L = Some w →
    cols st !! k
    = Some (Some (set_cols b (band_start (layer_width s) L
                              + (w - width b) / 2)));
  ci_sorted : StronglySorted Z.le (cutting_point st);
  ci_cuts : ∀ c,
    c ∈ cutting_point st →
    ∃ L, (L ≤ j)%nat ∧ c = band_start (layer_width s) L;
  ci_chunks : ∀ i lo hi,
    (0 :: cutting_point st) !! i = Some lo →
    cutting_point st !! i = Some hi →
    chunk_ok (layer_width s) prefix_size i lo hi;
  ci_open : ∃ lo,
    last (0 :: cutting_point st) = Some lo
    ∧ lo ≤ curr_width st
    ∧ acc_width st
      = curr_width st - lo
        + (if cutting_point st is [] then prefix_size else 0)
    ∧ chunk_ok (layer_width s) prefix_size (length (cutting_point st))
               lo (curr_width st)
}.

(** **** The diagram

    [Diagram] is a grid of [char]s.  [None] stands for what stops the
    program: an exception of [at], a failed assertion, or an access the
    standard leaves undefined (a write through an iterator outside of
    its row). *)
Record Diagram := {
  num_qubits_ : Z;
  height_ : Z;
  width_ : Z;
  rows_ : list (list Z)
}.

(** [Diagram(int num_qubits)]; [width_] is set by [width]. *)
Definition Diagram_new (num_qubits : Z) : Diagram :=
  {| num_qubits_ := num_qubits; height_ := 2 * num_qubits + 1;
     width_ := 0; rows_ := [] |}.

Definition set_rows (rows : list (list Z)) (d : Diagram) : Diagram :=
  {| num_qubits_ := num_qubits_ d; height_ := height_ d;
     width_ := width_ d; rows_ := rows |}.

(** [for_each] and the counted loops: the state is threaded through the
    iterations, the first that stops the program stops the loop. *)
Fixpoint for_each {A B} (f : B → A → option B) (b : B) (l : list A)
  : option B :=
  match l with
  | [] => Some b
  | x :: l => b ← f b x; for_each f b l
  end.

(** The indices of [for (int i = from; i < to; ++i)]. *)
Definition upto (from to : Z) : list Z := seqZ from (to - from).

(** [v.resize(n, x)] *)
Definition resize {A} (n : nat) (x : A) (v : list A) : list A :=
  take n v ++ replicate (n - length v) x.

(** [std::fill(row.begin(), row.end(), WIRE_LINE)] on [rows_.at(2 * i + 1)]. *)
Definition fill_wire (rows : list (list Z)) (i : Z)
  : option (list (list Z)) :=
  row ← at_ rows (2 * i + 1);
  set_at rows (2 * i + 1) (replicate (length row) WIRE_LINE).

(** [Diagram::width(int)]: a negative height or width is converted to a
    huge [size_t], which no allocation satisfies. *)
Definition Diagram_width (d : Diagram) (width : Z) : option Diagram :=
  if (height_ d <? 0) || (width <? 0) then None
  else
    let rows := resize (Z.to_nat (height_ d))
                       (replicate (Z.to_nat width) BLANK) (rows_ d) in
    rows ← for_each fill_wire rows (upto 0 (num_qubits_ d));
    Some {| num_qubits_ := num_qubits_ d; height_ := height_ d;
            width_ := width; rows_ := rows |}.

(** [Diagram::to_row]: [(2u * wire) + 1u], and [rows_.size() - 2] for a
    wire that is not a qubit. *)
Definition to_row (d : Diagram) (wire : Z) : Z :=
  if wire <? num_qubits_ d
  then to_int (to_unsigned_int (2 * to_unsigned_int wire + 1))
  else to_int (Z.of_nat (length (rows_ d)) - 2).

(** [diagram.at(row, col)], read and written. *)
Definition cell (d : Diagram) (row col : Z) : option Z :=
  if (row <? height_ d) && (col <? width_ d)
  then r ← at_ (rows_ d) row; at_ r col
  else None.

Definition set_cell (d : Diagram) (row col : Z) (c : Z) : option Diagram :=
  if (row <? height_ d) && (col <? width_ d)
  then
    r ← at_ (rows_ d) row;
    r ← set_at r col c;
    rows ← set_at (rows_ d) row r;
    Some (set_rows rows d)
  else None.

(** [merge_chars(diagram.at(row, col), c)] *)
Definition merge_at (d : Diagram) (row col : Z) (c : Z) : option Diagram :=
  c0 ← cell d row col;
  set_cell d row col (merge_chars c0 c).

(** [diagram.row(row)], and the writes through its iterators. *)
Definition row_ (d : Diagram) (row : Z) : option (list Z) :=
  if row <? height_ d then at_ (rows_ d) row else None.

Definition set_row (d : Diagram) (row : Z) (r : list Z) : option Diagram :=
  rows ← set_at (rows_ d) row r;
  Some (set_rows rows d).

(** [std::copy(first, last, row.begin() + start)]; the iterator
    [row.begin() + start] has to be one of the row, or its end. *)
Fixpoint copy_at (row : list Z) (start : Z) (chars : list Z)
  : option (list Z) :=
  match chars with
  | [] =>
      if (0 <=? start) && (start <=? Z.of_nat (length row))
      then Some row else None
  | c :: chars => row ← set_at row start c; copy_at row (start + 1) chars
  end.

(** The [char]s of a label; [char] is signed. *)
Definition chars_of (label : string) : list Z :=
  map (fun a => let n := Z.of_nat (nat_of_ascii a) in
                if n <? 128 then n else n - 256)
      (list_ascii_of_string label).

(** [wires_.begin() + from, wires_.begin() + from + count]; the range
    has to lie in the vector.  A range that leaves the vector is
    undefined in the source, not an exception: [None] stands for both,
    and what is proved to stop with an exception is proved at the access
    [at] that throws. *)
Definition sub_range {A} (v : list A) (from count : Z) : option (list A) :=
  if (0 <=? from) && (0 <=? count)
     && (from + count <=? Z.of_nat (length v))
  then Some (take (Z.to_nat count) (drop (Z.to_nat from) v))
  else None.

(** [*std::min_element] and [*std::max_element]; of an empty range they
    are undefined. *)
Definition min_element (v : list Z) : option Z :=
  match v with
  | [] => None
  | x :: v => Some (foldl Z.min x v)
  end.

Definition max_element (v : list Z) : option Z :=
  match v with
  | [] => None
  | x :: v => Some (foldl Z.max x v)
  end.

Section Shapes.

(** The columns [left_col_] and [right_col_] of the shape. *)
Variables (left_col right_col : Z).

(** [Box::set_vertical_positions]: [box_top], [box_mid], [box_bot]. *)
Definition set_vertical_positions (d : Diagram) (top bot : Z)
  : Z * Z * Z :=
  let box_top := to_int (to_unsigned_int (to_row d top - 1)) in
  let box_bot := to_int (to_unsigned_int (to_row d bot + 1)) in
  let box_mid := to_int (to_unsigned_int (box_top + box_bot) / 2) in
  (box_top, box_mid, box_bot).

(** One iteration of the loop over the sides in [Box::draw_box];
    [std::fill(left + 1, right, ' ')] needs [left + 1] not to be after
    [right]. *)
Definition draw_side (d : Diagram) (i : Z) : option Diagram :=
  row ← row_ d i;
  row ← set_at row left_col CONTROL_LINE;
  row ← set_at row right_col CONTROL_LINE;
  row ← (if right_col <? left_col + 1 then None
         else for_each (fun row j => set_at row j BLANK) row
                       (upto (left_col + 1) right_col));
  set_row d i row.

Definition draw_box (box_top box_bot : Z) (d : Diagram) : option Diagram :=
  d ← for_each (fun d i =>
                  d ← merge_at d box_top i WIRE_LINE;
                  merge_at d box_bot i WIRE_LINE)
               d (upto (left_col + 1) right_col);
  d ← for_each draw_side d (upto (box_top + 1) box_bot);
  d ← merge_at d box_top left_col BOX_TOP_LEFT_CORNER;
  d ← merge_at d box_bot left_col BOX_BOTTOM_LEFT_CORNER;
  d ← merge_at d box_top right_col BOX_TOP_RIGHT_CORNER;
  merge_at d box_bot right_col BOX_BOTTOM_RIGHT_CORNER.

Definition draw_targets (wires : list Z) (num_targets num_controls : Z)
    (d : Diagram) : option Diagram :=
  targets ← sub_range wires 0 num_targets;
  for_each (fun d wire =>
              let row := to_row d wire in
              d ← set_cell d row left_col BOX_LEFT_WIRE;
              d ← set_cell d row right_col BOX_RIGHT_WIRE;
              if num_controls >? 0
              then set_cell d row (left_col + 1) 62 (* '>' *)
              else Some d)
           d targets.

(** [Box::draw_controls] *)
Definition Box_draw_controls (wires : list Z) (num_targets num_controls : Z)
    (d : Diagram) : option Diagram :=
  controls ← sub_range wires num_targets num_controls;
  for_each (fun d wire =>
              let row := to_row d wire in
              d ← set_cell d row left_col BOX_LEFT_WIRE;
              d ← set_cell d row (left_col + 1) CONTROL;
              set_cell d row right_col BOX_RIGHT_WIRE)
           d controls.

(** [Box::draw_label] *)
Definition Box_draw_label (label : string) (num_controls : Z)
    (box_mid : Z) (d : Diagram) : option Diagram :=
  let label_start :=
    left_col + 1 + (if num_controls >? 0 then 1 else 0) in
  row ← row_ d box_mid;
  row ← copy_at row label_start (chars_of label);
  set_row d box_mid row.

(** The line of a control, from the row after [from] to the row before
    [to]. *)
Definition control_line (mid_col from to : Z) (d : Diagram)
  : option Diagram :=
  for_each (fun d i => merge_at d i mid_col CONTROL_LINE) d
           (upto (from + 1) to).

(** [ControlledBox::draw_controls]; the division of [int]s truncates. *)
Definition ControlledBox_draw_controls (wires : list Z)
    (num_targets num_controls : Z) (box_top box_bot : Z) (d : Diagram)
  : option Diagram :=
  let mid_col := Z.quot (left_col + right_col) 2 in
  controls ← sub_range wires num_targets num_controls;
  for_each (fun d wire =>
              let row := to_row d wire in
              d ← set_cell d row mid_col CONTROL;
              if row <? box_top
              then d ← control_line mid_col row box_top d;
                   set_cell d box_top mid_col BOX_TOP_CONTROL
              else d ← control_line mid_col box_bot row d;
                   set_cell d box_bot mid_col BOX_BOTTOM_CONTROL)
           d controls.

(** [ControlledBox::draw_label] *)
Definition ControlledBox_draw_label (label : string) (box_mid : Z)
    (d : Diagram) : option Diagram :=
  row ← row_ d box_mid;
  row ← copy_at row (left_col + 1) (chars_of label);
  set_row d box_mid row.

(** [DiagramSwap::draw_controls] *)
Definition DiagramSwap_draw_controls (wires : list Z) (num_controls : Z)
    (d : Diagram) : option Diagram :=
  let mid_col := left_col + 1 in
  wire0 ← at_ wires 0;
  wire1 ← at_ wires 1;
  let target_row0 := to_row d wire0 in
  let target_row1 := to_row d wire1 in
  controls ← sub_range wires 2 num_controls;
  for_each (fun d wire =>
              let row := to_row d wire in
              d ← set_cell d row mid_col CONTROL;
              if row <? target_row0
              then control_line mid_col row target_row0 d
              else control_line mid_col target_row1 row d)
           d controls.

(** [Operator::draw], by the class of the shape.  [DiagramSwap] passes
    [2u] for the number of targets to its base. *)
Definition draw_shape (shape : Operator) (d : Diagram) : option Diagram :=
  match shape with
  | Box label wires num_targets num_controls =>
      top ← min_element wires;
      bot ← max_element wires;
      let '(box_top, box_mid, box_bot) := set_vertical_positions d top bot in
      d ← draw_box box_top box_bot d;
      d ← draw_targets wires num_targets num_controls d;
      d ← Box_draw_controls wires num_targets num_controls d;
      Box_draw_label label num_controls box_mid d
  | ControlledBox label wires num_targets num_controls =>
      targets ← sub_range wires 0 num_targets;
      top ← min_element targets;
      bot ← max_element targets;
      let '(box_top, box_mid, box_bot) := set_vertical_positions d top bot in
      d ← draw_box box_top box_bot d;
      d ← draw_targets wires num_targets num_controls d;
      d ← ControlledBox_draw_controls wires num_targets num_controls
             box_top box_bot d;
      ControlledBox_draw_label label box_mid d
  | DiagramSwap wires num_controls =>
      let mid_col := left_col + 1 in
      wire0 ← at_ wires 0;
      wire1 ← at_ wires 1;
      let target_row0 := to_row d wire0 in
      let target_row1 := to_row d wire1 in
      d ← set_cell d target_row0 mid_col SWAP_X;
      d ← control_line mid_col target_row0 target_row1 d;
      d ← set_cell d target_row1 mid_col SWAP_X;
      DiagramSwap_draw_controls wires num_controls d
  end.

End Shapes.

(** [for (auto const &box : boxes) box->draw(diagram)], each box with the
    columns [set_cols] gave it; the columns of a box that was given none
    are indeterminate. *)
Fixpoint draw_boxes (boxes : list Operator) (cols : list (option (Z * Z)))
    (d : Diagram) : option Diagram :=
  match boxes, cols with
  | [], _ => Some d
  | box :: boxes, Some (left_col, right_col) :: cols =>
      d ← draw_shape left_col right_col box d;
      draw_boxes boxes cols d
  | _ :: _, _ => None
  end.

(** The columns a drawing may write: every cell of another column is
    what it was, and the grid has kept its shape. *)
Definition same_outside (left_col right_col : Z) (d d' : Diagram) : Prop :=
  num_qubits_ d' = num_qubits_ d ∧ height_ d' = height_ d
  ∧ width_ d' = width_ d
  ∧ length (rows_ d') = length (rows_ d)
  ∧ ∀ (i : nat) row,
      rows_ d !! i = Some row →
      ∃ row', rows_ d' !! i = Some row' ∧ length row' = length row
              ∧ ∀ j : nat,
                  ¬ (left_col ≤ Z.of_nat j ≤ right_col) →
                  row' !! j = row !! j.

(** A row and what a drawing made of it. *)
Definition row_same_outside (left_col right_col : Z) (row row' : list Z)
  : Prop :=
  length row' = length row
  ∧ ∀ j : nat, ¬ (left_col ≤ Z.of_nat j ≤ right_col) → row' !! j = row !! j.

(** What [draw] has built when it starts to render: nothing for an
    empty trace, which it answers with ["<empty trace>"], and else the
    columns with their cutting points and the diagram. *)
Inductive Drawing :=
| EmptyTrace
| Drawn (c : Columns) (d : Diagram).

(** [draw], up to the rendering: the layers, the columns, the grid and
    the boxes drawn on it.  [prefix_size] is the width of the labels of
    the wires. *)
Definition draw_diagram (format_name : string → list Z → string)
    (trace : Trace) (prefix_size : Z) : option Drawing :=
  match instructions trace with
  | [] => Some EmptyTrace
  | _ :: _ =>
      s ← layering format_name trace;
      c ← compute_width s prefix_size;
      d ← Diagram_width (Diagram_new (getNumQudits trace))
                        (to_int (curr_width c));
      d ← draw_boxes (boxes s) (cols c) d;
      Some (Drawn c d)
  end.

(** The grid of a diagram of [n] qubits and [W] columns: [2 n + 1] rows
    of [W] cells. *)
Definition grid (n W : Z) (d : Diagram) : Prop :=
  num_qubits_ d = n ∧ height_ d = 2 * n + 1 ∧ width_ d = W
  ∧ length (rows_ d) = Z.to_nat (2 * n + 1)
  ∧ Forall (λ row, length row = Z.to_nat W) (rows_ d).

(** What [Diagram::width] puts in row [i]: the wire line in the rows of
    the qubits, blanks in the rows between them. *)
Definition initial_cell (i : nat) : Z :=
  if Nat.odd i then WIRE_LINE else BLANK.

(** The fields [wires_], [num_targets_] and [num_controls_] of a shape;
    [DiagramSwap] passes [2u] for the number of targets. *)
Definition wires_ (shape : Operator) : list Z :=
  match shape with
  | Box _ wires _ _ | DiagramSwap wires _ | ControlledBox _ wires _ _ => wires
  end.

Definition num_targets_ (shape : Operator) : Z :=
  match shape with
  | Box _ _ num_targets _ | ControlledBox _ _ num_targets _ => num_targets
  | DiagramSwap _ _ => 2
  end.

Definition num_controls_ (shape : Operator) : Z :=
  match shape with
  | Box _ _ _ num_controls | DiagramSwap _ num_controls
  | ControlledBox _ _ _ num_controls => num_controls
  end.

(** A shape a diagram of [n] qubits can hold: it has a target, [wires_]
    holds its targets and its controls, and every wire is a qubit. *)
Definition drawable (n : Z) (shape : Operator) : Prop :=
  0 < num_targets_ shape ∧ 0 ≤ num_controls_ shape
  ∧ num_targets_ shape + num_controls_ shape
    ≤ Z.of_nat (length (wires_ shape))
  ∧ Forall (λ w, 0 ≤ w < n) (wires_ shape).

(** The cells a drawing may write: outside of the columns
    [left_col .. right_col] of the rows [top .. bot], every cell is what
    it was. *)
Definition unchanged_outside (top bot left_col right_col : Z)
    (d d' : Diagram) : Prop :=
  ∀ i j, ¬ (top ≤ i ≤ bot ∧ left_col ≤ j ≤ right_col) →
         cell d' i j = cell d i j.

(** A drawing on the grid that stays in its rectangle. *)
Definition draws_in (n W top bot left_col right_col : Z)
    (d d' : Diagram) : Prop :=
  grid n W d' ∧ unchanged_outside top bot left_col right_col d d'.

(** An instruction named [swap] is drawn as a swap of its first two
    targets. *)
Definition swaps_two (format_name : string → list Z → string)
    (inst : Instruction) : Prop :=
  inst_name format_name inst = "swap"%string →
  (2 ≤ length (targets inst))%nat.

(** **** The labels of the wires and the printed text

    A string is the list of its bytes, as for [render_chars]. *)

(** The decimal digits of an [unsigned], which has at most ten. *)
Fixpoint decimal (fuel : nat) (i : Z) : list Z :=
  match fuel with
  | O => []
  | S fuel =>
      (if i <? 10 then [] else decimal fuel (i / 10)) ++ [48 + i mod 10]
  end.

(** [fmt::format("q{} : ", i)] *)
Definition wire_label (i : Z) : list Z :=
  [113] ++ decimal 10 i ++ [32; 58; 32].

(** The loop over the qudits that fills [prefix] and [prefix_size];
    [prefix[row]] is an access without a check, undefined outside of the
    vector. *)
Definition wire_labels (d : Diagram) (num_qudits : Z)
  : option (list (list Z) * Z) :=
  if height_ d <? 0 then None
  else
    for_each (fun (st : list (list Z) * Z) i =>
                let row := to_row d (to_int i) in
                let label := wire_label i in
                prefix ← set_at st.1 row label;
                Some (prefix, Z.max st.2 (Z.of_nat (length label))))
             (replicate (Z.to_nat (height_ d)) [], 0)
             (upto 0 num_qudits).

(** [fmt::format("{: >{}}", s, width)]: [s] after the blanks that bring
    it to [width]. *)
Definition pad_left (s : list Z) (width : Z) : list Z :=
  replicate (Z.to_nat width - length s) BLANK ++ s.

(** [fmt::format("\n{:#^{}}\n\n", "", max_columns)] *)
Definition separator : list Z :=
  [10] ++ replicate (Z.to_nat max_columns) 35 ++ [10; 10].

(** One row of chunk [i]: the cells from [start] to the cutting point,
    after the label of the wire in the first chunk, and before the mark
    [»] in every chunk but the last. *)
Definition render_line (prefix : list (list Z)) (prefix_size : Z)
    (d : Diagram) (i : nat) (last_chunk : bool) (start cut : Z)
    (str : list Z) (row : Z) : option (list Z) :=
  r ← row_ d row;
  cells ← sub_range r start (cut - start);
  label ← (match i with
           | O => p ← at_ prefix row; Some (pad_left p prefix_size)
           | S _ => Some []
           end);
  Some (str ++ label ++ render_chars cells
            ++ (if last_chunk then [] else [194; 187]) ++ [10]).

(** [for (auto i = 0u; i < cutting_point.size(); ++i)], from chunk [i]
    on. *)
Fixpoint render_chunks (prefix : list (list Z)) (prefix_size : Z)
    (d : Diagram) (cuts : list Z) (i : nat) (start : Z) (str : list Z)
  : option (list Z) :=
  match cuts with
  | [] => Some str
  | cut :: cuts =>
      let str := match i with O => str | S _ => str ++ separator end in
      str ← for_each (render_line prefix prefix_size d i
                                  (match cuts with [] => true | _ => false end)
                                  start cut)
                     str (upto 0 (height_ d));
      render_chunks prefix prefix_size d cuts (S i) cut str
  end.

(** The bytes of ["<empty trace>"]. *)
Definition empty_trace : list Z :=
  [60; 101; 109; 112; 116; 121; 32; 116; 114; 97; 99; 101; 62].

(** [cudaq::__internal__::draw]. *)
Definition draw (format_name : string → list Z → string) (trace : Trace)
  : option (list Z) :=
  match instructions trace with
  | [] => Some empty_trace
  | _ :: _ =>
      '(prefix, prefix_size) ←
        wire_labels (Diagram_new (getNumQudits trace)) (getNumQudits trace);
      drawing ← draw_diagram format_name trace prefix_size;
      match drawing with
      | EmptyTrace => Some empty_trace
      | Drawn c d =>
          render_chunks prefix prefix_size d (cutting_point c) 0 0 []
      end
  end.

End Draw.

(** *** [ArgumentConversion.cpp] *)

Module ArgConv.

(** **** Machine integers *)

(** The value of a [w]-bit two's-complement pattern, unsigned and signed. *)
Definition to_unsigned (w : Z) (z : Z) : Z := z mod 2 ^ w.

Definition to_signed (w : Z) (z : Z) : Z :=
  let u := z mod 2 ^ w in
  if u <? 2 ^ (w - 1) then u else u - 2 ^ w.

(** **** The type algebra

    The MLIR types the converter switches on.  [Float32Type] and
    [Float64Type] are tested before the general [FloatType], which
    therefore stands for the remaining float types, named by their bit
    width.  [OtherType] is any type none of the cases matches. *)
Inductive Ty :=
| IntegerType (width : Z)
| Float32Type
| Float64Type
| FloatType (width : Z)
| ComplexType (element : Ty)
| CharspanType
| StateType
| PointerType (element : Ty)
| StdvecType (element : Ty)
| StructType (members : list Ty)
| ArrayType (element : Ty) (size : option Z) (* [None]: unknown size *)
| TupleType (types : list Ty)
| OtherType (mnemonic : string).

(** **** The IR

    An [OpBuilder] inserts at the end of a module body or at the end of a
    block of an operation of a module.  Modules are named by their index
    in the store of the context. *)
Inductive InsertionPoint :=
| NoInsertionPoint
| EndOfModule (module : nat)
| EndOfBlock (module op block : nat).

(** A [Value] is the result of an operation, or null. *)
Record OpResult := { owner_at : InsertionPoint; owner_index : nat }.

Definition Value := option OpResult.

Inductive Operation :=
| arith_ConstantIntOp (value : Z) (width : Z)
| arith_ConstantFloatOp (value : Z) (ty : Ty)
| complex_ConstantOp (ty : Ty) (re im : Z)
| cc_AddressOfOp (ty : Ty) (global_name : string)
| cc_CastOp (ty : Ty) (operand : Value)
| cc_StdvecInitOp (ty : Ty) (buffer size : Value)
| cc_UndefOp (ty : Ty)
| cc_ExtractValueOp (ty : Ty) (aggregate : Value) (index : Z)
| cc_InsertValueOp (ty : Ty) (aggregate value : Value) (index : Z)
| cc_AllocaOp (ty : Ty)
| cc_ComputePtrOp (ty : Ty) (base : Value) (index : Z)
| cc_StoreOp (value ptr : Value)
| cc_GlobalOp (ty : Ty) (sym_name : string) (value : list Z)
              (constant external : bool)
| cc_ArgumentSubstitutionOp (position : Z) (body : list (list Operation))
| func_FuncOp (sym_name : string) (inputs : list Ty).

Record ModuleOp := {
  attrs : list (string * string);
  mbody : list Operation
}.

(** **** The host *)

Inductive precision := fp32 | fp64.

(** What a [cudaq::state] object answers: [get_precision], [is_on_gpu],
    [get_tensor] (data pointer, element count, element size) and the
    bytes [to_host] copies out. *)
Record state := {
  get_precision : precision;
  is_on_gpu : bool;
  tensor_data : Z;
  get_num_elements : Z;
  element_size : Z;
  device_bytes : list Z
}.

Record StateData := {
  data : Z;
  size : Z;
  elementSize : Z
}.

Record PlatformSettings := { isSimulator : bool; isRemote : bool }.

(** What is fixed outside of this translation unit: the host ABI, the
    data-layout queries [cudaq::opt::getDataSize] and
    [cudaq::opt::getDataOffset], two named constants, and the host objects
    ([std::string], [cudaq::state]) found behind an argument pointer. *)
Record Target := {
  sizeof_void_ptr : Z;
  getDataSize : string → Ty → Z;
  getDataOffset : string → Ty → Z → Z;
  cudaqGenPrefixName : string;
  targetDataLayoutAttrName : string;
  (* [APFloat{semantics, std::to_string( *v)}] of the [long double]
     stored in the given sixteen bytes *)
  APFloat_of_long_double : Ty → Z → Z;
  (* the symbol a string literal is interned under *)
  literal_name : list Z → string;
  string_at : Z → list Z;
  state_at : Z → state
}.

(** **** The state threaded through the emitters

    The operations of the MLIR context, the builder's insertion point, and
    the host memory: the blocks of bytes it holds, each with its address
    (the most recent first), and the next address [new] hands out. *)
Definition Heap : Type := list (Z * list Z).

Record World := {
  modules : list ModuleOp;
  ip : InsertionPoint;
  heap : Heap;
  brk : Z
}.

Inductive Error :=
| NotYetImplemented (what : string)
| AssertionFailed (what : string)
| Undefined (what : string).

Inductive Result (A : Type) :=
| Ok (a : A)
| Fatal (e : Error).
Arguments Ok {A} a.
Arguments Fatal {A} e.

Definition M (A : Type) : Type := World → Result (A * World).

Definition ret {A} (a : A) : M A := fun w => Ok (a, w).

Definition bind {A B} (m : M A) (k : A → M B) : M B :=
  fun w => match m w with
           | Ok (a, w') => k a w'
           | Fatal e => Fatal e
           end.

Definition fatal {A} (e : Error) : M A := fun _ => Fatal e.

Definition gets {A} (f : World → A) : M A := fun w => Ok (f w, w).

Definition modify (f : World → World) : M unit := fun w => Ok (tt, f w).

Notation "x <- m ;; k" := (bind m (fun x => k))
  (at level 100, m at next level, right associativity).
Notation "m ;;; k" := (bind m (fun _ => k))
  (at level 100, right associativity).

Definition set_modules (ms : list ModuleOp) (w : World) : World :=
  {| modules := ms; ip := ip w; heap := heap w; brk := brk w |}.

Definition set_ip (p : InsertionPoint) (w : World) : World :=
  {| modules := modules w; ip := p; heap := heap w; brk := brk w |}.

Definition set_body (b : list Operation) (m : ModuleOp) : ModuleOp :=
  {| attrs := attrs m; mbody := b |}.

(** [assert(c && what)] *)
Definition assert (c : bool) (what : string) : M unit :=
  if c then ret tt else fatal (AssertionFailed what).

(** **** The builder *)

(** The operations behind an insertion point. *)
Definition block_at (ms : list ModuleOp) (p : InsertionPoint)
  : option (list Operation) :=
  match p with
  | NoInsertionPoint => None
  | EndOfModule m => mbody <$> ms !! m
  | EndOfBlock m o b =>
      md ← ms !! m;
      op ← mbody md !! o;
      match op with
      | cc_ArgumentSubstitutionOp _ body => body !! b
      | _ => None
      end
  end.

(** Appending an operation at an insertion point. *)
Definition append_at (ms : list ModuleOp) (p : InsertionPoint)
    (new : Operation) : option (list ModuleOp) :=
  match p with
  | NoInsertionPoint => None
  | EndOfModule m =>
      md ← ms !! m;
      Some (<[m := set_body (mbody md ++ [new]) md]> ms)
  | EndOfBlock m o b =>
      md ← ms !! m;
      op ← mbody md !! o;
      match op with
      | cc_ArgumentSubstitutionOp pos body =>
          blk ← body !! b;
          let op' :=
            cc_ArgumentSubstitutionOp pos (<[b := blk ++ [new]]> body) in
          Some (<[m := set_body (<[o := op']> (mbody md)) md]> ms)
      | _ => None
      end
  end.

(** [builder.create<Op>(loc, ...)]: the operation is inserted at the
    insertion point of the builder and its result is returned. *)
Definition create (new : Operation) : M Value :=
  fun w =>
    match block_at (modules w) (ip w), append_at (modules w) (ip w) new with
    | Some blk, Some ms =>
        Ok (Some {| owner_at := ip w; owner_index := length blk |},
            set_modules ms w)
    | _, _ => Fatal (Undefined "create: no insertion point")
    end.

Definition setInsertionPointToEnd (p : InsertionPoint) : M unit :=
  modify (set_ip p).

(** [op.getBody().push_back(new Block())] on an argument substitution:
    the index of the new block within the region is returned. *)
Definition push_back_block (ms : list ModuleOp) (m o : nat)
  : option (list ModuleOp * nat) :=
  md ← ms !! m;
  op ← mbody md !! o;
  match op with
  | cc_ArgumentSubstitutionOp pos body =>
      let op' := cc_ArgumentSubstitutionOp pos (body ++ [[]]) in
      Some (<[m := set_body (<[o := op']> (mbody md)) md]> ms, length body)
  | _ => None
  end.

(** **** Reading host memory *)

(** The byte at an address: that of the first block that covers the
    address.  Nothing is known of an address outside of every block:
    reading there is undefined in the source, and reads as zero here.
    What is said of a value read holds of the addresses inside the
    blocks. *)
Fixpoint read_byte (h : Heap) (a : Z) : Z :=
  match h with
  | [] => 0
  | (base, bytes) :: h =>
      if (base <=? a) && (a <? base + Z.of_nat (length bytes))
      then default 0 (bytes !! Z.to_nat (a - base))
      else read_byte h a
  end.

(** The [n] bytes at [p], little endian, as an unsigned number. *)
Fixpoint load_le (h : Heap) (p : Z) (n : nat) : Z :=
  match n with
  | O => 0
  | S n => read_byte h p mod 256 + 256 * load_le h (p + 1) n
  end.

(** [*static_cast<T *>(p)] for the integer types, and the bit patterns of
    [float], [double] and [long double].  The host is little endian and
    its [char] is signed, as on x86-64. *)
Definition load_bool (p : Z) : M Z :=
  gets (fun w => if load_le (heap w) p 1 =? 0 then 0 else 1).

Definition load_int (bits : Z) (p : Z) : M Z :=
  gets (fun w => to_signed bits (load_le (heap w) p (Z.to_nat (bits / 8)))).

Definition load_bits (bytes : nat) (p : Z) : M Z :=
  gets (fun w => load_le (heap w) p bytes).

Definition store_bytes (h : Heap) (p : Z) (bs : list Z) : Heap :=
  (p, bs) :: h.

Section Emitters.

Variable target : Target.

(** [new T[n]]: fresh host storage of the given number of bytes. *)
Definition new (bytes : Z) : M Z :=
  fun w => Ok (brk w, {| modules := modules w; ip := ip w;
                         heap := heap w; brk := brk w + bytes |}).

(** [state->to_host(hostData, numElements)] *)
Definition to_host (s : state) (hostData : Z) (bytes : Z) : M unit :=
  modify (fun w =>
    {| modules := modules w; ip := ip w;
       heap := store_bytes (heap w) hostData
                 (take (Z.to_nat bytes) (device_bytes s));
       brk := brk w |}).

(** [cudaq::opt::StateData::readStateData].  [sizeof(std::complex<float>)]
    is 8 and [sizeof(std::complex<double>)] is 16; the deleter of the
    result has no effect on what is emitted and is left out. *)
Definition readStateData (s : state) : M StateData :=
  let numElements := get_num_elements s in
  let elementSize := element_size s in
  if is_on_gpu s then
    match get_precision s with
    | fp32 =>
        assert (elementSize =? 8) "Incorrect complex<float> element size";;;
        hostData <- new (numElements * 8);;
        to_host s hostData (numElements * 8);;;
        ret {| data := hostData; size := numElements;
               elementSize := elementSize |}
    | fp64 =>
        assert (elementSize =? 16)
               "Incorrect complex<double> element size";;;
        hostData <- new (numElements * 16);;
        to_host s hostData (numElements * 16);;;
        ret {| data := hostData; size := numElements;
               elementSize := elementSize |}
    end
  else
    ret {| data := tensor_data s; size := numElements;
           elementSize := elementSize |}.

(** ***** Scalar constants *)

Definition genIntegerConstant (v : Z) (bits : Z) : M Value :=
  create (arith_ConstantIntOp v bits).

Definition genConstant_bool (v : Z) : M Value := genIntegerConstant v 1.
Definition genConstant_char (v : Z) : M Value := genIntegerConstant v 8.
Definition genConstant_int16 (v : Z) : M Value := genIntegerConstant v 16.
Definition genConstant_int32 (v : Z) : M Value := genIntegerConstant v 32.
Definition genConstant_int64 (v : Z) : M Value := genIntegerConstant v 64.

Definition genConstant_float (v : Z) : M Value :=
  create (arith_ConstantFloatOp v Float32Type).

Definition genConstant_double (v : Z) : M Value :=
  create (arith_ConstantFloatOp v Float64Type).

Definition genComplexConstant (v : Z * Z) (fTy : Ty) : M Value :=
  create (complex_ConstantOp (ComplexType fTy) (fst v) (snd v)).

Definition genConstant_complex_float (v : Z * Z) : M Value :=
  genComplexConstant v Float32Type.

Definition genConstant_complex_double (v : Z * Z) : M Value :=
  genComplexConstant v Float64Type.

Definition genConstant_long_double (fltTy : Ty) (v : Z) : M Value :=
  bits <- load_bits 16 v;;
  create (arith_ConstantFloatOp
            (APFloat_of_long_double target fltTy bits) fltTy).

(** The first string literal of a module body holding the given bytes. *)
Fixpoint find_literal (bytes : list Z) (body : list Operation)
  : option (Ty * string) :=
  match body with
  | [] => None
  | cc_GlobalOp ty nm v _ _ :: body =>
      if bool_decide (v = bytes) then Some (ty, nm)
      else find_literal bytes body
  | _ :: body => find_literal bytes body
  end.

(** Modelled from the spec: [IRBuilder::genCStringLiteralAppendNul] is
    declared in [cudaq/Optimizer/Builder/Intrinsics.h], which is not
    among the sources.  The spec lists "C-string literal interning in a
    target module" among the builder's services and has the emitter
    place "a C-style NUL-terminated global byte literal into the
    substitution module": the bytes followed by a NUL are stored in a
    constant global at the end of [module], unless the module already
    holds that literal, which is then reused.  The builder's own
    insertion point is left alone.  The global is returned as its type
    and symbol. *)
Definition genCStringLiteralAppendNul (module : nat) (cstring : list Z)
  : M (Ty * string) :=
  fun w =>
    let buffer := cstring ++ [0] in
    match modules w !! module with
    | None => Fatal (Undefined "genCStringLiteral: no such module")
    | Some md =>
        match find_literal buffer (mbody md) with
        | Some g => Ok (g, w)
        | None =>
            let ty := ArrayType (IntegerType 8)
                                (Some (Z.of_nat (length buffer))) in
            let nm := literal_name target buffer in
            let g := cc_GlobalOp ty nm buffer true false in
            Ok ((ty, nm),
                set_modules
                  (<[module := set_body (mbody md ++ [g]) md]> (modules w))
                  w)
        end
    end.

(** [genConstant(OpBuilder &, const std::string &, ModuleOp)] *)
Definition genConstant_string (v : list Z) (substMod : nat) : M Value :=
  cString <- genCStringLiteralAppendNul substMod v;;
  addr <- create (cc_AddressOfOp (PointerType (fst cString))
                                 (snd cString));;
  let i8PtrTy := PointerType (IntegerType 8) in
  cast <- create (cc_CastOp i8PtrTy addr);;
  size <- create (arith_ConstantIntOp (Z.of_nat (length v)) 64);;
  let chSpanTy := CharspanType in
  create (cc_StdvecInitOp chSpanTy cast size).

(** ***** Aggregates

    [dispatchSubtype] and the aggregate overloads of [genConstant] call
    each other.  The walk an overload makes is written first, with the
    recursive calls on its element types passed in as [Emitter]s;
    [dispatchSubtype] then ties the knot by structural recursion on the
    type. *)
Definition Emitter : Type := Z → nat → string → PlatformSettings → M Value.

(** The [ComplexType] case of [dispatchSubtype]. *)
Definition dispatch_ComplexType (elementType : Ty) : Emitter :=
  fun p _ _ _ =>
    match elementType with
    | Float32Type =>
        re <- load_bits 4 p;; im <- load_bits 4 (p + 4);;
        genConstant_complex_float (re, im)
    | Float64Type =>
        re <- load_bits 8 p;; im <- load_bits 8 (p + 8);;
        genConstant_complex_double (re, im)
    | _ => ret None
    end.

(** The loop of [genConstant(cc::ArrayType)]: [n] iterations remain, [i]
    is the index and [cursor] the address of the next element. *)
Fixpoint array_loop (recur : Emitter) (arrTy : Ty) (eleSize : Z)
    (substMod : nat) (layout : string) (platform : PlatformSettings)
    (n : nat) (i : Z) (cursor : Z) (aggie : Value) : M Value :=
  match n with
  | O => ret aggie
  | S n =>
      v <- recur cursor substMod layout platform;;
      aggie <- match v with
               | Some _ => create (cc_InsertValueOp arrTy aggie v i)
               | None => ret aggie
               end;;
      array_loop recur arrTy eleSize substMod layout platform
                 n (i + 1) (cursor + eleSize) aggie
  end.

Definition genArray (recur : Emitter) (eleTy : Ty) (size : option Z)
  : Emitter :=
  fun p substMod layout platform =>
    match size with
    | None => ret None (* arrTy.isUnknownSize() *)
    | Some arrSize =>
        let arrTy := ArrayType eleTy size in
        let eleSize := getDataSize target layout eleTy in
        aggie <- create (cc_UndefOp arrTy);;
        array_loop recur arrTy eleSize substMod layout platform
                   (Z.to_nat (to_unsigned 64 arrSize)) 0 p aggie
    end.

(** The loop of [genConstant(cc::StdvecType)]. *)
Fixpoint stdvec_loop (recur : Emitter) (elePtrTy : Ty) (buffer : Value)
    (eleSize : Z) (substMod : nat) (layout : string)
    (platform : PlatformSettings) (n : nat) (i : Z) (cursor : Z)
  : M unit :=
  match n with
  | O => ret tt
  | S n =>
      val <- recur cursor substMod layout platform;;
      match val with
      | Some _ =>
          atLoc <- create (cc_ComputePtrOp elePtrTy buffer i);;
          create (cc_StoreOp val atLoc);;; ret tt
      | None => ret tt
      end;;;
      stdvec_loop recur elePtrTy buffer eleSize substMod layout platform
                  n (i + 1) (cursor + eleSize)
  end.

(** [delta / eleSize] narrowed to [std::int32_t vecSize].  [delta] is a
    [ptrdiff_t]; the size is taken to be an unsigned 64-bit number (its
    declaration is not in this translation unit), so that the division
    converts [delta] to an unsigned 64-bit number first.  For a vector
    with [begin <= end] the signedness of the division plays no role. *)
Definition stdvec_size (delta eleSize : Z) : Z :=
  to_signed 32 (to_unsigned 64 delta / eleSize).

Definition genStdvec (recur : Emitter) (eleTy : Ty) : Emitter :=
  fun p substMod layout platform =>
    let ptr := sizeof_void_ptr target in
    begin <- load_bits (Z.to_nat ptr) p;;
    end_ <- load_bits (Z.to_nat ptr) (p + ptr);;
    let delta := to_signed (ptr * 8) (end_ - begin) in
    if delta =? 0 then ret None
    else
      let vecTy := StdvecType eleTy in
      let elePtrTy := PointerType eleTy in
      let eleSize := getDataSize target layout eleTy in
      assert (negb (eleSize =? 0)) "element must have a size";;;
      let vecSize := stdvec_size delta eleSize in
      let eleArrTy := ArrayType eleTy (Some vecSize) in
      buffer <- create (cc_AllocaOp eleArrTy);;
      stdvec_loop recur elePtrTy buffer eleSize substMod layout platform
                  (Z.to_nat vecSize) 0 begin;;;
      size <- create (arith_ConstantIntOp vecSize 64);;
      create (cc_StdvecInitOp vecTy buffer size).

(** The loop of [genConstant(cc::StructType)] over the members that are
    left, [i] being the index of the first of them. *)
Fixpoint struct_loop (strTy : Ty) (cursor : Z) (substMod : nat)
    (layout : string) (platform : PlatformSettings)
    (recur : list Emitter) (i : Z) (aggie : Value) : M Value :=
  match recur with
  | [] => ret aggie
  | member :: recur =>
      v <- member (cursor + getDataOffset target layout strTy i)
                  substMod layout platform;;
      aggie <- match v with
               | Some _ => create (cc_InsertValueOp strTy aggie v i)
               | None => ret aggie
               end;;
      struct_loop strTy cursor substMod layout platform recur (i + 1) aggie
  end.

Definition genStruct (recur : list Emitter) (members : list Ty)
  : Emitter :=
  fun p substMod layout platform =>
    match members with
    | [] => ret None
    | _ =>
        let strTy := StructType members in
        aggie <- create (cc_UndefOp strTy);;
        struct_loop strTy p substMod layout platform recur 0 aggie
    end.

(** The loop of [genConstant(TupleType)] that rebuilds the members in
    forward order. *)
Fixpoint tuple_loop (fwdTy : Ty) (revCon : Value) (n : Z)
    (members : list Ty) (i : Z) (aggie : Value) : M Value :=
  match members with
  | [] => ret aggie
  | ty :: members =>
      v <- create (cc_ExtractValueOp ty revCon (n - i - 1));;
      aggie <- create (cc_InsertValueOp fwdTy aggie v i);;
      tuple_loop fwdTy revCon n members (i + 1) aggie
  end.

(** [genConstant(TupleType)], given the walk [revWalk] of the struct of
    the reversed members. *)
Definition genTuple (revWalk : Emitter) (types : list Ty) : Emitter :=
  fun p substMod layout platform =>
    match types with
    | [] => ret None
    | _ =>
        revCon <- revWalk p substMod layout platform;;
        let fwdTy := StructType types in
        aggie <- create (cc_UndefOp fwdTy);;
        let n := Z.of_nat (length types) in
        tuple_loop fwdTy revCon n types 0 aggie
    end.

(** Modelled from the spec: the macro [TODO] comes from [cudaq/Todo.h],
    which is not among the sources.  The spec: "the operation signals a
    not-implemented failure" and "fatal; emit a not-implemented
    diagnostic and halt substitution". *)
Definition TODO {A} (what : string) : M A :=
  fatal (NotYetImplemented what).

(** [genConstant(OpBuilder &, const cudaq::state *, ...)] *)
Definition genConstant_state : Emitter :=
  fun v substMod layout platform =>
    if isSimulator platform && negb (isRemote platform) then
      let bits := sizeof_void_ptr target * 8 in
      rawPtr <- create (arith_ConstantIntOp (to_signed bits v) bits);;
      let stateTy := StateType in
      create (cc_CastOp (PointerType stateTy) rawPtr)
    else if isSimulator platform && isRemote platform then
      stateData <- readStateData (state_at target v);;
      let fTy := if elementSize stateData =? 16
                 then Float64Type else Float32Type in
      let eleTy := ComplexType fTy in
      (* genConstant(builder, arrTy, stateData.data, ...), whose
         elements are walked by the [ComplexType] case *)
      genArray (dispatch_ComplexType fTy) eleTy (Some (size stateData))
               (data stateData) substMod layout platform
    else
      @TODO unit "cudaq::state* argument synthesis for quantum hardware";;;
      ret None.

(** [dispatchSubtype]: the recursive step over aggregates. *)
Fixpoint dispatchSubtype (ty : Ty) : Emitter :=
  match ty with
  | IntegerType width =>
      fun p _ _ _ =>
        if width =? 1 then v <- load_bool p;; genConstant_bool v
        else if width =? 8 then v <- load_int 8 p;; genConstant_char v
        else if width =? 16 then v <- load_int 16 p;; genConstant_int16 v
        else if width =? 32 then v <- load_int 32 p;; genConstant_int32 v
        else if width =? 64 then v <- load_int 64 p;; genConstant_int64 v
        else ret None
  | Float32Type => fun p _ _ _ => v <- load_bits 4 p;; genConstant_float v
  | Float64Type => fun p _ _ _ => v <- load_bits 8 p;; genConstant_double v
  | FloatType width =>
      fun p _ _ _ =>
        assert (width >? 64) "fltTy.getIntOrFloatBitWidth() > 64";;;
        genConstant_long_double (FloatType width) p
  | ComplexType elementType => dispatch_ComplexType elementType
  | CharspanType =>
      fun p substMod _ _ => genConstant_string (string_at target p) substMod
  | PointerType elementType =>
      match elementType with
      | StateType => genConstant_state
      | _ => fun _ _ _ _ => ret None
      end
  | StdvecType eleTy => genStdvec (dispatchSubtype eleTy) eleTy
  | StructType members => genStruct (map dispatchSubtype members) members
  | ArrayType eleTy size => genArray (dispatchSubtype eleTy) eleTy size
  | TupleType types =>
      genTuple (genStruct (rev (map dispatchSubtype types)) (rev types))
               types
  | StateType | OtherType _ => fun _ _ _ _ => ret None
  end.

(** The aggregate overloads of [genConstant], as the source names
    them. *)
Definition genConstant_StdvecType (eleTy : Ty) : Emitter :=
  genStdvec (dispatchSubtype eleTy) eleTy.

Definition genConstant_StructType (members : list Ty) : Emitter :=
  genStruct (map dispatchSubtype members) members.

Definition genConstant_ArrayType (eleTy : Ty) (size : option Z)
  : Emitter :=
  genArray (dispatchSubtype eleTy) eleTy size.

Definition genConstant_TupleType (types : list Ty) : Emitter :=
  genTuple (genConstant_StructType (rev types)) types.

(** ***** The converter *)

(** The members of [cudaq::opt::ArgumentConverter]; the [builder] member
    is the insertion point of the [World].  A
    [cc::ArgumentSubstitutionOp] handle is the result naming the
    operation. *)
Record ArgumentConverter := {
  sourceModule : nat;
  substModule : nat;
  kernelName : string;
  platform : PlatformSettings;
  substitutions : list OpResult
}.

Definition push_substitution (self : ArgumentConverter) (subst : OpResult)
  : ArgumentConverter :=
  {| sourceModule := sourceModule self;
     substModule := substModule self;
     kernelName := kernelName self;
     platform := platform self;
     substitutions := substitutions self ++ [subst] |}.

(** The constructor: [substModule] is a fresh module, created by a
    builder that has no insertion point. *)
Definition ArgumentConverter_new (kernelName : string) (sourceModule : nat)
    (platform : PlatformSettings) : M ArgumentConverter :=
  fun w =>
    Ok ({| sourceModule := sourceModule;
           substModule := length (modules w);
           kernelName := kernelName;
           platform := platform;
           substitutions := [] |},
        {| modules := modules w ++ [{| attrs := []; mbody := [] |}];
           ip := NoInsertionPoint; heap := heap w; brk := brk w |}).

(** [module.lookupSymbol<func::FuncOp>(name)]: the input types of the
    function, when there is one of that name. *)
Fixpoint lookup_func (name : string) (body : list Operation)
  : option (list Ty) :=
  match body with
  | [] => None
  | func_FuncOp nm inputs :: body =>
      if String.eqb nm name then Some inputs else lookup_func name body
  | _ :: body => lookup_func name body
  end.

Definition lookupSymbol (module : nat) (name : string)
  : M (option (list Ty)) :=
  fun w =>
    match modules w !! module with
    | Some md => Ok (lookup_func name (mbody md), w)
    | None => Fatal (Undefined "lookupSymbol: no such module")
    end.

(** [module->getAttr(name)] for a string attribute *)
Fixpoint lookup_attr (name : string) (l : list (string * string))
  : option string :=
  match l with
  | [] => None
  | (k, v) :: l => if String.eqb k name then Some v else lookup_attr name l
  end.

Definition getAttr (module : nat) (name : string) : M (option string) :=
  fun w =>
    match modules w !! module with
    | Some md => Ok (lookup_attr name (attrs md), w)
    | None => Fatal (Undefined "getAttr: no such module")
    end.

(** The first statements of the lambda [buildSubst]: the substitution for
    position [i] is created at the end of the substitution module, it is
    given one block, and the builder is moved to the end of that
    block. *)
Definition open_substitution (self : ArgumentConverter) (i : Z)
  : M OpResult :=
  setInsertionPointToEnd (EndOfModule (substModule self));;;
  result <- create (cc_ArgumentSubstitutionOp i []);;
  match result with
  | Some r =>
      fun w =>
        match push_back_block (modules w) (substModule self)
                              (owner_index r) with
        | Some (ms, block) =>
            Ok (r, {| modules := ms;
                      ip := EndOfBlock (substModule self) (owner_index r)
                                       block;
                      heap := heap w; brk := brk w |})
        | None => Fatal (Undefined "buildSubst: no such operation")
        end
  | None => fatal (Undefined "buildSubst: no such operation")
  end.

(** The lambda [buildSubst] of [gen]: [genConstant] is the overload
    selected by the arguments of the call.  Its value [val] is
    [[[maybe_unused]]]: the substitution is returned whatever it is. *)
Definition buildSubst (self : ArgumentConverter) (i : Z)
    (genConstant : M Value) : M Value :=
  result <- open_substitution self i;;
  val <- genConstant;;
  ret (Some result).

(** The [TypeSwitch] of [gen] on the type of a parameter. *)
Definition gen_switch (self : ArgumentConverter) (i : Z) (argTy : Ty)
    (argPtr : Z) (dataLayout : string) : M Value :=
  let buildSubst := buildSubst self i in
  let substModule := substModule self in
  let platform := platform self in
  match argTy with
  | IntegerType width =>
      if width =? 1
      then v <- load_bool argPtr;; buildSubst (genConstant_bool v)
      else if width =? 8
      then v <- load_int 8 argPtr;; buildSubst (genConstant_char v)
      else if width =? 16
      then v <- load_int 16 argPtr;; buildSubst (genConstant_int16 v)
      else if width =? 32
      then v <- load_int 32 argPtr;; buildSubst (genConstant_int32 v)
      else if width =? 64
      then v <- load_int 64 argPtr;; buildSubst (genConstant_int64 v)
      else ret None
  | Float32Type =>
      v <- load_bits 4 argPtr;; buildSubst (genConstant_float v)
  | Float64Type =>
      v <- load_bits 8 argPtr;; buildSubst (genConstant_double v)
  | FloatType width =>
      assert (width >? 64) "fltTy.getIntOrFloatBitWidth() > 64";;;
      buildSubst (genConstant_long_double (FloatType width) argPtr)
  | ComplexType elementType =>
      match elementType with
      | Float32Type =>
          re <- load_bits 4 argPtr;; im <- load_bits 4 (argPtr + 4);;
          buildSubst (genConstant_complex_float (re, im))
      | Float64Type =>
          re <- load_bits 8 argPtr;; im <- load_bits 8 (argPtr + 8);;
          buildSubst (genConstant_complex_double (re, im))
      | _ => ret None
      end
  | CharspanType =>
      buildSubst (genConstant_string (string_at target argPtr) substModule)
  | PointerType elementType =>
      match elementType with
      | StateType =>
          buildSubst
            (genConstant_state argPtr substModule dataLayout platform)
      | _ => ret None
      end
  | StdvecType eleTy =>
      buildSubst
        (genConstant_StdvecType eleTy argPtr substModule dataLayout
                                platform)
  | StructType members =>
      buildSubst
        (genConstant_StructType members argPtr substModule dataLayout
                                platform)
  | ArrayType eleTy size =>
      buildSubst
        (genConstant_ArrayType eleTy size argPtr substModule dataLayout
                               platform)
  | TupleType types =>
      buildSubst
        (genConstant_TupleType types argPtr substModule dataLayout
                               platform)
  | StateType | OtherType _ => ret None
  end.

(** One iteration of the loop of [gen], for parameter [i]. *)
Definition gen_step (self : ArgumentConverter) (i : Z) (argTy : Ty)
    (argPtr : Z) : M ArgumentConverter :=
  attr <- getAttr (sourceModule self) (targetDataLayoutAttrName target);;
  let dataLayoutSpec := default EmptyString attr in
  subst <- gen_switch self i argTy argPtr dataLayoutSpec;;
  match subst with
  | Some subst => ret (push_substitution self subst)
  | None => ret self
  end.

(** The loop over [llvm::enumerate(llvm::zip(inputs, arguments))], from
    index [i] on. *)
Fixpoint gen_loop (self : ArgumentConverter) (i : Z)
    (params : list (Ty * Z)) : M ArgumentConverter :=
  match params with
  | [] => ret self
  | (argTy, argPtr) :: params =>
      self <- gen_step self i argTy argPtr;;
      gen_loop self (i + 1) params
  end.

(** [ArgumentConverter::gen].  Calling [getFunctionType] on the null
    result of a failed lookup is undefined. *)
Definition gen (self : ArgumentConverter) (arguments : list Z)
  : M ArgumentConverter :=
  fun_ <- lookupSymbol (sourceModule self)
            (cudaqGenPrefixName target ++ kernelName self)%string;;
  match fun_ with
  | None => fatal (Undefined "gen: the kernel is not in the module")
  | Some inputs => gen_loop self 0 (zip inputs arguments)
  end.

End Emitters.

(** **** The meaning of the emitted constants

    The properties below speak of the value an emitted chain denotes.  The
    operations of one block are evaluated in order; an operand names the
    result of an earlier operation of the block.  Aggregates are lists of
    fields, [VUndef] being a field (or a value) that was never set; the
    operations that are not aggregate operations evaluate to themselves. *)
Inductive IRVal :=
| VUndef
| VInt (value width : Z)
| VFloat (value : Z) (ty : Ty)
| VComplex (ty : Ty) (re im : Z)
| VAgg (fields : list IRVal)
| VAddressOf (global_name : string)
| VCast (ty : Ty) (operand : IRVal)
| VSpan (ty : Ty) (buffer size : IRVal)
| VAlloca (ty : Ty) (op : nat)
| VElementPtr (base : IRVal) (index : Z).

Definition undef_of (ty : Ty) : IRVal :=
  match ty with
  | StructType members => VAgg (replicate (length members) VUndef)
  | ArrayType _ (Some n) => VAgg (replicate (Z.to_nat n) VUndef)
  | _ => VUndef
  end.

Definition operand_value (env : list IRVal) (v : Value) : IRVal :=
  match v with
  | Some r => default VUndef (env !! owner_index r)
  | None => VUndef
  end.

Definition eval_op (env : list IRVal) (op : Operation) : IRVal :=
  match op with
  | arith_ConstantIntOp v w => VInt v w
  | arith_ConstantFloatOp v ty => VFloat v ty
  | complex_ConstantOp ty re im => VComplex ty re im
  | cc_AddressOfOp _ nm => VAddressOf nm
  | cc_CastOp ty v => VCast ty (operand_value env v)
  | cc_StdvecInitOp ty buffer size =>
      VSpan ty (operand_value env buffer) (operand_value env size)
  | cc_UndefOp ty => undef_of ty
  | cc_ExtractValueOp _ agg i =>
      match operand_value env agg with
      | VAgg fields => default VUndef (fields !! Z.to_nat i)
      | _ => VUndef
      end
  | cc_InsertValueOp _ agg v i =>
      match operand_value env agg with
      | VAgg fields => VAgg (<[Z.to_nat i := operand_value env v]> fields)
      | _ => VUndef
      end
  | cc_AllocaOp ty => VAlloca ty (length env)
  | cc_ComputePtrOp _ base i => VElementPtr (operand_value env base) i
  | cc_StoreOp _ _ | cc_GlobalOp _ _ _ _ _ | cc_ArgumentSubstitutionOp _ _
  | func_FuncOp _ _ => VUndef
  end.

(** The values of the operations [ops], after those of [env]. *)
Fixpoint eval_ops (env : list IRVal) (ops : list Operation) : list IRVal :=
  match ops with
  | [] => env
  | op :: ops => eval_ops (env ++ [eval_op env op]) ops
  end.

Definition eval_block (blk : list Operation) : list IRVal := eval_ops [] blk.

(** The value a [Value] of the block denotes. *)
Definition value_in (blk : list Operation) (v : Value) : IRVal :=
  operand_value (eval_block blk) v.

(** **** The vocabulary of the properties *)

(** An operation and what it has become: an argument substitution keeps
    its position and its blocks, which may have got more operations at
    their end, and may have got more blocks; any other operation is
    unchanged. *)
Definition op_ext (op op' : Operation) : Prop :=
  match op, op' with
  | cc_ArgumentSubstitutionOp pos body, cc_ArgumentSubstitutionOp pos' body' =>
      pos = pos'
      ∧ ∀ b blk, body !! b = Some blk → ∃ ops, body' !! b = Some (blk ++ ops)
  | cc_ArgumentSubstitutionOp _ _, _ => False
  | _, _ => op = op'
  end.

(** A module body and what it has become: the operations it had are still
    there, in place, and operations may have been added at the end. *)
Definition body_ext (B B' : list Operation) : Prop :=
  ∀ k op, B !! k = Some op → ∃ op', B' !! k = Some op' ∧ op_ext op op'.

(** The world after emission into module [S]: the other modules are as
    they were, and so are the attributes of [S]. *)
Definition world_ext (S : nat) (w w' : World) : Prop :=
  length (modules w') = length (modules w)
  ∧ (∀ m, m ≠ S → modules w' !! m = modules w !! m)
  ∧ (∀ md, modules w !! S = Some md →
           ∃ md', modules w' !! S = Some md' ∧ attrs md' = attrs md
                  ∧ body_ext (mbody md) (mbody md')).

(** The builder stands at the end of a block of module [S]. *)
Definition in_block (S : nat) (w : World) : Prop :=
  ∃ o b blk, ip w = EndOfBlock S o b
             ∧ block_at (modules w) (ip w) = Some blk.

(** The block the builder stands in. *)
Definition current_block (w : World) : list Operation :=
  default [] (block_at (modules w) (ip w)).

(** A value is null or the result of an operation of the current block. *)
Definition valid_value (w : World) (v : Value) : Prop :=
  ∀ r, v = Some r →
       owner_at r = ip w ∧ (owner_index r < length (current_block w))%nat.

(** The types for which the [TypeSwitch] of [gen] calls [buildSubst]. *)
Definition has_emitter (argTy : Ty) : bool :=
  match argTy with
  | IntegerType width =>
      (width =? 1) || (width =? 8) || (width =? 16) || (width =? 32)
      || (width =? 64)
  | Float32Type | Float64Type | FloatType _ => true
  | ComplexType Float32Type | ComplexType Float64Type => true
  | ComplexType _ => false
  | CharspanType => true
  | PointerType StateType => true
  | PointerType _ => false
  | StdvecType _ | StructType _ | ArrayType _ _ | TupleType _ => true
  | StateType | OtherType _ => false
  end.

(** The positions, from [i] on, of the parameters with such a type. *)
Fixpoint emitted_positions (i : Z) (params : list (Ty * Z)) : list Z :=
  match params with
  | [] => []
  | (argTy, _) :: params =>
      (if has_emitter argTy then [i] else [])
      ++ emitted_positions (i + 1) params
  end.

(** The handle [r] names an argument substitution for position [i] of
    module [S]. *)
Definition substitution_for (w : World) (S : nat) (r : OpResult) (i : Z)
  : Prop :=
  owner_at r = EndOfModule S
  ∧ ∃ md body, modules w !! S = Some md
               ∧ mbody md !! owner_index r
                 = Some (cc_ArgumentSubstitutionOp i body).

(** **** Emitters as steps that add to module [S]


    [pres S m]: run in a block of [S], [m] leaves the builder where it is
    and only adds to [S].  [emits S e]: moreover the value returned is
    null or names an operation of the block. *)
Definition pres (S : nat) {A} (m : M A) : Prop :=
  ∀ w a w', in_block S w → m w = Ok (a, w') →
            ip w' = ip w ∧ world_ext S w w'.

Definition emits (S : nat) (e : M Value) : Prop :=
  ∀ w v w', in_block S w → e w = Ok (v, w') →
            ip w' = ip w ∧ world_ext S w w' ∧ valid_value w' v.

Definition Emits (S : nat) (e : Emitter) : Prop :=
  ∀ p layout platform, emits S (e p S layout platform).

(** **** Steps that leave the host memory alone *)
Definition keeps_heap {A} (m : M A) : Prop :=
  ∀ w a w', m w = Ok (a, w') → heap w' = heap w ∧ brk w' = brk w.

Definition keeps_emitter (platform : PlatformSettings) (e : Emitter) : Prop :=
  ∀ p S layout, keeps_heap (e p S layout platform).

(** **** What the walker reads

    The value a parameter of a type has in host memory, as the walker
    reads it at an address: the scalars are read at the address; element
    [i] of an array is read [i] element sizes further; member [i] of a
    record is read at its offset in the record; member [i] of a tuple of
    [k] members is read at the offset of member [k - 1 - i] of the record
    of the reversed members.  What the walker skips is [VUndef]. *)
Fixpoint array_values (element : Z → IRVal) (eleSize : Z) (n : nat)
    (cursor : Z) : list IRVal :=
  match n with
  | O => []
  | S n => element cursor :: array_values element eleSize n (cursor + eleSize)
  end.

Fixpoint struct_values (offset : Z → Z) (cursor : Z)
    (members : list (Z → IRVal)) (i : Z) : list IRVal :=
  match members with
  | [] => []
  | member :: members =>
      member (cursor + offset i) :: struct_values offset cursor members (i + 1)
  end.

Fixpoint host_value (target : Target) (layout : string) (h : Heap)
    (ty : Ty) : Z → IRVal :=
  match ty with
  | IntegerType width =>
      fun p =>
        if width =? 1 then VInt (if load_le h p 1 =? 0 then 0 else 1) 1
        else if width =? 8 then VInt (to_signed 8 (load_le h p 1)) 8
        else if width =? 16 then VInt (to_signed 16 (load_le h p 2)) 16
        else if width =? 32 then VInt (to_signed 32 (load_le h p 4)) 32
        else if width =? 64 then VInt (to_signed 64 (load_le h p 8)) 64
        else VUndef
  | Float32Type => fun p => VFloat (load_le h p 4) Float32Type
  | Float64Type => fun p => VFloat (load_le h p 8) Float64Type
  | FloatType width =>
      fun p =>
        VFloat (APFloat_of_long_double target (FloatType width)
                                       (load_le h p 16))
               (FloatType width)
  | ComplexType Float32Type =>
      fun p =>
        VComplex (ComplexType Float32Type) (load_le h p 4)
                 (load_le h (p + 4) 4)
  | ComplexType Float64Type =>
      fun p =>
        VComplex (ComplexType Float64Type) (load_le h p 8)
                 (load_le h (p + 8) 8)
  | StructType members =>
      fun p =>
        match members with
        | [] => VUndef
        | _ =>
            VAgg (struct_values (getDataOffset target layout ty) p
                                (map (host_value target layout h) members) 0)
        end
  | ArrayType eleTy (Some n) =>
      fun p =>
        VAgg (array_values (host_value target layout h eleTy)
                           (getDataSize target layout eleTy) (Z.to_nat n) p)
  | TupleType types =>
      fun p =>
        match types with
        | [] => VUndef
        | _ =>
            let k := Z.of_nat (length types) in
            VAgg (struct_values
                    (fun i => getDataOffset target layout
                                (StructType (rev types)) (k - 1 - i))
                    p (map (host_value target layout h) types) 0)
        end
  | _ => fun _ => VUndef
  end.

(** The types made of scalars, arrays, records and tuples, and of what
    the walker skips: no character span, no state pointer, no vector.  A
    float type other than [f32] and [f64] is wider than 64 bits, and an
    array size fits 64 bits. *)
Fixpoint plain (ty : Ty) : bool :=
  match ty with
  | IntegerType _ | Float32Type | Float64Type => true
  | FloatType width => width >? 64
  | ComplexType _ => true
  | CharspanType => false
  | StateType => true
  | PointerType StateType => false
  | PointerType _ => true
  | StdvecType _ => false
  | StructType members => forallb plain members
  | ArrayType eleTy (Some n) => (0 <=? n) && (n <? 2 ^ 64) && plain eleTy
  | ArrayType eleTy None => true
  | TupleType types => forallb plain types
  | OtherType _ => true
  end.

(** **** What the walker may read

    The host memory that holds a value of a type at an address: every
    byte the walker reads there is inside a block of the host memory, and
    the byte of a [bool] is 0 or 1.  Reading outside of the blocks, or a
    [bool] of another byte, is undefined in the source; [readable] is the
    condition under which the model reads what the source reads. *)
Fixpoint mapped (h : Heap) (a : Z) : bool :=
  match h with
  | [] => false
  | (base, bytes) :: h =>
      (base <=? a) && (a <? base + Z.of_nat (length bytes)) || mapped h a
  end.

Definition mapped_range (h : Heap) (p : Z) (n : nat) : bool :=
  forallb (fun i => mapped h (p + Z.of_nat i)) (seq 0 n).

Fixpoint array_readable (element : Z → bool) (eleSize : Z) (n : nat)
    (cursor : Z) : bool :=
  match n with
  | O => true
  | S n => element cursor && array_readable element eleSize n (cursor + eleSize)
  end.

Fixpoint struct_readable (offset : Z → Z) (cursor : Z)
    (members : list (Z → bool)) (i : Z) : bool :=
  match members with
  | [] => true
  | member :: members =>
      member (cursor + offset i)
      && struct_readable offset cursor members (i + 1)
  end.

Fixpoint readable (target : Target) (layout : string) (h : Heap)
    (ty : Ty) : Z → bool :=
  match ty with
  | IntegerType width =>
      fun p =>
        if width =? 1 then mapped_range h p 1 && (load_le h p 1 <? 2)
        else if width =? 8 then mapped_range h p 1
        else if width =? 16 then mapped_range h p 2
        else if width =? 32 then mapped_range h p 4
        else if width =? 64 then mapped_range h p 8
        else true
  | Float32Type => fun p => mapped_range h p 4
  | Float64Type => fun p => mapped_range h p 8
  | FloatType width => fun p => mapped_range h p 16
  | ComplexType Float32Type => fun p => mapped_range h p 8
  | ComplexType Float64Type => fun p => mapped_range h p 16
  | StructType members =>
      fun p =>
        struct_readable (getDataOffset target layout ty) p
                        (map (readable target layout h) members) 0
  | ArrayType eleTy (Some n) =>
      fun p =>
        array_readable (readable target layout h eleTy)
                       (getDataSize target layout eleTy) (Z.to_nat n) p
  | TupleType types =>
      fun p =>
        let k := Z.of_nat (length types) in
        struct_readable
          (fun i => getDataOffset target layout
                      (StructType (rev types)) (k - 1 - i))
          p (map (readable target layout h) types) 0
  | _ => fun _ => true
  end.

(** Run in a block of module [S], the emitter returns; it only adds to
    [S], keeps the host memory, and the value it returns denotes [f] of
    the host memory and the address. *)
Definition reads (S : nat) (layout : string) (platform : PlatformSettings)
    (e : Emitter) (f : Heap → Z → IRVal) : Prop :=
  ∀ p w,
    in_block S w →
    ∃ v w',
      e p S layout platform w = Ok (v, w')
      ∧ ip w' = ip w ∧ world_ext S w w' ∧ valid_value w' v
      ∧ heap w' = heap w
      ∧ value_in (current_block w') v = f (heap w) p.

(** [sizeof(std::complex<float>)] and [sizeof(std::complex<double>)]. *)
Definition sizeof_complex (p : precision) : Z :=
  match p with fp32 => 8 | fp64 => 16 end.

(** **** What a block stores

    The stores of a block, in order: the value of the address and the
    value stored, each evaluated where the store stands. *)
Fixpoint stores_from (env : list IRVal) (ops : list Operation)
  : list (IRVal * IRVal) :=
  match ops with
  | [] => []
  | op :: ops =>
      match op with
      | cc_StoreOp val ptr => [(operand_value env ptr, operand_value env val)]
      | _ => []
      end ++ stores_from (env ++ [eval_op env op]) ops
  end.

Definition stores_of (blk : list Operation) : list (IRVal * IRVal) :=
  stores_from [] blk.

Definition is_store (op : Operation) : bool :=
  match op with cc_StoreOp _ _ => true | _ => false end.

(** The stores of [n] elements from index [i] on, read from [cursor] on,
    into the buffer [buffer]. *)
Fixpoint stored_elements (buffer : IRVal) (element : Z → IRVal)
    (eleSize : Z) (n : nat) (i cursor : Z) : list (IRVal * IRVal) :=
  match n with
  | O => []
  | S n =>
      (VElementPtr buffer i, element cursor)
      :: stored_elements buffer element eleSize n (i + 1) (cursor + eleSize)
  end.

(** The plain types for which the walker returns the null value. *)
Definition skipped (ty : Ty) : bool :=
  match ty with
  | IntegerType width =>
      negb ((width =? 1) || (width =? 8) || (width =? 16) || (width =? 32)
            || (width =? 64))
  | ComplexType Float32Type | ComplexType Float64Type => false
  | ComplexType _ => true
  | StructType [] | TupleType [] | ArrayType _ None => true
  | StateType | OtherType _ | PointerType _ => true
  | _ => false
  end.

(** Run in a block of module [S], the step appends operations to the
    block, none of them a store. *)
Definition no_store (S : nat) {A} (m : M A) : Prop :=
  ∀ w a w',
    in_block S w → m w = Ok (a, w') →
    ip w' = ip w ∧ world_ext S w w'
    ∧ ∃ ops, current_block w' = current_block w ++ ops
             ∧ Forall (λ op, is_store op = false) ops.

Definition no_store_emitter (S : nat) (e : Emitter) : Prop :=
  ∀ p layout platform, no_store S (e p S layout platform).

End ArgConv.

(** *** Sample inputs

    A 64-bit little-endian host without padding, a source module with a
    few kernels, and the bytes their arguments point to. *)

Module Samples.
Import ArgConv.

Definition sample_size (ty : Ty) : Z :=
  match ty with
  | IntegerType width => if width <=? 8 then 1 else width / 8
  | Float32Type => 4
  | Float64Type => 8
  | ComplexType Float32Type => 8
  | ComplexType Float64Type => 16
  | _ => 8
  end.

Definition sample_offset (strTy : Ty) (i : Z) : Z :=
  match strTy with
  | StructType members =>
      foldr Z.add 0 (map sample_size (take (Z.to_nat i) members))
  | _ => 0
  end.

Definition sample_state : state :=
  {| get_precision := fp64; is_on_gpu := false; tensor_data := 0;
     get_num_elements := 0; element_size := 16; device_bytes := [] |}.

Definition sample_target : Target :=
  {| sizeof_void_ptr := 8;
     getDataSize := fun _ => sample_size;
     getDataOffset := fun _ => sample_offset;
     cudaqGenPrefixName := "__nvqpp__mlirgen__";
     targetDataLayoutAttrName := "llvm.data_layout";
     APFloat_of_long_double := fun _ bits => bits;
     literal_name := fun _ => "cstr.0"%string;
     string_at := fun _ => [104; 105];
     state_at := fun _ => sample_state |}.

(** The host memory that holds [bytes] from address [256] on. *)
Definition sample_heap (bytes : list Z) : Heap := [(256, bytes)].

(** The kernels [scalars(i32, f64)], [pair(tuple<i8, i32>)],
    [unsized(array<i32 x ?>)] and [text(charspan)]. *)
Definition sample_source : ModuleOp :=
  {| attrs := [("llvm.data_layout"%string, "e"%string)];
     mbody :=
       [func_FuncOp "__nvqpp__mlirgen__scalars"
                    [IntegerType 32; Float64Type];
        func_FuncOp "__nvqpp__mlirgen__pair"
                    [TupleType [IntegerType 8; IntegerType 32]];
        func_FuncOp "__nvqpp__mlirgen__unsized"
                    [ArrayType (IntegerType 32) None];
        func_FuncOp "__nvqpp__mlirgen__state"
                    [IntegerType 32; PointerType StateType]] |}.

(** A world that holds the source module only. *)
Definition sample_world (bytes : list Z) : World :=
  {| modules := [sample_source]; ip := NoInsertionPoint;
     heap := sample_heap bytes; brk := 4096 |}.

Definition simulator : PlatformSettings :=
  {| isSimulator := true; isRemote := false |}.

Definition hardware : PlatformSettings :=
  {| isSimulator := false; isRemote := false |}.

(** A converter for a kernel, and the world after its construction:
    the substitution module is module [1]. *)
Definition sample_converter (kernel : string) (platform : PlatformSettings)
  : ArgumentConverter :=
  {| sourceModule := 0; substModule := 1; kernelName := kernel;
     platform := platform; substitutions := [] |}.

Definition converter_world (bytes : list Z) : World :=
  {| modules := [sample_source; {| attrs := []; mbody := [] |}];
     ip := NoInsertionPoint; heap := sample_heap bytes; brk := 4096 |}.

(** A world in which the builder stands in the empty block of a first
    substitution. *)
Definition block_world (bytes : list Z) : World :=
  {| modules := [sample_source;
                 {| attrs := [];
                    mbody := [cc_ArgumentSubstitutionOp 0 [[]]] |}];
     ip := EndOfBlock 1 0 0; heap := sample_heap bytes; brk := 4096 |}.

(** The kernel [vec(stdvec<i32>)] in a source module of its own, and the
    world after the construction of a converter for it. *)
Definition vector_source : ModuleOp :=
  {| attrs := [("llvm.data_layout"%string, "e"%string)];
     mbody :=
       [func_FuncOp "__nvqpp__mlirgen__vec" [StdvecType (IntegerType 32)]] |}.

Definition vector_world (bytes : list Z) : World :=
  {| modules := [vector_source; {| attrs := []; mbody := [] |}];
     ip := NoInsertionPoint; heap := sample_heap bytes; brk := 4096 |}.

(** The header [{begin, end, capacity}] of an empty vector:
    [begin = end = capacity = 0x1000]. *)
Definition empty_vector_bytes : list Z :=
  [0; 16; 0; 0; 0; 0; 0; 0;
   0; 16; 0; 0; 0; 0; 0; 0;
   0; 16; 0; 0; 0; 0; 0; 0].

(** The bytes of scenario 2: an [i32] 42 followed by an [i8] 255. *)
Definition pair_bytes : list Z := [42; 0; 0; 0; 255].

(** A vector header [{begin, end, capacity}] with [begin = 0x1000] and
    [end = begin + 2^31]: a vector of [2^31] bytes. *)
Definition huge_vector_bytes : list Z :=
  [0; 16; 0; 0; 0; 0; 0; 0;
   0; 16; 0; 128; 0; 0; 0; 0;
   0; 16; 0; 128; 0; 0; 0; 0].

(** The trace of scenario 6 on two qubits: [h] on [q0], [x] on [q1]
    controlled by [q0], and [swap] of [q0] and [q1]. *)
Definition sample_trace : Draw.Trace :=
  {| Draw.getNumQudits := 2;
     Draw.instructions :=
       [ {| Draw.name := "h"; Draw.params := []; Draw.controls := [];
            Draw.targets := [ {| Draw.levels := 2; Draw.id := 0 |} ] |};
         {| Draw.name := "x"; Draw.params := [];
            Draw.controls := [ {| Draw.levels := 2; Draw.id := 0 |} ];
            Draw.targets := [ {| Draw.levels := 2; Draw.id := 1 |} ] |};
         {| Draw.name := "swap"; Draw.params := []; Draw.controls := [];
            Draw.targets := [ {| Draw.levels := 2; Draw.id := 0 |};
                              {| Draw.levels := 2; Draw.id := 1 |} ] |} ] |}.

(** A formatter that leaves the parameters out. *)
Definition plain_name (name : string) (params : list Z) : string := name.

(** A trace on three wires: three one-wire gates that fit in one layer,
    then a controlled gate and a gate beside it. *)
Definition ladder_trace : Draw.Trace :=
  {| Draw.getNumQudits := 3;
     Draw.instructions :=
       [ {| Draw.name := "h"; Draw.params := []; Draw.controls := [];
            Draw.targets := [ {| Draw.levels := 2; Draw.id := 0 |} ] |};
         {| Draw.name := "h"; Draw.params := []; Draw.controls := [];
            Draw.targets := [ {| Draw.levels := 2; Draw.id := 1 |} ] |};
         {| Draw.name := "ry"; Draw.params := []; Draw.controls := [];
            Draw.targets := [ {| Draw.levels := 2; Draw.id := 2 |} ] |};
         {| Draw.name := "x"; Draw.params := [];
            Draw.controls := [ {| Draw.levels := 2; Draw.id := 0 |} ];
            Draw.targets := [ {| Draw.levels := 2; Draw.id := 1 |} ] |};
         {| Draw.name := "z"; Draw.params := []; Draw.controls := [];
            Draw.targets := [ {| Draw.levels := 2; Draw.id := 2 |} ] |} ] |}.

(** A state of two single-precision amplitudes that lives on the GPU, and
    a state of one double-precision amplitude in host memory, at address
    [256]. *)
Definition device_state : state :=
  {| get_precision := fp32; is_on_gpu := true; tensor_data := 0;
     get_num_elements := 2; element_size := 8;
     device_bytes := [1; 2; 3; 4; 5; 6; 7; 8; 9; 10; 11; 12; 13; 14; 15; 16] |}.

Definition host_state : state :=
  {| get_precision := fp64; is_on_gpu := false; tensor_data := 256;
     get_num_elements := 1; element_size := 16; device_bytes := [] |}.

(** The sample target, with [host_state] behind every state pointer and
    an empty record of size zero. *)
Definition second_target : Target :=
  {| sizeof_void_ptr := 8;
     getDataSize := fun _ ty =>
       match ty with StructType [] => 0 | _ => sample_size ty end;
     getDataOffset := fun _ => sample_offset;
     cudaqGenPrefixName := "__nvqpp__mlirgen__";
     targetDataLayoutAttrName := "llvm.data_layout";
     APFloat_of_long_double := fun _ bits => bits;
     literal_name := fun _ => "cstr.0"%string;
     string_at := fun _ => [104; 105];
     state_at := fun _ => host_state |}.

Definition remote_simulator : PlatformSettings :=
  {| isSimulator := true; isRemote := true |}.

(** The sixteen bytes of the complex number [(1.0, 0.0)] in double
    precision. *)
Definition amplitude_bytes : list Z :=
  [0; 0; 0; 0; 0; 0; 240; 63; 0; 0; 0; 0; 0; 0; 0; 0].

(** A vector header [{begin, end, capacity}] at address [256] for the
    three 32-bit elements [7], [8], [9] that follow it at address [280]. *)
Definition small_vector_bytes : list Z :=
  [24; 1; 0; 0; 0; 0; 0; 0;
   36; 1; 0; 0; 0; 0; 0; 0;
   36; 1; 0; 0; 0; 0; 0; 0;
   7; 0; 0; 0; 8; 0; 0; 0; 9; 0; 0; 0].

(** A trace on two wires whose second instruction is a [swap] of one
    target. *)
Definition lone_swap : Draw.Instruction :=
  {| Draw.name := "swap"; Draw.params := []; Draw.controls := [];
     Draw.targets := [ {| Draw.levels := 2; Draw.id := 1 |} ] |}.

Definition lone_swap_trace : Draw.Trace :=
  {| Draw.getNumQudits := 2;
     Draw.instructions :=
       [ {| Draw.name := "h"; Draw.params := []; Draw.controls := [];
            Draw.targets := [ {| Draw.levels := 2; Draw.id := 0 |} ] |};
         lone_swap ] |}.

(** A trace on two wires whose second instruction names a third wire. *)
Definition stray_trace : Draw.Trace :=
  {| Draw.getNumQudits := 2;
     Draw.instructions :=
       [ {| Draw.name := "h"; Draw.params := []; Draw.controls := [];
            Draw.targets := [ {| Draw.levels := 2; Draw.id := 0 |} ] |};
         {| Draw.name := "h"; Draw.params := []; Draw.controls := [];
            Draw.targets := [ {| Draw.levels := 2; Draw.id := 2 |} ] |} ] |}.

End Samples.

(** ** Part II.  Properties *)

(** *** The glyph merge *)

Section MergeChars.
Import Draw.

Lemma merge_chars_same c : merge_chars c c = c.
Proof. unfold merge_chars. by rewrite Z.eqb_refl. Qed.

Lemma merge_chars_into_blank g : merge_chars BLANK g = g.
Proof.
  unfold merge_chars. destruct (Z.eqb_spec BLANK g) as [->|]; [done|].
  by rewrite Z.eqb_refl.
Qed.

Lemma merge_chars_blank_into g :
  merge_chars g BLANK = if g <? BLANK then BLANK else g.
Proof.
  unfold merge_chars, BLANK.
  destruct (Z.eqb_spec g 32) as [->|Hne]; [done|].
  change (32 =? CONTROL_LINE) with false. cbv iota.
  destruct (Z.ltb_spec g 32) as [Hlt|Hge].
  - rewrite Z.gtb_ltb. destruct (Z.ltb_spec 32 g); [exfalso; lia|]. cbv iota beta.
    change (32 =? BOX_TOP_LEFT_CORNER) with false.
    change (32 =? BOX_TOP_RIGHT_CORNER) with false.
    change (32 =? BOX_BOTTOM_LEFT_CORNER) with false.
    change (32 =? BOX_BOTTOM_RIGHT_CORNER) with false.
    by rewrite !orb_false_r, !andb_false_r.
  - rewrite Z.gtb_ltb. destruct (Z.ltb_spec 32 g); [|exfalso; lia]. cbv iota beta.
    change (32 =? WIRE_LINE) with false.
    change (32 =? BOX_TOP_LEFT_CORNER) with false.
    change (32 =? BOX_TOP_RIGHT_CORNER) with false.
    done.
Qed.

(** C4, as the spec words it, fails: merging a blank into a cell that
    holds a wire blanks the cell, while merging the wire into a blank cell
    gives the wire. *)
Lemma merge_chars_blank_not_commutative :
  merge_chars WIRE_LINE BLANK = BLANK
  ∧ merge_chars BLANK WIRE_LINE = WIRE_LINE
  ∧ merge_chars WIRE_LINE BLANK ≠ merge_chars BLANK WIRE_LINE.
Proof. by vm_compute. Qed.

(** C4 (amended).  [merge_chars] is idempotent on identical inputs; a
    glyph merged into a blank cell gives the glyph; a blank merged into a
    cell keeps the cell only when its content is not below the blank, and
    blanks it otherwise.  The merge therefore commutes between a blank and
    [g] exactly when [g] is not below the blank, which excludes the
    thirteen glyphs of [CharSet]. *)
Theorem merge_chars_blank_and_same (c g : Z) :
  merge_chars c c = c
  ∧ merge_chars BLANK g = g
  ∧ merge_chars g BLANK = (if g <? BLANK then BLANK else g)
  ∧ (merge_chars g BLANK =? merge_chars BLANK g) = negb (g <? BLANK)
  ∧ forallb (fun x => merge_chars x BLANK =? BLANK) CharSet = true.
Proof.
  split_and!.
  - apply merge_chars_same.
  - apply merge_chars_into_blank.
  - apply merge_chars_blank_into.
  - rewrite merge_chars_blank_into, merge_chars_into_blank.
    unfold BLANK. destruct (Z.ltb_spec g 32); cbv [negb].
    + apply Z.eqb_neq. lia.
    + apply Z.eqb_refl.
  - by vm_compute.
Qed.

End MergeChars.

(** *** The layering loop *)

Section Layering.
Import Draw.

Lemma at_Some {A} (v : list A) (i : Z) (x : A) :
  at_ v i = Some x ↔ 0 ≤ i ∧ v !! Z.to_nat i = Some x.
Proof.
  unfold at_. destruct (Z.ltb_spec i 0).
  - split; [done|]. intros [? _]. lia.
  - split; [by intros|]. by intros [_ ?].
Qed.

Lemma at_in_range {A} (v : list A) (i : Z) :
  0 ≤ i < Z.of_nat (length v) → ∃ x, at_ v i = Some x.
Proof.
  intros Hi. destruct (lookup_lt_is_Some_2 v (Z.to_nat i)) as [x Hx]; [lia|].
  exists x. apply at_Some. split; [lia|done].
Qed.

Lemma elem_of_wire_range (mn mx i : Z) :
  i ∈ wire_range mn mx ↔ mn ≤ i ≤ mx.
Proof. unfold wire_range. rewrite elem_of_seqZ. lia. Qed.

(** The first loop over the span computes the largest layer found on its
    wires, starting from [layer]. *)
Lemma max_layer_spec (wl : list Z) (range : list Z) (layer : Z) :
  (∀ i, i ∈ range → 0 ≤ i < Z.of_nat (length wl)) →
  ∃ r, max_layer wl range layer = Some r
       ∧ layer ≤ r
       ∧ (∀ i, i ∈ range → ∃ l, wl !! Z.to_nat i = Some l ∧ l ≤ r)
       ∧ (r = layer ∨ ∃ i, i ∈ range ∧ wl !! Z.to_nat i = Some r).
Proof.
  revert layer. induction range as [|i range IH]; intros layer Hrange.
  - exists layer. split_and!; [done|lia| |by left].
    intros i Hi. by apply elem_of_nil in Hi.
  - destruct (at_in_range wl i) as [l Hl]; [apply Hrange; left|].
    destruct (IH (Z.max layer l)) as (r & Hr & Hle & Hall & Hmax).
    { intros j Hj. apply Hrange. by right. }
    exists r. simpl. rewrite Hl. simpl. apply at_Some in Hl as [? Hl].
    split_and!; [done|lia| |].
    + intros j [->|Hj]%elem_of_cons; [|by apply Hall].
      exists l. split; [done|lia].
    + destruct Hmax as [->|(j & Hj & Hjr)].
      * destruct (Z.max_spec layer l) as [[? ->]|[? ->]]; [|by left].
        right. exists i. split; [left|done].
      * right. exists j. split; [by right|done].
Qed.

(** The second loop stores [layer] on every wire of the span and leaves
    the other wires alone. *)
Lemma set_layer_spec (wl : list Z) (range : list Z) (layer : Z) :
  (∀ i, i ∈ range → 0 ≤ i < Z.of_nat (length wl)) →
  ∃ wl', set_layer wl range layer = Some wl'
         ∧ length wl' = length wl
         ∧ (∀ j : nat, Z.of_nat j ∈ range → (j < length wl)%nat →
                       wl' !! j = Some layer)
         ∧ (∀ j : nat, Z.of_nat j ∉ range → wl' !! j = wl !! j).
Proof.
  revert wl. induction range as [|i range IH]; intros wl Hrange.
  - exists wl. split_and!; [done..| |done].
    intros j Hj. by apply elem_of_nil in Hj.
  - destruct (at_in_range wl i) as [l Hl]; [apply Hrange; left|].
    assert (0 ≤ i < Z.of_nat (length wl)) as Hi by (apply Hrange; left).
    destruct (IH (<[Z.to_nat i := layer]> wl)) as (wl' & Hwl' & Hlen & Hin & Hout).
    { intros j Hj. rewrite length_insert. apply Hrange. by right. }
    exists wl'. simpl. unfold set_at. rewrite Hl. simpl.
    rewrite length_insert in Hlen, Hin.
    split_and!; [done..| |].
    + intros j Hj Hlt. destruct (decide (Z.of_nat j ∈ range)) as [Hr|Hr].
      * by apply Hin.
      * apply elem_of_cons in Hj as [Hj|Hj]; [|done].
        rewrite Hout by done. subst i. rewrite Nat2Z.id.
        by apply list_lookup_insert_eq.
    + intros j Hj. rewrite Hout by (intros ?; apply Hj; by right).
      apply list_lookup_insert_ne. intros <-. apply Hj.
      rewrite Z2Nat.id by lia. left.
Qed.

(** What the walk over the controls does to the span. *)
Lemma scan_controls_spec (min_target max_target : Z) (cs ws : list Z)
    (ov : bool) (mn mx : Z) :
  ∃ ws' ov' mn' mx',
    scan_controls min_target max_target cs (ws, ov, mn, mx)
      = (ws', ov', mn', mx')
    ∧ mn' ≤ mn ∧ mx ≤ mx'
    ∧ (∀ c, c ∈ cs → mn' ≤ c ≤ mx')
    ∧ (mn' = mn ∨ mn' ∈ cs) ∧ (mx' = mx ∨ mx' ∈ cs).
Proof.
  revert ws ov mn mx. induction cs as [|c cs IH]; intros ws ov mn mx.
  - exists ws, ov, mn, mx. split_and!; [done|lia|lia| |by left|by left].
    intros c Hc. by apply elem_of_nil in Hc.
  - simpl.
    destruct (IH (ws ++ [c])
                (ov || ((c >? min_target) && (c <? max_target)))
                (Z.min c mn) (Z.max c mx))
      as (ws' & ov' & mn' & mx' & -> & Hmn & Hmx & Hall & Hmn' & Hmx').
    exists ws', ov', mn', mx'. split_and!; [done|lia|lia| | |].
    + intros d [->|Hd]%elem_of_cons; [lia|by apply Hall].
    + destruct Hmn' as [->|?]; [|right; by right].
      destruct (Z.min_spec c mn) as [[? ->]|[? ->]]; [right; left|by left].
    + destruct Hmx' as [->|?]; [|right; by right].
      destruct (Z.max_spec c mx) as [[? ->]|[? ->]]; [by left|right; left].
Qed.

Lemma sorted_head_le (l : list Z) (h x : Z) :
  StronglySorted Z.le l → head l = Some h → x ∈ l → h ≤ x.
Proof.
  intros Hs [l' ->]%head_Some [->|Hx]%elem_of_cons; [lia|].
  apply StronglySorted_inv in Hs as [_ Hall].
  rewrite Forall_forall in Hall. by apply Hall.
Qed.

Lemma sorted_last_ge (l : list Z) (t x : Z) :
  StronglySorted Z.le l → last l = Some t → x ∈ l → x ≤ t.
Proof.
  intros Hs [l' ->]%last_Some [Hx| ->%list_elem_of_singleton]%elem_of_app;
    [|lia].
  eapply (StronglySorted_app_1_elem_of Z.le l' [t]); [done..|left].
Qed.

(** The span of a placeable instruction is not empty, covers every target
    and control, and its two ends are wires of the instruction. *)
Lemma inst_wires_spec (inst : Instruction) :
  targets inst ≠ [] →
  ∃ wires ov mn mx,
    inst_wires inst = Some (wires, ov, mn, mx)
    ∧ mn ≤ mx
    ∧ (∀ w, w ∈ inst_ids inst → mn ≤ w ≤ mx)
    ∧ mn ∈ inst_ids inst ∧ mx ∈ inst_ids inst.
Proof.
  intros Hne. unfold inst_wires, inst_ids.
  set (ts := convertToIDs (targets inst)).
  set (sorted := merge_sort Z.le ts).
  assert (StronglySorted Z.le sorted) as Hs
    by apply (StronglySorted_merge_sort Z.le).
  assert (sorted ≡ₚ ts) as Hp by apply (merge_sort_Permutation Z.le).
  assert (∀ x, x ∈ sorted ↔ x ∈ ts) as Hin by (intros x; by rewrite Hp).
  assert (sorted ≠ []) as Hne'.
  { intros Heq. rewrite Heq in Hp. symmetry in Hp.
    apply Permutation_nil_r in Hp. unfold ts, convertToIDs in Hp.
    by apply map_eq_nil in Hp. }
  destruct (head sorted) as [h|] eqn:Hh;
    [|by apply head_None in Hh].
  destruct (last sorted) as [t|] eqn:Ht;
    [|by apply last_None in Ht].
  simpl.
  destruct (scan_controls_spec h t (convertToIDs (controls inst))
              sorted false h t)
    as (ws' & ov' & mn' & mx' & -> & Hmn & Hmx & Hall & Hmn' & Hmx').
  exists ws', ov', mn', mx'.
  assert (h ∈ ts) as Hhin by (apply Hin; by eapply head_Some_elem_of).
  assert (t ∈ ts) as Htin by (apply Hin; by eapply last_Some_elem_of).
  assert (h ≤ t) by (eapply sorted_head_le; [done..|by apply Hin]).
  split_and!; [done|lia| | |].
  - intros w [Hw|Hw]%elem_of_app; [|by apply Hall].
    apply Hin in Hw. split.
    + etrans; [apply Hmn|]. by eapply sorted_head_le.
    + etrans; [|apply Hmx]. by eapply sorted_last_ge.
  - apply elem_of_app. destruct Hmn' as [->|?]; [by left|by right].
  - apply elem_of_app. destruct Hmx' as [->|?]; [by left|by right].
Qed.

(** Adding a member to layer [layer], which is an existing layer or the
    next one. *)
Lemma add_member (ls : list (list nat)) (layer : Z) (r0 : nat) :
  0 ≤ layer ≤ Z.of_nat (length ls) →
  let ls0 := if layer =? Z.of_nat (length ls) then ls ++ [[]] else ls in
  ∃ members ls1,
    at_ ls0 layer = Some members
    ∧ set_at ls0 layer (members ++ [r0]) = Some ls1
    ∧ length ls1 = length ls0
    ∧ layer < Z.of_nat (length ls0)
    ∧ (length ls ≤ length ls0)%nat
    ∧ ∀ L r, (∃ ms, at_ ls1 L = Some ms ∧ r ∈ ms)
             ↔ (∃ ms, at_ ls L = Some ms ∧ r ∈ ms) ∨ (L = layer ∧ r = r0).
Proof.
  intros Hlayer ls0.
  assert (layer < Z.of_nat (length ls0) ∧ (length ls ≤ length ls0)%nat
          ∧ ∀ L ms, at_ ls0 L = Some ms ∧ ms ≠ []
                    ↔ at_ ls L = Some ms ∧ ms ≠ []) as (Hlt & Hmono & Hls0).
  { unfold ls0. destruct (Z.eqb_spec layer (Z.of_nat (length ls))) as [->|].
    - rewrite length_app. simpl. split_and!; [lia..|].
      intros L ms. rewrite !at_Some, lookup_app_Some.
      rewrite list_lookup_singleton_Some. naive_solver.
    - split_and!; [lia|lia|done]. }
  destruct (at_in_range ls0 layer) as [members Hm]; [lia|].
  exists members, (<[Z.to_nat layer := members ++ [r0]]> ls0).
  split_and!; [done| |by rewrite length_insert|done..|].
  { unfold set_at. by rewrite Hm. }
  intros L r. split.
  - intros (ms & Hms & Hr). apply at_Some in Hms as [HL Hms].
    apply list_lookup_insert_Some in Hms
      as [(Heq & <- & _)|[Hne Hms]].
    + assert (L = layer) as -> by lia.
      apply elem_of_app in Hr as [Hr|Hr%list_elem_of_singleton].
      * left. exists members. split; [|done].
        apply Hls0. split; [done|]. intros ->. by apply elem_of_nil in Hr.
      * right. split; [lia|done].
    + left. exists ms. split; [|done]. apply Hls0. split.
      * apply at_Some. done.
      * intros ->. by apply elem_of_nil in Hr.
  - intros [(ms & Hms & Hr)|[-> ->]].
    + assert (at_ ls0 L = Some ms) as Hms0.
      { apply Hls0. split; [done|]. intros ->. by apply elem_of_nil in Hr. }
      destruct (decide (L = layer)) as [->|Hne].
      * exists (members ++ [r0]). rewrite Hm in Hms0. simplify_eq.
        split; [|apply elem_of_app; by left].
        apply at_Some. split; [lia|]. apply list_lookup_insert_eq. lia.
      * exists ms. split; [|done]. apply at_Some in Hms0 as [? Hms0].
        apply at_Some. split; [done|].
        rewrite list_lookup_insert_ne by lia. done.
    + exists (members ++ [r0]). split; [|apply elem_of_app; right; left].
      apply at_Some. split; [lia|]. apply list_lookup_insert_eq. lia.
Qed.

(** Widening layer [layer], which is an existing layer or the next one. *)
Lemma widen_layer (lw : list Z) (n : nat) (layer x : Z) :
  length lw = n → 0 ≤ layer ≤ Z.of_nat n →
  let lw0 := if layer =? Z.of_nat n then lw ++ [0] else lw in
  ∃ w lw1,
    at_ lw0 layer = Some w
    ∧ set_at lw0 layer (Z.max w x) = Some lw1
    ∧ length lw1 = length lw0
    ∧ length lw0 = (if layer =? Z.of_nat n then S n else n).
Proof.
  intros Hlen Hlayer lw0.
  assert (length lw0 = if layer =? Z.of_nat n then S n else n) as Hlen0.
  { unfold lw0. destruct (Z.eqb_spec layer (Z.of_nat n)); [|done].
    rewrite length_app. simpl. lia. }
  destruct (at_in_range lw0 layer) as [w Hw].
  { rewrite Hlen0. destruct (Z.eqb_spec layer (Z.of_nat n)); lia. }
  exists w, (<[Z.to_nat layer := Z.max w x]> lw0).
  split_and!; [done| |by rewrite length_insert|done].
  unfold set_at. by rewrite Hw.
Qed.

Variable format_name : string → list Z → string.

Lemma layering_inv_initial (nw : Z) : layering_inv nw [] (initial nw).
Proof.
  split; simpl.
  - by rewrite length_replicate.
  - done.
  - done.
  - intros i l [-> _]%lookup_replicate. lia.
  - intros L r (ms & Hms & _). apply at_Some in Hms as [_ Hms]. done.
  - intros L r1 r2 i1 i2 sp1 sp2 _ (ms & Hms & _).
    apply at_Some in Hms as [_ Hms]. done.
Qed.

(** One iteration: the instruction joins the layer that follows the
    highest layer found on the wires of its span, and that layer is
    recorded on these wires. *)
Lemma place_spec (nw : Z) (done : list Instruction) (s : Layering)
    (inst : Instruction) :
  layering_inv nw done s → placeable nw inst →
  ∃ s' mn mx layer,
    inst_span inst = Some (mn, mx)
    ∧ place format_name s inst = Some s'
    ∧ (∀ w, mn ≤ w ≤ mx →
            ∃ l, wire_layer s !! Z.to_nat w = Some l ∧ l ≤ layer - 1)
    ∧ (∃ w, mn ≤ w ≤ mx ∧ wire_layer s !! Z.to_nat w = Some (layer - 1))
    ∧ (∀ L r, in_layer s' L r ↔ in_layer s L r ∨ (L = layer ∧ r = ref s))
    ∧ (∀ j : nat,
         wire_layer s' !! j =
         if bool_decide (mn ≤ Z.of_nat j ≤ mx) then Some layer
         else wire_layer s !! j)
    ∧ layering_inv nw (done ++ [inst]) s'.
Proof.
  intros Hinv [Hne Hids].
  destruct (inst_wires_spec inst Hne)
    as (wires & ov & mn & mx & Hw & Hle & Hcov & Hmn & Hmx).
  assert (∀ i, i ∈ wire_range mn mx →
               0 ≤ i < Z.of_nat (length (wire_layer s))) as Hrange.
  { intros i Hi%elem_of_wire_range. rewrite (inv_wires _ _ _ Hinv).
    apply Hids in Hmn, Hmx. lia. }
  destruct (max_layer_spec (wire_layer s) (wire_range mn mx) (-1) Hrange)
    as (m & Hm & Hm1 & Hmall & Hmatt).
  assert (m < Z.of_nat (length (layers s))) as Hmlt.
  { destruct Hmatt as [->|(i & _ & Hi)]; [lia|].
    apply (inv_bound _ _ _ Hinv) in Hi. lia. }
  set (layer := m + 1).
  destruct (set_layer_spec (wire_layer s) (wire_range mn mx) layer Hrange)
    as (wl' & Hwl' & Hlen' & Hin' & Hout').
  destruct (add_member (layers s) layer (ref s))
    as (members & ls1 & Hmem & Hls1 & Hlenls1 & Hlayerlt & Hmono & Hiff);
    [lia|].
  destruct (widen_layer (layer_width s) (length (layers s)) layer
              (width (inst_shape format_name inst wires ov)))
    as (w0 & lw1 & Hw0 & Hlw1 & Hlenlw1 & Hlenlw0);
    [apply (inv_widths _ _ _ Hinv)|lia|].
  eexists _, mn, mx, layer.
  split; [unfold inst_span; by rewrite Hw|].
  split.
  { unfold place. rewrite Hw. simpl. rewrite Hm. simpl. fold layer.
    destruct (layer =? Z.of_nat (length (layers s)));
      rewrite Hmem; simpl; rewrite Hls1; simpl; rewrite Hwl'; simpl;
      rewrite Hw0; simpl; rewrite Hlw1; reflexivity. }
  assert (∀ j : nat,
            wl' !! j = if bool_decide (mn ≤ Z.of_nat j ≤ mx) then Some layer
                       else wire_layer s !! j) as Hwires.
  { intros j. case_bool_decide as Hj.
    - apply Hin'; [by apply elem_of_wire_range|].
      specialize (Hrange (Z.of_nat j)). rewrite elem_of_wire_range in Hrange.
      lia.
    - apply Hout'. by rewrite elem_of_wire_range. }
  assert (∀ w, mn ≤ w ≤ mx →
               ∃ l, wire_layer s !! Z.to_nat w = Some l ∧ l ≤ layer - 1)
    as Hbelow.
  { intros w Hw'%elem_of_wire_range. destruct (Hmall w Hw') as (l & ? & ?).
    exists l. split; [done|]. unfold layer. lia. }
  assert (∀ w, mn ≤ w ≤ mx → wl' !! Z.to_nat w = Some layer) as Hnew.
  { intros w Hw'. rewrite Hwires, bool_decide_eq_true_2; [done|].
    apply Hids in Hmn. lia. }
  split_and!; [done| |done|done|].
  - destruct Hmatt as [Hm'|(i & Hi%elem_of_wire_range & Him)].
    + exists mn. split; [lia|]. destruct (Hbelow mn) as (l & Hl & Hll); [lia|].
      pose proof (inv_bound _ _ _ Hinv _ _ Hl). rewrite Hl. f_equal. lia.
    + exists i. split; [done|]. rewrite Him. f_equal. unfold layer. lia.
  - split; simpl.
    + rewrite Hlen'. apply (inv_wires _ _ _ Hinv).
    + rewrite length_app. simpl. rewrite (inv_ref _ _ _ Hinv). lia.
    + rewrite Hlenlw1, Hlenlw0, Hlenls1.
      destruct (layer =? Z.of_nat (length (layers s))); [|done].
      rewrite length_app. simpl. lia.
    + intros i l. rewrite Hwires. case_bool_decide.
      * intros [= <-]. rewrite Hlenls1. unfold layer in *. lia.
      * intros Hl%(inv_bound _ _ _ Hinv). rewrite Hlenls1. lia.
    + intros L r [Hold|[-> ->]]%Hiff.
      * destruct (inv_members _ _ _ Hinv L r Hold)
          as (i' & mn' & mx' & Hdone & Hspan & Hpos & Hreach).
        exists i', mn', mx'. split_and!; [|done|done|].
        { by apply lookup_app_l_Some. }
        intros w Hw'. destruct (Hreach w Hw') as (l & Hl & HLl).
        rewrite Hwires. case_bool_decide as Hin; [|by exists l].
        exists layer. split; [done|].
        destruct (Hbelow w) as (l' & Hl' & ?); [lia|]. simplify_eq. lia.
      * exists inst, mn, mx. split_and!.
        { rewrite (inv_ref _ _ _ Hinv). by apply list_lookup_middle. }
        { unfold inst_span. by rewrite Hw. }
        { apply Hids in Hmn. lia. }
        intros w Hw'. exists layer. split; [by apply Hnew|lia].
    + assert (∀ L r i, in_layer s L r → (done ++ [inst]) !! r = Some i →
                       done !! r = Some i) as Hold.
      { intros L r i (i' & ? & ? & Hr & _)%(inv_members _ _ _ Hinv) Hi.
        rewrite lookup_app_l in Hi; [done|]. by eapply lookup_lt_Some. }
      assert (∀ L r i sp, in_layer s L r → done !! r = Some i →
                inst_span i = Some sp → layer ≤ L →
                ¬ overlapping sp (mn, mx)) as Hfresh.
      { intros L r i sp Hr Hi Hsp HL (w & Hw1 & Hw2). simpl in Hw2.
        destruct (inv_members _ _ _ Hinv L r Hr)
          as (i' & mn' & mx' & Hdone & Hspan & Hpos & Hreach).
        simplify_eq. simpl in Hw1.
        destruct (Hreach w Hw1) as (l & Hl & HLl).
        destruct (Hbelow w Hw2) as (l' & Hl' & ?). simplify_eq. lia. }
      assert (∀ i sp, (done ++ [inst]) !! ref s = Some i →
                inst_span i = Some sp → sp = (mn, mx)) as Hlast.
      { intros i sp Hi Hsp. rewrite (inv_ref _ _ _ Hinv) in Hi.
        rewrite list_lookup_middle in Hi by done. simplify_eq.
        unfold inst_span in Hsp. rewrite Hw in Hsp. by simplify_eq/=. }
      intros L r1 r2 i1 i2 sp1 sp2 Hne12
        [Hr1|[-> ->]]%Hiff [Hr2|[HL ->]]%Hiff Hi1 Hi2 Hsp1 Hsp2.
      * apply (inv_disjoint _ _ _ Hinv L r1 r2 i1 i2); eauto.
      * subst L. rewrite (Hlast _ _ Hi2 Hsp2). eapply Hfresh; eauto. lia.
      * rewrite (Hlast _ _ Hi1 Hsp1). intros (w & ? & ?).
        eapply (Hfresh layer r2 i2 sp2); eauto; [lia|]. by exists w.
      * done.
Qed.

Lemma place_all_app (s : Layering) (l1 l2 : list Instruction) :
  place_all format_name s (l1 ++ l2)
  = place_all format_name s l1 ≫= λ s1, place_all format_name s1 l2.
Proof.
  revert s. induction l1 as [|inst l1 IH]; intros s; simpl; [done|].
  destruct (place format_name s inst); simpl; [apply IH|done].
Qed.

(** The loop runs to its end on placeable instructions, and keeps what it
    maintains. *)
Lemma place_all_spec (nw : Z) (done rest : list Instruction)
    (s : Layering) :
  layering_inv nw done s → Forall (placeable nw) rest →
  ∃ s', place_all format_name s rest = Some s'
        ∧ layering_inv nw (done ++ rest) s'
        ∧ ∀ L r, in_layer s L r → in_layer s' L r.
Proof.
  intros Hinv Hrest. revert done s Hinv.
  induction Hrest as [|inst rest Hinst _ IH]; intros done s Hinv.
  - exists s. rewrite app_nil_r. done.
  - destruct (place_spec nw done s inst Hinv Hinst)
      as (s1 & mn & mx & layer & _ & Hs1 & _ & _ & Hiff & _ & Hinv1).
    destruct (IH _ _ Hinv1) as (s' & Hs' & Hinv' & Hmono).
    exists s'. simpl. rewrite Hs1. simpl.
    split_and!; [done|by rewrite <- app_assoc in Hinv'|].
    intros L r Hr. apply Hmono, Hiff. by left.
Qed.

(** C8.  On a trace of fewer than [2^31] qudits (the number is held in
    an [int]) whose instructions are placeable, the layering loop of
    [draw] runs to its end.  [wire_layer] starts at [-1] on every wire.
    Instruction [k] has a span [mn, mx] that covers all its targets and
    controls; it is put in the layer [layer] that is one more than the
    largest entry of [wire_layer] over the span in the state reached
    after the first [k] instructions; the iteration stores [layer] on
    every wire of the span and leaves the other entries alone.  In the
    end no layer holds two instructions whose spans share a wire. *)
Theorem layering_separates_overlapping_spans (trace : Trace) :
  getNumQudits trace < 2 ^ 31 →
  Forall (placeable (getNumQudits trace)) (instructions trace) →
  ∃ s,
    layering format_name trace = Some s
    ∧ wire_layer (initial (getNumQudits trace))
      = replicate (Z.to_nat (getNumQudits trace)) (-1)
    ∧ (∀ k inst,
         instructions trace !! k = Some inst →
         ∃ before after mn mx layer,
           place_all format_name (initial (getNumQudits trace))
                     (take k (instructions trace)) = Some before
           ∧ place format_name before inst = Some after
           ∧ inst_span inst = Some (mn, mx)
           ∧ (∀ q, q ∈ targets inst ++ controls inst → mn ≤ id q ≤ mx)
           ∧ (∀ w, mn ≤ w ≤ mx →
                   ∃ l, wire_layer before !! Z.to_nat w = Some l
                        ∧ l ≤ layer - 1)
           ∧ (∃ w, mn ≤ w ≤ mx
                   ∧ wire_layer before !! Z.to_nat w = Some (layer - 1))
           ∧ (∀ j : nat,
                wire_layer after !! j =
                if bool_decide (mn ≤ Z.of_nat j ≤ mx) then Some layer
                else wire_layer before !! j)
           ∧ in_layer s layer k)
    ∧ (∀ L k1 k2 i1 i2 sp1 sp2,
         k1 ≠ k2 → in_layer s L k1 → in_layer s L k2 →
         instructions trace !! k1 = Some i1 →
         instructions trace !! k2 = Some i2 →
         inst_span i1 = Some sp1 → inst_span i2 = Some sp2 →
         ¬ overlapping sp1 sp2).
Proof.
  intros _ Hall. unfold layering.
  set (nw := getNumQudits trace). set (insts := instructions trace).
  destruct (place_all_spec nw [] insts (initial nw))
    as (s & Hs & Hinv & _); [apply layering_inv_initial|done|].
  exists s. split_and!; [done|done| |].
  - intros k inst Hk.
    assert (insts = take k insts ++ inst :: drop (S k) insts) as Hsplit
      by (symmetry; by apply take_drop_middle).
    assert (Forall (placeable nw) (take k insts)) as Hpre
      by by apply Forall_take.
    assert (placeable nw inst) as Hinst
      by (rewrite Forall_forall in Hall; eapply Hall, list_elem_of_lookup_2;
          done).
    assert (Forall (placeable nw) (drop (S k) insts)) as Hpost
      by by apply Forall_drop.
    destruct (place_all_spec nw [] (take k insts) (initial nw))
      as (before & Hbefore & Hinvb & _);
      [apply layering_inv_initial|done|].
    simpl in Hinvb.
    destruct (place_spec nw _ before inst Hinvb Hinst)
      as (after & mn & mx & layer & Hspan & Hafter & Hbelow & Hatt & Hiff
          & Hwires & Hinva).
    destruct (place_all_spec nw _ (drop (S k) insts) after Hinva Hpost)
      as (s' & Hs' & _ & Hmono).
    assert (s' = s) as ->.
    { rewrite Hsplit, place_all_app, Hbefore in Hs. simpl in Hs.
      rewrite Hafter in Hs. simpl in Hs. congruence. }
    exists before, after, mn, mx, layer.
    split_and!; [done..| |done|done|done|].
    + intros q Hq. unfold inst_span in Hspan.
      destruct (inst_wires_spec inst (proj1 Hinst))
        as (ws & ov & mn' & mx' & Hw & _ & Hcov & _).
      rewrite Hw in Hspan. simplify_eq/=. apply Hcov.
      unfold inst_ids, convertToIDs. rewrite <- map_app.
      by apply (list_elem_of_fmap_2 id).
    + apply Hmono, Hiff. right. split; [done|].
      rewrite (inv_ref _ _ _ Hinvb), length_take.
      apply lookup_lt_Some in Hk. lia.
  - intros L k1 k2 i1 i2 sp1 sp2. apply (inv_disjoint _ _ _ Hinv).
Qed.

End Layering.

(** *** Emission only adds to the substitution module *)

Section Frames.
Import ArgConv.

Lemma bind_Ok {A B} (m : M A) (k : A → M B) (w : World) (b : B)
    (w' : World) :
  bind m k w = Ok (b, w') ↔ ∃ a w1, m w = Ok (a, w1) ∧ k a w1 = Ok (b, w').
Proof.
  unfold bind. destruct (m w) as [[a w1]|e].
  - split; [by exists a, w1|]. by intros (? & ? & [= <- <-] & ?).
  - split; [done|]. by intros (? & ? & ? & _).
Qed.

Lemma op_ext_refl (op : Operation) : op_ext op op.
Proof.
  destruct op; simpl; try done. split; [done|].
  intros b blk Hb. exists []. by rewrite app_nil_r.
Qed.

Lemma op_ext_trans (a b c : Operation) : op_ext a b → op_ext b c → op_ext a c.
Proof.
  destruct a; simpl; try (intros <-; simpl; done).
  destruct b; simpl; try done. destruct c; simpl; try done.
  intros [-> H1] [-> H2]. split; [done|].
  intros k blk Hk. destruct (H1 _ _ Hk) as (ops1 & Hk1).
  destruct (H2 _ _ Hk1) as (ops2 & Hk2).
  exists (ops1 ++ ops2). by rewrite app_assoc.
Qed.

Lemma body_ext_refl (B : list Operation) : body_ext B B.
Proof. intros k op Hk. exists op. split; [done|apply op_ext_refl]. Qed.

Lemma body_ext_trans (A B C : list Operation) :
  body_ext A B → body_ext B C → body_ext A C.
Proof.
  intros H1 H2 k op Hk. destruct (H1 _ _ Hk) as (op1 & Hk1 & He1).
  destruct (H2 _ _ Hk1) as (op2 & Hk2 & He2).
  exists op2. split; [done|by eapply op_ext_trans].
Qed.

Lemma body_ext_app (B extra : list Operation) : body_ext B (B ++ extra).
Proof.
  intros k op Hk. exists op. split; [|apply op_ext_refl].
  by apply lookup_app_l_Some.
Qed.

Lemma body_ext_insert (B : list Operation) (o : nat) (op op' : Operation) :
  B !! o = Some op → op_ext op op' → body_ext B (<[o := op']> B).
Proof.
  intros Ho Hext k x Hk. destruct (decide (o = k)) as [->|Hne].
  - exists op'. rewrite list_lookup_insert_eq by (by eapply lookup_lt_Some).
    split; [done|]. congruence.
  - exists x. rewrite list_lookup_insert_ne by done.
    split; [done|apply op_ext_refl].
Qed.

Lemma world_ext_refl (S : nat) (w : World) : world_ext S w w.
Proof.
  split_and!; [done..|]. intros md Hmd. exists md.
  split_and!; [done..|apply body_ext_refl].
Qed.

Lemma world_ext_trans (S : nat) (w1 w2 w3 : World) :
  world_ext S w1 w2 → world_ext S w2 w3 → world_ext S w1 w3.
Proof.
  intros (Hl1 & Ho1 & Hs1) (Hl2 & Ho2 & Hs2). split_and!.
  - congruence.
  - intros m Hm. rewrite Ho2, Ho1 by done. done.
  - intros md Hmd. destruct (Hs1 _ Hmd) as (md1 & Hmd1 & Ha1 & Hb1).
    destruct (Hs2 _ Hmd1) as (md2 & Hmd2 & Ha2 & Hb2).
    exists md2. split_and!; [done|congruence|by eapply body_ext_trans].
Qed.

(** A world that differs from [w] in module [S] only. *)
Lemma world_ext_insert (S : nat) (w : World) (md : ModuleOp)
    (B : list Operation) (p : InsertionPoint) (h : Heap) (k : Z) :
  modules w !! S = Some md → body_ext (mbody md) B →
  world_ext S w {| modules := <[S := set_body B md]> (modules w);
                   ip := p; heap := h; brk := k |}.
Proof.
  intros Hmd HB. split_and!; simpl.
  - by rewrite length_insert.
  - intros m Hm. by rewrite list_lookup_insert_ne.
  - intros md0 Hmd0. simplify_eq. exists (set_body B md).
    split_and!; [|done..]. apply list_lookup_insert_eq.
    by eapply lookup_lt_Some.
Qed.

(** The blocks of module [S] only get longer. *)
Lemma world_ext_block (S : nat) (w w' : World) (o b : nat)
    (blk : list Operation) :
  world_ext S w w' →
  block_at (modules w) (EndOfBlock S o b) = Some blk →
  ∃ ops, block_at (modules w') (EndOfBlock S o b) = Some (blk ++ ops).
Proof.
  intros (_ & _ & HS) Hblk. simpl in *.
  destruct (modules w !! S) as [md|] eqn:Hmd; [|done]. simpl in Hblk.
  destruct (mbody md !! o) as [op|] eqn:Hop; [|done]. simpl in Hblk.
  destruct (HS md eq_refl) as (md' & -> & _ & HB). simpl.
  destruct (HB _ _ Hop) as (op' & -> & Hext). simpl.
  destruct op; try done. destruct op'; try done.
  destruct Hext as [_ Hext]. by apply Hext.
Qed.

Lemma in_block_ext (S : nat) (w w' : World) :
  in_block S w → ip w' = ip w → world_ext S w w' → in_block S w'.
Proof.
  intros (o & b & blk & Hip & Hblk) Hip' Hext. rewrite Hip in Hblk.
  destruct (world_ext_block _ _ _ _ _ _ Hext Hblk) as (ops & Hops).
  exists o, b, (blk ++ ops). rewrite Hip', Hip. done.
Qed.

Lemma current_block_ext (S : nat) (w w' : World) :
  in_block S w → ip w' = ip w → world_ext S w w' →
  ∃ ops, current_block w' = current_block w ++ ops.
Proof.
  intros (o & b & blk & Hip & Hblk) Hip' Hext. unfold current_block.
  rewrite Hip', Hblk. rewrite Hip in *.
  destruct (world_ext_block _ _ _ _ _ _ Hext Hblk) as (ops & ->).
  by exists ops.
Qed.

Lemma valid_value_ext (S : nat) (w w' : World) (v : Value) :
  in_block S w → ip w' = ip w → world_ext S w w' →
  valid_value w v → valid_value w' v.
Proof.
  intros Hin Hip Hext Hv r Hr. destruct (Hv r Hr) as [Hat Hidx].
  destruct (current_block_ext _ _ _ Hin Hip Hext) as (ops & ->).
  rewrite Hip, length_app. split; [done|lia].
Qed.

(** [create] in a block appends to that block, and to nothing else. *)
Lemma create_in_block (S : nat) (w : World) (new : Operation) :
  in_block S w →
  ∃ w', create new w
        = Ok (Some {| owner_at := ip w;
                      owner_index := length (current_block w) |}, w')
        ∧ ip w' = ip w ∧ heap w' = heap w ∧ brk w' = brk w
        ∧ current_block w' = current_block w ++ [new]
        ∧ world_ext S w w'.
Proof.
  intros (o & b & blk & Hip & Hblk). unfold create, current_block.
  rewrite Hblk. rewrite Hip in *. simpl in *.
  destruct (modules w !! S) as [md|] eqn:Hmd; [|done]. simpl in *.
  destruct (mbody md !! o) as [op|] eqn:Hop; [|done]. simpl in *.
  destruct op; try done. rewrite Hblk. simpl.
  eexists. split; [reflexivity|]. simpl.
  assert (o < length (mbody md))%nat by (by eapply lookup_lt_Some).
  assert (b < length body)%nat by (by eapply lookup_lt_Some).
  assert (S < length (modules w))%nat by (by eapply lookup_lt_Some).
  split_and!; [done..| |].
  - rewrite Hip. simpl. rewrite list_lookup_insert_eq by done. simpl.
    rewrite list_lookup_insert_eq by done. simpl.
    by rewrite list_lookup_insert_eq.
  - apply world_ext_insert; [done|].
    eapply body_ext_insert; [done|]. simpl. split; [done|].
    intros k blk' Hk. destruct (decide (b = k)) as [->|Hne].
    + rewrite list_lookup_insert_eq by done. simplify_eq. by eexists.
    + rewrite list_lookup_insert_ne by done. exists [].
      by rewrite app_nil_r.
Qed.

(** **** Emitters only add to the module they emit into *)

Ltac inv_bind H :=
  let a := fresh "a" in
  let w := fresh "w" in
  let H1 := fresh H in
  apply bind_Ok in H as (a & w & H1 & H).

Lemma pres_same {A} (S : nat) (m : M A) :
  (∀ w a w', m w = Ok (a, w') → modules w' = modules w ∧ ip w' = ip w) →
  pres S m.
Proof.
  intros Hm w a w' _ Hrun. destruct (Hm _ _ _ Hrun) as [Hmods Hip].
  split; [done|]. split_and!; [by rewrite Hmods|by rewrite Hmods|].
  intros md Hmd. exists md. rewrite Hmods.
  split_and!; [done..|apply body_ext_refl].
Qed.

Lemma pres_ret {A} (S : nat) (a : A) : pres S (ret a).
Proof. apply pres_same. by intros w a' w' [= <- <-]. Qed.

Lemma pres_fatal {A} (S : nat) (e : Error) : pres S (@fatal A e).
Proof. by intros w a w' _ ?. Qed.

Lemma pres_gets {A} (S : nat) (f : World → A) : pres S (gets f).
Proof. apply pres_same. by intros w a' w' [= <- <-]. Qed.

Lemma pres_assert (S : nat) (c : bool) (what : string) :
  pres S (assert c what).
Proof. destruct c; [apply pres_ret|apply pres_fatal]. Qed.

Lemma pres_bind {A B} (S : nat) (m : M A) (k : A → M B) :
  pres S m → (∀ a, pres S (k a)) → pres S (bind m k).
Proof.
  intros Hm Hk w b w' Hin Hrun. inv_bind Hrun.
  destruct (Hm _ _ _ Hin Hrun0) as [Hip1 Hext1].
  destruct (Hk a _ _ _ (in_block_ext _ _ _ Hin Hip1 Hext1) Hrun)
    as [Hip2 Hext2].
  split; [congruence|by eapply world_ext_trans].
Qed.

Lemma emits_pres (S : nat) (e : M Value) : emits S e → pres S e.
Proof. intros He w v w' Hin Hrun. by destruct (He _ _ _ Hin Hrun) as (?&?&_). Qed.

Lemma emits_bind {A} (S : nat) (m : M A) (k : A → M Value) :
  pres S m → (∀ a, emits S (k a)) → emits S (bind m k).
Proof.
  intros Hm Hk w b w' Hin Hrun. inv_bind Hrun.
  destruct (Hm _ _ _ Hin Hrun0) as [Hip1 Hext1].
  destruct (Hk a _ _ _ (in_block_ext _ _ _ Hin Hip1 Hext1) Hrun)
    as (Hip2 & Hext2 & Hv).
  split_and!; [congruence|by eapply world_ext_trans|done].
Qed.

Lemma emits_ret_None (S : nat) : emits S (ret None).
Proof.
  intros w v w' _ [= <- <-]. split_and!; [done|apply world_ext_refl|].
  by intros r.
Qed.

Lemma emits_fatal (S : nat) (e : Error) : emits S (fatal e).
Proof. by intros w a w' _ ?. Qed.

Lemma emits_create (S : nat) (new : Operation) : emits S (create new).
Proof.
  intros w v w' Hin Hrun.
  destruct (create_in_block S w new Hin)
    as (w1 & Hc & Hip & _ & _ & Hblk & Hext).
  rewrite Hc in Hrun. simplify_eq. split_and!; [done..|].
  intros r [= <-]. simpl. rewrite Hblk, length_app. simpl.
  split; [done|lia].
Qed.

Lemma pres_create (S : nat) (new : Operation) : pres S (create new).
Proof. apply emits_pres, emits_create. Qed.

(** A value that was valid stays valid while the emitter runs. *)
Lemma pres_valid {A} (S : nat) (m : M A) (w : World) (a : A) (w' : World)
    (v : Value) :
  pres S m → in_block S w → m w = Ok (a, w') → valid_value w v →
  valid_value w' v ∧ in_block S w'.
Proof.
  intros Hm Hin Hrun Hv. destruct (Hm _ _ _ Hin Hrun) as [Hip Hext].
  split; [by eapply valid_value_ext|by eapply in_block_ext].
Qed.

Create HintDb emit.

#[local] Hint Resolve pres_ret pres_fatal pres_gets pres_assert pres_create
  emits_create emits_ret_None emits_fatal : emit.

Ltac emit :=
  repeat first
    [ apply emits_bind; [|intros ?]
    | apply pres_bind; [|intros ?]
    | solve [eauto with emit] ].

Section Emitters.
Variable target : Target.
Variable S : nat.

Lemma pres_load_bool p : pres S (load_bool p).
Proof. apply pres_gets. Qed.
Lemma pres_load_int bits p : pres S (load_int bits p).
Proof. apply pres_gets. Qed.
Lemma pres_load_bits n p : pres S (load_bits n p).
Proof. apply pres_gets. Qed.

Lemma pres_new bytes : pres S (new bytes).
Proof. apply pres_same. by intros w a w' [= <- <-]. Qed.

Lemma pres_to_host s hostData bytes : pres S (to_host s hostData bytes).
Proof. apply pres_same. by intros w a w' [= <- <-]. Qed.

#[local] Hint Resolve pres_load_bool pres_load_int pres_load_bits pres_new
  pres_to_host : emit.

Lemma pres_readStateData s : pres S (readStateData s).
Proof.
  unfold readStateData. destruct (is_on_gpu s); [|emit].
  destruct (get_precision s); emit.
Qed.

Lemma pres_genCStringLiteralAppendNul cstring :
  pres S (genCStringLiteralAppendNul target S cstring).
Proof.
  intros w g w' Hin Hrun. unfold genCStringLiteralAppendNul in Hrun.
  destruct (modules w !! S) as [md|] eqn:Hmd; [|done].
  destruct (find_literal _ _).
  - simplify_eq. split; [done|apply world_ext_refl].
  - simplify_eq. split; [done|].
    destruct w. apply world_ext_insert; [done|]. apply body_ext_app.
Qed.

Lemma emits_genConstant_string v : emits S (genConstant_string target v S).
Proof.
  unfold genConstant_string. apply emits_bind;
    [apply pres_genCStringLiteralAppendNul|intros ?]. emit.
Qed.

Lemma Emits_dispatch_ComplexType elementType :
  Emits S (dispatch_ComplexType elementType).
Proof.
  intros p layout platform. unfold dispatch_ComplexType.
  destruct elementType; unfold genConstant_complex_float,
    genConstant_complex_double, genComplexConstant; emit.
Qed.

(** The loops thread the aggregate built so far, which stays valid. *)
Lemma emits_array_loop recur arrTy eleSize layout platform n :
  Emits S recur →
  ∀ i cursor aggie w v w',
    in_block S w → valid_value w aggie →
    array_loop recur arrTy eleSize S layout platform n i cursor aggie w
      = Ok (v, w') →
    ip w' = ip w ∧ world_ext S w w' ∧ valid_value w' v.
Proof.
  intros Hrecur. induction n as [|n IH]; intros i cursor aggie w v w' Hin Hv.
  - intros [= <- <-]. split_and!; [done|apply world_ext_refl|done].
  - simpl. intros Hrun. inv_bind Hrun. inv_bind Hrun.
    destruct (Hrecur _ _ _ _ _ _ Hin Hrun0) as (Hip1 & Hext1 & Hv1).
    pose proof (in_block_ext _ _ _ Hin Hip1 Hext1) as Hin1.
    pose proof (valid_value_ext _ _ _ _ Hin Hip1 Hext1 Hv) as Hag1.
    assert (ip w1 = ip w0 ∧ world_ext S w0 w1 ∧ valid_value w1 a0)
      as (Hip2 & Hext2 & Hv2).
    { destruct a as [r|].
      - by apply (emits_create S _ _ _ _ Hin1 Hrun1).
      - injection Hrun1 as <- <-.
        split_and!; [done|apply world_ext_refl|done]. }
    pose proof (in_block_ext _ _ _ Hin1 Hip2 Hext2) as Hin2.
    destruct (IH _ _ _ _ _ _ Hin2 Hv2 Hrun) as (Hip3 & Hext3 & Hv3).
    split_and!; [congruence| |done].
    eapply world_ext_trans; [|done]. by eapply world_ext_trans.
Qed.

Lemma Emits_genArray recur eleTy size :
  Emits S recur → Emits S (genArray target recur eleTy size).
Proof.
  intros Hrecur p layout platform. unfold genArray.
  destruct size as [arrSize|]; [|apply emits_ret_None].
  intros w v w' Hin Hrun. inv_bind Hrun.
  destruct (emits_create S _ _ _ _ Hin Hrun0) as (Hip1 & Hext1 & Hv1).
  pose proof (in_block_ext _ _ _ Hin Hip1 Hext1) as Hin1.
  destruct (emits_array_loop _ _ _ _ _ _ Hrecur _ _ _ _ _ _ Hin1 Hv1 Hrun)
    as (Hip2 & Hext2 & Hv2).
  split_and!; [congruence|by eapply world_ext_trans|done].
Qed.

Lemma pres_stdvec_loop recur elePtrTy buffer eleSize layout platform n :
  Emits S recur →
  ∀ i cursor,
    pres S (stdvec_loop recur elePtrTy buffer eleSize S layout platform
                        n i cursor).
Proof.
  intros Hrecur. induction n as [|n IH]; intros i cursor; simpl; [emit|].
  apply pres_bind; [apply emits_pres, Hrecur|intros val].
  apply pres_bind; [|intros _; apply IH]. destruct val; emit.
Qed.

Lemma Emits_genStdvec recur eleTy :
  Emits S recur → Emits S (genStdvec target recur eleTy).
Proof.
  intros Hrecur p layout platform. unfold genStdvec.
  apply emits_bind; [emit|intros begin].
  apply emits_bind; [emit|intros end_].
  destruct (_ =? 0); [emit|].
  apply emits_bind; [emit|intros _].
  apply emits_bind; [emit|intros buffer].
  apply emits_bind; [by apply pres_stdvec_loop|intros _]. emit.
Qed.

Lemma emits_struct_loop strTy cursor layout platform recur :
  Forall (Emits S) recur →
  ∀ i aggie w v w',
    in_block S w → valid_value w aggie →
    struct_loop target strTy cursor S layout platform recur i aggie w
      = Ok (v, w') →
    ip w' = ip w ∧ world_ext S w w' ∧ valid_value w' v.
Proof.
  induction 1 as [|member recur Hmember _ IH];
    intros i aggie w v w' Hin Hv.
  - intros [= <- <-]. split_and!; [done|apply world_ext_refl|done].
  - simpl. intros Hrun. inv_bind Hrun. inv_bind Hrun.
    destruct (Hmember _ _ _ _ _ _ Hin Hrun0) as (Hip1 & Hext1 & Hv1).
    pose proof (in_block_ext _ _ _ Hin Hip1 Hext1) as Hin1.
    pose proof (valid_value_ext _ _ _ _ Hin Hip1 Hext1 Hv) as Hag1.
    assert (ip w1 = ip w0 ∧ world_ext S w0 w1 ∧ valid_value w1 a0)
      as (Hip2 & Hext2 & Hv2).
    { destruct a as [r|].
      - by apply (emits_create S _ _ _ _ Hin1 Hrun1).
      - injection Hrun1 as <- <-.
        split_and!; [done|apply world_ext_refl|done]. }
    pose proof (in_block_ext _ _ _ Hin1 Hip2 Hext2) as Hin2.
    destruct (IH _ _ _ _ _ Hin2 Hv2 Hrun) as (Hip3 & Hext3 & Hv3).
    split_and!; [congruence| |done].
    eapply world_ext_trans; [|done]. by eapply world_ext_trans.
Qed.

Lemma Emits_genStruct recur members :
  Forall (Emits S) recur → Emits S (genStruct target recur members).
Proof.
  intros Hrecur p layout platform. unfold genStruct.
  destruct members as [|m members]; [apply emits_ret_None|].
  intros w v w' Hin Hrun. inv_bind Hrun.
  destruct (emits_create S _ _ _ _ Hin Hrun0) as (Hip1 & Hext1 & Hv1).
  pose proof (in_block_ext _ _ _ Hin Hip1 Hext1) as Hin1.
  destruct (emits_struct_loop _ _ _ _ _ Hrecur _ _ _ _ _ Hin1 Hv1 Hrun)
    as (Hip2 & Hext2 & Hv2).
  split_and!; [congruence|by eapply world_ext_trans|done].
Qed.

Lemma emits_tuple_loop fwdTy revCon n members :
  ∀ i aggie w v w',
    in_block S w → valid_value w aggie →
    tuple_loop fwdTy revCon n members i aggie w = Ok (v, w') →
    ip w' = ip w ∧ world_ext S w w' ∧ valid_value w' v.
Proof.
  induction members as [|ty members IH]; intros i aggie w v w' Hin Hv.
  - intros [= <- <-]. split_and!; [done|apply world_ext_refl|done].
  - simpl. intros Hrun. inv_bind Hrun. inv_bind Hrun.
    destruct (emits_create S _ _ _ _ Hin Hrun0) as (Hip1 & Hext1 & Hv1).
    pose proof (in_block_ext _ _ _ Hin Hip1 Hext1) as Hin1.
    destruct (emits_create S _ _ _ _ Hin1 Hrun1) as (Hip2 & Hext2 & Hv2).
    pose proof (in_block_ext _ _ _ Hin1 Hip2 Hext2) as Hin2.
    destruct (IH _ _ _ _ _ Hin2 Hv2 Hrun) as (Hip3 & Hext3 & Hv3).
    split_and!; [congruence| |done].
    eapply world_ext_trans; [|done]. by eapply world_ext_trans.
Qed.

Lemma Emits_genTuple revWalk types :
  Emits S revWalk → Emits S (genTuple revWalk types).
Proof.
  intros Hrev p layout platform. unfold genTuple.
  destruct types as [|ty types]; [apply emits_ret_None|].
  intros w v w' Hin Hrun. inv_bind Hrun. inv_bind Hrun.
  destruct (Hrev _ _ _ _ _ _ Hin Hrun0) as (Hip1 & Hext1 & Hv1).
  pose proof (in_block_ext _ _ _ Hin Hip1 Hext1) as Hin1.
  destruct (emits_create S _ _ _ _ Hin1 Hrun1) as (Hip2 & Hext2 & Hv2).
  pose proof (in_block_ext _ _ _ Hin1 Hip2 Hext2) as Hin2.
  destruct (emits_tuple_loop _ _ _ _ _ _ _ _ _ Hin2 Hv2 Hrun)
    as (Hip3 & Hext3 & Hv3).
  split_and!; [congruence| |done].
  eapply world_ext_trans; [|done]. by eapply world_ext_trans.
Qed.

Lemma Emits_genConstant_state : Emits S (genConstant_state target).
Proof.
  intros v layout platform. unfold genConstant_state.
  destruct (isSimulator platform && negb (isRemote platform)); [emit|].
  destruct (isSimulator platform && isRemote platform).
  - apply emits_bind; [apply pres_readStateData|intros stateData].
    apply Emits_genArray, Emits_dispatch_ComplexType.
  - unfold TODO. emit.
Qed.

(** Induction on types, through the member lists. *)
Lemma Ty_nested_ind (P : Ty → Prop) :
  (∀ width, P (IntegerType width)) →
  P Float32Type → P Float64Type →
  (∀ width, P (FloatType width)) →
  (∀ element, P element → P (ComplexType element)) →
  P CharspanType → P StateType →
  (∀ element, P element → P (PointerType element)) →
  (∀ element, P element → P (StdvecType element)) →
  (∀ members, Forall P members → P (StructType members)) →
  (∀ element size, P element → P (ArrayType element size)) →
  (∀ types, Forall P types → P (TupleType types)) →
  (∀ mnemonic, P (OtherType mnemonic)) →
  ∀ ty, P ty.
Proof.
  intros Hint Hf32 Hf64 Hflt Hcplx Hchar Hstate Hptr Hvec Hstruct Harr
    Htup Hother.
  fix IH 1. intros [w| | |w|e| | |e|e|ms|e n|ts|s].
  - apply Hint.
  - apply Hf32.
  - apply Hf64.
  - apply Hflt.
  - apply Hcplx, IH.
  - apply Hchar.
  - apply Hstate.
  - apply Hptr, IH.
  - apply Hvec, IH.
  - apply Hstruct.
    exact ((fix go (l : list Ty) : Forall P l :=
              match l with
              | [] => Forall_nil_2 P
              | t :: l => Forall_cons_2 P t l (IH t) (go l)
              end) ms).
  - apply Harr, IH.
  - apply Htup.
    exact ((fix go (l : list Ty) : Forall P l :=
              match l with
              | [] => Forall_nil_2 P
              | t :: l => Forall_cons_2 P t l (IH t) (go l)
              end) ts).
  - apply Hother.
Qed.

(** The walker only adds to the substitution module, and returns a
    value of the block it emits into. *)
Lemma Emits_dispatchSubtype (ty : Ty) : Emits S (dispatchSubtype target ty).
Proof.
  induction ty as [w| | |w|e _| | |e _|e IHe|ms IHms|e n IHe|ts IHts|s]
    using Ty_nested_ind; simpl.
  - intros p layout platform.
    unfold genConstant_bool, genConstant_char, genConstant_int16,
      genConstant_int32, genConstant_int64, genIntegerConstant.
    repeat (destruct (_ =? _); [emit|]). emit.
  - intros p layout platform. unfold genConstant_float. emit.
  - intros p layout platform. unfold genConstant_double. emit.
  - intros p layout platform. unfold genConstant_long_double. emit.
  - apply Emits_dispatch_ComplexType.
  - intros p layout platform. apply emits_genConstant_string.
  - intros p layout platform. emit.
  - destruct e; try (intros p layout platform; emit).
    apply Emits_genConstant_state.
  - by apply Emits_genStdvec.
  - apply Emits_genStruct. by apply Forall_fmap.
  - by apply Emits_genArray.
  - apply Emits_genTuple, Emits_genStruct.
    by apply Forall_rev, Forall_fmap.
  - intros p layout platform. emit.
Qed.

(** ***** The driver *)

(** [dispatchSubtype] hands each aggregate to its overload of
    [genConstant]. *)
Lemma dispatchSubtype_StdvecType eleTy :
  dispatchSubtype target (StdvecType eleTy)
  = genConstant_StdvecType target eleTy.
Proof. reflexivity. Qed.

Lemma dispatchSubtype_StructType members :
  dispatchSubtype target (StructType members)
  = genConstant_StructType target members.
Proof. reflexivity. Qed.

Lemma dispatchSubtype_ArrayType eleTy size :
  dispatchSubtype target (ArrayType eleTy size)
  = genConstant_ArrayType target eleTy size.
Proof. reflexivity. Qed.

Lemma dispatchSubtype_TupleType types :
  dispatchSubtype target (TupleType types)
  = genConstant_TupleType target types.
Proof.
  simpl. unfold genConstant_TupleType, genConstant_StructType.
  by rewrite map_rev.
Qed.

Lemma substitution_for_ext (w w' : World) (r : OpResult) (i : Z) :
  world_ext S w w' → substitution_for w S r i → substitution_for w' S r i.
Proof.
  intros (_ & _ & HS) (Hat & md & body & Hmd & Hop). split; [done|].
  destruct (HS _ Hmd) as (md' & Hmd' & _ & HB).
  destruct (HB _ _ Hop) as (op' & Hop' & Hext).
  destruct op'; try done. destruct Hext as [<- _]. by exists md', body0.
Qed.

(** Opening a substitution: a new operation at the end of the module,
    with one empty block, in which the builder now stands. *)
Lemma open_substitution_spec (self : ArgumentConverter) (i : Z)
    (w : World) (r : OpResult) (w1 : World) :
  substModule self = S →
  open_substitution self i w = Ok (r, w1) →
  in_block S w1 ∧ current_block w1 = [] ∧ world_ext S w w1
  ∧ substitution_for w1 S r i ∧ heap w1 = heap w.
Proof.
  intros HS Hrun. unfold open_substitution in Hrun. rewrite HS in Hrun.
  inv_bind Hrun. injection Hrun0 as <- <-. inv_bind Hrun.
  unfold create in Hrun0. simpl in Hrun0.
  destruct (modules w !! S) as [md|] eqn:Hmd; [|done]. simpl in Hrun0.
  injection Hrun0 as <- <-. simpl in Hrun.
  assert (S < length (modules w))%nat as HSlt by (by eapply lookup_lt_Some).
  unfold push_back_block in Hrun. simpl in Hrun.
  rewrite list_lookup_insert_eq in Hrun by done. simpl in Hrun.
  rewrite lookup_app_r in Hrun by done.
  rewrite Nat.sub_diag in Hrun. simpl in Hrun.
  injection Hrun as <- <-.
  rewrite list_insert_insert_eq.
  set (op := cc_ArgumentSubstitutionOp i [[]]).
  assert (<[length (mbody md) := op]>
            (mbody md ++ [cc_ArgumentSubstitutionOp i []])
          = mbody md ++ [op]) as ->.
  { rewrite insert_app_r_alt by done. by rewrite Nat.sub_diag. }
  assert ((mbody md ++ [op]) !! length (mbody md) = Some op) as Hop
    by (by apply list_lookup_middle).
  change (set_body (mbody md ++ [op]) (set_body _ md))
    with (set_body (mbody md ++ [op]) md).
  split_and!.
  - exists (length (mbody md)), 0%nat, []. split; [done|]. simpl.
    rewrite list_lookup_insert_eq by done. simpl. by rewrite Hop.
  - unfold current_block. simpl.
    rewrite list_lookup_insert_eq by done. simpl. by rewrite Hop.
  - apply world_ext_insert; [done|]. apply body_ext_app.
  - split; [done|]. exists (set_body (mbody md ++ [op]) md), [[]].
    simpl. by rewrite list_lookup_insert_eq.
  - done.
Qed.

Lemma buildSubst_spec (self : ArgumentConverter) (i : Z)
    (genConstant : M Value) (w : World) (v : Value) (w' : World) :
  substModule self = S → emits S genConstant →
  buildSubst self i genConstant w = Ok (v, w') →
  world_ext S w w' ∧ ∃ r, v = Some r ∧ substitution_for w' S r i.
Proof.
  intros HS He Hrun. unfold buildSubst in Hrun.
  inv_bind Hrun. inv_bind Hrun. injection Hrun as <- <-.
  destruct (open_substitution_spec _ _ _ _ _ HS Hrun0)
    as (Hin & _ & Hext & Hsub & _).
  destruct (He _ _ _ Hin Hrun1) as (_ & Hext' & _).
  split; [by eapply world_ext_trans|].
  exists a. split; [done|by eapply substitution_for_ext].
Qed.

(** The [TypeSwitch] of [gen] returns a substitution exactly for the
    types that have an emitter, whatever the emitter returns. *)
Lemma gen_switch_spec (self : ArgumentConverter) (i : Z) (argTy : Ty)
    (argPtr : Z) (dataLayout : string) (w : World) (v : Value)
    (w' : World) :
  substModule self = S →
  gen_switch target self i argTy argPtr dataLayout w = Ok (v, w') →
  world_ext S w w'
  ∧ if has_emitter argTy
    then ∃ r, v = Some r ∧ substitution_for w' S r i
    else v = None ∧ w' = w.
Proof.
  intros HS Hrun.
  assert (∀ e, emits S e → buildSubst self i e w = Ok (v, w') →
            world_ext S w w'
            ∧ ∃ r, v = Some r ∧ substitution_for w' S r i) as Hbuild
    by (intros e He; by apply buildSubst_spec).
  assert (v = None ∧ w' = w → world_ext S w w' ∧ v = None ∧ w' = w)
    as Hskip by (intros [-> ->]; split; [apply world_ext_refl|done]).
  destruct argTy as [width| | |width|e| | |e|e|ms|e n|ts|s];
    simpl in Hrun |- *.
  - unfold genConstant_bool, genConstant_char, genConstant_int16,
      genConstant_int32, genConstant_int64, genIntegerConstant in Hrun.
    repeat (destruct (width =? _); simpl;
            [inv_bind Hrun; injection Hrun0 as <- <-;
             eapply Hbuild; [|done]; apply emits_create|]).
    apply Hskip. by injection Hrun as <- <-.
  - inv_bind Hrun; injection Hrun0 as <- <-.
    eapply Hbuild; [|done]; apply emits_create.
  - inv_bind Hrun; injection Hrun0 as <- <-.
    eapply Hbuild; [|done]; apply emits_create.
  - inv_bind Hrun. destruct (width >? 64); [|done].
    injection Hrun0 as <- <-. eapply Hbuild; [|done].
    unfold genConstant_long_double. emit.
  - destruct e; try (apply Hskip; by injection Hrun as <- <-).
    + inv_bind Hrun; injection Hrun0 as <- <-.
      inv_bind Hrun; injection Hrun0 as <- <-.
      eapply Hbuild; [|done]; apply emits_create.
    + inv_bind Hrun; injection Hrun0 as <- <-.
      inv_bind Hrun; injection Hrun0 as <- <-.
      eapply Hbuild; [|done]; apply emits_create.
  - eapply Hbuild; [|done]. rewrite HS. apply emits_genConstant_string.
  - apply Hskip. by injection Hrun as <- <-.
  - destruct e; try (apply Hskip; by injection Hrun as <- <-).
    eapply Hbuild; [|done]. rewrite HS. apply Emits_genConstant_state.
  - eapply Hbuild; [|done]. rewrite HS.
    apply (Emits_dispatchSubtype (StdvecType e)).
  - eapply Hbuild; [|done]. rewrite HS.
    apply (Emits_dispatchSubtype (StructType ms)).
  - eapply Hbuild; [|done]. rewrite HS.
    apply (Emits_dispatchSubtype (ArrayType e n)).
  - eapply Hbuild; [|done]. rewrite HS, <- dispatchSubtype_TupleType.
    apply (Emits_dispatchSubtype (TupleType ts)).
  - apply Hskip. by injection Hrun as <- <-.
Qed.

Lemma gen_step_spec (self : ArgumentConverter) (i : Z) (argTy : Ty)
    (argPtr : Z) (w : World) (self' : ArgumentConverter) (w' : World) :
  substModule self = S →
  gen_step target self i argTy argPtr w = Ok (self', w') →
  world_ext S w w'
  ∧ substModule self' = S ∧ sourceModule self' = sourceModule self
  ∧ if has_emitter argTy
    then ∃ r, substitutions self' = substitutions self ++ [r]
              ∧ substitution_for w' S r i
    else self' = self ∧ w' = w.
Proof.
  intros HS Hrun. unfold gen_step in Hrun. inv_bind Hrun.
  unfold getAttr in Hrun0.
  destruct (modules w !! sourceModule self); [|done].
  injection Hrun0 as <- <-. inv_bind Hrun.
  destruct (gen_switch_spec _ _ _ _ _ _ _ _ HS Hrun0) as [Hext Hcase].
  destruct (has_emitter argTy).
  - destruct Hcase as (r & -> & Hsub). injection Hrun as <- <-.
    split_and!; [done..|]. by exists r.
  - destruct Hcase as [-> ->]. injection Hrun as <- <-. done.
Qed.

Lemma gen_loop_spec (params : list (Ty * Z)) :
  ∀ (self : ArgumentConverter) (i : Z) (w : World)
    (self' : ArgumentConverter) (w' : World),
    substModule self = S →
    gen_loop target self i params w = Ok (self', w') →
    world_ext S w w'
    ∧ substModule self' = S ∧ sourceModule self' = sourceModule self
    ∧ ∃ new, substitutions self' = substitutions self ++ new
             ∧ Forall2 (substitution_for w' S) new
                       (emitted_positions i params).
Proof.
  induction params as [|[argTy argPtr] params IH];
    intros self i w self' w' HS Hrun; simpl in Hrun.
  - injection Hrun as <- <-.
    split_and!; [apply world_ext_refl|done..|].
    exists []. by rewrite app_nil_r.
  - inv_bind Hrun.
    destruct (gen_step_spec _ _ _ _ _ _ _ HS Hrun0)
      as (Hext1 & HS1 & Hsrc1 & Hcase).
    destruct (IH _ _ _ _ _ HS1 Hrun) as (Hext2 & HS2 & Hsrc2 & new & Hnew & Hall).
    split_and!; [by eapply world_ext_trans|done|congruence|].
    simpl. destruct (has_emitter argTy).
    + destruct Hcase as (r & Hr & Hsub). exists (r :: new).
      split; [rewrite Hnew, Hr, <- app_assoc; done|].
      constructor; [by eapply substitution_for_ext|done].
    + destruct Hcase as [-> ->]. by exists new.
Qed.

(** ***** Values of a block that grows *)

Lemma eval_ops_app (env : list IRVal) (ops1 ops2 : list Operation) :
  eval_ops env (ops1 ++ ops2) = eval_ops (eval_ops env ops1) ops2.
Proof. revert env. induction ops1 as [|op ops1 IH]; intros env; simpl; auto. Qed.

Lemma eval_ops_prefix (env : list IRVal) (ops : list Operation) :
  ∃ rest, eval_ops env ops = env ++ rest ∧ length rest = length ops.
Proof.
  revert env. induction ops as [|op ops IH]; intros env; simpl.
  - exists []. by rewrite app_nil_r.
  - destruct (IH (env ++ [eval_op env op])) as (rest & -> & Hlen).
    exists (eval_op env op :: rest). rewrite <- app_assoc. simpl.
    split; [done|lia].
Qed.

Lemma eval_block_length (blk : list Operation) :
  length (eval_block blk) = length blk.
Proof.
  unfold eval_block. destruct (eval_ops_prefix [] blk) as (rest & -> & <-).
  done.
Qed.

Lemma eval_block_snoc (blk : list Operation) (op : Operation) :
  eval_block (blk ++ [op])
  = eval_block blk ++ [eval_op (eval_block blk) op].
Proof. unfold eval_block. by rewrite eval_ops_app. Qed.

(** The value of an operation of a block does not depend on what is
    appended to the block. *)
Lemma value_in_app (blk ops : list Operation) (v : Value) :
  (∀ r, v = Some r → (owner_index r < length blk)%nat) →
  value_in (blk ++ ops) v = value_in blk v.
Proof.
  intros Hv. destruct v as [r|]; [|done]. unfold value_in. simpl.
  unfold eval_block. rewrite eval_ops_app.
  destruct (eval_ops_prefix (eval_ops [] blk) ops) as (rest & -> & _).
  rewrite lookup_app_l; [done|].
  pose proof (eval_block_length blk) as Hlen. unfold eval_block in Hlen.
  rewrite Hlen. by apply Hv.
Qed.

Lemma value_in_last (blk : list Operation) (op : Operation)
    (p : InsertionPoint) :
  value_in (blk ++ [op])
           (Some {| owner_at := p; owner_index := length blk |})
  = eval_op (eval_block blk) op.
Proof.
  unfold value_in. simpl. rewrite eval_block_snoc.
  rewrite lookup_app_r by (by rewrite eval_block_length).
  by rewrite eval_block_length, Nat.sub_diag.
Qed.

(** The value of a valid value, after an emitter has run. *)
Lemma value_in_ext (w w' : World) (v : Value) :
  in_block S w → ip w' = ip w → world_ext S w w' → valid_value w v →
  value_in (current_block w') v = value_in (current_block w) v.
Proof.
  intros Hin Hip Hext Hv.
  destruct (current_block_ext _ _ _ Hin Hip Hext) as (ops & ->).
  apply value_in_app. intros r Hr. by apply Hv.
Qed.

(** [create] returns a value that denotes what the operation evaluates
    to in the block so far. *)
Lemma create_value (w : World) (new : Operation) (v : Value) (w' : World) :
  in_block S w → create new w = Ok (v, w') →
  ip w' = ip w ∧ world_ext S w w' ∧ valid_value w' v
  ∧ value_in (current_block w') v
    = eval_op (eval_block (current_block w)) new.
Proof.
  intros Hin Hrun.
  destruct (emits_create S _ _ _ _ Hin Hrun) as (Hip & Hext & Hv).
  destruct (create_in_block S w new Hin)
    as (w1 & Hc & _ & _ & _ & Hblk & _).
  rewrite Hc in Hrun. simplify_eq. split_and!; [done..|].
  rewrite Hblk. apply value_in_last.
Qed.

Lemma operand_value_in (blk : list Operation) (v : Value) :
  operand_value (eval_block blk) v = value_in blk v.
Proof. done. Qed.

(** The record walker returns an aggregate with one field per member. *)
Lemma struct_loop_shape strTy cursor layout platform recur (k : nat) :
  Forall (Emits S) recur →
  ∀ i aggie w v w' fs,
    in_block S w → valid_value w aggie →
    value_in (current_block w) aggie = VAgg fs → length fs = k →
    struct_loop target strTy cursor S layout platform recur i aggie w
      = Ok (v, w') →
    ∃ fs', value_in (current_block w') v = VAgg fs' ∧ length fs' = k.
Proof.
  induction 1 as [|member recur Hmember _ IH];
    intros i aggie w v w' fs Hin Hv Hval Hlen.
  - intros [= <- <-]. by exists fs.
  - simpl. intros Hrun. inv_bind Hrun. inv_bind Hrun.
    destruct (Hmember _ _ _ _ _ _ Hin Hrun0) as (Hip1 & Hext1 & Hv1).
    pose proof (in_block_ext _ _ _ Hin Hip1 Hext1) as Hin1.
    pose proof (valid_value_ext _ _ _ _ Hin Hip1 Hext1 Hv) as Hag1.
    pose proof (value_in_ext _ _ _ Hin Hip1 Hext1 Hv) as Hval1.
    rewrite Hval in Hval1.
    destruct a as [r|].
    + destruct (create_value _ _ _ _ Hin1 Hrun1)
        as (Hip2 & Hext2 & Hv2 & Hval2).
      simpl in Hval2. rewrite !operand_value_in, Hval1 in Hval2.
      eapply (IH _ _ _ _ _ _ (in_block_ext _ _ _ Hin1 Hip2 Hext2) Hv2
                 Hval2); [|done].
      by rewrite length_insert.
    + injection Hrun1 as <- <-. by eapply (IH _ _ _ _ _ _ Hin1 Hag1 Hval1).
Qed.

Lemma genStruct_shape recur members p layout platform w v w' :
  Forall (Emits S) recur → members ≠ [] → in_block S w →
  genStruct target recur members p S layout platform w = Ok (v, w') →
  ∃ fs, value_in (current_block w') v = VAgg fs
        ∧ length fs = length members.
Proof.
  intros Hrecur Hne Hin Hrun. unfold genStruct in Hrun.
  destruct members as [|m members]; [done|]. inv_bind Hrun.
  destruct (create_value _ _ _ _ Hin Hrun0) as (Hip1 & Hext1 & Hv1 & Hval1).
  eapply (struct_loop_shape _ _ _ _ _ _ Hrecur _ _ _ _ _ _
            (in_block_ext _ _ _ Hin Hip1 Hext1) Hv1 Hval1); [|done].
  by rewrite length_replicate.
Qed.

(** The loop of the tuple walker: field [j] of the result, for [j] from
    [i0] on, is field [k - 1 - j] of the reversed record; the fields
    before [i0] are those of the aggregate the loop starts from. *)
Lemma tuple_loop_fields fwdTy revCon (k : nat) (rs : list IRVal) members :
  length rs = k →
  ∀ (i0 : nat) aggie w v w' fs,
    (i0 + length members = k)%nat →
    in_block S w → valid_value w aggie → valid_value w revCon →
    value_in (current_block w) revCon = VAgg rs →
    value_in (current_block w) aggie = VAgg fs → length fs = k →
    tuple_loop fwdTy revCon (Z.of_nat k) members (Z.of_nat i0) aggie w
      = Ok (v, w') →
    ∃ fs', value_in (current_block w') v = VAgg fs'
           ∧ value_in (current_block w') revCon = VAgg rs
           ∧ length fs' = k
           ∧ (∀ j, (i0 ≤ j < k)%nat → fs' !! j = rs !! (k - 1 - j)%nat)
           ∧ (∀ j, (j < i0)%nat → fs' !! j = fs !! j).
Proof.
  intros Hrs. induction members as [|ty members IH];
    intros i0 aggie w v w' fs Hi0 Hin Hv Hrv Hrval Hval Hlen; simpl in *.
  - intros [= <- <-]. exists fs. split_and!; [done..| |done].
    intros j Hj. lia.
  - intros Hrun. inv_bind Hrun. inv_bind Hrun.
    destruct (create_value _ _ _ _ Hin Hrun0)
      as (Hip1 & Hext1 & Hv1 & Hval1).
    pose proof (in_block_ext _ _ _ Hin Hip1 Hext1) as Hin1.
    simpl in Hval1. rewrite operand_value_in, Hrval in Hval1.
    replace (Z.to_nat (Z.of_nat k - Z.of_nat i0 - 1))
      with (k - 1 - i0)%nat in Hval1 by lia.
    destruct (lookup_lt_is_Some_2 rs (k - 1 - i0)) as [x Hx]; [lia|].
    rewrite Hx in Hval1. simpl in Hval1.
    destruct (create_value _ _ _ _ Hin1 Hrun1)
      as (Hip2 & Hext2 & Hv2 & Hval2).
    pose proof (in_block_ext _ _ _ Hin1 Hip2 Hext2) as Hin2.
    simpl in Hval2. rewrite !operand_value_in, Hval1 in Hval2.
    rewrite (value_in_ext _ _ _ Hin Hip1 Hext1 Hv), Hval in Hval2.
    rewrite Nat2Z.id in Hval2.
    assert (valid_value w1 revCon) as Hrv2.
    { eapply valid_value_ext; [exact Hin1|done..|].
      exact (valid_value_ext _ _ _ _ Hin Hip1 Hext1 Hrv). }
    assert (value_in (current_block w1) revCon = VAgg rs) as Hrval2.
    { rewrite (value_in_ext _ _ _ Hin1 Hip2 Hext2)
        by exact (valid_value_ext _ _ _ _ Hin Hip1 Hext1 Hrv).
      by rewrite (value_in_ext _ _ _ Hin Hip1 Hext1 Hrv). }
    replace (Z.of_nat i0 + 1) with (Z.of_nat (Datatypes.S i0)) in Hrun by lia.
    destruct (IH (Datatypes.S i0) _ _ _ _ _ ltac:(lia) Hin2 Hv2 Hrv2 Hrval2
                 Hval2 ltac:(by rewrite length_insert) Hrun)
      as (fs' & Hfs' & Hrs' & Hlen' & Hhi & Hlo).
    exists fs'. split_and!; [done..| |].
    + intros j Hj. destruct (decide (j = i0)) as [->|Hne].
      * rewrite Hlo by lia. rewrite list_lookup_insert_eq by lia. done.
      * apply Hhi. lia.
    + intros j Hj. rewrite Hlo by lia.
      apply list_lookup_insert_ne. lia.
Qed.

(** ***** The tuple walker *)

Lemma Forall_Emits_dispatchSubtype (types : list Ty) :
  Forall (Emits S) (map (dispatchSubtype target) types).
Proof.
  apply Forall_fmap, Forall_forall. intros ty _.
  apply Emits_dispatchSubtype.
Qed.

Lemma rev_not_nil {A} (l : list A) : l ≠ [] → List.rev l ≠ [].
Proof.
  destruct l as [|x l]; [done|]. simpl. intros _ Heq.
  apply (f_equal length) in Heq. rewrite length_app in Heq.
  simpl in Heq. lia.
Qed.

(** C2.  For a tuple type that is not empty, the walker walks the
    record of the reversed member types over the same host pointer, and
    the aggregate it returns has, at each forward index [i], the field
    at index [k - 1 - i] of the value of that reversed record. *)
Theorem tuple_fields_invert_reversed_record (types : list Ty) (p : Z)
    (layout : string) (platform : PlatformSettings) (w : World)
    (aggie : Value) (w' : World) :
  types ≠ [] → in_block S w →
  genConstant_TupleType target types p S layout platform w
    = Ok (aggie, w') →
  ∃ revCon w1 fwd rev,
    genConstant_StructType target (List.rev types) p S layout platform w
      = Ok (revCon, w1)
    ∧ value_in (current_block w1) revCon = VAgg rev
    ∧ value_in (current_block w') revCon = VAgg rev
    ∧ value_in (current_block w') aggie = VAgg fwd
    ∧ length rev = length types ∧ length fwd = length types
    ∧ ∀ i, (i < length types)%nat →
           fwd !! i = rev !! (length types - 1 - i)%nat.
Proof.
  intros Hne Hin Hrun.
  assert ((revCon <- genConstant_StructType target (List.rev types) p S
                       layout platform;;
           aggie <- create (cc_UndefOp (StructType types));;
           tuple_loop (StructType types) revCon
                      (Z.of_nat (length types)) types 0 aggie) w
          = Ok (aggie, w')) as Hrun'
    by (destruct types; [done|exact Hrun]).
  clear Hrun. inv_bind Hrun'. inv_bind Hrun'.
  rename a into revCon, a0 into undef, w1 into w2. rename w0 into w1.
  destruct (Emits_dispatchSubtype (StructType (List.rev types))
              _ _ _ _ _ _ Hin Hrun'0) as (Hip1 & Hext1 & Hv1).
  pose proof (in_block_ext _ _ _ Hin Hip1 Hext1) as Hin1.
  destruct (genStruct_shape _ _ _ _ _ _ _ _
              (Forall_Emits_dispatchSubtype (List.rev types))
              (rev_not_nil _ Hne)
              Hin Hrun'0) as (rs & Hrs & Hrslen).
  rewrite length_rev in Hrslen.
  destruct (create_value _ _ _ _ Hin1 Hrun'1)
    as (Hip2 & Hext2 & Hv2 & Hval2).
  pose proof (in_block_ext _ _ _ Hin1 Hip2 Hext2) as Hin2.
  simpl in Hval2.
  destruct (tuple_loop_fields (StructType types) revCon (length types)
              rs types Hrslen 0 undef w2 aggie w'
              (replicate (length types) VUndef))
    as (fs & Hfs & Hrs' & Hfslen & Hhi & _);
    [done|done|done|exact (valid_value_ext _ _ _ _ Hin1 Hip2 Hext2 Hv1)| |done
    |by rewrite length_replicate|done|].
  { by rewrite (value_in_ext _ _ _ Hin1 Hip2 Hext2 Hv1). }
  exists revCon, w1, fs, rs.
  split_and!; [done..|]. intros i Hi. apply Hhi. lia.
Qed.

(** ***** Empty records and tuples *)

(** C10.  The record walker skips a record type without members: it
    returns the null value and emits nothing, as the tuple walker does
    for a tuple type without members; so it does when reached through
    [dispatchSubtype]. *)
Theorem empty_record_is_skipped (p : Z) (substMod : nat)
    (layout : string) (platform : PlatformSettings) (w : World) :
  genConstant_StructType target [] p substMod layout platform w
    = Ok (None, w)
  ∧ genConstant_TupleType target [] p substMod layout platform w
    = Ok (None, w)
  ∧ dispatchSubtype target (StructType []) p substMod layout platform w
    = Ok (None, w).
Proof. done. Qed.

(** ***** State arguments *)

Lemma to_signed_pattern (bits z : Z) :
  to_unsigned bits (to_signed bits z) = to_unsigned bits z.
Proof.
  unfold to_unsigned, to_signed.
  destruct (_ <? _); [apply Zmod_mod|].
  by rewrite Zminus_mod, Z_mod_same_full, Z.sub_0_r, !Zmod_mod.
Qed.

(** C5.  On a simulator that is not remote, the emitter of a state
    argument appends two operations to the block: an integer constant
    of [sizeof(void * ) * 8] bits whose bit pattern is that of the host
    pointer, and a cast of that constant to a pointer to the state
    type, which is the value returned. *)
Theorem state_pointer_constant_has_pointer_width (v : Z) (substMod : nat)
    (layout : string) (platform : PlatformSettings) (w : World) :
  isSimulator platform = true → isRemote platform = false →
  in_block S w →
  let bits := sizeof_void_ptr target * 8 in
  let rawPtr := Some {| owner_at := ip w;
                        owner_index := length (current_block w) |} in
  let cast := Some {| owner_at := ip w;
                      owner_index := length (current_block w) + 1 |} in
  ∃ address w',
    genConstant_state target v substMod layout platform w = Ok (cast, w')
    ∧ current_block w'
      = current_block w
        ++ [arith_ConstantIntOp address bits;
            cc_CastOp (PointerType StateType) rawPtr]
    ∧ address = to_signed bits v
    ∧ to_unsigned bits address = to_unsigned bits v.
Proof.
  intros Hsim Hrem Hin bits rawPtr cast.
  unfold genConstant_state. rewrite Hsim, Hrem. simpl. fold bits.
  destruct (create_in_block S w
              (arith_ConstantIntOp (to_signed bits v) bits) Hin)
    as (w1 & Hc1 & Hip1 & _ & _ & Hblk1 & Hext1).
  pose proof (in_block_ext _ _ _ Hin Hip1 Hext1) as Hin1.
  destruct (create_in_block S w1
              (cc_CastOp (PointerType StateType) rawPtr) Hin1)
    as (w2 & Hc2 & Hip2 & _ & _ & Hblk2 & Hext2).
  exists (to_signed bits v), w2. split_and!.
  - unfold bind. rewrite Hc1. fold rawPtr. rewrite Hc2.
    rewrite Hip1, Hblk1, length_app. done.
  - by rewrite Hblk2, Hblk1, <- app_assoc.
  - done.
  - apply to_signed_pattern.
Qed.

Lemma gen_step_platform (self : ArgumentConverter) (i : Z) (argTy : Ty)
    (argPtr : Z) (w : World) (self' : ArgumentConverter) (w' : World) :
  gen_step target self i argTy argPtr w = Ok (self', w') →
  platform self' = platform self.
Proof.
  intros Hrun. unfold gen_step in Hrun. inv_bind Hrun. inv_bind Hrun.
  destruct a0; by injection Hrun as <- <-.
Qed.

(** C6.  When the platform is not a simulator, remote or not, the
    emitter of a state argument returns no value: it fails with the
    not-implemented error.  The loop of [gen] does not get past a
    parameter that is a state pointer, whatever comes before and after
    it, and it fails with that error when the parameter is the first it
    meets and the two modules exist. *)
Theorem state_on_hardware_is_not_implemented (v : Z) (substMod : nat)
    (layout : string) (platform0 : PlatformSettings) (w : World) :
  isSimulator platform0 = false →
  genConstant_state target v substMod layout platform0 w
  = Fatal (NotYetImplemented
             "cudaq::state* argument synthesis for quantum hardware")
  ∧ (∀ self i before after w0 result,
       platform self = platform0 →
       gen_loop target self i
                (before ++ (PointerType StateType, v) :: after) w0
       ≠ Ok result)
  ∧ (∀ self i after w0,
       platform self = platform0 →
       is_Some (modules w0 !! sourceModule self) →
       is_Some (modules w0 !! substModule self) →
       gen_loop target self i ((PointerType StateType, v) :: after) w0
       = Fatal (NotYetImplemented
                  "cudaq::state* argument synthesis for quantum hardware")).
Proof.
  intros Hsim.
  assert (∀ m l w1,
            genConstant_state target v m l platform0 w1
            = Fatal (NotYetImplemented
               "cudaq::state* argument synthesis for quantum hardware"))
    as Hfatal.
  { intros m l w1. unfold genConstant_state. by rewrite Hsim. }
  split_and!; [apply Hfatal| |].
  - intros self i before. revert self i.
    induction before as [|[ty q] before IH];
      intros self i after w0 [self' w'] Hpf; simpl.
    + intros Hrun. inv_bind Hrun. unfold gen_step in Hrun0.
      inv_bind Hrun0. inv_bind Hrun0. simpl in Hrun2.
      unfold buildSubst in Hrun2. inv_bind Hrun2. inv_bind Hrun2.
      by rewrite Hpf, Hfatal in Hrun4.
    + intros Hrun. inv_bind Hrun.
      eapply (IH a (i + 1) after w1 (self', w')); [|done].
      erewrite gen_step_platform; done.
  - intros self i after w0 Hpf [md Hmd] [sm Hsm]. simpl.
    unfold bind at 1. unfold gen_step, bind at 1, getAttr. rewrite Hmd.
    unfold bind at 1. simpl. unfold buildSubst, bind at 1.
    unfold open_substitution, bind at 1. simpl.
    unfold bind at 1, create. simpl. rewrite Hsm. simpl.
    unfold push_back_block. simpl.
    rewrite list_lookup_insert_eq by (by eapply lookup_lt_Some). simpl.
    rewrite lookup_app_r by done. rewrite Nat.sub_diag. simpl.
    unfold bind at 1. by rewrite Hpf, Hfatal.
Qed.

(** ***** Vectors *)

Lemma create_inv (w : World) (new : Operation) (v : Value) (w' : World) :
  in_block S w → create new w = Ok (v, w') →
  ip w' = ip w ∧ world_ext S w w'
  ∧ current_block w' = current_block w ++ [new].
Proof.
  intros Hin Hrun.
  destruct (create_in_block S w new Hin) as (w1 & Hc & Hip & _ & _ & Hblk & Hext).
  rewrite Hc in Hrun. by simplify_eq.
Qed.

(** What the vector walker appends: nothing when [begin] and [end] are
    equal; otherwise the buffer, what the loop over [vecSize] elements
    stores, the 64-bit constant [vecSize] and the span of the buffer and
    that constant.  [vecSize] is the quotient narrowed to 32 bits. *)
Lemma genStdvec_span (recur : Emitter) (eleTy : Ty) (p : Z)
    (layout : string) (platform : PlatformSettings) (w : World) (v : Value)
    (w' : World) :
  Emits S recur → in_block S w →
  genStdvec target recur eleTy p S layout platform w = Ok (v, w') →
  let ptr := sizeof_void_ptr target in
  let begin := load_le (heap w) p (Z.to_nat ptr) in
  let end_ := load_le (heap w) (p + ptr) (Z.to_nat ptr) in
  let delta := to_signed (ptr * 8) (end_ - begin) in
  let eleSize := getDataSize target layout eleTy in
  let vecSize := stdvec_size delta eleSize in
  if delta =? 0 then v = None ∧ w' = w
  else
    eleSize ≠ 0
    ∧ ∃ stores buffer size,
        current_block w'
        = current_block w
          ++ [cc_AllocaOp (ArrayType eleTy (Some vecSize))] ++ stores
          ++ [arith_ConstantIntOp vecSize 64;
              cc_StdvecInitOp (StdvecType eleTy) buffer size].
Proof.
  intros Hrecur Hin Hrun ptr begin end_ delta eleSize vecSize.
  unfold genStdvec in Hrun. inv_bind Hrun. injection Hrun0 as <- <-.
  inv_bind Hrun. injection Hrun0 as <- <-.
  fold ptr begin end_ delta eleSize vecSize in Hrun.
  destruct (delta =? 0); [by injection Hrun as <- <-|].
  inv_bind Hrun. destruct (Z.eqb_spec eleSize 0) as [|Hsize]; [done|].
  injection Hrun0 as _ <-. split; [done|].
  inv_bind Hrun. inv_bind Hrun. inv_bind Hrun.
  destruct (create_inv _ _ _ _ Hin Hrun0) as (Hip1 & Hext1 & Hblk1).
  pose proof (in_block_ext _ _ _ Hin Hip1 Hext1) as Hin1.
  destruct (pres_stdvec_loop _ _ _ _ _ _ _ Hrecur _ _ _ _ _ Hin1 Hrun1)
    as [Hip2 Hext2].
  pose proof (in_block_ext _ _ _ Hin1 Hip2 Hext2) as Hin2.
  destruct (current_block_ext _ _ _ Hin1 Hip2 Hext2) as (stores & Hblk2).
  destruct (create_inv _ _ _ _ Hin2 Hrun2) as (Hip3 & Hext3 & Hblk3).
  pose proof (in_block_ext _ _ _ Hin2 Hip3 Hext3) as Hin3.
  destruct (create_inv _ _ _ _ Hin3 Hrun) as (_ & _ & Hblk4).
  eexists stores, _, _.
  rewrite Hblk4, Hblk3, Hblk2, Hblk1, <- !app_assoc. reflexivity.
Qed.

(** ***** Character spans *)

Lemma find_literal_Some (bytes : list Z) (body : list Operation)
    (ty : Ty) (nm : string) :
  find_literal bytes body = Some (ty, nm) →
  ∃ c e, cc_GlobalOp ty nm bytes c e ∈ body.
Proof.
  induction body as [|op body IH]; [done|]. simpl.
  destruct op; try (intros (c & e & ?)%IH; exists c, e; by right).
  case_bool_decide as Hv.
  - intros [= <- <-]. subst. eexists _, _. left.
  - intros (c & e & ?)%IH. exists c, e. by right.
Qed.

(** Interning a literal in module [S] from a block of [S]: the block is
    left as it is, and the module holds a global with the bytes followed
    by a NUL. *)
Lemma genCStringLiteralAppendNul_spec (cstring : list Z) (w : World) :
  in_block S w →
  ∃ ty nm w0 md0 c e,
    genCStringLiteralAppendNul target S cstring w = Ok ((ty, nm), w0)
    ∧ ip w0 = ip w ∧ world_ext S w w0
    ∧ current_block w0 = current_block w
    ∧ modules w0 !! S = Some md0
    ∧ cc_GlobalOp ty nm (cstring ++ [0]) c e ∈ mbody md0.
Proof.
  intros Hin. pose proof Hin as (o & b & blk & Hip & Hblk).
  unfold genCStringLiteralAppendNul. rewrite Hip in Hblk. simpl in Hblk.
  destruct (modules w !! S) as [md|] eqn:Hmd; [|done]. simpl in Hblk.
  destruct (find_literal (cstring ++ [0]) (mbody md)) as [[ty nm]|] eqn:Hf.
  - destruct (find_literal_Some _ _ _ _ Hf) as (c & e & Hg).
    exists ty, nm, w, md, c, e.
    split_and!; try done. apply world_ext_refl.
  - eexists _, _, _, _, true, false. split; [reflexivity|].
    assert (S < length (modules w))%nat by (by eapply lookup_lt_Some).
    split_and!; simpl.
    + done.
    + destruct w. apply world_ext_insert; [done|]. apply body_ext_app.
    + unfold current_block. simpl. rewrite Hip. simpl.
      rewrite list_lookup_insert_eq, Hmd by done. simpl.
      destruct (mbody md !! o) as [op|] eqn:Hop; [|done].
      by rewrite (lookup_app_l_Some _ _ _ _ Hop).
    + by apply list_lookup_insert_eq.
    + simpl. apply elem_of_app. right. left.
Qed.

Lemma global_persists (w w' : World) (md : ModuleOp) (g : Operation) :
  world_ext S w w' → modules w !! S = Some md → g ∈ mbody md →
  (∀ pos body, g ≠ cc_ArgumentSubstitutionOp pos body) →
  ∃ md', modules w' !! S = Some md' ∧ g ∈ mbody md'.
Proof.
  intros (_ & _ & HS) Hmd [k Hk]%list_elem_of_lookup Hg.
  destruct (HS _ Hmd) as (md' & Hmd' & _ & HB).
  destruct (HB _ _ Hk) as (op' & Hop' & Hext).
  exists md'. split; [done|]. apply list_elem_of_lookup. exists k.
  destruct g; simpl in Hext; try (by subst op'). by destruct (Hg position body).
Qed.

(** C7.  For the bytes [v] of a character span, the emitter interns in
    the substitution module a global literal that holds [v] followed by
    a NUL, and appends to the block: the address of that global, its
    cast to a byte pointer, the 64-bit constant [|v|] (the length
    without the NUL), and the span made of that pointer and that
    size, which is the value returned. *)
Theorem charspan_size_excludes_the_nul (v : list Z) (w : World) :
  in_block S w →
  let result k := Some {| owner_at := ip w;
                          owner_index := length (current_block w) + k |} in
  ∃ w' ty nm c e md',
    genConstant_string target v S w = Ok (result 3%nat, w')
    ∧ modules w' !! S = Some md'
    ∧ cc_GlobalOp ty nm (v ++ [0]) c e ∈ mbody md'
    ∧ current_block w'
      = current_block w
        ++ [cc_AddressOfOp (PointerType ty) nm;
            cc_CastOp (PointerType (IntegerType 8)) (result 0%nat);
            arith_ConstantIntOp (Z.of_nat (length v)) 64;
            cc_StdvecInitOp CharspanType (result 1%nat) (result 2%nat)].
Proof.
  intros Hin result.
  destruct (genCStringLiteralAppendNul_spec v w Hin)
    as (ty & nm & w0 & md0 & c & e & Hlit & Hip0 & Hext0 & Hblk0 & Hmd0
        & Hg).
  pose proof (in_block_ext _ _ _ Hin Hip0 Hext0) as Hin0.
  destruct (create_in_block S w0 (cc_AddressOfOp (PointerType ty) nm) Hin0)
    as (w1 & Hc1 & Hip1 & _ & _ & Hblk1 & Hext1).
  pose proof (in_block_ext _ _ _ Hin0 Hip1 Hext1) as Hin1.
  destruct (create_in_block S w1
              (cc_CastOp (PointerType (IntegerType 8)) (result 0%nat))
              Hin1)
    as (w2 & Hc2 & Hip2 & _ & _ & Hblk2 & Hext2).
  pose proof (in_block_ext _ _ _ Hin1 Hip2 Hext2) as Hin2.
  destruct (create_in_block S w2
              (arith_ConstantIntOp (Z.of_nat (length v)) 64) Hin2)
    as (w3 & Hc3 & Hip3 & _ & _ & Hblk3 & Hext3).
  pose proof (in_block_ext _ _ _ Hin2 Hip3 Hext3) as Hin3.
  destruct (create_in_block S w3
              (cc_StdvecInitOp CharspanType (result 1%nat)
                               (result 2%nat)) Hin3)
    as (w4 & Hc4 & Hip4 & _ & _ & Hblk4 & Hext4).
  assert (world_ext S w0 w4) as Hext04.
  { eapply world_ext_trans; [|done]. eapply world_ext_trans; [|done].
    by eapply world_ext_trans. }
  destruct (global_persists w0 w4 md0 _ Hext04 Hmd0 Hg) as (md' & Hmd' & Hg');
    [done|].
  rewrite Hblk1, Hblk0 in Hblk2. rewrite Hblk2 in Hblk3.
  rewrite Hblk3 in Hblk4. rewrite Hblk0 in Hblk1.
  rewrite Hip0 in Hip1. rewrite Hip1 in Hip2. rewrite Hip2 in Hip3.
  assert (∀ k wk blk,
            ip wk = ip w → current_block wk = current_block w ++ blk →
            length blk = k →
            Some {| owner_at := ip wk;
                    owner_index := length (current_block wk) |}
            = result k) as Hres.
  { intros k wk blk -> -> <-. unfold result. by rewrite length_app. }
  rewrite (Hres 0%nat w0 []) in Hc1 by (by rewrite ?app_nil_r).
  rewrite (Hres 1%nat w1 _ Hip1 Hblk1) in Hc2 by done.
  rewrite (Hres 2%nat w2 _ Hip2 ltac:(by rewrite Hblk2, <- app_assoc))
    in Hc3 by done.
  rewrite (Hres 3%nat w3 _ Hip3
             ltac:(by rewrite Hblk3, <- !app_assoc)) in Hc4 by done.
  exists w4, ty, nm, c, e, md'. split_and!; [|done|done|].
  - unfold genConstant_string, bind. rewrite Hlit. simpl.
    by rewrite Hc1, Hc2, Hc3, Hc4.
  - by rewrite Hblk4, <- !app_assoc.
Qed.

End Emitters.

(** **** The driver [gen] *)

Section Driver.
Variable target : Target.

Lemma emitted_positions_elem (params : list (Ty * Z)) :
  ∀ (i0 j : Z),
    j ∈ emitted_positions i0 params
    ↔ ∃ (k : nat) argTy argPtr,
        params !! k = Some (argTy, argPtr) ∧ j = i0 + Z.of_nat k
        ∧ has_emitter argTy = true.
Proof.
  induction params as [|[ty p] params IH]; intros i0 j; simpl.
  - split; [by intros ?%elem_of_nil|]. by intros (k & ? & ? & ? & _).
  - rewrite elem_of_app, IH. split.
    + intros [Hj|(k & ty' & p' & Hk & -> & He)].
      * destruct (has_emitter ty) eqn:He; [|by apply elem_of_nil in Hj].
        apply list_elem_of_singleton in Hj as ->.
        exists 0%nat, ty, p. split_and!; [done|lia|done].
      * exists (Datatypes.S k), ty', p'. split_and!; [done|lia|done].
    + intros ([|k] & ty' & p' & Hk & -> & He); simpl in Hk.
      * injection Hk as -> ->. left. rewrite He.
        apply list_elem_of_singleton. lia.
      * right. exists k, ty', p'. split_and!; [done|lia|done].
Qed.

Lemma gen_spec (self : ArgumentConverter) (arguments : list Z)
    (w : World) (self' : ArgumentConverter) (w' : World) :
  gen target self arguments w = Ok (self', w') →
  ∃ md inputs,
    modules w !! sourceModule self = Some md
    ∧ lookup_func (cudaqGenPrefixName target ++ kernelName self)
                  (mbody md) = Some inputs
    ∧ gen_loop target self 0 (zip inputs arguments) w = Ok (self', w').
Proof.
  intros Hrun. unfold gen in Hrun. inv_bind Hrun.
  unfold lookupSymbol in Hrun0.
  destruct (modules w !! sourceModule self) as [md|]; [|done].
  injection Hrun0 as <- <-.
  destruct (lookup_func _ _) as [inputs|] eqn:Hf; [|done].
  by exists md, inputs.
Qed.

(** What [gen] appends.  When [gen] returns, the substitutions it has
    added to the output list are, in order, one for each parameter whose
    type the [TypeSwitch] has an emitter for (a recognised integer width,
    a float, a complex of [f32] or [f64], a character span, a pointer to
    the state type, a vector, a record, an array, a tuple), and the
    substitution added for parameter [k] is an operation of the
    substitution module with position [k].  Whether the emitter has
    returned a value plays no role. *)
Theorem gen_appends_for_the_types_with_an_emitter
    (self : ArgumentConverter) (arguments : list Z) (w : World)
    (self' : ArgumentConverter) (w' : World) :
  gen target self arguments w = Ok (self', w') →
  ∃ md inputs new,
    modules w !! sourceModule self = Some md
    ∧ lookup_func (cudaqGenPrefixName target ++ kernelName self)
                  (mbody md) = Some inputs
    ∧ substitutions self' = substitutions self ++ new
    ∧ Forall2 (substitution_for w' (substModule self)) new
              (emitted_positions 0 (zip inputs arguments))
    ∧ ∀ (k : nat) argTy argPtr,
        zip inputs arguments !! k = Some (argTy, argPtr) →
        (∃ r, r ∈ new
              ∧ substitution_for w' (substModule self) r (Z.of_nat k))
        ↔ has_emitter argTy = true.
Proof.
  intros Hrun. destruct (gen_spec _ _ _ _ _ Hrun) as (md & inputs & Hmd & Hf & Hloop).
  destruct (gen_loop_spec target (substModule self) _ _ _ _ _ _ eq_refl
              Hloop) as (_ & _ & _ & new & Hnew & Hall).
  exists md, inputs, new. split_and!; [done..|].
  intros k argTy argPtr Hk. split.
  - intros (r & [idx Hidx]%list_elem_of_lookup & Hsub).
    destruct (Forall2_lookup_l _ _ _ _ _ Hall Hidx) as (j & Hj & Hsubj).
    assert (j = Z.of_nat k) as ->.
    { destruct Hsub as (_ & md1 & b1 & Hmd1 & Hop1).
      destruct Hsubj as (_ & md2 & b2 & Hmd2 & Hop2). congruence. }
    apply list_elem_of_lookup_2, emitted_positions_elem in Hj
      as (k' & ty' & p' & Hk' & Heq & He).
    assert (k' = k) as -> by lia. congruence.
  - intros He.
    assert (Z.of_nat k ∈ emitted_positions 0 (zip inputs arguments))
      as [idx Hidx]%list_elem_of_lookup.
    { apply emitted_positions_elem. exists k, argTy, argPtr.
      split_and!; [done|lia|done]. }
    destruct (Forall2_lookup_r _ _ _ _ _ Hall Hidx) as (r & Hr & Hsub).
    exists r. split; [by eapply list_elem_of_lookup_2|done].
Qed.

(** C9.  When [gen] returns, the source module is what it was: no
    module other than the substitution module has changed, and no
    module was created.  [gen] reads the source module for the function
    type and the data-layout attribute only. *)
Theorem gen_leaves_the_source_module (self : ArgumentConverter)
    (arguments : list Z) (w : World) (self' : ArgumentConverter)
    (w' : World) :
  sourceModule self ≠ substModule self →
  gen target self arguments w = Ok (self', w') →
  modules w' !! sourceModule self = modules w !! sourceModule self
  ∧ sourceModule self' = sourceModule self
  ∧ (∀ m, m ≠ substModule self → modules w' !! m = modules w !! m)
  ∧ length (modules w') = length (modules w).
Proof.
  intros Hne Hrun.
  destruct (gen_spec _ _ _ _ _ Hrun) as (md & inputs & Hmd & Hf & Hloop).
  destruct (gen_loop_spec target (substModule self) _ _ _ _ _ _ eq_refl
              Hloop) as ((Hlen & Hother & _) & _ & Hsrc & _).
  split_and!; [by apply Hother|done..].
Qed.

End Driver.

End Frames.

(** *** The properties on the sample inputs *)

Section OnSamples.
Import Draw ArgConv Samples.
Local Open Scope string_scope.

(** The builder of [block_world] stands in a block of module [1]. *)
Lemma block_world_in_block (bytes : list Z) : in_block 1%nat (block_world bytes).
Proof. exists 0%nat, 0%nat, []. split; reflexivity. Defined.

(** The trace of scenario 6: its three instructions all span both wires,
    and each gets a layer of its own. *)
Lemma layering_separates_overlapping_spans_witness :
  getNumQudits sample_trace < 2 ^ 31
  ∧ Forall (placeable (getNumQudits sample_trace)) (instructions sample_trace)
  ∧ ∃ s, layering plain_name sample_trace = Some s
         ∧ layers s = [[0%nat]; [1%nat]; [2%nat]]
         ∧ ∀ L k1 k2 i1 i2 sp1 sp2,
             k1 ≠ k2 → in_layer s L k1 → in_layer s L k2 →
             instructions sample_trace !! k1 = Some i1 →
             instructions sample_trace !! k2 = Some i2 →
             inst_span i1 = Some sp1 → inst_span i2 = Some sp2 →
             ¬ overlapping sp1 sp2.
Proof.
  assert (Forall (placeable (getNumQudits sample_trace))
                 (instructions sample_trace)) as Hall.
  { repeat (apply Forall_cons_2;
              [split; [discriminate|];
               intros w Hw; unfold inst_ids, convertToIDs in Hw;
               simpl in Hw;
               repeat (apply elem_of_cons in Hw as [->|Hw]; [simpl; lia|]);
               by apply elem_of_nil in Hw|]).
    apply Forall_nil_2. }
  split; [reflexivity|]. split; [exact Hall|].
  destruct (layering_separates_overlapping_spans plain_name sample_trace
              eq_refl Hall) as (s & Hs & _ & _ & Hdisjoint).
  exists s. split; [exact Hs|]. split; [|exact Hdisjoint].
  vm_compute in Hs. by injection Hs as <-.
Defined.

(** Scenario 2: the tuple is read as the record [(i32, i8)] and rebuilt as
    [(i8 0xFF, i32 42)]. *)
Lemma tuple_fields_invert_reversed_record_witness :
  ∃ aggie w',
    genConstant_TupleType sample_target [IntegerType 8; IntegerType 32]
      256 1%nat "e" simulator (block_world pair_bytes) = Ok (aggie, w')
    ∧ value_in (current_block w') aggie = VAgg [VInt (-1) 8; VInt 42 32]
    ∧ ∃ revCon fwd rev,
        value_in (current_block w') revCon = VAgg rev
        ∧ value_in (current_block w') aggie = VAgg fwd
        ∧ ∀ i, (i < 2)%nat → fwd !! i = rev !! (2 - 1 - i)%nat.
Proof.
  eexists _, _. split; [vm_compute; reflexivity|].
  split; [vm_compute; reflexivity|].
  edestruct (tuple_fields_invert_reversed_record sample_target 1%nat
               [IntegerType 8; IntegerType 32] 256 "e" simulator
               (block_world pair_bytes))
    as (revCon & w1 & fwd & rev & _ & _ & Hrev & Hfwd & _ & _ & Hfields);
    [discriminate|apply block_world_in_block|vm_compute; reflexivity|].
  exists revCon, fwd, rev. split; [exact Hrev|]. split; [exact Hfwd|].
  exact Hfields.
Defined.

(** Scenario 4 on a host with 64-bit pointers, for the state at address
    [0x7fffffff0000]. *)
Lemma state_pointer_constant_has_pointer_width_witness :
  isSimulator simulator = true ∧ isRemote simulator = false
  ∧ in_block 1%nat (block_world [])
  ∧ ∃ address w',
      genConstant_state sample_target 140737488289792 1%nat "e" simulator
                        (block_world [])
      = Ok (Some {| owner_at := EndOfBlock 1 0 0; owner_index := 1 |}, w')
      ∧ current_block w'
        = [arith_ConstantIntOp address 64;
           cc_CastOp (PointerType StateType)
             (Some {| owner_at := EndOfBlock 1 0 0; owner_index := 0 |})]
      ∧ address = 140737488289792
    ∧ to_unsigned 64 address = to_unsigned 64 140737488289792.
Proof.
  split; [reflexivity|]. split; [reflexivity|].
  split; [apply block_world_in_block|].
  exact (state_pointer_constant_has_pointer_width sample_target 1%nat
           140737488289792 1%nat "e" simulator (block_world [])
           eq_refl eq_refl (block_world_in_block [])).
Defined.

(** The kernel [state] on hardware: the loop stops at the state pointer. *)
Lemma state_on_hardware_is_not_implemented_witness :
  isSimulator hardware = false
  ∧ gen_loop sample_target (sample_converter "state" hardware) 1
             [(PointerType StateType, 300)] (converter_world [])
    = Fatal (NotYetImplemented
               "cudaq::state* argument synthesis for quantum hardware").
Proof.
  split; [reflexivity|].
  destruct (state_on_hardware_is_not_implemented sample_target 300 1%nat "e"
              hardware (converter_world []) eq_refl) as (_ & _ & Hloop).
  apply Hloop; [reflexivity|by eexists|by eexists].
Defined.

(** The two bytes [hi]: the global holds three bytes, the size constant is
    [2]. *)
Lemma charspan_size_excludes_the_nul_witness :
  in_block 1%nat (block_world [])
  ∧ ∃ w' ty nm c e md',
      genConstant_string sample_target [104; 105] 1%nat (block_world [])
      = Ok (Some {| owner_at := EndOfBlock 1 0 0; owner_index := 3 |}, w')
      ∧ modules w' !! 1%nat = Some md'
      ∧ cc_GlobalOp ty nm [104; 105; 0] c e ∈ mbody md'
      ∧ current_block w' !! 2%nat = Some (arith_ConstantIntOp 2 64).
Proof.
  split; [apply block_world_in_block|].
  destruct (charspan_size_excludes_the_nul sample_target 1%nat [104; 105]
              (block_world []) (block_world_in_block []))
    as (w' & ty & nm & c & e & md' & Hrun & Hmd & Hg & Hblk).
  exists w', ty, nm, c, e, md'. split; [exact Hrun|]. split; [exact Hmd|].
  split; [exact Hg|]. rewrite Hblk. reflexivity.
Defined.

(** Scenario 1: the kernel [scalars(i32, f64)] gets the substitutions for
    the positions [0] and [1]. *)
Lemma gen_appends_for_the_types_with_an_emitter_witness :
  ∃ self' w',
    gen sample_target (sample_converter "scalars" simulator) [256; 260]
        (converter_world [7; 0; 0; 0; 0; 0; 0; 0; 0; 0; 248; 63])
    = Ok (self', w')
    ∧ ∃ new,
        substitutions self' = new
        ∧ Forall2 (substitution_for w' 1%nat) new [0; 1].
Proof.
  eexists _, _. split; [vm_compute; reflexivity|].
  edestruct (gen_appends_for_the_types_with_an_emitter sample_target
               (sample_converter "scalars" simulator) [256; 260]
               (converter_world [7; 0; 0; 0; 0; 0; 0; 0; 0; 0; 248; 63]))
    as (md & inputs & new & Hmd & Hf & Hnew & Hall & _);
    [vm_compute; reflexivity|].
  exists new. split; [exact Hnew|].
  vm_compute in Hmd. injection Hmd as <-.
  vm_compute in Hf. injection Hf as <-. exact Hall.
Defined.

(** C1.  A skipped emission does not drop the substitution.  The only
    parameter of the kernel [unsized] is an array of unknown size, that
    of the kernel [vec] a vector, here an empty one.  The emission of
    either is skipped: in the world [w1] in which the substitution has
    just been opened, the walker returns the null value and emits
    nothing.  Yet [gen] ends in that world with the substitution for
    position [0] in its output list, and the block of that substitution
    is empty.  [buildSubst] does not look at what [genConstant] returns,
    so the test [if (subst)] of [gen] drops only the parameters for which
    the [TypeSwitch] itself returns [{}]. *)
Lemma gen_appends_after_a_skipped_emission :
  (∃ self' r w1,
    open_substitution (sample_converter "unsized" simulator) 0
                      (converter_world [])
    = Ok (r, w1)
    ∧ genConstant_ArrayType sample_target (IntegerType 32) None 256 1%nat "e"
                            simulator w1
      = Ok (None, w1)
    ∧ gen sample_target (sample_converter "unsized" simulator) [256]
          (converter_world [])
      = Ok (self', w1)
    ∧ substitutions self' = [r]
    ∧ substitution_for w1 1%nat r 0
    ∧ current_block w1 = [])
  ∧ (∃ self' r w1,
      open_substitution (sample_converter "vec" simulator) 0
                        (vector_world empty_vector_bytes)
      = Ok (r, w1)
      ∧ genConstant_StdvecType sample_target (IntegerType 32) 256 1%nat "e"
                               simulator w1
        = Ok (None, w1)
      ∧ gen sample_target (sample_converter "vec" simulator) [256]
            (vector_world empty_vector_bytes)
        = Ok (self', w1)
      ∧ substitutions self' = [r]
      ∧ substitution_for w1 1%nat r 0
      ∧ current_block w1 = []).
Proof.
  split.
  - eexists _, _, _. split; [vm_compute; reflexivity|].
    split; [reflexivity|]. split; [vm_compute; reflexivity|].
    split; [reflexivity|]. split; [|reflexivity].
    split; [reflexivity|]. by eexists _, _.
  - eexists _, _, _. split; [vm_compute; reflexivity|].
    split; [vm_compute; reflexivity|]. split; [vm_compute; reflexivity|].
    split; [reflexivity|]. split; [|reflexivity].
    split; [reflexivity|]. by eexists _, _.
Qed.

(** The kernel [pair]: after [gen] the source module is the one it was. *)
Lemma gen_leaves_the_source_module_witness :
  sourceModule (sample_converter "pair" simulator)
  ≠ substModule (sample_converter "pair" simulator)
  ∧ ∃ self' w',
      gen sample_target (sample_converter "pair" simulator) [256]
          (converter_world pair_bytes)
      = Ok (self', w')
      ∧ modules w' !! 0%nat = Some sample_source
      ∧ length (modules w') = 2%nat.
Proof.
  split; [discriminate|].
  eexists _, _. split; [vm_compute; reflexivity|].
  edestruct (gen_leaves_the_source_module sample_target
               (sample_converter "pair" simulator) [256]
               (converter_world pair_bytes))
    as (Hsrc & _ & _ & Hlen); [discriminate|vm_compute; reflexivity|].
  split; [exact Hsrc|exact Hlen].
Defined.

(** [vecSize] is the quotient as long as the quotient fits 31 bits. *)
Lemma stdvec_size_in_range (delta eleSize : Z) :
  0 ≤ delta < 2 ^ 63 → 0 < eleSize → delta / eleSize < 2 ^ 31 →
  stdvec_size delta eleSize = delta / eleSize.
Proof.
  intros Hdelta Hsize Hn. unfold stdvec_size, to_unsigned, to_signed.
  rewrite (Z.mod_small delta) by lia.
  assert (0 ≤ delta / eleSize) by (apply Z.div_pos; lia).
  rewrite (Z.mod_small (delta / eleSize)) by lia.
  destruct (Z.ltb_spec (delta / eleSize) (2 ^ (32 - 1))); [done|].
  change (2 ^ (32 - 1)) with (2 ^ 31) in *. lia.
Qed.

(** C3 fails on the code for a vector of [2^31] elements or more.  The
    header at address 256 has [begin = 0x1000] and [end = begin + 2^31],
    the elements are bytes: the vector has [2^31] elements.  The quotient
    is narrowed to the 32-bit [vecSize], which is [-2^31]: the loop over
    the elements does not run, no element is stored, and the span is made
    with the length [-2147483648]. *)
Theorem stdvec_length_wraps_at_2_31 :
  let begin := load_le (sample_heap huge_vector_bytes) 256 8 in
  let end_ := load_le (sample_heap huge_vector_bytes) 264 8 in
  begin = 4096 ∧ end_ - begin = 2 ^ 31
  ∧ getDataSize sample_target "e" (IntegerType 8) = 1
  ∧ (end_ - begin) / getDataSize sample_target "e" (IntegerType 8)
    = 2147483648
  ∧ ∃ w',
      genConstant_StdvecType sample_target (IntegerType 8) 256 1%nat "e"
                             simulator (block_world huge_vector_bytes)
      = Ok (Some {| owner_at := EndOfBlock 1 0 0; owner_index := 2 |}, w')
      ∧ current_block w'
        = [cc_AllocaOp (ArrayType (IntegerType 8) (Some (-2147483648)));
           arith_ConstantIntOp (-2147483648) 64;
           cc_StdvecInitOp (StdvecType (IntegerType 8))
             (Some {| owner_at := EndOfBlock 1 0 0; owner_index := 0 |})
             (Some {| owner_at := EndOfBlock 1 0 0; owner_index := 1 |})].
Proof.
  split_and!; [reflexivity..|].
  eexists. split; [vm_compute; reflexivity|reflexivity].
Qed.

End OnSamples.

(** ** Part III.  Further properties *)

(** *** More on the glyph merge and the rendering *)

Section MergeMore.
Import Draw.

Ltac in_list := solve [repeat (first [by left | right])].

(** X1.  Away from the blank and the control line the merge does not depend
    on which of the two glyphs is in the cell. *)
Theorem merge_chars_commutes_off_blank_and_control_line (a b : Z) :
  a ≠ BLANK → b ≠ BLANK → a ≠ CONTROL_LINE → b ≠ CONTROL_LINE →
  merge_chars a b = merge_chars b a.
Proof.
  intros Ha Hb Ha' Hb'. unfold merge_chars.
  destruct (Z.eqb_spec a b) as [->|Hab]; [by rewrite Z.eqb_refl|].
  destruct (Z.eqb_spec b a) as [->|_]; [done|].
  destruct (Z.eqb_spec a BLANK); [done|].
  destruct (Z.eqb_spec b BLANK); [done|].
  destruct (Z.eqb_spec a CONTROL_LINE); [done|].
  destruct (Z.eqb_spec b CONTROL_LINE); [done|].
  rewrite (Z.gtb_ltb a b), (Z.gtb_ltb b a).
  destruct (Z.ltb_spec b a), (Z.ltb_spec a b); try (exfalso; lia); done.
Qed.

(** X2.  Drawing a line over a cell twice is drawing it once: this holds
    for the control line and for the wire line, whatever the cell holds. *)
Theorem merge_chars_line_twice (c : Z) :
  merge_chars (merge_chars c CONTROL_LINE) CONTROL_LINE
  = merge_chars c CONTROL_LINE
  ∧ merge_chars (merge_chars c WIRE_LINE) WIRE_LINE = merge_chars c WIRE_LINE.
Proof.
  assert (merge_chars c CONTROL_LINE
          ∈ [c; CONTROL_LINE; WIRE_CONTROL_CROSS]) as Hcl.
  { unfold merge_chars.
    change (CONTROL_LINE =? CONTROL_LINE) with true. cbv iota.
    repeat match goal with
           | |- context [if ?b then _ else _] => destruct b
           end; in_list. }
  split.
  - repeat (apply elem_of_cons in Hcl as [Hcl|Hcl]);
      [| | |by apply elem_of_nil in Hcl].
    + by rewrite !Hcl.
    + by rewrite Hcl.
    + by rewrite Hcl.
  - assert (merge_chars c WIRE_LINE = c ∧ c ≠ BLANK
            ∨ merge_chars c WIRE_LINE
              ∈ [WIRE_LINE; BOX_BOTTOM_CONTROL; BOX_TOP_CONTROL]) as Hw.
    { unfold merge_chars.
      destruct (Z.eqb_spec c WIRE_LINE) as [->|?]; [right; in_list|].
      destruct (Z.eqb_spec c BLANK) as [->|?]; [right; in_list|].
      change (WIRE_LINE =? CONTROL_LINE) with false. cbv iota.
      rewrite Z.gtb_ltb. unfold WIRE_LINE in *.
      destruct (Z.ltb_spec 0 c) as [Hpos|Hneg]; cbv beta iota.
      - change (0 =? 0) with true.
        change (0 =? BOX_TOP_LEFT_CORNER) with false.
        change (0 =? BOX_TOP_RIGHT_CORNER) with false. cbv [andb].
        repeat match goal with
               | |- context [if ?b then _ else _] => destruct b
               end; try (right; in_list); by left.
      - destruct (Z.eqb_spec c 0); [exfalso; lia|]. cbv [andb].
        destruct (Z.eqb_spec c BOX_TOP_LEFT_CORNER) as [->|?]; [done|].
        destruct (Z.eqb_spec c BOX_TOP_RIGHT_CORNER) as [->|?]; [done|].
        cbv [andb]. right; in_list. }
    destruct Hw as [[Hw _]|Hw]; [by rewrite !Hw|].
    repeat (apply elem_of_cons in Hw as [Hw|Hw]);
      [| | |by apply elem_of_nil in Hw]; by rewrite Hw.
Qed.

(** X3.  The merge invents nothing: the cell ends up with what it held,
    with the new glyph, or with one of the five junction glyphs (the
    crossing and the four tees). *)
Theorem merge_chars_range (c0 c1 : Z) :
  merge_chars c0 c1
  ∈ [c0; c1; WIRE_CONTROL_CROSS; BOX_BOTTOM_CONTROL; BOX_TOP_CONTROL;
     BOX_RIGHT_WIRE; BOX_LEFT_WIRE].
Proof.
  unfold merge_chars.
  destruct (Z.eqb_spec c1 CONTROL_LINE) as [->|?];
    repeat match goal with
           | |- context [if ?b then _ else _] => destruct b
           end; in_list.
Qed.

(** X4.  A row is rendered piece by piece: the rendering of two runs of
    cells put end to end is the renderings put end to end; a glyph takes
    three bytes and any other cell one, so that a row of [n] cells, [g] of
    them glyphs, renders to [n + 2 g] bytes. *)
Theorem render_chars_app_length (cells1 cells2 : list Z) :
  render_chars (cells1 ++ cells2) = render_chars cells1 ++ render_chars cells2
  ∧ length (render_chars cells1)
    = (length cells1
       + 2 * length (filter (λ c, bool_decide (c ∈ CharSet)) cells1))%nat.
Proof.
  split.
  - induction cells1 as [|c cells1 IH]; [done|]. simpl.
    by rewrite IH, app_assoc.
  - induction cells1 as [|c cells1 IH]; [done|]. simpl.
    rewrite length_app, IH. rewrite filter_cons.
    destruct (decide (bool_decide (c ∈ CharSet))) as [Hc|Hc].
    + apply bool_decide_unpack in Hc. unfold CharSet in Hc.
      repeat (apply elem_of_cons in Hc as [->|Hc]; [simpl; lia|]).
      by apply elem_of_nil in Hc.
    + assert (render_char c = []) as ->.
      { unfold render_char.
        repeat match goal with
               | |- context [Z.eqb c ?g] =>
                   destruct (Z.eqb_spec c g) as [->|?];
                   [exfalso; apply Hc; by vm_compute|]
               end. done. }
      simpl. lia.
Qed.

(** X5.  A row of characters that are ASCII and not glyphs (letters,
    digits, punctuation, the blank) is rendered as it is. *)
Theorem render_chars_ascii (cells : list Z) :
  Forall (λ c, 13 ≤ c < 128) cells → render_chars cells = cells.
Proof.
  induction 1 as [|c cells Hc _ IH]; [done|]. simpl. rewrite IH.
  unfold render_char, WIRE_LINE, CONTROL_LINE, WIRE_CONTROL_CROSS, CONTROL,
    BOX_LEFT_WIRE, BOX_RIGHT_WIRE, BOX_TOP_CONTROL, BOX_BOTTOM_CONTROL,
    BOX_TOP_LEFT_CORNER, BOX_TOP_RIGHT_CORNER, BOX_BOTTOM_LEFT_CORNER,
    BOX_BOTTOM_RIGHT_CORNER, SWAP_X.
  repeat match goal with
         | |- context [Z.eqb c ?g] =>
             destruct (Z.eqb_spec c g); [exfalso; lia|]
         end.
  simpl. by rewrite Z.mod_small by lia.
Qed.

End MergeMore.

(** *** More on the layering loop *)

Section LayeringMore.
Import Draw.
Variable format_name : string → list Z → string.

(** What an iteration that does not throw has computed. *)
Lemma place_inv (s : Layering) (inst : Instruction) (s' : Layering) :
  place format_name s inst = Some s' →
  ∃ wires ov mn mx m members w0,
    inst_wires inst = Some (wires, ov, mn, mx)
    ∧ max_layer (wire_layer s) (wire_range mn mx) (-1) = Some m
    ∧ let layer := m + 1 in
      let shape := inst_shape format_name inst wires ov in
      let layers0 := if layer =? Z.of_nat (length (layers s))
                     then layers s ++ [[]] else layers s in
      let lw0 := if layer =? Z.of_nat (length (layers s))
                 then layer_width s ++ [0] else layer_width s in
      at_ layers0 layer = Some members
      ∧ at_ lw0 layer = Some w0
      ∧ set_layer (wire_layer s) (wire_range mn mx) layer
        = Some (wire_layer s')
      ∧ boxes s' = boxes s ++ [shape]
      ∧ layers s' = <[Z.to_nat layer := members ++ [ref s]]> layers0
      ∧ layer_width s' = <[Z.to_nat layer := Z.max w0 (width shape)]> lw0
      ∧ ref s' = S (ref s).
Proof.
  unfold place. intros Hplace.
  destruct (inst_wires inst) as [[[[wires ov] mn] mx]|]; [|done].
  simpl in Hplace.
  destruct (max_layer (wire_layer s) (wire_range mn mx) (-1)) as [m|]
    eqn:Hm; [|done].
  simpl in Hplace. exists wires, ov, mn, mx, m.
  destruct (m + 1 =? Z.of_nat (length (layers s)));
    (match type of Hplace with
     | at_ ?ls _ ≫= _ = _ =>
         destruct (at_ ls (m + 1)) as [members|] eqn:Hmem; [|done]
     end;
     simpl in Hplace; unfold set_at in Hplace; rewrite Hmem in Hplace;
     simpl in Hplace;
     destruct (set_layer (wire_layer s) (wire_range mn mx) (m + 1))
       as [wl'|]; [|done];
     simpl in Hplace;
     match type of Hplace with
     | at_ ?lw _ ≫= _ = _ =>
         destruct (at_ lw (m + 1)) as [w0|] eqn:Hw0; [|done]
     end;
     simpl in Hplace; injection Hplace as <-; exists members, w0; simpl;
     by rewrite ?Hm).
Qed.

Lemma width_pos (shape : Operator) : 0 < width shape.
Proof. destruct shape; simpl; repeat case_match; lia. Qed.

Lemma at_insert_eq {A} (v : list A) (i : Z) (x y : A) :
  at_ v i = Some y → at_ (<[Z.to_nat i := x]> v) i = Some x.
Proof.
  rewrite !at_Some. intros [? Hy]. split; [done|].
  apply list_lookup_insert_eq. by apply lookup_lt_Some in Hy.
Qed.

Lemma at_insert_ne {A} (v : list A) (i j : Z) (x : A) :
  0 ≤ i → i ≠ j → at_ (<[Z.to_nat i := x]> v) j = at_ v j.
Proof.
  intros Hi Hne. unfold at_. destruct (Z.ltb_spec j 0); [done|].
  apply list_lookup_insert_ne. lia.
Qed.

(** One iteration keeps the second invariant. *)
Lemma place_spec2 (nw : Z) (done : list Instruction) (s : Layering)
    (inst : Instruction) (s' : Layering) :
  layering_inv nw done s → layering_inv2 format_name done s →
  placeable nw inst →
  place format_name s inst = Some s' →
  layering_inv2 format_name (done ++ [inst]) s'.
Proof.
  intros Hinv Hinv2 Hpl Hplace.
  destruct (place_spec format_name nw done s inst Hinv Hpl)
    as (s'' & mn & mx & layer & Hspan & Hs'' & Hbelow & Hatt & Hiff
        & Hwires & Hinv').
  rewrite Hplace in Hs''. injection Hs'' as <-.
  destruct (place_inv s inst s' Hplace)
    as (wires & ov & mn' & mx' & m & members & w0 & Hw & Hm & Hmem & Hw0
        & Hsl & Hboxes & Hlayers & Hlw & Href).
  assert (mn' = mn ∧ mx' = mx) as [-> ->].
  { unfold inst_span in Hspan. rewrite Hw in Hspan. simpl in Hspan.
    by injection Hspan as -> ->. }
  set (shape := inst_shape format_name inst wires ov) in *.
  assert (∀ L r, in_layer s L r → (r < ref s)%nat) as Hold.
  { intros L r (i & ? & ? & Hd & _)%(inv_members _ _ _ Hinv).
    rewrite (inv_ref _ _ _ Hinv). by apply lookup_lt_Some in Hd. }
  assert (in_layer s' layer (ref s)) as Hnew by (apply Hiff; by right).
  assert (0 ≤ m + 1) as Hm0 by (apply at_Some in Hmem; lia).
  assert (layer = m + 1) as Hlayer.
  { assert (in_layer s' (m + 1) (ref s)) as [Hin|[? _]]%Hiff; [| |done].
    - exists (members ++ [ref s]). rewrite Hlayers.
      split; [by eapply at_insert_eq|]. apply elem_of_app. right. left.
    - apply Hold in Hin. lia. }
  rewrite <- Hlayer in *. clear m Hm Hlayer.
  assert (∀ r i, done !! r = Some i → (done ++ [inst]) !! r = Some i)
    as Hd_old by (intros r i; apply lookup_app_l_Some).
  assert ((done ++ [inst]) !! ref s = Some inst) as Hd_new.
  { rewrite (inv_ref _ _ _ Hinv). apply list_lookup_middle. done. }
  assert (∀ r i, (r < ref s)%nat → (done ++ [inst]) !! r = Some i →
                 done !! r = Some i) as Hd_inv.
  { intros r i Hr. rewrite lookup_app_l; [done|].
    by rewrite <- (inv_ref _ _ _ Hinv). }
  assert (0 ≤ mn) as Hmn0.
  { destruct (inv_members _ _ _ Hinv' _ _ Hnew)
      as (i & mn0 & mx0 & Hd & Hsp & ? & _).
    rewrite Hd_new in Hd. injection Hd as <-. rewrite Hspan in Hsp.
    by injection Hsp as -> ->. }
  assert (length (layer_width s) = length (layers s)) as Hlens
    by apply (inv_widths _ _ _ Hinv).
  assert (∀ r b, boxes s !! r = Some b → boxes s' !! r = Some b) as Hb_old.
  { intros r b. rewrite Hboxes. apply lookup_app_l_Some. }
  assert (boxes s' !! ref s = Some shape) as Hb_new.
  { rewrite Hboxes, <- (inv2_boxes _ _ _ Hinv2). by apply list_lookup_middle. }
  assert (∀ L w, L ≠ layer →
            at_ (layer_width s') L = Some w ↔ at_ (layer_width s) L = Some w)
    as Hlw_old.
  { intros L w HL. rewrite Hlw, at_insert_ne by done.
    destruct (Z.eqb_spec layer (Z.of_nat (length (layers s)))) as [He|];
      [|done].
    rewrite !at_Some, lookup_app_Some, list_lookup_singleton_Some.
    split; [|naive_solver]. intros [? [?|[? [? _]]]]; [done|]. lia. }
  assert (at_ (layer_width s') layer = Some (Z.max w0 (width shape)))
    as Hlw_new by (rewrite Hlw; by eapply at_insert_eq).
  assert (width shape ≤ w0 → at_ (layer_width s) layer = Some w0) as Hlw_w0.
  { intros Hle. pose proof (width_pos shape).
    destruct (Z.eqb_spec layer (Z.of_nat (length (layers s)))) as [He|];
      [|done].
    apply at_Some in Hw0 as [_ Hw0]. rewrite lookup_app_r in Hw0 by lia.
    replace (Z.to_nat layer - length (layer_width s))%nat with 0%nat
      in Hw0 by lia.
    injection Hw0 as <-. lia. }
  assert (∀ w, at_ (layer_width s) layer = Some w → w = w0) as Hlw_eq.
  { intros w Hw'.
    destruct (Z.eqb_spec layer (Z.of_nat (length (layers s)))) as [He|];
      [|congruence].
    apply at_Some in Hw' as [_ Hw']. apply lookup_lt_Some in Hw'. lia. }
  split.
  - intros L1 L2 r1 r2 i1 i2 sp1 sp2 Hlt [H1|[-> ->]]%Hiff
      [H2|[-> ->]]%Hiff Hi1 Hi2 Hs1 Hs2 Hov.
    + pose proof (Hold _ _ H1). pose proof (Hold _ _ H2).
      apply Hd_inv in Hi1, Hi2; [|done..].
      by eapply (inv2_order _ _ _ Hinv2 L1 L2 r1 r2).
    + pose proof (Hold _ _ H1) as Hr1. apply Hd_inv in Hi1; [|done].
      rewrite Hd_new in Hi2. injection Hi2 as <-.
      rewrite Hspan in Hs2. injection Hs2 as <-.
      destruct (inv_members _ _ _ Hinv _ _ H1)
        as (i & mn1 & mx1 & Hd & Hsp & _ & Hall).
      rewrite Hi1 in Hd. injection Hd as <-.
      rewrite Hs1 in Hsp. injection Hsp as ->.
      destruct Hov as (w & Hw1 & Hw2). simpl in Hw1, Hw2.
      destruct (Hall w Hw1) as (l & Hl & ?).
      destruct (Hbelow w Hw2) as (l' & Hl' & ?).
      rewrite Hl in Hl'. injection Hl' as <-. lia.
    + apply Hold in H2. lia.
    + lia.
  - intros w l Hwl Hl. rewrite Hwires in Hwl. case_bool_decide as Hw'.
    + injection Hwl as <-. by exists (ref s), inst, mn, mx.
    + destruct (inv2_wire _ _ _ Hinv2 w l Hwl Hl)
        as (r & i & mn0 & mx0 & Hin & Hd & Hsp & Hr).
      exists r, i, mn0, mx0.
      split_and!; [apply Hiff; by left|by apply Hd_old|done|lia..].
  - intros L r [Hin|[-> ->]]%Hiff HL.
    + destruct (inv2_asap _ _ _ Hinv2 L r Hin HL)
        as (r' & i & i' & sp & sp' & ? & ? & ? & ? & ? & ? & ?).
      exists r', i, i', sp, sp'.
      split_and!; [done|apply Hiff; by left|by apply Hd_old
                   |by apply Hd_old|done..].
    + destruct Hatt as (w & Hw' & Hwl).
      destruct (inv2_wire _ _ _ Hinv2 (Z.to_nat w) (layer - 1) Hwl)
        as (r' & i' & mn0 & mx0 & Hin & Hd & Hsp & Hr); [lia|].
      exists r', inst, i', (mn, mx), (mn0, mx0).
      split_and!; [by eapply Hold|apply Hiff; by left|done|by apply Hd_old
                   |done|done|].
      exists w. simpl. lia.
  - intros L1 L2 r [H1|[-> ->]]%Hiff [H2|[? ?]]%Hiff.
    + by eapply (inv2_unique _ _ _ Hinv2).
    + apply Hold in H1. lia.
    + apply Hold in H2. lia.
    + done.
  - intros r Hr. rewrite Href in Hr.
    destruct (decide (r = ref s)) as [->|Hne]; [by exists layer|].
    destruct (inv2_total _ _ _ Hinv2 r) as [L HL]; [lia|].
    exists L. apply Hiff. by left.
  - intros L HL. rewrite Hlayers, length_insert in HL.
    destruct (decide (L = layer)) as [->|Hne]; [by exists (ref s)|].
    destruct (inv2_nonempty _ _ _ Hinv2 L) as [r Hr].
    { destruct (Z.eqb_spec layer (Z.of_nat (length (layers s))));
        [|done].
      rewrite length_app in HL. simpl in HL. lia. }
    exists r. apply Hiff. by left.
  - rewrite Hboxes, length_app, (inv2_boxes _ _ _ Hinv2), Href. simpl. lia.
  - intros r b. rewrite Hboxes.
    intros [Hb|[Hr Hb]]%lookup_app_Some.
    + destruct (inv2_shapes _ _ _ Hinv2 r b Hb)
        as (i & ws & o & mn0 & mx0 & ? & ? & ?).
      exists i, ws, o, mn0, mx0. split; [by apply Hd_old|done].
    + apply list_lookup_singleton_Some in Hb as [Hr' <-].
      assert (r = ref s) as -> by (rewrite <- (inv2_boxes _ _ _ Hinv2); lia).
      by exists inst, wires, ov, mn, mx.
  - intros L r b [Hin|[-> ->]]%Hiff Hb.
    + assert (boxes s !! r = Some b) as Hb'.
      { rewrite Hboxes, lookup_app_l in Hb; [done|].
        rewrite (inv2_boxes _ _ _ Hinv2). by eapply Hold. }
      destruct (inv2_width_ge _ _ _ Hinv2 L r b Hin Hb') as (w & Hw' & Hle).
      destruct (decide (L = layer)) as [->|Hne].
      * apply Hlw_eq in Hw' as ->. eexists. split; [done|]. lia.
      * exists w. split; [by apply Hlw_old|done].
    + rewrite Hb_new in Hb. injection Hb as <-.
      eexists. split; [done|]. lia.
  - intros L w Hw'. destruct (decide (L = layer)) as [->|Hne].
    + rewrite Hlw_new in Hw'. injection Hw' as <-.
      destruct (Z.max_spec w0 (width shape)) as [[Hlt ->]|[Hle ->]].
      * by exists (ref s), shape.
      * destruct (inv2_width_max _ _ _ Hinv2 layer w0 (Hlw_w0 Hle))
          as (r & b & ? & ? & ?).
        exists r, b. split_and!; [apply Hiff; by left|by apply Hb_old|done].
    + apply Hlw_old in Hw'; [|done].
      destruct (inv2_width_max _ _ _ Hinv2 L w Hw') as (r & b & ? & ? & ?).
      exists r, b. split_and!; [apply Hiff; by left|by apply Hb_old|done].
Qed.

Lemma layering_inv2_initial (nw : Z) :
  layering_inv2 format_name [] (initial nw).
Proof.
  assert (∀ L r, ¬ in_layer (initial nw) L r) as Hnone.
  { intros L r (ms & Hms & _). apply at_Some in Hms as [_ Hms]. done. }
  split; simpl.
  - intros L1 L2 r1 r2 i1 i2 sp1 sp2 _ H1. by apply Hnone in H1.
  - intros w l [-> _]%lookup_replicate. lia.
  - intros L r H1. by apply Hnone in H1.
  - intros L1 L2 r H1. by apply Hnone in H1.
  - lia.
  - lia.
  - done.
  - done.
  - intros L r b H1. by apply Hnone in H1.
  - intros L w [_ Hw]%at_Some. done.
Qed.

(** The loop keeps both invariants. *)
Lemma place_all_spec2 (nw : Z) (done rest : list Instruction)
    (s : Layering) :
  layering_inv nw done s → layering_inv2 format_name done s →
  Forall (placeable nw) rest →
  ∃ s', place_all format_name s rest = Some s'
        ∧ layering_inv nw (done ++ rest) s'
        ∧ layering_inv2 format_name (done ++ rest) s'.
Proof.
  intros Hinv Hinv2 Hrest. revert done s Hinv Hinv2.
  induction Hrest as [|inst rest Hinst _ IH]; intros done s Hinv Hinv2.
  - exists s. rewrite app_nil_r. done.
  - destruct (place_spec format_name nw done s inst Hinv Hinst)
      as (s1 & _ & _ & _ & _ & Hs1 & _ & _ & _ & _ & Hinv1).
    pose proof (place_spec2 nw done s inst s1 Hinv Hinv2 Hinst Hs1) as Hinv21.
    destruct (IH _ _ Hinv1 Hinv21) as (s' & Hs' & Hinv' & Hinv2').
    exists s'. simpl. rewrite Hs1. simpl.
    rewrite <- app_assoc in Hinv', Hinv2'. done.
Qed.

Lemma layering_spec2 (trace : Trace) :
  Forall (placeable (getNumQudits trace)) (instructions trace) →
  ∃ s, layering format_name trace = Some s
       ∧ layering_inv (getNumQudits trace) (instructions trace) s
       ∧ layering_inv2 format_name (instructions trace) s.
Proof.
  intros Hall.
  apply (place_all_spec2 (getNumQudits trace) [] (instructions trace));
    [apply layering_inv_initial|apply layering_inv2_initial|done].
Qed.

End LayeringMore.

Section LayeringProperties.
Import Draw.
Variable format_name : string → list Z → string.

(** X6.  On a trace of fewer than [2^31] qudits whose instructions are
    placeable, the layering loop runs to its end and the layers follow the
    order of the trace on every wire: when instruction [k1] comes before
    instruction [k2] and their spans share a wire, the layer of [k1] is
    strictly before the layer of [k2]. *)
Theorem layering_follows_the_trace_order (trace : Trace) :
  getNumQudits trace < 2 ^ 31 →
  Forall (placeable (getNumQudits trace)) (instructions trace) →
  ∃ s,
    layering format_name trace = Some s
    ∧ ∀ L1 L2 k1 k2 i1 i2 sp1 sp2,
        (k1 < k2)%nat → in_layer s L1 k1 → in_layer s L2 k2 →
        instructions trace !! k1 = Some i1 →
        instructions trace !! k2 = Some i2 →
        inst_span i1 = Some sp1 → inst_span i2 = Some sp2 →
        overlapping sp1 sp2 → L1 < L2.
Proof.
  intros _ Hall.
  destruct (layering_spec2 format_name trace Hall) as (s & Hs & _ & Hinv2).
  exists s. split; [done|]. apply (inv2_order _ _ _ Hinv2).
Qed.

(** X7.  On a trace of fewer than [2^31] qudits whose instructions are
    placeable, the loop puts an instruction in the earliest layer it can: an
    instruction of a layer [L > 0] shares a wire with an earlier
    instruction that is in layer [L - 1]. *)
Theorem layering_is_as_early_as_possible (trace : Trace) :
  getNumQudits trace < 2 ^ 31 →
  Forall (placeable (getNumQudits trace)) (instructions trace) →
  ∃ s,
    layering format_name trace = Some s
    ∧ ∀ L k,
        in_layer s L k → 0 < L →
        ∃ k' i i' sp sp',
          (k' < k)%nat ∧ in_layer s (L - 1) k'
          ∧ instructions trace !! k = Some i
          ∧ instructions trace !! k' = Some i'
          ∧ inst_span i = Some sp ∧ inst_span i' = Some sp'
          ∧ overlapping sp' sp.
Proof.
  intros _ Hall.
  destruct (layering_spec2 format_name trace Hall) as (s & Hs & _ & Hinv2).
  exists s. split; [done|]. apply (inv2_asap _ _ _ Hinv2).
Qed.

(** X8.  On a trace of fewer than [2^31] qudits whose instructions are
    placeable, the layers partition the trace: every instruction number below
    the length of the trace is in exactly one layer, a layer holds only
    such numbers, no layer is empty, and there are as many layers as
    layer widths.  There is one box per instruction, and box [k] is the
    shape made from the wires and the overlap flag of instruction [k]. *)
Theorem layering_partitions_the_trace (trace : Trace) :
  getNumQudits trace < 2 ^ 31 →
  Forall (placeable (getNumQudits trace)) (instructions trace) →
  ∃ s,
    layering format_name trace = Some s
    ∧ (∀ k, (k < length (instructions trace))%nat →
            ∃ L, in_layer s L k ∧ ∀ L', in_layer s L' k → L' = L)
    ∧ (∀ L k, in_layer s L k → (k < length (instructions trace))%nat)
    ∧ (∀ L, 0 ≤ L < Z.of_nat (length (layers s)) → ∃ k, in_layer s L k)
    ∧ length (layer_width s) = length (layers s)
    ∧ length (boxes s) = length (instructions trace)
    ∧ ∀ k inst,
        instructions trace !! k = Some inst →
        ∃ wires ov mn mx,
          inst_wires inst = Some (wires, ov, mn, mx)
          ∧ boxes s !! k = Some (inst_shape format_name inst wires ov).
Proof.
  intros _ Hall.
  destruct (layering_spec2 format_name trace Hall) as (s & Hs & Hinv & Hinv2).
  pose proof (inv_ref _ _ _ Hinv) as Href.
  pose proof (inv2_boxes _ _ _ Hinv2) as Hboxes.
  exists s. split_and!; [done| | | | |congruence|].
  - intros k Hk. destruct (inv2_total _ _ _ Hinv2 k) as [L HL]; [lia|].
    exists L. split; [done|]. intros L' HL'.
    apply (inv2_unique _ _ _ Hinv2 L' L k HL' HL).
  - intros L k (i & ? & ? & Hd & _)%(inv_members _ _ _ Hinv).
    by apply lookup_lt_Some in Hd.
  - apply (inv2_nonempty _ _ _ Hinv2).
  - apply (inv_widths _ _ _ Hinv).
  - intros k inst Hk.
    destruct (lookup_lt_is_Some_2 (boxes s) k) as [b Hb].
    { apply lookup_lt_Some in Hk. lia. }
    destruct (inv2_shapes _ _ _ Hinv2 k b Hb)
      as (i & wires & ov & mn & mx & Hi & Hw & ->).
    rewrite Hk in Hi. injection Hi as <-. by exists wires, ov, mn, mx.
Qed.

(** X9.  On a trace of fewer than [2^31] qudits whose instructions are
    placeable, the width recorded for a layer is the width of its widest
    member: some box of the layer has that width and no box of the layer
    is wider. *)
Theorem layer_width_is_the_widest_member (trace : Trace) :
  getNumQudits trace < 2 ^ 31 →
  Forall (placeable (getNumQudits trace)) (instructions trace) →
  ∃ s,
    layering format_name trace = Some s
    ∧ ∀ L w,
        at_ (layer_width s) L = Some w →
        (∃ k b, in_layer s L k ∧ boxes s !! k = Some b ∧ width b = w)
        ∧ ∀ k b, in_layer s L k → boxes s !! k = Some b → width b ≤ w.
Proof.
  intros _ Hall.
  destruct (layering_spec2 format_name trace Hall) as (s & Hs & _ & Hinv2).
  exists s. split; [done|]. intros L w Hw. split.
  - by apply (inv2_width_max _ _ _ Hinv2).
  - intros k b Hk Hb.
    destruct (inv2_width_ge _ _ _ Hinv2 L k b Hk Hb) as (w' & Hw' & ?).
    congruence.
Qed.

Lemma max_layer_in_range (wl : list Z) (range : list Z) (layer r : Z) :
  max_layer wl range layer = Some r →
  ∀ i, i ∈ range → 0 ≤ i < Z.of_nat (length wl).
Proof.
  revert layer. induction range as [|j range IH]; intros layer Hr i Hi.
  - by apply elem_of_nil in Hi.
  - simpl in Hr. destruct (at_ wl j) as [l|] eqn:Hl; [|done].
    simpl in Hr. apply elem_of_cons in Hi as [->|Hi]; [|by eapply IH].
    apply at_Some in Hl as [? Hl]. apply lookup_lt_Some in Hl. lia.
Qed.

Lemma set_layer_length (wl : list Z) (range : list Z) (layer : Z)
    (wl' : list Z) :
  set_layer wl range layer = Some wl' → length wl' = length wl.
Proof.
  revert wl. induction range as [|j range IH]; intros wl Hwl; simpl in Hwl.
  - by injection Hwl as <-.
  - unfold set_at in Hwl. destruct (at_ wl j); [|done]. simpl in Hwl.
    apply IH in Hwl. by rewrite length_insert in Hwl.
Qed.

(** An iteration that does not throw was given a placeable instruction,
    and keeps the number of wires. *)
Lemma place_Some_placeable (nw : Z) (s : Layering) (inst : Instruction)
    (s' : Layering) :
  length (wire_layer s) = Z.to_nat nw →
  place format_name s inst = Some s' →
  placeable nw inst ∧ length (wire_layer s') = Z.to_nat nw.
Proof.
  intros Hlen Hplace.
  destruct (place_inv format_name s inst s' Hplace)
    as (wires & ov & mn & mx & m & members & w0 & Hw & Hm & _ & _ & Hsl & _).
  simpl in Hsl. apply set_layer_length in Hsl.
  split; [|congruence].
  assert (targets inst ≠ []) as Hne.
  { intros Hnil. unfold inst_wires in Hw. rewrite Hnil in Hw. done. }
  split; [done|]. intros w Hin.
  destruct (inst_wires_spec inst Hne)
    as (wires' & ov' & mn' & mx' & Hw' & _ & Hcov & _).
  rewrite Hw in Hw'. injection Hw' as _ _ <- <-.
  pose proof (max_layer_in_range _ _ _ _ Hm w) as Hr.
  rewrite elem_of_wire_range in Hr. specialize (Hr (Hcov w Hin)). lia.
Qed.

Lemma place_all_Some_placeable (nw : Z) (s : Layering)
    (rest : list Instruction) (s' : Layering) :
  length (wire_layer s) = Z.to_nat nw →
  place_all format_name s rest = Some s' →
  Forall (placeable nw) rest.
Proof.
  revert s. induction rest as [|inst rest IH]; intros s Hlen Hall.
  - apply Forall_nil_2.
  - simpl in Hall.
    destruct (place format_name s inst) as [s1|] eqn:Hs1; [|done].
    simpl in Hall.
    destruct (place_Some_placeable nw s inst s1 Hlen Hs1) as [Hp Hlen1].
    apply Forall_cons_2; [done|]. by eapply IH.
Qed.

(** X10.  On a trace whose number of qudits and whose ids fit an [int]
    and whose instructions all have a target, the layering loop runs to
    its end exactly when every id an instruction names is a wire of the
    diagram: on any other such trace an access [wire_layer.at(i)] throws
    [std::out_of_range]. *)
Theorem layering_runs_iff_placeable (trace : Trace) :
  getNumQudits trace < 2 ^ 31 →
  Forall (λ inst, targets inst ≠ []
                  ∧ ∀ w, w ∈ inst_ids inst → 0 ≤ w < 2 ^ 31)
         (instructions trace) →
  is_Some (layering format_name trace)
  ↔ Forall (placeable (getNumQudits trace)) (instructions trace).
Proof.
  intros _ _. split.
  - intros [s Hs]. unfold layering in Hs.
    eapply place_all_Some_placeable; [|done].
    simpl. by rewrite length_replicate.
  - intros Hall.
    destruct (layering_spec2 format_name trace Hall) as (s & Hs & _).
    by exists s.
Qed.

End LayeringProperties.

(** *** The columns of the boxes and the cutting points *)

Section Columns.
Import Draw.

Lemma total_app (ws1 ws2 : list Z) :
  total (ws1 ++ ws2) = total ws1 + total ws2.
Proof.
  unfold total. induction ws1 as [|w ws1 IH]; simpl; [done|]. rewrite IH. lia.
Qed.

Lemma total_nonneg (ws : list Z) : Forall (λ w, 0 ≤ w) ws → 0 ≤ total ws.
Proof. unfold total. induction 1; simpl; lia. Qed.

Lemma band_start_S (ws : list Z) (L : nat) (w : Z) :
  ws !! L = Some w → band_start ws (S L) = band_start ws L + w.
Proof.
  intros Hw. unfold band_start. rewrite (take_S_r _ _ _ Hw), total_app.
  unfold total. simpl. lia.
Qed.

Lemma band_start_bounds (ws : list Z) (L : nat) :
  Forall (λ w, 0 ≤ w) ws → 0 ≤ band_start ws L ≤ total ws.
Proof.
  intros Hpos. unfold band_start.
  rewrite <- (take_drop L ws) at 3. rewrite total_app.
  pose proof (total_nonneg (take L ws) (Forall_take _ _ _ Hpos)).
  pose proof (total_nonneg (drop L ws) (Forall_drop _ _ _ Hpos)). lia.
Qed.

Lemma band_start_all (ws : list Z) (L : nat) :
  (length ws ≤ L)%nat → band_start ws L = total ws.
Proof. intros HL. unfold band_start. by rewrite take_ge. Qed.

Lemma band_start_mono (ws : list Z) (L1 L2 : nat) :
  Forall (λ w, 0 ≤ w) ws → (L1 ≤ L2)%nat →
  band_start ws L1 ≤ band_start ws L2.
Proof.
  intros Hpos Hle. induction Hle as [|m Hle IH]; [done|].
  destruct (ws !! m) as [w|] eqn:Hw.
  - rewrite (band_start_S _ _ _ Hw).
    pose proof (Forall_lookup_1 _ _ _ _ Hpos Hw). simpl in *. lia.
  - apply lookup_ge_None in Hw.
    rewrite (band_start_all ws (S m)) by lia.
    rewrite (band_start_all ws m) in IH by lia. done.
Qed.


Lemma in_layer_nat (s : Layering) (L k : nat) :
  in_layer s (Z.of_nat L) k ↔ ∃ ms, layers s !! L = Some ms ∧ k ∈ ms.
Proof.
  unfold in_layer. split; intros (ms & Hms & Hk); exists ms.
  - apply at_Some in Hms as [_ Hms]. by rewrite Nat2Z.id in Hms.
  - split; [|done]. apply at_Some. rewrite Nat2Z.id. split; [lia|done].
Qed.

(** The inner loop sets the columns of the members and of no other box. *)
Lemma set_layer_cols_spec (boxes : list Operator) (curr w : Z)
    (members : list nat) (cols : list (option (Z * Z))) :
  (∀ k, k ∈ members → (k < length boxes)%nat) →
  length cols = length boxes →
  ∃ cols',
    set_layer_cols boxes curr w members cols = Some cols'
    ∧ length cols' = length cols
    ∧ (∀ k, k ∉ members → cols' !! k = cols !! k)
    ∧ ∀ k b,
        k ∈ members → boxes !! k = Some b →
        cols' !! k
        = Some (Some (set_cols b
                        (to_int (to_unsigned_int
                                   (curr
                                    + to_unsigned_int (w - width b) / 2))))).
Proof.
  revert cols. induction members as [|r members IH]; intros cols Hmem Hlen.
  - exists cols. split_and!; [done..|]. intros k b Hk.
    by apply elem_of_nil in Hk.
  - destruct (lookup_lt_is_Some_2 boxes r) as [box Hbox];
      [apply Hmem; left|].
    set (c := Some (set_cols box
                 (to_int (to_unsigned_int
                            (curr + to_unsigned_int (w - width box) / 2))))).
    destruct (IH (<[r := c]> cols)) as (cols' & Hcols' & Hlen' & Hout & Hin).
    { intros k Hk. apply Hmem. by right. }
    { by rewrite length_insert. }
    exists cols'. simpl. rewrite Hbox. simpl. fold c.
    rewrite length_insert in Hlen'.
    split_and!; [done..| |].
    + intros k Hk. apply not_elem_of_cons in Hk as [Hne Hk].
      rewrite (Hout k Hk). by apply list_lookup_insert_ne.
    + intros k b Hk Hb.
      destruct (decide (k ∈ members)) as [Hk'|Hk']; [by apply Hin|].
      apply elem_of_cons in Hk as [->|Hk]; [|done].
      rewrite (Hout r Hk'). rewrite Hbox in Hb. injection Hb as <-.
      apply list_lookup_insert_eq. rewrite Hlen.
      by apply lookup_lt_Some in Hbox.
Qed.

Lemma no_wrap_left_col (curr w wb : Z) :
  0 ≤ curr → 0 ≤ wb ≤ w → curr + w < 2 ^ 31 →
  to_int (to_unsigned_int (curr + to_unsigned_int (w - wb) / 2))
  = curr + (w - wb) / 2.
Proof.
  intros Hc Hw Hlt. unfold to_int, to_unsigned_int.
  assert (0 ≤ (w - wb) / 2 ≤ w) by (split; [apply Z.div_pos; lia|];
    apply Z.div_le_upper_bound; lia).
  rewrite (Z.mod_small (w - wb)) by lia.
  rewrite (Z.mod_small (curr + _)) by lia.
  rewrite Z.mod_small by lia. lia.
Qed.

Section Loop.
Variables (s : Layering) (prefix_size : Z).
Hypothesis Hmem :
  ∀ (L k : nat), in_layer s (Z.of_nat L) k → (k < length (boxes s))%nat.
Hypothesis Huniq :
  ∀ L1 L2 k, in_layer s L1 k → in_layer s L2 k → L1 = L2.
Hypothesis Hge :
  ∀ (L k : nat) b w,
    in_layer s (Z.of_nat L) k → boxes s !! k = Some b →
    layer_width s !! L = Some w → 0 ≤ width b ≤ w.
Hypothesis Hlen : length (layer_width s) = length (layers s).
Hypothesis Hpos : Forall (λ w, 0 ≤ w) (layer_width s).
Hypothesis HW : total (layer_width s) < 2 ^ 31.
Hypothesis Hprefix : 0 ≤ prefix_size < max_columns - 1.

Lemma columns_inv_initial :
  columns_inv s prefix_size 0
    {| cols := replicate (length (boxes s)) None;
       curr_width := 0; acc_width := prefix_size; cutting_point := [] |}.
Proof using All.
  split; simpl.
  - done.
  - by rewrite length_replicate.
  - intros. lia.
  - constructor.
  - intros c Hc. by apply elem_of_nil in Hc.
  - intros i lo hi _ Hi. done.
  - exists 0. split_and!; [done|lia|lia|]. left. lia.
Qed.

Lemma width_step_spec (j : nat) (st : Columns) :
  (j < length (layers s))%nat → columns_inv s prefix_size j st →
  ∃ st', width_step s st j = Some st' ∧ columns_inv s prefix_size (S j) st'.
Proof using All.
  intros Hj Hinv.
  destruct (lookup_lt_is_Some_2 (layers s) j Hj) as [ms Hms].
  destruct (lookup_lt_is_Some_2 (layer_width s) j) as [w Hw]; [lia|].
  pose proof (Forall_lookup_1 _ _ _ _ Hpos Hw) as Hw0. simpl in Hw0.
  pose proof (band_start_bounds (layer_width s) j Hpos) as Hcurr.
  pose proof (band_start_bounds (layer_width s) (S j) Hpos) as Hnext.
  rewrite (band_start_S _ _ _ Hw) in Hnext.
  destruct Hinv as [Hc Hl Hcols Hsorted Hcuts Hchunks
                      (lo & Hlo & Hlole & Hacc & Hopen)].
  rewrite <- Hc in Hcurr, Hnext.
  assert (∀ k, k ∈ ms → in_layer s (Z.of_nat j) k) as Hin_j.
  { intros k Hk. apply in_layer_nat. by exists ms. }
  destruct (set_layer_cols_spec (boxes s) (curr_width st) w ms (cols st))
    as (cols1 & Hcols1 & Hlen1 & Hout & Hin); [|done|].
  { intros k Hk. by eapply Hmem, Hin_j. }
  assert (0 ≤ lo) as Hlo0.
  { apply last_Some in Hlo as [l' Hl'].
    destruct l' as [|z l']; simpl in Hl'; [injection Hl' as <-; lia|].
    injection Hl' as <- Hl'.
    destruct (Hcuts lo) as (L & _ & ->);
      [rewrite Hl'; apply elem_of_app; right; left|].
    apply band_start_bounds, Hpos. }
  assert (0 ≤ acc_width st ≤ curr_width st + prefix_size) as Hacc0.
  { rewrite Hacc. destruct (cutting_point st); lia. }
  unfold max_columns in *.
  assert (to_size_t w = w) as Hsz
    by (unfold to_size_t; apply Z.mod_small; lia).
  assert (to_unsigned_int w = w) as Hu
    by (unfold to_unsigned_int; apply Z.mod_small; lia).
  assert (to_unsigned_int (curr_width st + w) = curr_width st + w) as Hcw
    by (unfold to_unsigned_int; apply Z.mod_small; lia).
  assert (to_int (curr_width st) = curr_width st) as Hint
    by (unfold to_int; rewrite Z.mod_small; lia).
  assert (to_size_t (acc_width st + w) = acc_width st + w) as Hsz2
    by (unfold to_size_t; apply Z.mod_small; lia).
  assert (∀ (L k : nat) b w',
            (L < S j)%nat → in_layer s (Z.of_nat L) k →
            boxes s !! k = Some b → layer_width s !! L = Some w' →
            cols1 !! k
            = Some (Some (set_cols b (band_start (layer_width s) L
                                      + (w' - width b) / 2)))) as Hcols'.
  { intros L k b w' HL Hk Hb Hw'.
    destruct (decide (L = j)) as [->|Hne].
    - rewrite Hw in Hw'. injection Hw' as <-.
      apply in_layer_nat in Hk as (ms' & Hms' & Hk).
      rewrite Hms in Hms'. injection Hms' as <-.
      pose proof (Hge j k b w (Hin_j k Hk) Hb Hw) as Hwb.
      rewrite (Hin k b Hk Hb), no_wrap_left_col, Hc; [done|lia..].
    - rewrite Hout; [apply (Hcols L k b w'); [lia|done..]|].
      intros Hk'%Hin_j. pose proof (Huniq _ _ _ Hk Hk'). lia. }
  unfold width_step, max_columns. rewrite Hms. simpl. rewrite Hw. simpl.
  rewrite Hcols1. simpl. rewrite Hsz, Hu, Hcw, Hsz2, Hint.
  destruct (Z.geb_spec (acc_width st + w) (80 - 1)) as [Hcut|Hnocut].
  - eexists. split; [done|]. split; simpl.
    + rewrite (band_start_S _ _ _ Hw). lia.
    + congruence.
    + done.
    + apply StronglySorted_app_2; [|done|repeat constructor].
      intros x1 x2 Hx1 ->%list_elem_of_singleton.
      destruct (Hcuts x1 Hx1) as (L & HL & ->). rewrite Hc.
      by apply band_start_mono.
    + intros c [Hc'|Hc']%elem_of_app;
        [|apply list_elem_of_singleton in Hc' as ->].
      * destruct (Hcuts c Hc') as (L & HL & ->). exists L. split; [lia|done].
      * exists j. split; [lia|done].
    + intros i lo' hi Hlo' [Hhi|[Hi Hhi]]%lookup_app_Some.
      * apply (Hchunks i lo' hi); [|done].
        rewrite app_comm_cons, lookup_app_l in Hlo'; [done|].
        apply lookup_lt_Some in Hhi. simpl. lia.
      * apply list_lookup_singleton_Some in Hhi as [Hi' <-].
        assert (i = length (cutting_point st)) as -> by lia.
        rewrite app_comm_cons, lookup_app_l in Hlo' by (simpl; lia).
        rewrite last_lookup in Hlo. simpl in Hlo. rewrite Hlo in Hlo'.
        by injection Hlo' as <-.
    + exists (curr_width st). split_and!.
      * by rewrite app_comm_cons, last_snoc.
      * lia.
      * unfold to_size_t. rewrite Z.mod_small by lia.
        destruct (cutting_point st); simpl; lia.
      * right. exists j. rewrite (band_start_S _ _ _ Hw). split; [done|lia].
  - eexists. split; [done|]. split; simpl.
    + rewrite (band_start_S _ _ _ Hw). lia.
    + congruence.
    + done.
    + done.
    + intros c Hc'. destruct (Hcuts c Hc') as (L & HL & ->).
      exists L. split; [lia|done].
    + done.
    + exists lo. split_and!; [done|lia|lia|].
      left. unfold max_columns. rewrite Hacc in Hnocut.
      destruct (cutting_point st); simpl in *; lia.
Qed.

Lemma width_loop_spec (m j : nat) (st : Columns) :
  (j + m = length (layers s))%nat → columns_inv s prefix_size j st →
  ∃ st', width_loop s st (seq j m) = Some st'
         ∧ columns_inv s prefix_size (length (layers s)) st'.
Proof using All.
  revert j st. induction m as [|m IH]; intros j st Hjm Hinv.
  - exists st. split; [done|]. by replace (length (layers s)) with j by lia.
  - destruct (width_step_spec j st) as (st1 & Hst1 & Hinv1); [lia|done|].
    destruct (IH (S j) st1) as (st' & Hst' & Hinv'); [lia|done|].
    exists st'. simpl. rewrite Hst1. simpl. done.
Qed.

(** The whole computation: the total width, the columns of each box, and
    the cutting points. *)
Lemma compute_width_spec :
  ∃ c,
    compute_width s prefix_size = Some c
    ∧ curr_width c = total (layer_width s)
    ∧ length (cols c) = length (boxes s)
    ∧ (∀ (L k : nat) b w,
         in_layer s (Z.of_nat L) k → boxes s !! k = Some b →
         layer_width s !! L = Some w →
         cols c !! k
         = Some (Some (set_cols b (band_start (layer_width s) L
                                   + (w - width b) / 2))))
    ∧ StronglySorted Z.le (cutting_point c)
    ∧ last (cutting_point c) = Some (total (layer_width s))
    ∧ (∀ x, x ∈ cutting_point c → ∃ L, x = band_start (layer_width s) L)
    ∧ ∀ i lo hi,
        (0 :: cutting_point c) !! i = Some lo →
        cutting_point c !! i = Some hi →
        chunk_ok (layer_width s) prefix_size i lo hi.
Proof using All.
  destruct (width_loop_spec (length (layers s)) 0 _ eq_refl
              columns_inv_initial)
    as (st & Hst & [Hc Hl Hcols Hsorted Hcuts Hchunks
                      (lo & Hlo & Hlole & Hacc & Hopen)]).
  rewrite band_start_all in Hc by lia.
  pose proof (total_nonneg _ Hpos).
  assert (to_int (curr_width st) = total (layer_width s)) as Hint
    by (unfold to_int; rewrite Z.mod_small; lia).
  eexists. unfold compute_width. rewrite Hst. simpl. rewrite Hint.
  split; [done|]. simpl. split_and!; [done|done| |..].
  - intros L k b w Hk Hb Hw. apply (Hcols L k b w); [|done..].
    by apply lookup_lt_Some in Hw; lia.
  - apply StronglySorted_app_2; [|done|repeat constructor].
    intros x1 x2 Hx1 ->%list_elem_of_singleton.
    destruct (Hcuts x1 Hx1) as (L & HL & ->).
    apply band_start_bounds, Hpos.
  - apply last_snoc.
  - intros x [Hx|Hx]%elem_of_app;
      [|apply list_elem_of_singleton in Hx as ->].
    + destruct (Hcuts x Hx) as (L & _ & ->). by exists L.
    + exists (length (layers s)). by rewrite band_start_all by lia.
  - intros i lo' hi Hlo' [Hhi|[Hi Hhi]]%lookup_app_Some.
    + apply (Hchunks i lo' hi); [|done].
      rewrite app_comm_cons, lookup_app_l in Hlo'; [done|].
      apply lookup_lt_Some in Hhi. simpl. lia.
    + apply list_lookup_singleton_Some in Hhi as [Hi' <-].
      assert (i = length (cutting_point st)) as -> by lia.
      rewrite app_comm_cons, lookup_app_l in Hlo' by (simpl; lia).
      rewrite last_lookup in Hlo. simpl in Hlo. rewrite Hlo in Hlo'.
      injection Hlo' as <-. by rewrite <- Hc.
Qed.

(** A diagram that fits in the page with its prefix is not cut. *)
Lemma width_step_no_cut (j : nat) (st st' : Columns) :
  columns_inv s prefix_size j st → cutting_point st = [] →
  prefix_size + total (layer_width s) < max_columns - 1 →
  width_step s st j = Some st' → cutting_point st' = [].
Proof using All.
  intros [Hc _ _ _ _ _ (lo & Hlo & _ & Hacc & _)] Hnil Hfit.
  rewrite Hnil in Hlo, Hacc. simpl in Hlo. injection Hlo as <-.
  unfold width_step.
  destruct (layers s !! j) as [ms|]; [|done]. simpl.
  destruct (layer_width s !! j) as [w|] eqn:Hw; [|done]. simpl.
  destruct (set_layer_cols _ _ _ _ _) as [cols1|]; [|done]. simpl.
  pose proof (Forall_lookup_1 _ _ _ _ Hpos Hw) as Hw0. simpl in Hw0.
  pose proof (band_start_bounds (layer_width s) j Hpos) as Hcurr.
  pose proof (band_start_bounds (layer_width s) (S j) Hpos) as Hnext.
  rewrite (band_start_S _ _ _ Hw) in Hnext.
  unfold max_columns in *. unfold to_size_t.
  rewrite (Z.mod_small w) by lia. rewrite Hacc, Hc.
  rewrite Z.mod_small by lia.
  destruct (Z.geb_spec (band_start (layer_width s) j - 0 + prefix_size + w)
              (80 - 1)); [lia|].
  intros [= <-]. done.
Qed.

Lemma width_loop_no_cut (m j : nat) (st st' : Columns) :
  (j + m = length (layers s))%nat → columns_inv s prefix_size j st →
  cutting_point st = [] →
  prefix_size + total (layer_width s) < max_columns - 1 →
  width_loop s st (seq j m) = Some st' → cutting_point st' = [].
Proof using All.
  revert j st. induction m as [|m IH]; intros j st Hjm Hinv Hnil Hfit; simpl.
  - by intros [= <-].
  - destruct (width_step_spec j st) as (st1 & Hst1 & Hinv1); [lia|done|].
    rewrite Hst1. simpl. apply (IH (S j) st1); [lia|done| |done].
    by apply (width_step_no_cut j st st1).
Qed.

Lemma compute_width_no_cut (c : Columns) :
  prefix_size + total (layer_width s) < max_columns - 1 →
  compute_width s prefix_size = Some c →
  cutting_point c = [to_int (curr_width c)].
Proof using All.
  intros Hfit. unfold compute_width.
  destruct (width_loop s _ _) as [st|] eqn:Hst; [|done]. simpl.
  intros [= <-]. simpl.
  by rewrite (width_loop_no_cut (length (layers s)) 0 _ st eq_refl
                columns_inv_initial eq_refl Hfit Hst).
Qed.

End Loop.

End Columns.

Section ColumnsProperties.
Import Draw.
Variable format_name : string → list Z → string.

(** The layering of a placeable trace satisfies what the loop over the
    layers relies on. *)
Lemma layering_columns_spec (trace : Trace) (prefix_size : Z) (s : Layering) :
  layering_inv (getNumQudits trace) (instructions trace) s →
  layering_inv2 format_name (instructions trace) s →
  total (layer_width s) < 2 ^ 31 →
  0 ≤ prefix_size < max_columns - 1 →
  ∃ c,
    compute_width s prefix_size = Some c
    ∧ curr_width c = total (layer_width s)
    ∧ length (cols c) = length (boxes s)
    ∧ (∀ (L k : nat) b w,
         in_layer s (Z.of_nat L) k → boxes s !! k = Some b →
         layer_width s !! L = Some w →
         cols c !! k
         = Some (Some (set_cols b (band_start (layer_width s) L
                                   + (w - width b) / 2))))
    ∧ StronglySorted Z.le (cutting_point c)
    ∧ last (cutting_point c) = Some (total (layer_width s))
    ∧ (∀ x, x ∈ cutting_point c → ∃ L, x = band_start (layer_width s) L)
    ∧ ∀ i lo hi,
        (0 :: cutting_point c) !! i = Some lo →
        cutting_point c !! i = Some hi →
        chunk_ok (layer_width s) prefix_size i lo hi.
Proof.
  intros Hinv Hinv2 HW Hprefix.
  apply compute_width_spec; [| | | | |done..].
  - intros L k (i & ? & ? & Hd & _)%(inv_members _ _ _ Hinv).
    rewrite (inv2_boxes _ _ _ Hinv2), (inv_ref _ _ _ Hinv).
    by apply lookup_lt_Some in Hd.
  - apply (inv2_unique _ _ _ Hinv2).
  - intros L k b w Hk Hb Hw.
    destruct (inv2_width_ge _ _ _ Hinv2 _ k b Hk Hb) as (w' & Hw' & Hle).
    apply at_Some in Hw' as [_ Hw']. rewrite Nat2Z.id, Hw in Hw'.
    injection Hw' as <-. pose proof (width_pos b). lia.
  - apply (inv_widths _ _ _ Hinv).
  - apply Forall_lookup_2. intros L w Hw.
    destruct (inv2_width_max _ _ _ Hinv2 (Z.of_nat L) w)
      as (k & b & _ & _ & <-).
    { apply at_Some. rewrite Nat2Z.id. split; [lia|done]. }
    pose proof (width_pos b). lia.
Qed.

(** X11.  The second loop of [draw] centres every box in the band of
    columns of its layer.  On the layering of a placeable trace of fewer
    than [2^31] qudits whose layer widths sum to less than [2^31], the loop runs to its end, the
    diagram is as wide as the sum of the layer widths, and the box of an
    instruction of layer [L] gets the columns [l .. r] with
    [l = start L + (w - width) / 2] and [r = l + width - 1], which lie
    between the start of layer [L] and the start of the next layer. *)
Theorem boxes_are_centred_in_their_layer (trace : Trace) (prefix_size : Z) :
  getNumQudits trace < 2 ^ 31 →
  Forall (placeable (getNumQudits trace)) (instructions trace) →
  0 ≤ prefix_size < max_columns - 1 →
  ∃ s,
    layering format_name trace = Some s
    ∧ (total (layer_width s) < 2 ^ 31 →
       ∃ c,
         compute_width s prefix_size = Some c
         ∧ curr_width c = total (layer_width s)
         ∧ ∀ (L k : nat) b w,
             in_layer s (Z.of_nat L) k → boxes s !! k = Some b →
             layer_width s !! L = Some w →
             ∃ l r,
               cols c !! k = Some (Some (l, r))
               ∧ l = band_start (layer_width s) L + (w - width b) / 2
               ∧ r = l + width b - 1
               ∧ band_start (layer_width s) L ≤ l
               ∧ r < band_start (layer_width s) (S L)).
Proof.
  intros _ Hall Hprefix.
  destruct (layering_spec2 format_name trace Hall) as (s & Hs & Hinv & Hinv2).
  exists s. split; [done|]. intros HW.
  destruct (layering_columns_spec trace prefix_size s Hinv Hinv2 HW Hprefix)
    as (c & Hc & Hcurr & _ & Hcols & _).
  exists c. split_and!; [done..|].
  intros L k b w Hk Hb Hw. eexists _, _.
  split; [by apply (Hcols L k b w)|].
  rewrite (band_start_S _ _ _ Hw).
  destruct (inv2_width_ge _ _ _ Hinv2 _ k b Hk Hb) as (w' & Hw' & Hle).
  apply at_Some in Hw' as [_ Hw']. rewrite Nat2Z.id, Hw in Hw'.
  injection Hw' as <-. pose proof (width_pos b).
  assert (0 ≤ (w - width b) / 2) by (apply Z.div_pos; lia).
  assert (2 * ((w - width b) / 2) ≤ w - width b)
    by (apply Z.mul_div_le; lia).
  split_and!; [done|done|lia|lia].
Qed.


(** X13.  The cutting points of the diagram, on a placeable trace of
    fewer than [2^31] qudits whose layer widths sum to less than [2^31]:
    they are in increasing
    order, each is the start of a layer, and the last one is the width of
    the diagram.  They cut the diagram in chunks [lo, hi) that, with the
    prefix of the first chunk, are narrower than [max_columns - 1], a
    chunk made of a single layer apart. *)
Theorem cutting_points_chunk_the_diagram (trace : Trace) (prefix_size : Z) :
  getNumQudits trace < 2 ^ 31 →
  Forall (placeable (getNumQudits trace)) (instructions trace) →
  0 ≤ prefix_size < max_columns - 1 →
  ∃ s,
    layering format_name trace = Some s
    ∧ (total (layer_width s) < 2 ^ 31 →
       ∃ c,
         compute_width s prefix_size = Some c
         ∧ StronglySorted Z.le (cutting_point c)
         ∧ last (cutting_point c) = Some (total (layer_width s))
         ∧ (∀ x, x ∈ cutting_point c →
                 ∃ L, x = band_start (layer_width s) L)
         ∧ ∀ i lo hi,
             (0 :: cutting_point c) !! i = Some lo →
             cutting_point c !! i = Some hi →
             chunk_ok (layer_width s) prefix_size i lo hi).
Proof.
  intros _ Hall Hprefix.
  destruct (layering_spec2 format_name trace Hall) as (s & Hs & Hinv & Hinv2).
  exists s. split; [done|]. intros HW.
  destruct (layering_columns_spec trace prefix_size s Hinv Hinv2 HW Hprefix)
    as (c & Hc & _ & _ & _ & Hsorted & Hlast & Hcuts & Hchunks).
  by exists c.
Qed.

End ColumnsProperties.

(** *** The grid and the shapes *)

Section Grid.
Import Draw.

Lemma row_same_outside_refl (l r : Z) (row : list Z) :
  row_same_outside l r row row.
Proof. by split. Qed.

Lemma row_same_outside_trans (l r : Z) (row1 row2 row3 : list Z) :
  row_same_outside l r row1 row2 → row_same_outside l r row2 row3 →
  row_same_outside l r row1 row3.
Proof.
  intros [Hlen1 H1] [Hlen2 H2]. split; [congruence|].
  intros j Hj. by rewrite H2, H1.
Qed.

Lemma set_at_Some {A} (v : list A) (i : Z) (x : A) (v' : list A) :
  set_at v i x = Some v' →
  0 ≤ i < Z.of_nat (length v) ∧ v' = <[Z.to_nat i := x]> v.
Proof.
  unfold set_at. destruct (at_ v i) as [y|] eqn:Hy; [|done].
  intros [= <-]. apply at_Some in Hy as [? Hy].
  apply lookup_lt_Some in Hy. split; [lia|done].
Qed.

Lemma set_at_row (l r : Z) (row : list Z) (col c : Z) (row' : list Z) :
  l ≤ col ≤ r → set_at row col c = Some row' →
  row_same_outside l r row row'.
Proof.
  intros Hcol [Hi ->]%set_at_Some. split; [by rewrite length_insert|].
  intros j Hj. apply list_lookup_insert_ne. lia.
Qed.

Lemma for_each_inv {A B} (P : B → B → Prop) (f : B → A → option B)
    (l : list A) :
  (∀ b, P b b) → (∀ b1 b2 b3, P b1 b2 → P b2 b3 → P b1 b3) →
  (∀ b x b', x ∈ l → f b x = Some b' → P b b') →
  ∀ b b', for_each f b l = Some b' → P b b'.
Proof.
  intros Hrefl Htrans. induction l as [|x l IH]; intros Hf b b'; simpl.
  - intros [= <-]. apply Hrefl.
  - destruct (f b x) as [b1|] eqn:Hb1; [|done]. simpl. intros Hrest.
    eapply Htrans; [eapply Hf; [left|done]|].
    apply IH; [|done]. intros b0 y b0' Hy. apply Hf. by right.
Qed.

Lemma elem_of_upto (from to i : Z) : i ∈ upto from to ↔ from ≤ i < to.
Proof. unfold upto. rewrite elem_of_seqZ. lia. Qed.

Lemma copy_at_row (l r : Z) (chars : list Z) :
  ∀ (row : list Z) (start : Z) (row' : list Z),
    l ≤ start → start + Z.of_nat (length chars) - 1 ≤ r →
    copy_at row start chars = Some row' →
    row_same_outside l r row row'.
Proof.
  induction chars as [|c chars IH]; intros row start row' Hl Hr; simpl.
  - destruct (_ && _); [|done]. intros [= <-]. apply row_same_outside_refl.
  - destruct (set_at row start c) as [row1|] eqn:Hrow1; [|done]. simpl.
    intros Hrest. simpl in Hr.
    eapply row_same_outside_trans.
    + eapply (set_at_row l r); [|done]. lia.
    + eapply IH; [| |done]; lia.
Qed.

Lemma same_outside_refl (l r : Z) (d : Diagram) : same_outside l r d d.
Proof.
  split_and!; [done..|]. intros i row Hrow. by exists row.
Qed.

Lemma same_outside_trans (l r : Z) (d1 d2 d3 : Diagram) :
  same_outside l r d1 d2 → same_outside l r d2 d3 → same_outside l r d1 d3.
Proof.
  intros (Ha1 & Hb1 & Hc1 & Hd1 & H1) (Ha2 & Hb2 & Hc2 & Hd2 & H2).
  split_and!; [congruence..|].
  intros i row Hrow.
  destruct (H1 i row Hrow) as (row2 & Hrow2 & Hlen2 & Hout2).
  destruct (H2 i row2 Hrow2) as (row3 & Hrow3 & Hlen3 & Hout3).
  exists row3. split_and!; [done|congruence|].
  intros j Hj. by rewrite Hout3, Hout2.
Qed.

(** Replacing a row by one that differs inside the columns only. *)
Lemma set_row_frame (l r : Z) (d : Diagram) (i : Z) (row row' : list Z)
    (d' : Diagram) :
  at_ (rows_ d) i = Some row → row_same_outside l r row row' →
  set_row d i row' = Some d' →
  same_outside l r d d'.
Proof.
  intros [Hi Hrow]%at_Some [Hlen Hout]. unfold set_row.
  destruct (set_at (rows_ d) i row') as [rows|] eqn:Hrows; [|done].
  intros [= <-]. apply set_at_Some in Hrows as [_ ->].
  unfold same_outside, set_rows. simpl.
  split_and!; [done|done|done|by rewrite length_insert|].
  intros k row0 Hk. destruct (decide (k = Z.to_nat i)) as [->|Hne].
  - rewrite Hrow in Hk. injection Hk as <-. exists row'.
    rewrite list_lookup_insert_eq by (by eapply lookup_lt_Some). done.
  - exists row0. by rewrite list_lookup_insert_ne.
Qed.

Lemma set_cell_frame (l r : Z) (d : Diagram) (row col c : Z)
    (d' : Diagram) :
  l ≤ col ≤ r → set_cell d row col c = Some d' → same_outside l r d d'.
Proof.
  intros Hcol. unfold set_cell. destruct (_ && _); [|done].
  destruct (at_ (rows_ d) row) as [r0|] eqn:Hr0; [|done]. simpl.
  destruct (set_at r0 col c) as [r1|] eqn:Hr1; [|done]. simpl.
  intros Hset. eapply (set_row_frame l r d row r0 r1); [done| |done].
  by eapply set_at_row.
Qed.

Lemma merge_at_frame (l r : Z) (d : Diagram) (row col c : Z)
    (d' : Diagram) :
  l ≤ col ≤ r → merge_at d row col c = Some d' → same_outside l r d d'.
Proof.
  intros Hcol. unfold merge_at. destruct (cell d row col); [|done]. simpl.
  by apply set_cell_frame.
Qed.

Lemma for_each_frame {A} (l r : Z) (f : Diagram → A → option Diagram)
    (xs : list A) (d d' : Diagram) :
  (∀ d x d', x ∈ xs → f d x = Some d' → same_outside l r d d') →
  for_each f d xs = Some d' → same_outside l r d d'.
Proof.
  intros Hf. apply (for_each_inv (same_outside l r));
    [apply same_outside_refl|apply same_outside_trans|done].
Qed.

Lemma control_line_frame (l r : Z) (mid_col from to : Z) (d d' : Diagram) :
  l ≤ mid_col ≤ r → control_line mid_col from to d = Some d' →
  same_outside l r d d'.
Proof.
  intros Hmid. apply for_each_frame. intros d0 i d0' _.
  by apply merge_at_frame.
Qed.

Lemma row_of_frame (d : Diagram) (i : Z) (row : list Z) :
  row_ d i = Some row → at_ (rows_ d) i = Some row.
Proof. unfold row_. by destruct (_ <? _). Qed.

Lemma draw_side_frame (l r : Z) (d : Diagram) (i : Z) (d' : Diagram) :
  l ≤ r → draw_side l r d i = Some d' → same_outside l r d d'.
Proof.
  intros Hlr. unfold draw_side.
  destruct (row_ d i) as [row|] eqn:Hrow; [|done]. simpl.
  destruct (set_at row l CONTROL_LINE) as [row1|] eqn:Hrow1; [|done]. simpl.
  destruct (set_at row1 r CONTROL_LINE) as [row2|] eqn:Hrow2; [|done]. simpl.
  destruct (r <? l + 1); [done|].
  destruct (for_each _ row2 _) as [row3|] eqn:Hrow3; [|done]. simpl.
  apply (set_row_frame l r d i row row3); [by apply row_of_frame|].
  eapply row_same_outside_trans; [eapply (set_at_row l r); [|done]; lia|].
  eapply row_same_outside_trans; [eapply (set_at_row l r); [|done]; lia|].
  revert Hrow3.
  apply (for_each_inv (row_same_outside l r));
    [apply row_same_outside_refl|apply row_same_outside_trans|].
  intros b j b' Hj%elem_of_upto. apply set_at_row. lia.
Qed.

Ltac step H :=
  cbv beta in H;
  match type of H with
  | (?m ≫= _) = Some _ =>
      let d := fresh "d" in
      let Hd := fresh "Hd" in
      destruct m as [d|] eqn:Hd; [simpl in H|done]
  end.

Lemma draw_box_frame (l r : Z) (box_top box_bot : Z) (d d' : Diagram) :
  l ≤ r → draw_box l r box_top box_bot d = Some d' → same_outside l r d d'.
Proof.
  intros Hlr Hrun. unfold draw_box in Hrun. do 5 step Hrun.
  rename d0 into d1', d1 into d2', d2 into d3', d3 into d4', d4 into d5'.
  eapply same_outside_trans.
  { eapply for_each_frame; [|exact Hd]. intros e i e' Hi%elem_of_upto He.
    step He. eapply same_outside_trans;
      (eapply merge_at_frame; [|done]; lia). }
  eapply same_outside_trans.
  { eapply for_each_frame; [|exact Hd0]. intros e i e' _.
    by apply draw_side_frame. }
  eapply same_outside_trans; [eapply merge_at_frame; [|exact Hd1]; lia|].
  eapply same_outside_trans; [eapply merge_at_frame; [|exact Hd2]; lia|].
  eapply same_outside_trans; [eapply merge_at_frame; [|exact Hd3]; lia|].
  eapply merge_at_frame; [|exact Hrun]. lia.
Qed.

Lemma draw_targets_frame (l r : Z) (wires : list Z)
    (num_targets num_controls : Z) (d d' : Diagram) :
  l + 1 ≤ r → draw_targets l r wires num_targets num_controls d = Some d' →
  same_outside l r d d'.
Proof.
  intros Hlr Hrun. unfold draw_targets in Hrun.
  destruct (sub_range wires 0 num_targets) as [targets|]; [|done].
  simpl in Hrun. eapply for_each_frame; [|exact Hrun].
  intros e wire e' _ He. do 2 step He.
  eapply same_outside_trans; [eapply set_cell_frame; [|done]; lia|].
  eapply same_outside_trans; [eapply set_cell_frame; [|done]; lia|].
  destruct (num_controls >? 0).
  - eapply set_cell_frame; [|done]. lia.
  - injection He as <-. apply same_outside_refl.
Qed.

Lemma Box_draw_controls_frame (l r : Z) (wires : list Z)
    (num_targets num_controls : Z) (d d' : Diagram) :
  l + 1 ≤ r →
  Box_draw_controls l r wires num_targets num_controls d = Some d' →
  same_outside l r d d'.
Proof.
  intros Hlr Hrun. unfold Box_draw_controls in Hrun.
  destruct (sub_range wires num_targets num_controls) as [controls|];
    [|done].
  simpl in Hrun. eapply for_each_frame; [|exact Hrun].
  intros e wire e' _ He. do 2 step He.
  eapply same_outside_trans; [eapply set_cell_frame; [|done]; lia|].
  eapply same_outside_trans; [eapply set_cell_frame; [|done]; lia|].
  eapply set_cell_frame; [|done]. lia.
Qed.

Lemma quot_2_between (l r : Z) : l ≤ r → l ≤ Z.quot (l + r) 2 ≤ r.
Proof.
  intros Hlr. pose proof (Z.quot_rem' (l + r) 2) as Heq.
  destruct (Z.le_gt_cases 0 (l + r)).
  - pose proof (Z.rem_bound_pos (l + r) 2). lia.
  - pose proof (Z.rem_bound_pos_neg (l + r) 2). lia.
Qed.

Lemma ControlledBox_draw_controls_frame (l r : Z) (wires : list Z)
    (num_targets num_controls box_top box_bot : Z) (d d' : Diagram) :
  l ≤ r →
  ControlledBox_draw_controls l r wires num_targets num_controls box_top
                              box_bot d = Some d' →
  same_outside l r d d'.
Proof.
  intros Hlr Hrun. unfold ControlledBox_draw_controls in Hrun.
  pose proof (quot_2_between l r Hlr) as Hmid.
  destruct (sub_range wires num_targets num_controls) as [controls|];
    [|done].
  simpl in Hrun. eapply for_each_frame; [|exact Hrun].
  intros e wire e' _ He. step He.
  eapply same_outside_trans; [by eapply set_cell_frame|].
  destruct (_ <? _); step He;
    (eapply same_outside_trans; [by eapply control_line_frame|]);
    by eapply set_cell_frame.
Qed.

Lemma DiagramSwap_draw_controls_frame (l r : Z) (wires : list Z)
    (num_controls : Z) (d d' : Diagram) :
  l + 1 ≤ r →
  DiagramSwap_draw_controls l wires num_controls d = Some d' →
  same_outside l r d d'.
Proof.
  intros Hlr Hrun. unfold DiagramSwap_draw_controls in Hrun.
  destruct (at_ wires 0) as [wire0|]; [|done]. simpl in Hrun.
  destruct (at_ wires 1) as [wire1|]; [|done]. simpl in Hrun.
  destruct (sub_range wires 2 num_controls) as [controls|]; [|done].
  simpl in Hrun. eapply for_each_frame; [|exact Hrun].
  intros e wire e' _ He. step He.
  eapply same_outside_trans; [eapply set_cell_frame; [|done]; lia|].
  destruct (_ <? _); (eapply control_line_frame; [|done]; lia).
Qed.

Lemma length_chars_of (label : string) :
  length (chars_of label) = String.length label.
Proof.
  unfold chars_of. rewrite length_map.
  induction label as [|a label IH]; simpl; [done|]. by rewrite IH.
Qed.

Lemma label_frame (l r : Z) (label : string) (start box_mid : Z)
    (d d' : Diagram) :
  l ≤ start → start + Z.of_nat (String.length label) - 1 ≤ r →
  (row ← row_ d box_mid;
   row ← copy_at row start (chars_of label);
   set_row d box_mid row) = Some d' →
  same_outside l r d d'.
Proof.
  intros Hl Hr Hrun.
  destruct (row_ d box_mid) as [row|] eqn:Hrow; [|done]. simpl in Hrun.
  destruct (copy_at row start (chars_of label)) as [row'|] eqn:Hrow';
    [|done].
  simpl in Hrun.
  apply (set_row_frame l r d box_mid row row'); [by apply row_of_frame| |done].
  eapply copy_at_row; [| |done]; [done|]. by rewrite length_chars_of.
Qed.

(** A shape is drawn inside its columns. *)
Lemma draw_shape_frame (shape : Operator) (left_col : Z) (d d' : Diagram) :
  let '(l, r) := set_cols shape left_col in
  draw_shape l r shape d = Some d' → same_outside l r d d'.
Proof.
  unfold set_cols. set (l := left_col). set (r := l + width shape - 1).
  intros Hrun.
  destruct shape as [label wires nt nc|wires nc|label wires nt nc];
    simpl in Hrun, r.
  - assert (l + 1 ≤ r) as Hlr by (unfold r; destruct (nc >? 0); lia).
    destruct (min_element wires) as [top|]; [|done]. simpl in Hrun.
    destruct (max_element wires) as [bot|]; [|done]. simpl in Hrun.
    do 3 step Hrun.
    eapply same_outside_trans; [eapply draw_box_frame; [|done]; lia|].
    eapply same_outside_trans; [by eapply draw_targets_frame|].
    eapply same_outside_trans; [by eapply Box_draw_controls_frame|].
    unfold Box_draw_label in Hrun.
    eapply label_frame; [| |exact Hrun]; unfold r; destruct (nc >? 0); lia.
  - assert (l + 1 ≤ r) as Hlr by (unfold r; lia).
    destruct (at_ wires 0) as [wire0|]; [|done]. simpl in Hrun.
    destruct (at_ wires 1) as [wire1|]; [|done]. simpl in Hrun.
    do 3 step Hrun.
    eapply same_outside_trans; [eapply set_cell_frame; [|done]; lia|].
    eapply same_outside_trans; [eapply control_line_frame; [|done]; lia|].
    eapply same_outside_trans; [eapply set_cell_frame; [|done]; lia|].
    by eapply DiagramSwap_draw_controls_frame.
  - assert (l + 1 ≤ r) as Hlr by (unfold r; lia).
    destruct (sub_range wires 0 nt) as [targets|]; [|done]. simpl in Hrun.
    destruct (min_element targets) as [top|]; [|done]. simpl in Hrun.
    destruct (max_element targets) as [bot|]; [|done]. simpl in Hrun.
    do 3 step Hrun.
    eapply same_outside_trans; [eapply draw_box_frame; [|done]; lia|].
    eapply same_outside_trans; [by eapply draw_targets_frame|].
    eapply same_outside_trans;
      [eapply ControlledBox_draw_controls_frame; [|done]; lia|].
    unfold ControlledBox_draw_label in Hrun.
    eapply label_frame; [| |exact Hrun]; unfold r; lia.
Qed.

(** Drawing the boxes changes the columns of the boxes only. *)
Lemma draw_boxes_frame (boxes : list Operator) :
  ∀ (cols : list (option (Z * Z))) (d d' : Diagram),
    Forall2 (λ box col, ∃ left_col, col = Some (set_cols box left_col))
            boxes cols →
    draw_boxes boxes cols d = Some d' →
    num_qubits_ d' = num_qubits_ d ∧ height_ d' = height_ d
    ∧ width_ d' = width_ d ∧ length (rows_ d') = length (rows_ d)
    ∧ ∀ (i : nat) row,
        rows_ d !! i = Some row →
        ∃ row', rows_ d' !! i = Some row' ∧ length row' = length row
                ∧ ∀ j : nat,
                    (∀ k l r, cols !! k = Some (Some (l, r)) →
                              ¬ (l ≤ Z.of_nat j ≤ r)) →
                    row' !! j = row !! j.
Proof.
  induction boxes as [|box boxes IH]; intros cols d d' Hcols Hrun.
  - injection Hrun as <-. split_and!; [done..|].
    intros i row Hrow. by exists row.
  - destruct cols as [|col cols]; [by apply Forall2_cons_nil_inv in Hcols|].
    apply Forall2_cons in Hcols as [[left_col ->] Hcols].
    pose proof (draw_shape_frame box left_col d) as Hframe.
    unfold set_cols in Hframe, Hrun. cbv beta iota zeta in Hframe.
    cbn [draw_boxes] in Hrun.
    set (r := left_col + width box - 1) in *. set (l := left_col) in *.
    destruct (draw_shape l r box d) as [d1|] eqn:Hd1; simpl in Hrun; [|done].
    destruct (Hframe d1 eq_refl) as (Ha & Hb & Hc & Hd & Hrows).
    destruct (IH cols d1 d' Hcols Hrun) as (Ha' & Hb' & Hc' & Hd' & Hrows').
    split_and!; [congruence..|].
    intros i row Hrow.
    destruct (Hrows i row Hrow) as (row1 & Hrow1 & Hlen1 & Hout1).
    destruct (Hrows' i row1 Hrow1) as (row' & Hrow' & Hlen' & Hout').
    exists row'. split_and!; [done|congruence|].
    intros j Hj. rewrite Hout', Hout1; [done| |].
    + apply (Hj 0%nat l r). done.
    + intros k l0 r0 Hk. apply (Hj (S k) l0 r0). done.
Qed.

Lemma seqZ_succ (from : Z) (len : nat) :
  seqZ from (Z.of_nat (S len)) = from :: seqZ (from + 1) (Z.of_nat len).
Proof. rewrite seqZ_cons by lia. do 2 f_equal; lia. Qed.

(** The loop of [Diagram::width] over the qubits, from qubit [a] on. *)
Lemma fill_wires_spec (len : nat) :
  ∀ (a : Z) (rows : list (list Z)),
    0 ≤ a → 2 * (a + Z.of_nat len) < Z.of_nat (length rows) + 1 →
    ∃ rows',
      for_each fill_wire rows (seqZ a (Z.of_nat len)) = Some rows'
      ∧ length rows' = length rows
      ∧ ∀ (i : nat) row,
          rows !! i = Some row →
          rows' !! i
          = Some (if bool_decide (Nat.odd i
                                  ∧ 2 * a < Z.of_nat i < 2 * (a + Z.of_nat len))
                  then replicate (length row) WIRE_LINE else row).
Proof.
  induction len as [|len IH]; intros a rows Ha Hlen.
  - exists rows. split_and!; [done..|]. intros i row Hrow.
    rewrite bool_decide_eq_false_2; [done|]. intros [Hodd Hi]. lia.
  - destruct (at_in_range rows (2 * a + 1)) as [row0 Hrow0]; [lia|].
    set (rows1 := <[Z.to_nat (2 * a + 1) := replicate (length row0) WIRE_LINE]>
                    rows).
    assert (fill_wire rows a = Some rows1) as Hfill.
    { unfold fill_wire, set_at. by rewrite Hrow0. }
    rewrite seqZ_succ. cbn [for_each]. rewrite Hfill.
    cbn [mbind option_bind].
    destruct (IH (a + 1) rows1) as (rows' & Hrun & Hlen' & Hrows');
      [lia|unfold rows1; rewrite length_insert; lia|].
    exists rows'. split_and!;
      [done|unfold rows1 in Hlen'; by rewrite Hlen', length_insert|].
    intros i row Hrow. apply at_Some in Hrow0 as [_ Hrow0].
    destruct (decide (i = Z.to_nat (2 * a + 1))) as [->|Hne].
    + rewrite Hrow0 in Hrow. injection Hrow as <-.
      rewrite (Hrows' _ (replicate (length row0) WIRE_LINE))
        by (unfold rows1; apply list_lookup_insert_eq;
            by eapply lookup_lt_Some).
      rewrite length_replicate.
      assert (Nat.odd (Z.to_nat (2 * a + 1)) = true) as Hodd.
      { replace (Z.to_nat (2 * a + 1)) with (S (2 * Z.to_nat a)) by lia.
        rewrite Nat.odd_succ. apply Nat.even_spec. by exists (Z.to_nat a). }
      rewrite (bool_decide_eq_true_2 (_ ∧ 2 * a < _ < _));
        [by destruct (bool_decide _)|].
      split; [by rewrite Hodd|lia].
    + rewrite (Hrows' i row)
        by (unfold rows1; by rewrite list_lookup_insert_ne).
      f_equal.
      rewrite (bool_decide_ext _
                 (Nat.odd i ∧ 2 * a < Z.of_nat i < 2 * (a + Z.of_nat (S len))));
        [done|].
      split; intros [Hodd Hi].
      * split; [done|lia].
      * split; [done|]. destruct (decide (2 * a + 2 < Z.of_nat i)); [lia|].
        assert (Z.of_nat i = 2 * a + 1 ∨ Z.of_nat i = 2 * a + 2) as [?|Heq]
          by lia; [lia|].
        replace i with (S (S (2 * Z.to_nat a))) in Hodd by lia.
        rewrite !Nat.odd_succ_succ in Hodd. exfalso.
        assert (Nat.even (2 * Z.to_nat a) = true) as He
          by (apply Nat.even_spec; by exists (Z.to_nat a)).
        rewrite <- Nat.negb_even, He in Hodd. done.
Qed.

(** [Diagram::width] on a new diagram builds the grid: [2 n + 1] rows of
    [W] cells, the wire line in the rows of the qubits and blanks
    between them; and on it [to_row] sends qubit [q] to row [2 q + 1]. *)
Lemma Diagram_width_spec (n W : Z) :
  0 ≤ n → 2 * n + 1 < 2 ^ 31 → 0 ≤ W →
  ∃ d,
    Diagram_width (Diagram_new n) W = Some d
    ∧ grid n W d
    ∧ (∀ i : nat,
         (i < Z.to_nat (2 * n + 1))%nat →
         rows_ d !! i = Some (replicate (Z.to_nat W) (initial_cell i)))
    ∧ ∀ q, 0 ≤ q < n → to_row d q = 2 * q + 1.
Proof.
  intros Hn Hint HW. unfold Diagram_width, Diagram_new. simpl.
  destruct (Z.ltb_spec (2 * n + 1) 0); [lia|].
  destruct (Z.ltb_spec W 0); [lia|]. simpl.
  set (blank := replicate (Z.to_nat W) BLANK).
  set (rows0 := resize (Z.to_nat (2 * n + 1)) blank []).
  assert (rows0 = replicate (Z.to_nat (2 * n + 1)) blank) as Hrows0.
  { unfold rows0, resize. rewrite take_nil. simpl. by rewrite Nat.sub_0_r. }
  destruct (fill_wires_spec (Z.to_nat n) 0 rows0)
    as (rows & Hrun & Hlen & Hrows); [lia| |].
  { rewrite Hrows0, length_replicate. lia. }
  rewrite Z2Nat.id in Hrun by done.
  unfold upto. rewrite Z.sub_0_r, Hrun. simpl. eexists. split; [done|].
  rewrite Hrows0, length_replicate in Hlen.
  assert (∀ i : nat,
            (i < Z.to_nat (2 * n + 1))%nat →
            rows !! i = Some (replicate (Z.to_nat W) (initial_cell i)))
    as Hcells.
  { intros i Hi. rewrite (Hrows i blank)
      by (rewrite Hrows0; by apply lookup_replicate_2).
    f_equal. unfold initial_cell, blank. rewrite length_replicate.
    destruct (Nat.odd i) eqn:Hodd.
    - rewrite bool_decide_eq_true_2; [done|]. split; [done|].
      destruct i; [done|].
      assert (S i ≠ Z.to_nat (2 * n)); [|lia]. intros Heq.
      rewrite Heq in Hodd.
      replace (Z.to_nat (2 * n)) with (2 * Z.to_nat n)%nat in Hodd by lia.
      assert (Nat.even (2 * Z.to_nat n) = true) as He
        by (apply Nat.even_spec; by exists (Z.to_nat n)).
      rewrite <- Nat.negb_even, He in Hodd. done.
    - rewrite bool_decide_eq_false_2; [done|]. by intros [? _]. }
  split_and!.
  - split_and!; simpl; [done..|].
    apply Forall_lookup_2. intros i row Hrow.
    rewrite Hcells in Hrow by (apply lookup_lt_Some in Hrow; lia).
    injection Hrow as <-. by rewrite length_replicate.
  - done.
  - intros q Hq. unfold to_row. simpl.
    destruct (Z.ltb_spec q n); [|lia].
    unfold to_int, to_unsigned_int.
    rewrite (Z.mod_small q) by lia.
    rewrite (Z.mod_small (2 * q + 1)) by lia.
    rewrite Z.mod_small by lia. lia.
Qed.

End Grid.
(** *** The drawing runs

    On the grid of [n] qubits and [W] columns, a drawable shape whose
    columns are columns of the grid is drawn without an exception, a
    failed assertion or a write outside of a row, and the drawing stays
    in the rectangle of the shape. *)

Section Drawing.
Import Draw.

Variables (n W : Z).
Hypothesis Hn : 2 * n + 1 < 2 ^ 31.

Lemma grid_row (d : Diagram) (i : Z) :
  grid n W d → 0 ≤ i < 2 * n + 1 →
  ∃ row, at_ (rows_ d) i = Some row ∧ length row = Z.to_nat W.
Proof.
  intros (_ & _ & _ & Hlen & Hrows) Hi.
  destruct (at_in_range (rows_ d) i) as [row Hrow]; [lia|].
  exists row. split; [done|].
  apply at_Some in Hrow as [_ Hrow].
  by apply (Forall_lookup_1 _ _ _ _ Hrows Hrow).
Qed.

Lemma cell_in_grid (d : Diagram) (i j : Z) :
  grid n W d → 0 ≤ i < 2 * n + 1 → 0 ≤ j < W →
  ∃ c, cell d i j = Some c.
Proof.
  intros Hgrid Hi Hj. destruct (grid_row d i Hgrid Hi) as (row & Hrow & Hlen).
  destruct Hgrid as (_ & Hh & Hw & _). unfold cell. rewrite Hh, Hw.
  destruct (Z.ltb_spec i (2 * n + 1)); [|lia].
  destruct (Z.ltb_spec j W); [|lia]. simpl. rewrite Hrow. simpl.
  apply at_in_range. lia.
Qed.

Lemma to_row_grid (d : Diagram) (q : Z) :
  grid n W d → 0 ≤ q < n → to_row d q = 2 * q + 1.
Proof using Hn.
  intros (Hq & _) Hin. unfold to_row. rewrite Hq.
  destruct (Z.ltb_spec q n); [|lia].
  unfold to_int, to_unsigned_int.
  rewrite (Z.mod_small q) by lia.
  rewrite (Z.mod_small (2 * q + 1)) by lia.
  rewrite Z.mod_small by lia. lia.
Qed.

Lemma draws_in_refl (top bot l r : Z) (d : Diagram) :
  grid n W d → draws_in n W top bot l r d d.
Proof. by split. Qed.

Lemma draws_in_trans (top bot l r : Z) (d1 d2 d3 : Diagram) :
  draws_in n W top bot l r d1 d2 → draws_in n W top bot l r d2 d3 →
  draws_in n W top bot l r d1 d3.
Proof.
  intros [_ H1] [Hgrid H2]. split; [done|].
  intros i j Hij. by rewrite H2, H1.
Qed.

Lemma draws_in_weaken (top bot l r top' bot' l' r' : Z) (d d' : Diagram) :
  top' ≤ top → bot ≤ bot' → l' ≤ l → r ≤ r' →
  draws_in n W top bot l r d d' → draws_in n W top' bot' l' r' d d'.
Proof.
  intros ???? [Hgrid H]. split; [done|]. intros i j Hij. apply H. lia.
Qed.

Lemma draws_in_exists_weaken (top bot l r top' bot' l' r' : Z)
    (d : Diagram) (m : option Diagram) :
  top' ≤ top ∧ bot ≤ bot' ∧ l' ≤ l ∧ r ≤ r' →
  (∃ d', m = Some d' ∧ draws_in n W top bot l r d d') →
  ∃ d', m = Some d' ∧ draws_in n W top' bot' l' r' d d'.
Proof.
  intros (? & ? & ? & ?) (d' & Hd' & Hin). exists d'. split; [done|].
  by eapply draws_in_weaken.
Qed.

(** A step that runs and stays in the rectangle, followed by another. *)
Lemma bind_draws (top bot l r : Z) (d : Diagram) (m : option Diagram)
    (k : Diagram → option Diagram) :
  (∃ d1, m = Some d1 ∧ draws_in n W top bot l r d d1) →
  (∀ d1, grid n W d1 →
         ∃ d', k d1 = Some d' ∧ draws_in n W top bot l r d1 d') →
  ∃ d', m ≫= k = Some d' ∧ draws_in n W top bot l r d d'.
Proof.
  intros (d1 & -> & Hd1) Hk. destruct (Hk d1 (proj1 Hd1)) as (d' & Hd' & Hin).
  exists d'. split; [done|]. by eapply draws_in_trans.
Qed.

Lemma for_each_draws {A} (top bot l r : Z)
    (f : Diagram → A → option Diagram) (xs : list A) :
  (∀ d x, x ∈ xs → grid n W d →
          ∃ d', f d x = Some d' ∧ draws_in n W top bot l r d d') →
  ∀ d, grid n W d →
       ∃ d', for_each f d xs = Some d' ∧ draws_in n W top bot l r d d'.
Proof.
  induction xs as [|x xs IH]; intros Hf d Hgrid.
  - exists d. split; [done|]. by apply draws_in_refl.
  - cbn [for_each]. apply bind_draws.
    + apply Hf; [left|done].
    + intros d1 Hd1. apply IH; [|done].
      intros d0 y Hy. apply Hf. by right.
Qed.

Lemma set_cell_runs (d : Diagram) (row col c : Z) :
  grid n W d → 0 ≤ row < 2 * n + 1 → 0 ≤ col < W →
  ∃ d', set_cell d row col c = Some d'
        ∧ draws_in n W row row col col d d'
        ∧ cell d' row col = Some c.
Proof.
  intros Hgrid Hrow Hcol.
  destruct (grid_row d row Hgrid Hrow) as (r0 & Hr0 & Hlen0).
  destruct Hgrid as (Hq & Hh & Hw & Hlen & Hrows).
  set (r1 := <[Z.to_nat col := c]> r0).
  set (rows1 := <[Z.to_nat row := r1]> (rows_ d)).
  assert (set_at r0 col c = Some r1) as Hset1.
  { destruct (at_in_range r0 col) as [c0 Hc0]; [lia|].
    unfold set_at. by rewrite Hc0. }
  assert (set_at (rows_ d) row r1 = Some rows1) as Hset2.
  { unfold set_at. by rewrite Hr0. }
  unfold set_cell. rewrite Hh, Hw.
  destruct (Z.ltb_spec row (2 * n + 1)); [|lia].
  destruct (Z.ltb_spec col W); [|lia].
  cbn [andb]. rewrite Hr0. cbn [mbind option_bind].
  rewrite Hset1. cbn [mbind option_bind]. rewrite Hset2.
  cbn [mbind option_bind].
  eexists. split; [done|].
  assert (length r1 = Z.to_nat W) as Hlen1
    by (unfold r1; by rewrite length_insert).
  apply at_Some in Hr0 as [_ Hr0].
  assert (rows1 !! Z.to_nat row = Some r1) as Hrow1.
  { unfold rows1. apply list_lookup_insert_eq. lia. }
  split; [split|].
  - split_and!; simpl; [done..| |].
    + unfold rows1. rewrite length_insert. done.
    + unfold rows1. by apply Forall_insert.
  - intros i j Hij. unfold cell. simpl. rewrite Hh, Hw.
    destruct ((i <? 2 * n + 1) && (j <? W)); [|done].
    unfold at_ at 2 4. destruct (Z.ltb_spec i 0); [done|].
    destruct (decide (i = row)) as [->|Hne].
    + rewrite Hrow1, Hr0. simpl. unfold at_.
      destruct (Z.ltb_spec j 0); [done|].
      unfold r1. apply list_lookup_insert_ne. lia.
    + unfold rows1. rewrite list_lookup_insert_ne by lia. done.
  - unfold cell. simpl. rewrite Hh, Hw.
    destruct (Z.ltb_spec row (2 * n + 1)); [|lia].
    destruct (Z.ltb_spec col W); [|lia]. simpl.
    unfold at_ at 2. destruct (Z.ltb_spec row 0); [lia|].
    rewrite Hrow1. simpl. apply at_Some. split; [lia|].
    unfold r1. apply list_lookup_insert_eq. lia.
Qed.

Lemma set_cell_draws (top bot l r : Z) (d : Diagram) (row col c : Z) :
  grid n W d → 0 ≤ row < 2 * n + 1 → 0 ≤ col < W →
  top ≤ row ≤ bot → l ≤ col ≤ r →
  ∃ d', set_cell d row col c = Some d' ∧ draws_in n W top bot l r d d'.
Proof.
  intros Hgrid Hrow Hcol Hr Hc.
  destruct (set_cell_runs d row col c Hgrid Hrow Hcol) as (d' & Hd' & Hin & _).
  exists d'. split; [done|]. eapply draws_in_weaken; [..|done]; lia.
Qed.

Lemma merge_at_draws (top bot l r : Z) (d : Diagram) (row col c : Z) :
  grid n W d → 0 ≤ row < 2 * n + 1 → 0 ≤ col < W →
  top ≤ row ≤ bot → l ≤ col ≤ r →
  ∃ d', merge_at d row col c = Some d' ∧ draws_in n W top bot l r d d'.
Proof.
  intros Hgrid Hrow Hcol Hr Hc. unfold merge_at.
  destruct (cell_in_grid d row col Hgrid Hrow Hcol) as [c0 ->]. simpl.
  by apply set_cell_draws.
Qed.

Lemma control_line_draws (top bot l r : Z) (mid_col from to : Z)
    (d : Diagram) :
  grid n W d → 0 ≤ mid_col < W → l ≤ mid_col ≤ r →
  -1 ≤ from → to ≤ 2 * n + 1 → top ≤ from + 1 → to - 1 ≤ bot →
  ∃ d', control_line mid_col from to d = Some d'
        ∧ draws_in n W top bot l r d d'.
Proof.
  intros Hgrid Hmid Hlr Hfrom Hto Htop Hbot. unfold control_line.
  apply for_each_draws; [|done].
  intros d0 i Hi%elem_of_upto Hd0. apply merge_at_draws; [done|lia..].
Qed.

Lemma for_each_runs {A B} (J : B → Prop) (f : B → A → option B)
    (xs : list A) :
  (∀ b x, x ∈ xs → J b → ∃ b', f b x = Some b' ∧ J b') →
  ∀ b, J b → ∃ b', for_each f b xs = Some b' ∧ J b'.
Proof.
  induction xs as [|x xs IH]; intros Hf b Hb.
  - by exists b.
  - cbn [for_each]. destruct (Hf b x) as (b1 & -> & Hb1); [left|done|].
    cbn [mbind option_bind]. apply IH; [|done].
    intros b0 y Hy. apply Hf. by right.
Qed.

Lemma set_at_runs {A} (v : list A) (i : Z) (x : A) :
  0 ≤ i < Z.of_nat (length v) →
  ∃ v', set_at v i x = Some v' ∧ length v' = length v.
Proof.
  intros Hi. destruct (at_in_range v i Hi) as [y Hy].
  exists (<[Z.to_nat i := x]> v). unfold set_at. rewrite Hy.
  by rewrite length_insert.
Qed.

Lemma row_of_grid (d : Diagram) (i : Z) :
  grid n W d → 0 ≤ i < 2 * n + 1 →
  ∃ row, row_ d i = Some row ∧ at_ (rows_ d) i = Some row
         ∧ length row = Z.to_nat W.
Proof.
  intros Hgrid Hi. destruct (grid_row d i Hgrid Hi) as (row & Hrow & Hlen).
  exists row. split_and!; [|done..].
  destruct Hgrid as (_ & Hh & _). unfold row_. rewrite Hh.
  by destruct (Z.ltb_spec i (2 * n + 1)); [|lia].
Qed.

Lemma set_row_draws (top bot l r : Z) (d : Diagram) (i : Z)
    (row row' : list Z) :
  grid n W d → 0 ≤ i < 2 * n + 1 → top ≤ i ≤ bot →
  at_ (rows_ d) i = Some row → row_same_outside l r row row' →
  ∃ d', set_row d i row' = Some d' ∧ draws_in n W top bot l r d d'.
Proof.
  intros Hgrid Hi Htb Hrow [Hlen' Hout].
  destruct (grid_row d i Hgrid Hi) as (row0 & Hrow0 & Hlen0).
  rewrite Hrow in Hrow0. injection Hrow0 as <-.
  destruct Hgrid as (Hq & Hh & Hw & Hlen & Hrows).
  set (rows1 := <[Z.to_nat i := row']> (rows_ d)).
  assert (set_at (rows_ d) i row' = Some rows1) as Hset
    by (unfold set_at; by rewrite Hrow).
  unfold set_row. rewrite Hset. cbn [mbind option_bind].
  eexists. split; [done|]. apply at_Some in Hrow as [_ Hrow].
  split.
  - split_and!; simpl; [done..| |].
    + unfold rows1. by rewrite length_insert.
    + unfold rows1. apply Forall_insert; [done|congruence].
  - intros i' j Hij. unfold cell. simpl. rewrite Hh, Hw.
    destruct ((i' <? 2 * n + 1) && (j <? W)); [|done].
    unfold at_ at 2 4. destruct (Z.ltb_spec i' 0); [done|].
    destruct (decide (i' = i)) as [->|Hne].
    + unfold rows1. rewrite list_lookup_insert_eq by lia.
      rewrite Hrow. simpl. unfold at_.
      destruct (Z.ltb_spec j 0); [done|]. apply Hout. lia.
    + unfold rows1. rewrite list_lookup_insert_ne by lia. done.
Qed.

Lemma copy_at_runs (chars : list Z) :
  ∀ (row : list Z) (start : Z),
    0 ≤ start → start + Z.of_nat (length chars) ≤ Z.of_nat (length row) →
    ∃ row', copy_at row start chars = Some row'.
Proof.
  induction chars as [|c chars IH]; intros row start Hs He; simpl in *.
  - destruct (Z.leb_spec 0 start); [|lia].
    destruct (Z.leb_spec start (Z.of_nat (length row))); [|lia]. by eexists.
  - destruct (set_at_runs row start c) as (row1 & -> & Hlen1); [lia|].
    cbn [mbind option_bind]. apply IH; lia.
Qed.

(** The body of [Box::draw_label] and of [ControlledBox::draw_label]. *)
Lemma label_draws (top bot l r : Z) (label : string) (start box_mid : Z)
    (d : Diagram) :
  grid n W d → 0 ≤ box_mid < 2 * n + 1 → top ≤ box_mid ≤ bot →
  0 ≤ start → l ≤ start →
  start + Z.of_nat (String.length label) - 1 ≤ r → r < W →
  ∃ d', (row ← row_ d box_mid;
         row ← copy_at row start (chars_of label);
         set_row d box_mid row) = Some d'
        ∧ draws_in n W top bot l r d d'.
Proof.
  intros Hgrid Hmid Htb Hs Hl Hr HW.
  destruct (row_of_grid d box_mid Hgrid Hmid) as (row & -> & Hrow & Hlen).
  cbn [mbind option_bind].
  destruct (copy_at_runs (chars_of label) row start) as [row' Hrow'];
    [done|rewrite length_chars_of; lia|].
  rewrite Hrow'. cbn [mbind option_bind].
  apply (set_row_draws top bot l r d box_mid row); [done..|].
  eapply copy_at_row; [| |done]; [done|]. rewrite length_chars_of. lia.
Qed.

Lemma draw_side_draws (top bot l r : Z) (d : Diagram) (i : Z) :
  grid n W d → 0 ≤ i < 2 * n + 1 → top ≤ i ≤ bot →
  0 ≤ l → l + 1 ≤ r → r < W →
  ∃ d', draw_side l r d i = Some d' ∧ draws_in n W top bot l r d d'.
Proof.
  intros Hgrid Hi Htb Hl Hlr HW.
  destruct (row_of_grid d i Hgrid Hi) as (row & Hrow_ & Hrow & Hlen).
  destruct (set_at_runs row l CONTROL_LINE) as (row1 & Hrow1 & Hlen1); [lia|].
  destruct (set_at_runs row1 r CONTROL_LINE) as (row2 & Hrow2 & Hlen2);
    [lia|].
  destruct (for_each_runs (λ row, length row = Z.to_nat W)
              (λ row j, set_at row j BLANK) (upto (l + 1) r)) with (b := row2)
    as (row3 & Hrow3 & Hlen3); [|congruence|].
  { intros b j Hj%elem_of_upto Hb.
    destruct (set_at_runs b j BLANK) as (b' & Hb' & Hlen'); [lia|].
    exists b'. split; [done|congruence]. }
  unfold draw_side. rewrite Hrow_. cbn [mbind option_bind].
  rewrite Hrow1. cbn [mbind option_bind].
  rewrite Hrow2. cbn [mbind option_bind].
  destruct (Z.ltb_spec r (l + 1)); [lia|].
  rewrite Hrow3. cbn [mbind option_bind].
  apply (set_row_draws top bot l r d i row); [done..|].
  eapply row_same_outside_trans; [eapply (set_at_row l r); [|done]; lia|].
  eapply row_same_outside_trans; [eapply (set_at_row l r); [|done]; lia|].
  revert Hrow3.
  apply (for_each_inv (row_same_outside l r));
    [apply row_same_outside_refl|apply row_same_outside_trans|].
  intros b j b' Hj%elem_of_upto. apply set_at_row. lia.
Qed.

Lemma draw_box_draws (l r box_top box_bot : Z) (d : Diagram) :
  grid n W d → 0 ≤ box_top → box_top < box_bot → box_bot < 2 * n + 1 →
  0 ≤ l → l + 1 ≤ r → r < W →
  ∃ d', draw_box l r box_top box_bot d = Some d'
        ∧ draws_in n W box_top box_bot l r d d'.
Proof.
  intros Hgrid Ht Htb Hb Hl Hlr HW. unfold draw_box.
  apply bind_draws.
  { apply for_each_draws; [|done]. intros d0 i Hi%elem_of_upto Hd0.
    apply bind_draws; [apply merge_at_draws; [done|lia..]|].
    intros d1 Hd1. apply merge_at_draws; [done|lia..]. }
  intros d1 Hd1. apply bind_draws.
  { apply for_each_draws; [|done]. intros d0 i Hi%elem_of_upto Hd0.
    apply draw_side_draws; [done|lia..]. }
  intros d2 Hd2.
  apply bind_draws; [apply merge_at_draws; [done|lia..]|]. intros d3 Hd3.
  apply bind_draws; [apply merge_at_draws; [done|lia..]|]. intros d4 Hd4.
  apply bind_draws; [apply merge_at_draws; [done|lia..]|]. intros d5 Hd5.
  apply merge_at_draws; [done|lia..].
Qed.

(** The least and the greatest wire of a range that is not empty. *)
Lemma foldl_min_spec (P : Z → Prop) (v : list Z) :
  ∀ x, P x → Forall P v → P (foldl Z.min x v) ∧ foldl Z.min x v ≤ x.
Proof.
  induction v as [|y v IH]; intros x Hx Hv; simpl; [split; [done|lia]|].
  apply Forall_cons in Hv as [Hy Hv].
  destruct (IH (Z.min x y)) as [HP Hle]; [|done|split; [done|lia]].
  destruct (Z.min_spec x y) as [[_ ->]|[_ ->]]; done.
Qed.

Lemma foldl_max_spec (P : Z → Prop) (v : list Z) :
  ∀ x, P x → Forall P v → P (foldl Z.max x v) ∧ x ≤ foldl Z.max x v.
Proof.
  induction v as [|y v IH]; intros x Hx Hv; simpl; [split; [done|lia]|].
  apply Forall_cons in Hv as [Hy Hv].
  destruct (IH (Z.max x y)) as [HP Hle]; [|done|split; [done|lia]].
  destruct (Z.max_spec x y) as [[_ ->]|[_ ->]]; done.
Qed.

Lemma minmax_element_spec (P : Z → Prop) (v : list Z) :
  v ≠ [] → Forall P v →
  ∃ top bot,
    min_element v = Some top ∧ max_element v = Some bot
    ∧ P top ∧ P bot ∧ top ≤ bot.
Proof.
  intros Hne Hv. destruct v as [|x v]; [done|].
  apply Forall_cons in Hv as [Hx Hv].
  destruct (foldl_min_spec P v x Hx Hv) as [Hmin Hle].
  destruct (foldl_max_spec P v x Hx Hv) as [Hmax Hge].
  eexists _, _. split_and!; [done..|lia].
Qed.

Lemma sub_range_runs {A} (P : A → Prop) (v : list A) (from count : Z) :
  0 ≤ from → 0 ≤ count → from + count ≤ Z.of_nat (length v) →
  Forall P v →
  ∃ v', sub_range v from count = Some v' ∧ Forall P v'
        ∧ (0 < count → v' ≠ []).
Proof.
  intros Hf Hc Hlen Hv. unfold sub_range.
  destruct (Z.leb_spec 0 from); [|lia].
  destruct (Z.leb_spec 0 count); [|lia].
  destruct (Z.leb_spec (from + count) (Z.of_nat (length v))); [|lia]. simpl.
  eexists. split_and!; [done| |].
  - by apply Forall_take, Forall_drop.
  - intros Hpos Hnil. apply (f_equal length) in Hnil.
    rewrite length_take, length_drop in Hnil. simpl in Hnil. lia.
Qed.

Lemma set_vertical_positions_grid (d : Diagram) (top bot : Z) :
  grid n W d → 0 ≤ top → top ≤ bot → bot < n →
  set_vertical_positions d top bot
  = (2 * top, top + bot + 1, 2 * bot + 2).
Proof using Hn.
  intros Hgrid Ht Htb Hb. unfold set_vertical_positions.
  rewrite !(to_row_grid d) by (done || lia).
  unfold to_int, to_unsigned_int.
  replace (2 * top + 1 - 1) with (2 * top) by lia.
  replace (2 * bot + 1 + 1) with (2 * bot + 2) by lia.
  rewrite (Z.mod_small (2 * top)) by lia.
  rewrite (Z.mod_small (2 * top + 2 ^ 31)) by lia.
  rewrite (Z.mod_small (2 * bot + 2)) by lia.
  rewrite (Z.mod_small (2 * bot + 2 + 2 ^ 31)) by lia.
  replace (2 * top + 2 ^ 31 - 2 ^ 31 + (2 * bot + 2 + 2 ^ 31 - 2 ^ 31))
    with ((top + bot + 1) * 2) by lia.
  rewrite (Z.mod_small ((top + bot + 1) * 2)) by lia.
  rewrite Z.div_mul by done.
  rewrite (Z.mod_small (top + bot + 1 + 2 ^ 31)) by lia.
  f_equal; [f_equal|]; lia.
Qed.

Section Shape.

(** The columns of the shape, and a span [mn .. mx] of wires that holds
    its wires. *)
Variables (l r mn mx : Z).
Hypothesis Hl : 0 ≤ l.
Hypothesis Hlr : l + 1 ≤ r.
Hypothesis HrW : r < W.

Lemma draw_targets_draws (wires : list Z) (num_targets num_controls : Z)
    (d : Diagram) :
  grid n W d → Forall (λ w, (0 ≤ w < n) ∧ (mn ≤ w ≤ mx)) wires →
  0 ≤ num_targets ≤ Z.of_nat (length wires) →
  ∃ d', draw_targets l r wires num_targets num_controls d = Some d'
        ∧ draws_in n W (2 * mn) (2 * mx + 2) l r d d'.
Proof using All.
  intros Hgrid Hwires Hnt. unfold draw_targets.
  destruct (sub_range_runs (λ w, (0 ≤ w < n) ∧ (mn ≤ w ≤ mx))
              wires 0 num_targets)
    as (targets & -> & Htargets & _); [lia..|done|].
  cbn [mbind option_bind]. apply for_each_draws; [|done].
  intros d0 w Hw Hd0. rewrite Forall_forall in Htargets.
  destruct (Htargets w Hw) as [Hw1 Hw2]. cbv zeta.
  rewrite (to_row_grid d0 w Hd0 Hw1).
  apply bind_draws; [apply set_cell_draws; [done|lia..]|]. intros d1 Hd1.
  apply bind_draws; [apply set_cell_draws; [done|lia..]|]. intros d2 Hd2.
  destruct (num_controls >? 0).
  - apply set_cell_draws; [done|lia..].
  - exists d2. split; [done|]. by apply draws_in_refl.
Qed.

Lemma Box_draw_controls_draws (wires : list Z)
    (num_targets num_controls : Z) (d : Diagram) :
  grid n W d → Forall (λ w, (0 ≤ w < n) ∧ (mn ≤ w ≤ mx)) wires →
  0 ≤ num_targets → 0 ≤ num_controls →
  num_targets + num_controls ≤ Z.of_nat (length wires) →
  ∃ d', Box_draw_controls l r wires num_targets num_controls d = Some d'
        ∧ draws_in n W (2 * mn) (2 * mx + 2) l r d d'.
Proof using All.
  intros Hgrid Hwires Hnt Hnc Hlen. unfold Box_draw_controls.
  destruct (sub_range_runs (λ w, (0 ≤ w < n) ∧ (mn ≤ w ≤ mx))
              wires num_targets num_controls)
    as (controls & -> & Hcontrols & _); [lia..|done|].
  cbn [mbind option_bind]. apply for_each_draws; [|done].
  intros d0 w Hw Hd0. rewrite Forall_forall in Hcontrols.
  destruct (Hcontrols w Hw) as [Hw1 Hw2]. cbv zeta.
  rewrite (to_row_grid d0 w Hd0 Hw1).
  apply bind_draws; [apply set_cell_draws; [done|lia..]|]. intros d1 Hd1.
  apply bind_draws; [apply set_cell_draws; [done|lia..]|]. intros d2 Hd2.
  apply set_cell_draws; [done|lia..].
Qed.

Lemma ControlledBox_draw_controls_draws (wires : list Z)
    (num_targets num_controls : Z) (box_top box_bot : Z) (d : Diagram) :
  grid n W d → Forall (λ w, (0 ≤ w < n) ∧ (mn ≤ w ≤ mx)) wires →
  0 ≤ num_targets → 0 ≤ num_controls →
  num_targets + num_controls ≤ Z.of_nat (length wires) →
  0 ≤ box_top → box_top ≤ box_bot → box_bot < 2 * n + 1 →
  2 * mn ≤ box_top → box_bot ≤ 2 * mx + 2 →
  ∃ d', ControlledBox_draw_controls l r wires num_targets num_controls
          box_top box_bot d = Some d'
        ∧ draws_in n W (2 * mn) (2 * mx + 2) l r d d'.
Proof using All.
  intros Hgrid Hwires Hnt Hnc Hlen Ht Htb Hb Hmn Hmx.
  unfold ControlledBox_draw_controls. cbv zeta.
  pose proof (quot_2_between l r) as Hmid.
  set (mid_col := Z.quot (l + r) 2) in *.
  destruct (sub_range_runs (λ w, (0 ≤ w < n) ∧ (mn ≤ w ≤ mx))
              wires num_targets num_controls)
    as (controls & -> & Hcontrols & _); [lia..|done|].
  cbn [mbind option_bind]. apply for_each_draws; [|done].
  intros d0 w Hw Hd0. rewrite Forall_forall in Hcontrols.
  destruct (Hcontrols w Hw) as [Hw1 Hw2].
  rewrite (to_row_grid d0 w Hd0 Hw1).
  apply bind_draws; [apply set_cell_draws; [done|lia..]|]. intros d1 Hd1.
  destruct (Z.ltb_spec (2 * w + 1) box_top).
  - apply bind_draws; [apply control_line_draws; [done|lia..]|].
    intros d2 Hd2. apply set_cell_draws; [done|lia..].
  - apply bind_draws; [apply control_line_draws; [done|lia..]|].
    intros d2 Hd2. apply set_cell_draws; [done|lia..].
Qed.

Lemma DiagramSwap_draw_controls_draws (wires : list Z) (num_controls : Z)
    (d : Diagram) :
  grid n W d → Forall (λ w, (0 ≤ w < n) ∧ (mn ≤ w ≤ mx)) wires → l + 2 ≤ r →
  0 ≤ num_controls → 2 + num_controls ≤ Z.of_nat (length wires) →
  ∃ d', DiagramSwap_draw_controls l wires num_controls d = Some d'
        ∧ draws_in n W (2 * mn) (2 * mx + 2) l r d d'.
Proof using All.
  intros Hgrid Hwires Hl2 Hnc Hlen. unfold DiagramSwap_draw_controls.
  destruct (at_in_range wires 0) as [wire0 Hwire0]; [lia|].
  destruct (at_in_range wires 1) as [wire1 Hwire1]; [lia|].
  rewrite Hwire0. cbn [mbind option_bind].
  rewrite Hwire1. cbn [mbind option_bind].
  apply at_Some in Hwire0 as [_ Hwire0]. apply at_Some in Hwire1 as [_ Hwire1].
  destruct (Forall_lookup_1 _ _ _ _ Hwires Hwire0) as [H01 H02].
  destruct (Forall_lookup_1 _ _ _ _ Hwires Hwire1) as [H11 H12].
  rewrite (to_row_grid d wire0 Hgrid H01), (to_row_grid d wire1 Hgrid H11).
  destruct (sub_range_runs (λ w, (0 ≤ w < n) ∧ (mn ≤ w ≤ mx))
              wires 2 num_controls)
    as (controls & -> & Hcontrols & _); [lia..|done|].
  cbn [mbind option_bind]. apply for_each_draws; [|done].
  intros d0 w Hw Hd0. rewrite Forall_forall in Hcontrols.
  destruct (Hcontrols w Hw) as [Hw1 Hw2]. cbv zeta.
  rewrite (to_row_grid d0 w Hd0 Hw1).
  apply bind_draws; [apply set_cell_draws; [done|lia..]|]. intros d1 Hd1.
  destruct (Z.ltb_spec (2 * w + 1) (2 * wire0 + 1)).
  - apply control_line_draws; [done|lia..].
  - apply control_line_draws; [done|lia..].
Qed.

End Shape.

(** A drawable shape whose columns are columns of the grid is drawn, and
    the drawing stays in the rows of its wires and in its columns. *)
Lemma draw_shape_draws (shape : Operator) (left_col mn mx : Z)
    (d : Diagram) :
  grid n W d → drawable n shape →
  Forall (λ w, mn ≤ w ≤ mx) (wires_ shape) →
  0 ≤ left_col → left_col + width shape ≤ W →
  ∃ d', draw_shape left_col (left_col + width shape - 1) shape d = Some d'
        ∧ draws_in n W (2 * mn) (2 * mx + 2)
                   left_col (left_col + width shape - 1) d d'.
Proof using Hn.
  intros Hgrid (Hnt & Hnc & Hlen & Hin) Hspan Hl HW.
  assert (Forall (λ w, (0 ≤ w < n) ∧ (mn ≤ w ≤ mx)) (wires_ shape))
    as Hwires.
  { rewrite Forall_forall in Hin, Hspan. apply Forall_forall.
    intros w Hw. split; [by apply Hin|by apply Hspan]. }
  set (l := left_col). set (r := l + width shape - 1).
  destruct shape as [label wires nt nc|wires nc|label wires nt nc];
    simpl in Hnt, Hnc, Hlen, Hin, Hspan, Hwires, HW, r.
  - (* Box *)
    assert (l + 2 ≤ r ∨ (nc >? 0) = false ∧ l + 1 ≤ r) as Hlr.
    { unfold r. destruct (Z.gtb_spec nc 0); [left|right]; lia. }
    assert (l + 1 ≤ r) as Hlr1 by lia.
    assert (r < W) as HrW by (unfold r, l; lia).
    destruct (minmax_element_spec (λ w, (0 ≤ w < n) ∧ (mn ≤ w ≤ mx)) wires)
      as (top & bot & Htop & Hbot & [Ht1 Ht2] & [Hb1 Hb2] & Htb); [|done|].
    { intros ->. simpl in Hlen. lia. }
    cbn [draw_shape]. rewrite Htop. cbn [mbind option_bind].
    rewrite Hbot. cbn [mbind option_bind].
    rewrite (set_vertical_positions_grid d top bot) by (done || lia).
    apply bind_draws.
    { eapply draws_in_exists_weaken; [|apply draw_box_draws; [done|lia..]];
        lia. }
    intros d1 Hd1. apply bind_draws.
    { apply (draw_targets_draws l r mn mx); first [done|lia]. }
    intros d2 Hd2. apply bind_draws.
    { apply (Box_draw_controls_draws l r mn mx); first [done|lia]. }
    intros d3 Hd3.
    unfold Box_draw_label. cbv zeta.
    apply (label_draws (2 * mn) (2 * mx + 2) l r); [done|lia|lia|..];
      subst r l; destruct (nc >? 0); lia.
  - (* DiagramSwap *)
    assert (r = l + 2) as Hr by (unfold r; lia).
    destruct (at_in_range wires 0) as [wire0 Hwire0]; [lia|].
    destruct (at_in_range wires 1) as [wire1 Hwire1]; [lia|].
    cbn [draw_shape]. cbv zeta.
    rewrite Hwire0. cbn [mbind option_bind].
    rewrite Hwire1. cbn [mbind option_bind].
    apply at_Some in Hwire0 as [_ Hwire0].
    apply at_Some in Hwire1 as [_ Hwire1].
    destruct (Forall_lookup_1 _ _ _ _ Hwires Hwire0) as [H01 H02].
    destruct (Forall_lookup_1 _ _ _ _ Hwires Hwire1) as [H11 H12].
    rewrite (to_row_grid d wire0 Hgrid H01), (to_row_grid d wire1 Hgrid H11).
    apply bind_draws; [apply set_cell_draws; [done|lia..]|]. intros d1 Hd1.
    apply bind_draws; [apply control_line_draws; [done|lia..]|].
    intros d2 Hd2.
    apply bind_draws; [apply set_cell_draws; [done|lia..]|]. intros d3 Hd3.
    apply (DiagramSwap_draw_controls_draws l r mn mx); first [done|lia].
  - (* ControlledBox *)
    assert (l + 1 ≤ r) as Hlr1 by (unfold r; lia).
    assert (r < W) as HrW by (unfold r, l; lia).
    destruct (sub_range_runs (λ w, (0 ≤ w < n) ∧ (mn ≤ w ≤ mx)) wires 0 nt)
      as (targets & Htargets & Hts & Hne); [lia..|done|].
    destruct (minmax_element_spec (λ w, (0 ≤ w < n) ∧ (mn ≤ w ≤ mx))
                targets (Hne Hnt) Hts)
      as (top & bot & Htop & Hbot & [Ht1 Ht2] & [Hb1 Hb2] & Htb).
    cbn [draw_shape]. rewrite Htargets. cbn [mbind option_bind].
    rewrite Htop. cbn [mbind option_bind].
    rewrite Hbot. cbn [mbind option_bind].
    rewrite (set_vertical_positions_grid d top bot) by (done || lia).
    apply bind_draws.
    { eapply draws_in_exists_weaken; [|apply draw_box_draws; [done|lia..]];
        lia. }
    intros d1 Hd1. apply bind_draws.
    { apply (draw_targets_draws l r mn mx); first [done|lia]. }
    intros d2 Hd2. apply bind_draws.
    { apply (ControlledBox_draw_controls_draws l r mn mx);
        first [done|lia]. }
    intros d3 Hd3. unfold ControlledBox_draw_label.
    apply (label_draws (2 * mn) (2 * mx + 2) l r); [done|lia..].
Qed.

(** The loop over the boxes: every box is drawn, and a cell that is in
    the rectangle of no box is what it was. *)
Lemma draw_boxes_draws (boxes : list Operator) :
  ∀ (cols : list (option (Z * Z))) (spans : list (Z * Z)) (d : Diagram),
    Forall2 (λ box col,
               ∃ left_col, col = Some (set_cols box left_col)
                           ∧ 0 ≤ left_col ∧ left_col + width box ≤ W)
            boxes cols →
    Forall2 (λ box (sp : Z * Z), Forall (λ w, sp.1 ≤ w ≤ sp.2) (wires_ box))
            boxes spans →
    Forall (drawable n) boxes →
    grid n W d →
    ∃ d',
      draw_boxes boxes cols d = Some d' ∧ grid n W d'
      ∧ ∀ i j,
          (∀ (k : nat) l r sp,
             cols !! k = Some (Some (l, r)) → spans !! k = Some sp →
             ¬ (2 * sp.1 ≤ i ≤ 2 * sp.2 + 2 ∧ l ≤ j ≤ r)) →
          cell d' i j = cell d i j.
Proof using Hn.
  induction boxes as [|box boxes IH]; intros cols spans d Hcols Hspans Hd Hgrid.
  - exists d. by split_and!.
  - destruct cols as [|col cols]; [by apply Forall2_cons_nil_inv in Hcols|].
    destruct spans as [|sp spans];
      [by apply Forall2_cons_nil_inv in Hspans|].
    apply Forall2_cons in Hcols as [(left_col & -> & Hl & HW) Hcols].
    apply Forall2_cons in Hspans as [Hsp Hspans].
    apply Forall_cons in Hd as [Hbox Hd].
    destruct (draw_shape_draws box left_col sp.1 sp.2 d)
      as (d1 & Hd1 & Hgrid1 & Hout1); [done..|].
    unfold set_cols. cbn [draw_boxes]. rewrite Hd1. cbn [mbind option_bind].
    destruct (IH cols spans d1 Hcols Hspans Hd Hgrid1)
      as (d' & Hd' & Hgrid' & Hout').
    exists d'. split_and!; [done..|].
    intros i j Hij. rewrite Hout', Hout1; [done| |].
    + apply (Hij 0%nat left_col (left_col + width box - 1) sp); done.
    + intros k l r sp' Hk Hsp'. apply (Hij (S k) l r sp'); done.
Qed.

End Drawing.

Section DrawTrace.
Import Draw.

Variable format_name : string → list Z → string.

Lemma scan_controls_wires (min_target max_target : Z) (cs : list Z) :
  ∀ ws ov mn mx,
    (scan_controls min_target max_target cs (ws, ov, mn, mx)).1.1.1
    = ws ++ cs.
Proof.
  induction cs as [|c cs IH]; intros ws ov mn mx; simpl.
  - by rewrite app_nil_r.
  - rewrite IH. by rewrite <- app_assoc.
Qed.

Lemma inst_wires_wires (inst : Instruction) (wires : list Z) (ov : bool)
    (mn mx : Z) :
  inst_wires inst = Some (wires, ov, mn, mx) →
  wires = merge_sort Z.le (convertToIDs (targets inst))
          ++ convertToIDs (controls inst).
Proof.
  unfold inst_wires.
  destruct (head _) as [h|]; [|done]. simpl.
  destruct (last _) as [t|]; [|done]. simpl.
  intros [= Heq]. rewrite <- (scan_controls_wires h t _ _ false h t).
  by rewrite Heq.
Qed.

(** The shape [draw] makes of a placeable instruction is drawable. *)
Lemma inst_shape_drawable (nw : Z) (inst : Instruction) (wires : list Z)
    (ov : bool) (mn mx : Z) :
  placeable nw inst → swaps_two format_name inst →
  inst_wires inst = Some (wires, ov, mn, mx) →
  drawable nw (inst_shape format_name inst wires ov)
  ∧ wires_ (inst_shape format_name inst wires ov) = wires.
Proof.
  intros [Hne Hin] Hswap Hwires.
  pose proof (inst_wires_wires _ _ _ _ _ Hwires) as ->.
  assert (length (merge_sort Z.le (convertToIDs (targets inst)))
          = length (targets inst)) as Hlen.
  { rewrite (merge_sort_Permutation Z.le). unfold convertToIDs.
    by rewrite length_map. }
  assert (0 < length (targets inst))%nat as Hpos
    by (destruct (targets inst); [done|simpl; lia]).
  assert (Forall (λ w, 0 ≤ w < nw)
            (merge_sort Z.le (convertToIDs (targets inst))
             ++ convertToIDs (controls inst))) as Hall.
  { apply Forall_forall. intros w Hw. apply Hin. unfold inst_ids.
    by rewrite <- (merge_sort_Permutation Z.le (convertToIDs (targets inst))). }
  unfold inst_shape, drawable.
  destruct ov;
    [|destruct (String.eqb_spec (inst_name format_name inst) "swap")];
    simpl; rewrite length_app, Hlen; unfold convertToIDs;
    rewrite length_map; (split; [|done]); split_and!; try done; try lia.
  specialize (Hswap e). lia.
Qed.

Lemma cell_initial (nq W0 : Z) (d : Diagram) (i j : Z) :
  grid nq W0 d →
  (∀ k : nat,
     (k < Z.to_nat (2 * nq + 1))%nat →
     rows_ d !! k = Some (replicate (Z.to_nat W0) (initial_cell k))) →
  0 ≤ i < 2 * nq + 1 → 0 ≤ j < W0 →
  cell d i j = Some (initial_cell (Z.to_nat i)).
Proof.
  intros (_ & Hh & Hw & _) Hrows Hi Hj. unfold cell. rewrite Hh, Hw.
  destruct (Z.ltb_spec i (2 * nq + 1)); [|lia].
  destruct (Z.ltb_spec j W0); [|lia]. simpl.
  unfold at_ at 2. destruct (Z.ltb_spec i 0); [lia|].
  rewrite Hrows by lia. simpl. apply at_Some. split; [lia|].
  apply lookup_replicate_2. lia.
Qed.

(** [draw] on a trace of placeable instructions: every loop runs to its
    end, the diagram is the grid, and a cell that is in the rectangle of
    no instruction is what [Diagram::width] put there. *)
Lemma draw_diagram_spec (trace : Trace) (prefix_size : Z) :
  instructions trace ≠ [] →
  Forall (placeable (getNumQudits trace)) (instructions trace) →
  Forall (swaps_two format_name) (instructions trace) →
  2 * getNumQudits trace + 1 < 2 ^ 31 →
  0 ≤ prefix_size < max_columns - 1 →
  ∃ s,
    layering format_name trace = Some s
    ∧ (total (layer_width s) < 2 ^ 31 →
       ∃ c d,
         compute_width s prefix_size = Some c
         ∧ draw_diagram format_name trace prefix_size = Some (Drawn c d)
         ∧ grid (getNumQudits trace) (total (layer_width s)) d
         ∧ ∀ i j,
             0 ≤ i < 2 * getNumQudits trace + 1 →
             0 ≤ j < total (layer_width s) →
             (∀ (k : nat) inst mn mx l r,
                instructions trace !! k = Some inst →
                inst_span inst = Some (mn, mx) →
                cols c !! k = Some (Some (l, r)) →
                ¬ (2 * mn ≤ i ≤ 2 * mx + 2 ∧ l ≤ j ≤ r)) →
             cell d i j = Some (initial_cell (Z.to_nat i))).
Proof.
  intros Hne Hall Hswaps Hn Hprefix.
  set (nq := getNumQudits trace) in *. set (insts := instructions trace) in *.
  destruct (layering_spec2 format_name trace Hall) as (s & Hs & Hinv & Hinv2).
  fold insts nq in Hinv, Hinv2.
  exists s. split; [done|]. intros HW.
  destruct (layering_columns_spec format_name trace prefix_size s
              Hinv Hinv2 HW Hprefix)
    as (c & Hc & Hcurr & Hclen & Hcols & _).
  set (Wd := total (layer_width s)) in *.
  assert (Forall (λ w, 0 ≤ w) (layer_width s)) as Hpos.
  { apply Forall_lookup_2. intros L w Hw.
    destruct (inv2_width_max _ _ _ Hinv2 (Z.of_nat L) w)
      as (k & b & _ & _ & <-).
    { apply at_Some. rewrite Nat2Z.id. split; [lia|done]. }
    pose proof (width_pos b). lia. }
  assert (0 ≤ Wd) as HWd by (by apply total_nonneg).
  assert (0 < nq) as Hnq.
  { destruct insts as [|inst insts'] eqn:Hinsts; [done|].
    apply Forall_cons in Hall as [[Hts Hin] _].
    destruct (targets inst) as [|t ts] eqn:Ht; [done|].
    assert (0 ≤ id t < nq); [|lia].
    apply Hin. unfold inst_ids, convertToIDs. rewrite Ht. simpl. left. }
  destruct (Diagram_width_spec nq Wd) as (d0 & Hd0 & Hgrid0 & Hrows0 & _);
    [lia..|].
  (* the columns, the spans and the shapes of the boxes *)
  set (spans := (λ inst, default (0, 0) (inst_span inst)) <$> insts).
  assert (length (boxes s) = length insts) as Hblen
    by (rewrite (inv2_boxes _ _ _ Hinv2); apply (inv_ref _ _ _ Hinv)).
  assert (∀ k b, boxes s !! k = Some b →
            ∃ inst wires ov mn mx,
              insts !! k = Some inst
              ∧ inst_wires inst = Some (wires, ov, mn, mx)
              ∧ b = inst_shape format_name inst wires ov
              ∧ placeable nq inst ∧ swaps_two format_name inst) as Hshape.
  { intros k b Hb.
    destruct (inv2_shapes _ _ _ Hinv2 k b Hb)
      as (inst & wires & ov & mn & mx & Hk & Hwires & ->).
    exists inst, wires, ov, mn, mx. split_and!; [done..| |].
    - by apply (Forall_lookup_1 _ _ _ _ Hall Hk).
    - by apply (Forall_lookup_1 _ _ _ _ Hswaps Hk). }
  destruct (draw_boxes_draws nq Wd Hn (boxes s) (cols c) spans d0)
    as (d & Hd & Hgrid & Hout); [| | |done|].
  - apply Forall2_same_length_lookup. split; [done|].
    intros k b col Hb Hcol.
    destruct (inv2_total _ _ _ Hinv2 k) as [L HL].
    { rewrite <- (inv2_boxes _ _ _ Hinv2). by apply lookup_lt_Some in Hb. }
    destruct (inv2_width_ge _ _ _ Hinv2 L k b HL Hb) as (w & Hw & Hle).
    apply at_Some in Hw as [HL0 Hw].
    rewrite <- (Z2Nat.id L) in HL by done.
    rewrite (Hcols (Z.to_nat L) k b w HL Hb Hw) in Hcol.
    injection Hcol as <-. eexists. split; [done|].
    pose proof (width_pos b).
    pose proof (band_start_bounds (layer_width s) (Z.to_nat L) Hpos).
    pose proof (band_start_bounds (layer_width s) (S (Z.to_nat L)) Hpos)
      as HS.
    rewrite (band_start_S _ _ _ Hw) in HS.
    assert (0 ≤ (w - width b) / 2) by (apply Z.div_pos; lia).
    assert (2 * ((w - width b) / 2) ≤ w - width b)
      by (apply Z.mul_div_le; lia).
    fold Wd in HS. lia.
  - apply Forall2_same_length_lookup. split.
    { unfold spans. by rewrite length_fmap. }
    intros k b sp Hb Hsp.
    destruct (Hshape k b Hb)
      as (inst & wires & ov & mn & mx & Hk & Hwires & -> & Hp & Hsw).
    destruct (inst_shape_drawable nq inst wires ov mn mx Hp Hsw Hwires)
      as [_ ->].
    unfold spans in Hsp. rewrite list_lookup_fmap, Hk in Hsp.
    cbn [fmap option_fmap option_map] in Hsp.
    unfold inst_span in Hsp. rewrite Hwires in Hsp. simpl in Hsp.
    injection Hsp as <-. simpl.
    destruct (inst_wires_spec inst (proj1 Hp))
      as (wires' & ov' & mn' & mx' & Hwires' & _ & Hbounds & _).
    rewrite Hwires in Hwires'. injection Hwires' as <- <- <- <-.
    apply Forall_forall. intros w Hw. apply Hbounds.
    rewrite (inst_wires_wires _ _ _ _ _ Hwires) in Hw. unfold inst_ids.
    by rewrite <- (merge_sort_Permutation Z.le
                     (convertToIDs (targets inst))).
  - apply Forall_lookup_2. intros k b Hb.
    destruct (Hshape k b Hb)
      as (inst & wires & ov & mn & mx & Hk & Hwires & -> & Hp & Hsw).
    by destruct (inst_shape_drawable nq inst wires ov mn mx Hp Hsw Hwires).
  - exists c, d. split; [done|].
    assert (to_int (curr_width c) = Wd) as Hint.
    { rewrite Hcurr. unfold to_int. rewrite Z.mod_small by lia. lia. }
    split_and!.
    + unfold draw_diagram. fold insts.
      destruct insts as [|inst0 insts0]; [done|].
      rewrite Hs. cbn [mbind option_bind]. rewrite Hc.
      cbn [mbind option_bind]. rewrite Hint. fold nq. rewrite Hd0.
      cbn [mbind option_bind]. by rewrite Hd.
    + done.
    + intros i j Hi Hj Hfree.
      rewrite Hout; [by apply (cell_initial nq Wd)|].
      intros k l r sp Hk Hsp. unfold spans in Hsp.
      rewrite list_lookup_fmap in Hsp.
      destruct (insts !! k) as [inst|] eqn:Hinst; [|done].
      simpl in Hsp. injection Hsp as <-.
      pose proof (Forall_lookup_1 _ _ _ _ Hall Hinst) as Hp.
      destruct (inst_wires_spec inst (proj1 Hp))
        as (wires' & ov' & mn' & mx' & Hwires' & _).
      assert (inst_span inst = Some (mn', mx')) as Hspan
        by (unfold inst_span; by rewrite Hwires').
      rewrite Hspan. simpl. by apply (Hfree k inst mn' mx' l r).
Qed.

(** A swap needs its two targets: with fewer wires than two and its
    controls, [wires_.at(1)] throws or the range of the controls leaves
    the vector. *)
Lemma draw_swap_stops (l r : Z) (wires : list Z) (num_controls : Z)
    (d : Diagram) :
  Z.of_nat (length wires) < 2 + num_controls →
  draw_shape l r (DiagramSwap wires num_controls) d = None.
Proof.
  intros Hlen. cbn [draw_shape]. cbv zeta.
  destruct (at_ wires 0) as [wire0|]; [|done]. cbn [mbind option_bind].
  destruct (at_ wires 1) as [wire1|] eqn:Hwire1; [|done].
  cbn [mbind option_bind].
  destruct (set_cell d _ _ _) as [d1|]; [|done]. cbn [mbind option_bind].
  destruct (control_line _ _ _ d1) as [d2|]; [|done]. cbn [mbind option_bind].
  destruct (set_cell d2 _ _ _) as [d3|]; [|done]. cbn [mbind option_bind].
  unfold DiagramSwap_draw_controls.
  destruct (at_ wires 0) as [wire0'|]; [|done]. cbn [mbind option_bind].
  rewrite Hwire1. cbn [mbind option_bind].
  unfold sub_range.
  destruct (Z.leb_spec (2 + num_controls) (Z.of_nat (length wires))); [lia|].
  by rewrite andb_false_r.
Qed.

Lemma draw_boxes_stops (box : Operator) (boxes : list Operator) :
  (∀ l r d, draw_shape l r box d = None) →
  ∀ (k : nat) (cols : list (option (Z * Z))) (d : Diagram),
    boxes !! k = Some box → draw_boxes boxes cols d = None.
Proof.
  intros Hbox. induction boxes as [|b boxes IH]; intros k cols d Hk; [done|].
  cbn [draw_boxes]. destruct cols as [|[[l r]|] cols]; [done| |done].
  destruct k as [|k]; simpl in Hk.
  - injection Hk as ->. by rewrite Hbox.
  - destruct (draw_shape l r b d) as [d1|]; [|done].
    cbn [mbind option_bind]. by apply (IH k).
Qed.

Lemma scan_controls_no_overlap (t : Z) (cs : list Z) :
  ∀ ws ov mn mx,
    (scan_controls t t cs (ws, ov, mn, mx)).1.1.2 = ov.
Proof.
  induction cs as [|c cs IH]; intros ws ov mn mx; simpl; [done|].
  rewrite IH. destruct (Z.gtb_spec c t), (Z.ltb_spec c t);
    simpl; rewrite ?orb_false_r; try done; lia.
Qed.

(** The shape of an instruction named [swap] that has one target. *)
Lemma lone_swap_shape (inst : Instruction) (wires : list Z) (ov : bool)
    (mn mx : Z) :
  inst_name format_name inst = "swap"%string →
  length (targets inst) = 1%nat →
  inst_wires inst = Some (wires, ov, mn, mx) →
  inst_shape format_name inst wires ov
  = DiagramSwap wires (Z.of_nat (length (controls inst)))
  ∧ length wires = S (length (controls inst)).
Proof.
  intros Hname Hlen Hwires.
  pose proof (inst_wires_wires _ _ _ _ _ Hwires) as Hw.
  assert (ov = false) as ->.
  { revert Hwires. unfold inst_wires.
    destruct (targets inst) as [|q [|q' ts]]; [done| |done].
    cbn [mbind option_bind convertToIDs map merge_sort head last].
    change (merge_sort Z.le [id q]) with [id q].
    cbn [mbind option_bind head last].
    intros [= Heq].
    rewrite <- (scan_controls_no_overlap
                  (id q) (convertToIDs (controls inst)) [id q]
                  false (id q) (id q)).
    by rewrite Heq. }
  unfold inst_shape. rewrite Hname. simpl. split; [done|].
  rewrite Hw, length_app, (merge_sort_Permutation Z.le).
  unfold convertToIDs. rewrite !length_map, Hlen. done.
Qed.

Lemma draw_lone_swap (trace : Trace) (prefix_size : Z) (inst : Instruction) :
  inst ∈ instructions trace →
  inst_name format_name inst = "swap"%string →
  length (targets inst) = 1%nat →
  draw_diagram format_name trace prefix_size = None.
Proof.
  intros Hin Hname Hlen. unfold draw_diagram.
  destruct (instructions trace) as [|inst0 insts0] eqn:Hinsts;
    [by apply elem_of_nil in Hin|].
  rewrite <- Hinsts in Hin. clear inst0 insts0 Hinsts.
  destruct (layering format_name trace) as [s|] eqn:Hs; [|done].
  cbn [mbind option_bind].
  destruct (compute_width s prefix_size) as [c|]; [|done].
  cbn [mbind option_bind].
  destruct (Diagram_width _ _) as [d0|]; [|done]. cbn [mbind option_bind].
  assert (Forall (placeable (getNumQudits trace)) (instructions trace))
    as Hall.
  { apply (place_all_Some_placeable format_name _
             (initial (getNumQudits trace)) _ s); [|done].
    simpl. by rewrite length_replicate. }
  destruct (layering_spec2 format_name trace Hall) as (s' & Hs' & Hinv & Hinv2).
  rewrite Hs in Hs'. injection Hs' as <-.
  apply list_elem_of_lookup in Hin as [k Hk].
  destruct (lookup_lt_is_Some_2 (boxes s) k) as [b Hb].
  { rewrite (inv2_boxes _ _ _ Hinv2), (inv_ref _ _ _ Hinv).
    by apply lookup_lt_Some in Hk. }
  destruct (inv2_shapes _ _ _ Hinv2 k b Hb)
    as (inst' & wires & ov & mn & mx & Hk' & Hwires & ->).
  rewrite Hk in Hk'. injection Hk' as <-.
  destruct (lone_swap_shape inst wires ov mn mx Hname Hlen Hwires)
    as [Hshape Hwlen].
  rewrite Hshape in Hb.
  rewrite (draw_boxes_stops
             (DiagramSwap wires (Z.of_nat (length (controls inst))))
             (boxes s)) with (k := k); [done| |done].
  intros l r d. apply draw_swap_stops. lia.
Qed.

(** The columns [draw] gives the boxes are columns of the diagram. *)
Lemma boxes_cols_spec (trace : Trace) (prefix_size : Z) (s : Layering)
    (c : Columns) :
  layering_inv (getNumQudits trace) (instructions trace) s →
  layering_inv2 format_name (instructions trace) s →
  total (layer_width s) < 2 ^ 31 →
  0 ≤ prefix_size < max_columns - 1 →
  compute_width s prefix_size = Some c →
  Forall2 (λ box col,
             ∃ left_col, col = Some (set_cols box left_col)
                         ∧ 0 ≤ left_col
                         ∧ left_col + width box ≤ total (layer_width s))
          (boxes s) (cols c).
Proof.
  intros Hinv Hinv2 HW Hprefix Hc.
  destruct (layering_columns_spec format_name trace prefix_size s
              Hinv Hinv2 HW Hprefix)
    as (c' & Hc' & Hcurr & Hclen & Hcols & _).
  rewrite Hc in Hc'. injection Hc' as <-.
  assert (Forall (λ w, 0 ≤ w) (layer_width s)) as Hpos.
  { apply Forall_lookup_2. intros L w Hw.
    destruct (inv2_width_max _ _ _ Hinv2 (Z.of_nat L) w)
      as (k & b & _ & _ & <-).
    { apply at_Some. rewrite Nat2Z.id. split; [lia|done]. }
    pose proof (width_pos b). lia. }
  apply Forall2_same_length_lookup. split; [done|].
  intros k b col Hb Hcol.
  destruct (inv2_total _ _ _ Hinv2 k) as [L HL].
  { rewrite <- (inv2_boxes _ _ _ Hinv2). by apply lookup_lt_Some in Hb. }
  destruct (inv2_width_ge _ _ _ Hinv2 L k b HL Hb) as (w & Hw & Hle).
  apply at_Some in Hw as [HL0 Hw].
  rewrite <- (Z2Nat.id L) in HL by done.
  rewrite (Hcols (Z.to_nat L) k b w HL Hb Hw) in Hcol.
  injection Hcol as <-. eexists. split; [done|].
  pose proof (width_pos b).
  pose proof (band_start_bounds (layer_width s) (Z.to_nat L) Hpos).
  pose proof (band_start_bounds (layer_width s) (S (Z.to_nat L)) Hpos)
    as HS.
  rewrite (band_start_S _ _ _ Hw) in HS.
  assert (0 ≤ (w - width b) / 2) by (apply Z.div_pos; lia).
  assert (2 * ((w - width b) / 2) ≤ w - width b)
    by (apply Z.mul_div_le; lia).
  lia.
Qed.

(** A swap of one target and no control: the boxes before it are drawn,
    and the box of the swap has a single wire. *)
Lemma draw_stops_at_a_lone_swap (trace : Trace) (prefix_size : Z)
    (k : nat) (inst : Instruction) :
  Forall (placeable (getNumQudits trace)) (instructions trace) →
  Forall (swaps_two format_name) (take k (instructions trace)) →
  instructions trace !! k = Some inst →
  inst_name format_name inst = "swap"%string →
  length (targets inst) = 1%nat → controls inst = [] →
  2 * getNumQudits trace + 1 < 2 ^ 31 →
  0 ≤ prefix_size < max_columns - 1 →
  ∃ s,
    layering format_name trace = Some s
    ∧ (total (layer_width s) < 2 ^ 31 →
       ∃ c d0 d1 wire l r,
         compute_width s prefix_size = Some c
         ∧ Diagram_width (Diagram_new (getNumQudits trace))
                         (to_int (curr_width c)) = Some d0
         ∧ draw_boxes (take k (boxes s)) (take k (cols c)) d0 = Some d1
         ∧ boxes s !! k = Some (DiagramSwap [wire] 0)
         ∧ cols c !! k = Some (Some (l, r))
         ∧ at_ [wire] 1 = None
         ∧ draw_shape l r (DiagramSwap [wire] 0) d1 = None
         ∧ draw_diagram format_name trace prefix_size = None).
Proof.
  intros Hall Hswaps Hk Hname Hlen Hctl Hn Hprefix.
  destruct (layering_spec2 format_name trace Hall) as (s & Hs & Hinv & Hinv2).
  exists s. split; [done|]. intros HW.
  destruct (layering_columns_spec format_name trace prefix_size s
              Hinv Hinv2 HW Hprefix) as (c & Hc & Hcurr & _).
  pose proof (boxes_cols_spec trace prefix_size s c Hinv Hinv2 HW Hprefix Hc)
    as Hcols.
  set (nq := getNumQudits trace) in *. set (insts := instructions trace) in *.
  set (Wd := total (layer_width s)) in *.
  assert (0 ≤ Wd) as HWd.
  { apply total_nonneg, Forall_lookup_2. intros L w Hw.
    destruct (inv2_width_max _ _ _ Hinv2 (Z.of_nat L) w)
      as (j & b & _ & _ & <-).
    { apply at_Some. rewrite Nat2Z.id. split; [lia|done]. }
    pose proof (width_pos b). lia. }
  assert (0 < nq) as Hnq.
  { destruct (Forall_lookup_1 _ _ _ _ Hall Hk) as [Hts Hin].
    destruct (targets inst) as [|t ts] eqn:Ht; [done|].
    assert (0 ≤ id t < nq); [|lia].
    apply Hin. unfold inst_ids, convertToIDs. rewrite Ht. simpl. left. }
  assert (to_int (curr_width c) = Wd) as Hint.
  { rewrite Hcurr. unfold to_int. rewrite Z.mod_small by lia. lia. }
  destruct (Diagram_width_spec nq Wd) as (d0 & Hd0 & Hgrid0 & _); [lia..|].
  (* the shapes of the boxes *)
  assert (∀ j b, boxes s !! j = Some b →
            ∃ i wires ov mn mx,
              insts !! j = Some i
              ∧ inst_wires i = Some (wires, ov, mn, mx)
              ∧ b = inst_shape format_name i wires ov
              ∧ placeable nq i) as Hshape.
  { intros j b Hb.
    destruct (inv2_shapes _ _ _ Hinv2 j b Hb)
      as (i & wires & ov & mn & mx & Hj & Hwires & ->).
    exists i, wires, ov, mn, mx. split_and!; [done..|].
    by apply (Forall_lookup_1 _ _ _ _ Hall Hj). }
  assert (Forall (drawable nq) (take k (boxes s))) as Hdrawable.
  { apply Forall_lookup_2. intros j b [Hb Hj]%lookup_take_Some.
    destruct (Hshape j b Hb)
      as (i & wires & ov & mn & mx & Hi & Hwires & -> & Hp).
    assert (swaps_two format_name i) as Hsw.
    { apply (Forall_lookup_1 _ _ j _ Hswaps).
      apply lookup_take_Some. by split. }
    by destruct (inst_shape_drawable nq i wires ov mn mx Hp Hsw Hwires). }
  (* the box of the swap *)
  destruct (lookup_lt_is_Some_2 (boxes s) k) as [b Hb].
  { rewrite (inv2_boxes _ _ _ Hinv2), (inv_ref _ _ _ Hinv).
    by apply lookup_lt_Some in Hk. }
  destruct (Hshape k b Hb)
    as (i & wires & ov & mn & mx & Hi & Hwires & -> & _).
  fold insts in Hk. rewrite Hk in Hi. injection Hi as <-.
  destruct (lone_swap_shape inst wires ov mn mx Hname Hlen Hwires)
    as [Hbox Hwlen].
  rewrite Hbox in Hb. rewrite Hctl in Hb, Hwlen. simpl in Hb, Hwlen.
  destruct wires as [|wire [|wire' wires]]; [done| |done].
  destruct (Forall2_lookup_l _ _ _ _ _ Hcols Hb)
    as (col & Hcol & left_col & -> & _).
  (* the boxes before it *)
  destruct (draw_boxes_draws nq Wd Hn (take k (boxes s)) (take k (cols c))
              (replicate (length (take k (boxes s))) (0, nq)) d0)
    as (d1 & Hd1 & _); [by apply Forall2_take| |done|done|].
  { apply Forall2_same_length_lookup. split; [by rewrite length_replicate|].
    intros j b' sp Hb' [-> _]%lookup_replicate. simpl.
    destruct (Forall_lookup_1 _ _ _ _ Hdrawable Hb') as (_ & _ & _ & Hin).
    eapply Forall_impl; [exact Hin|]. intros w Hw. simpl in Hw. lia. }
  exists c, d0, d1, wire.
  exists left_col, (left_col + width (DiagramSwap [wire] 0) - 1).
  split_and!; [done|by rewrite Hint|done|done|done|done| |].
  - apply draw_swap_stops. simpl. lia.
  - apply (draw_lone_swap trace prefix_size inst); [|done..].
    by apply (list_elem_of_lookup_2 _ k).
Qed.

End DrawTrace.

(** *** The diagram [draw] builds *)

Section DiagramProperties.
Import Draw.

Variable format_name : string → list Z → string.

(** X15.  [Diagram::width] on a new diagram of [n] qubits builds the
    grid: [2 n + 1] rows of [W] cells, the wire line in the row of every
    qubit and blanks in the rows between them; and on it [to_row] sends
    qubit [q] to row [2 q + 1]. *)
Theorem width_builds_the_grid (n W : Z) :
  0 ≤ n → 2 * n + 1 < 2 ^ 31 → 0 ≤ W →
  ∃ d,
    Diagram_width (Diagram_new n) W = Some d
    ∧ grid n W d
    ∧ (∀ i j, 0 ≤ i < 2 * n + 1 → 0 ≤ j < W →
              cell d i j = Some (initial_cell (Z.to_nat i)))
    ∧ ∀ q, 0 ≤ q < n → to_row d q = 2 * q + 1.
Proof.
  intros Hn Hint HW.
  destruct (Diagram_width_spec n W Hn Hint HW)
    as (d & Hd & Hgrid & Hrows & Hto_row).
  exists d. split_and!; [done..| |done].
  intros i j Hi Hj. by apply (cell_initial n W).
Qed.

(** X23.  A shape is drawn inside its columns: whatever the diagram and
    the shape, when [draw] of the shape returns, every cell of a column
    that is not one of [left_col_ .. right_col_] is what it was, and the
    diagram has kept its size. *)
Theorem a_shape_is_drawn_inside_its_columns (shape : Operator)
    (left_col : Z) (d d' : Diagram) :
  draw_shape left_col (left_col + width shape - 1) shape d = Some d' →
  same_outside left_col (left_col + width shape - 1) d d'.
Proof. apply (draw_shape_frame shape left_col d d'). Qed.

(** X24.  [draw] draws every trace it can place: when every instruction
    has a target, names qubits of the trace only and, if it is named
    [swap], has two targets, the layering, the computation of the
    columns, [Diagram::width] and the drawing of every box run to their
    end, without an exception, a failed assertion or a write outside of
    a row; the diagram is the grid of [2 n + 1] rows, as wide as the
    layers together. *)
Theorem draw_draws_every_placeable_trace (trace : Trace) (prefix_size : Z) :
  instructions trace ≠ [] →
  Forall (placeable (getNumQudits trace)) (instructions trace) →
  Forall (swaps_two format_name) (instructions trace) →
  2 * getNumQudits trace + 1 < 2 ^ 31 →
  0 ≤ prefix_size < max_columns - 1 →
  ∃ s,
    layering format_name trace = Some s
    ∧ (total (layer_width s) < 2 ^ 31 →
       ∃ c d,
         compute_width s prefix_size = Some c
         ∧ draw_diagram format_name trace prefix_size = Some (Drawn c d)
         ∧ grid (getNumQudits trace) (total (layer_width s)) d).
Proof.
  intros Hne Hall Hswaps Hn Hprefix.
  destruct (draw_diagram_spec format_name trace prefix_size
              Hne Hall Hswaps Hn Hprefix) as (s & Hs & Hdraw).
  exists s. split; [done|]. intros HW.
  destruct (Hdraw HW) as (c & d & Hc & Hd & Hgrid & _).
  by exists c, d.
Qed.

(** X25.  The boxes are all that is drawn: in the diagram [draw] has
    built, a cell that is in the rectangle of no instruction, the
    columns of its box in the rows from above its first wire to below
    its last, is the wire line in the row of a qubit and a blank in a
    row between two qubits. *)
Theorem outside_the_boxes_the_wires_run_through (trace : Trace)
    (prefix_size : Z) :
  instructions trace ≠ [] →
  Forall (placeable (getNumQudits trace)) (instructions trace) →
  Forall (swaps_two format_name) (instructions trace) →
  2 * getNumQudits trace + 1 < 2 ^ 31 →
  0 ≤ prefix_size < max_columns - 1 →
  ∃ s,
    layering format_name trace = Some s
    ∧ (total (layer_width s) < 2 ^ 31 →
       ∃ c d,
         draw_diagram format_name trace prefix_size = Some (Drawn c d)
         ∧ ∀ i j,
             0 ≤ i < 2 * getNumQudits trace + 1 →
             0 ≤ j < total (layer_width s) →
             (∀ (k : nat) inst mn mx l r,
                instructions trace !! k = Some inst →
                inst_span inst = Some (mn, mx) →
                cols c !! k = Some (Some (l, r)) →
                ¬ (2 * mn ≤ i ≤ 2 * mx + 2 ∧ l ≤ j ≤ r)) →
             cell d i j = Some (initial_cell (Z.to_nat i))).
Proof.
  intros Hne Hall Hswaps Hn Hprefix.
  destruct (draw_diagram_spec format_name trace prefix_size
              Hne Hall Hswaps Hn Hprefix) as (s & Hs & Hdraw).
  exists s. split; [done|]. intros HW.
  destruct (Hdraw HW) as (c & d & Hc & Hd & Hgrid & Hcells).
  by exists c, d.
Qed.

(** X26.  A swap of one target and no control stops [draw] with an
    exception.  On a placeable trace whose rows and whose layer widths
    fit an [int], whose instruction [k] is named [swap], has a single
    target and no control, and whose swaps before [k] have two targets:
    the layering, the columns and [Diagram::width] run to their end and
    the boxes of the instructions before [k] are drawn; the box of
    instruction [k] is a swap whose [wires_] holds the single target, so
    that [wires_.at(1)] throws [std::out_of_range] before anything of
    the swap is drawn, and [draw] returns no diagram. *)
Theorem a_swap_of_one_target_stops_draw (trace : Trace) (prefix_size : Z)
    (k : nat) (inst : Instruction) :
  Forall (placeable (getNumQudits trace)) (instructions trace) →
  Forall (swaps_two format_name) (take k (instructions trace)) →
  instructions trace !! k = Some inst →
  inst_name format_name inst = "swap"%string →
  length (targets inst) = 1%nat → controls inst = [] →
  2 * getNumQudits trace + 1 < 2 ^ 31 →
  0 ≤ prefix_size < max_columns - 1 →
  ∃ s,
    layering format_name trace = Some s
    ∧ (total (layer_width s) < 2 ^ 31 →
       ∃ c d0 d1 wire l r,
         compute_width s prefix_size = Some c
         ∧ Diagram_width (Diagram_new (getNumQudits trace))
                         (to_int (curr_width c)) = Some d0
         ∧ draw_boxes (take k (boxes s)) (take k (cols c)) d0 = Some d1
         ∧ boxes s !! k = Some (DiagramSwap [wire] 0)
         ∧ cols c !! k = Some (Some (l, r))
         ∧ at_ [wire] 1 = None
         ∧ draw_shape l r (DiagramSwap [wire] 0) d1 = None
         ∧ draw_diagram format_name trace prefix_size = None).
Proof. apply draw_stops_at_a_lone_swap. Qed.

End DiagramProperties.
(** *** The label of a box *)

Section Labels.
Import Draw.

Variables (n W : Z).
Hypothesis Hn : 2 * n + 1 < 2 ^ 31.

(** [std::copy] writes the characters one after the other. *)
Lemma copy_at_content (chars : list Z) :
  ∀ (row : list Z) (start : Z) (row' : list Z),
    0 ≤ start → copy_at row start chars = Some row' →
    ∀ (k : nat) ch,
      chars !! k = Some ch →
      row' !! Z.to_nat (start + Z.of_nat k) = Some ch.
Proof.
  induction chars as [|c chars IH]; intros row start row' Hs Hcopy k ch Hk;
    [done|].
  simpl in Hcopy.
  destruct (set_at row start c) as [row1|] eqn:Hrow1; [|done].
  simpl in Hcopy. destruct k as [|k]; simpl in Hk.
  - injection Hk as <-.
    destruct (copy_at_row (start + 1)
                (start + 1 + Z.of_nat (length chars) - 1)
                chars row1 (start + 1) row') as [_ Hout]; [lia|lia|done|].
    rewrite Z.add_0_r, Hout by lia.
    apply set_at_Some in Hrow1 as [Hi ->].
    apply list_lookup_insert_eq. lia.
  - replace (start + Z.of_nat (S k)) with (start + 1 + Z.of_nat k) by lia.
    by apply (IH row1 (start + 1) row'); [lia|..].
Qed.

Lemma set_row_cell (d : Diagram) (i j : Z) (row' : list Z) (d' : Diagram) :
  grid n W d → 0 ≤ i < 2 * n + 1 → 0 ≤ j < W →
  set_row d i row' = Some d' →
  cell d' i j = row' !! Z.to_nat j.
Proof.
  intros (Hq & Hh & Hw & Hlen & Hrows) Hi Hj. unfold set_row.
  destruct (set_at (rows_ d) i row') as [rows1|] eqn:Hset; [|done].
  simpl. intros [= <-]. apply set_at_Some in Hset as [_ ->].
  unfold cell. simpl. rewrite Hh, Hw.
  destruct (Z.ltb_spec i (2 * n + 1)); [|lia].
  destruct (Z.ltb_spec j W); [|lia]. simpl.
  unfold at_ at 2. destruct (Z.ltb_spec i 0); [lia|].
  rewrite list_lookup_insert_eq by lia. simpl.
  unfold at_. by destruct (Z.ltb_spec j 0); [lia|].
Qed.

(** The body of [draw_label]: the label is in the row [box_mid], from
    the column [start] on. *)
Lemma label_written (label : string) (start box_mid : Z) (d : Diagram) :
  grid n W d → 0 ≤ box_mid < 2 * n + 1 → 0 ≤ start →
  start + Z.of_nat (String.length label) ≤ W →
  ∃ d', (row ← row_ d box_mid;
         row ← copy_at row start (chars_of label);
         set_row d box_mid row) = Some d'
        ∧ ∀ (k : nat) ch,
            chars_of label !! k = Some ch →
            cell d' box_mid (start + Z.of_nat k) = Some ch.
Proof.
  intros Hgrid Hmid Hs HW.
  destruct (row_of_grid n W d box_mid Hgrid Hmid) as (row & -> & Hrow & Hlen).
  cbn [mbind option_bind].
  destruct (copy_at_runs (chars_of label) row start) as [row' Hrow'];
    [done|rewrite length_chars_of; lia|].
  rewrite Hrow'. cbn [mbind option_bind].
  destruct (set_row_draws n W 0 (2 * n) 0 W d box_mid row row')
    as (d' & Hd' & _); [done|lia|lia|done| |].
  { eapply copy_at_row; [| |done]; [done|]. rewrite length_chars_of. lia. }
  exists d'. split; [done|]. intros k ch Hk.
  pose proof (lookup_lt_Some _ _ _ Hk) as Hlt.
  rewrite length_chars_of in Hlt.
  rewrite (set_row_cell d box_mid _ row' d') by (done || lia).
  by apply (copy_at_content (chars_of label) row start row').
Qed.

(** The label is the last thing [draw] writes: it is in the middle row
    of the box, after the left side, and after the mark [>] of a box
    that has controls. *)
Lemma Box_label_written (label : string) (wires : list Z) (nt nc : Z)
    (left_col : Z) (d : Diagram) :
  grid n W d → drawable n (Box label wires nt nc) →
  0 ≤ left_col → left_col + width (Box label wires nt nc) ≤ W →
  ∃ d' top bot,
    draw_shape left_col (left_col + width (Box label wires nt nc) - 1)
               (Box label wires nt nc) d = Some d'
    ∧ min_element wires = Some top ∧ max_element wires = Some bot
    ∧ ∀ (k : nat) ch,
        chars_of label !! k = Some ch →
        cell d' (top + bot + 1)
             (left_col + 1 + (if nc >? 0 then 1 else 0) + Z.of_nat k)
        = Some ch.
Proof using Hn.
  intros Hgrid (Hnt & Hnc & Hlen & Hin) Hl HW.
  simpl in Hnt, Hnc, Hlen, Hin, HW.
  set (l := left_col).
  set (r := l + width (Box label wires nt nc) - 1). simpl in r.
  assert (Forall (λ w, (0 ≤ w < n) ∧ (0 ≤ w ≤ n)) wires) as Hwires.
  { eapply Forall_impl; [exact Hin|]. intros w Hw. simpl in *. lia. }
  assert (l + 1 ≤ r) as Hlr by (unfold r; destruct (nc >? 0); lia).
  assert (r < W) as HrW by (unfold r, l; lia).
  destruct (minmax_element_spec (λ w, (0 ≤ w < n) ∧ (0 ≤ w ≤ n)) wires)
    as (top & bot & Htop & Hbot & [Ht1 _] & [Hb1 _] & Htb); [|done|].
  { intros ->. simpl in Hlen. lia. }
  cbn [draw_shape]. rewrite Htop. cbn [mbind option_bind].
  rewrite Hbot. cbn [mbind option_bind].
  rewrite (set_vertical_positions_grid n W Hn d top bot) by (done || lia).
  destruct (draw_box_draws n W l r (2 * top) (2 * bot + 2) d)
    as (d1 & -> & Hd1 & _); [done|lia..|].
  cbn [mbind option_bind].
  destruct (draw_targets_draws n W Hn l r 0 n Hl Hlr HrW wires nt nc d1)
    as (d2 & -> & Hd2 & _); [done|done|lia|].
  cbn [mbind option_bind].
  destruct (Box_draw_controls_draws n W Hn l r 0 n Hl Hlr HrW wires nt nc d2)
    as (d3 & -> & Hd3 & _); [done|done|lia|lia|lia|].
  cbn [mbind option_bind]. unfold Box_draw_label. cbv zeta.
  destruct (label_written label (l + 1 + (if nc >? 0 then 1 else 0))
              (top + bot + 1) d3) as (d' & Hd' & Hcontent);
    [done|lia| |..].
  { destruct (nc >? 0); lia. }
  { subst r l. destruct (nc >? 0); lia. }
  exists d', top, bot. by split_and!.
Qed.

Lemma ControlledBox_label_written (label : string) (wires : list Z)
    (nt nc : Z) (left_col : Z) (d : Diagram) :
  grid n W d → drawable n (ControlledBox label wires nt nc) →
  0 ≤ left_col → left_col + width (ControlledBox label wires nt nc) ≤ W →
  ∃ d' targets top bot,
    draw_shape left_col
               (left_col + width (ControlledBox label wires nt nc) - 1)
               (ControlledBox label wires nt nc) d = Some d'
    ∧ sub_range wires 0 nt = Some targets
    ∧ min_element targets = Some top ∧ max_element targets = Some bot
    ∧ ∀ (k : nat) ch,
        chars_of label !! k = Some ch →
        cell d' (top + bot + 1) (left_col + 1 + Z.of_nat k) = Some ch.
Proof using Hn.
  intros Hgrid (Hnt & Hnc & Hlen & Hin) Hl HW.
  simpl in Hnt, Hnc, Hlen, Hin, HW.
  set (l := left_col).
  set (r := l + width (ControlledBox label wires nt nc) - 1). simpl in r.
  assert (Forall (λ w, (0 ≤ w < n) ∧ (0 ≤ w ≤ n)) wires) as Hwires.
  { eapply Forall_impl; [exact Hin|]. intros w Hw. simpl in *. lia. }
  assert (l + 1 ≤ r) as Hlr by (unfold r; lia).
  assert (r < W) as HrW by (unfold r, l; lia).
  destruct (sub_range_runs (λ w, (0 ≤ w < n) ∧ (0 ≤ w ≤ n)) wires 0 nt)
    as (targets & Htargets & Hts & Hne); [lia..|done|].
  destruct (minmax_element_spec (λ w, (0 ≤ w < n) ∧ (0 ≤ w ≤ n))
              targets (Hne Hnt) Hts)
    as (top & bot & Htop & Hbot & [Ht1 _] & [Hb1 _] & Htb).
  cbn [draw_shape]. rewrite Htargets. cbn [mbind option_bind].
  rewrite Htop. cbn [mbind option_bind].
  rewrite Hbot. cbn [mbind option_bind].
  rewrite (set_vertical_positions_grid n W Hn d top bot) by (done || lia).
  destruct (draw_box_draws n W l r (2 * top) (2 * bot + 2) d)
    as (d1 & -> & Hd1 & _); [done|lia..|].
  cbn [mbind option_bind].
  destruct (draw_targets_draws n W Hn l r 0 n Hl Hlr HrW wires nt nc d1)
    as (d2 & -> & Hd2 & _); [done|done|lia|].
  cbn [mbind option_bind].
  destruct (ControlledBox_draw_controls_draws n W Hn l r 0 n Hl Hlr HrW
              wires nt nc (2 * top) (2 * bot + 2) d2)
    as (d3 & -> & Hd3 & _); [done|done|lia..|].
  cbn [mbind option_bind]. unfold ControlledBox_draw_label.
  destruct (label_written label (l + 1) (top + bot + 1) d3)
    as (d' & Hd' & Hcontent); [done|lia|lia|subst r l; lia|].
  exists d', targets, top, bot. by split_and!.
Qed.

End Labels.
(** *** The printed text *)

Section Rendering.
Import Draw.

Variable format_name : string → list Z → string.

Lemma decimal_length (fuel : nat) :
  ∀ i, (length (decimal fuel i) ≤ fuel)%nat.
Proof.
  induction fuel as [|fuel IH]; intros i; simpl; [done|].
  rewrite length_app. simpl. destruct (i <? 10); simpl; [lia|].
  specialize (IH (i / 10)). lia.
Qed.

Lemma wire_label_length (i : Z) : (5 ≤ length (wire_label i) ≤ 14)%nat.
Proof.
  pose proof (decimal_length 10 i) as Hle.
  assert (1 ≤ length (decimal 10 i))%nat as Hge.
  { change (decimal 10 i)
      with ((if i <? 10 then [] else decimal 9 (i / 10)) ++ [48 + i mod 10]).
    rewrite length_app. simpl. lia. }
  unfold wire_label. rewrite !length_app. cbn [length]. lia.
Qed.

Lemma to_row_qubit (n : Z) (d : Diagram) (q : Z) :
  2 * n + 1 < 2 ^ 31 → num_qubits_ d = n → 0 ≤ q < n →
  to_row d (to_int q) = 2 * q + 1.
Proof.
  intros Hn Hq Hin.
  assert (to_int q = q) as ->
    by (unfold to_int; rewrite Z.mod_small; lia).
  unfold to_row. rewrite Hq.
  destruct (Z.ltb_spec q n); [|lia].
  unfold to_int, to_unsigned_int.
  rewrite (Z.mod_small q) by lia.
  rewrite (Z.mod_small (2 * q + 1)) by lia.
  rewrite Z.mod_small by lia. lia.
Qed.

(** The loop over the qudits, from qudit [a] on. *)
Lemma wire_labels_loop (n : Z) (d : Diagram) (len : nat) :
  2 * n + 1 < 2 ^ 31 → num_qubits_ d = n →
  ∀ (a : Z) (prefix : list (list Z)) (size : Z),
    0 ≤ a → a + Z.of_nat len ≤ n →
    length prefix = Z.to_nat (2 * n + 1) →
    ∃ prefix' size',
      for_each (fun (st : list (list Z) * Z) i =>
                  let row := to_row d (to_int i) in
                  let label := wire_label i in
                  prefix ← set_at st.1 row label;
                  Some (prefix, Z.max st.2 (Z.of_nat (length label))))
               (prefix, size) (seqZ a (Z.of_nat len))
      = Some (prefix', size')
      ∧ length prefix' = length prefix
      ∧ size ≤ size' ≤ Z.max size 14
      ∧ (∀ i, a ≤ i < a + Z.of_nat len →
              prefix' !! Z.to_nat (2 * i + 1) = Some (wire_label i)
              ∧ Z.of_nat (length (wire_label i)) ≤ size')
      ∧ ∀ (k : nat),
          ¬ (∃ i, a ≤ i < a + Z.of_nat len ∧ k = Z.to_nat (2 * i + 1)) →
          prefix' !! k = prefix !! k.
Proof.
  intros Hn Hq. induction len as [|len IH]; intros a prefix size Ha Hlen Hp.
  - exists prefix, size. split_and!; try done; try lia.
  - rewrite seqZ_succ. cbn [for_each]. cbv zeta. cbn [fst snd].
    rewrite (to_row_qubit n d a Hn Hq) by lia.
    destruct (set_at_runs prefix (2 * a + 1) (wire_label a))
      as (prefix1 & Hset & Hlen1); [lia|].
    rewrite Hset. cbn [mbind option_bind].
    apply set_at_Some in Hset as [_ ->].
    pose proof (wire_label_length a) as Hla.
    destruct (IH (a + 1) (<[Z.to_nat (2 * a + 1) := wire_label a]> prefix)
                (Z.max size (Z.of_nat (length (wire_label a)))))
      as (prefix' & size' & Hrun & Hlen' & Hsize & Hlabels & Hother);
      [lia|lia|by rewrite length_insert|].
    exists prefix', size'. split_and!; [done| |lia|lia| |].
    + by rewrite Hlen', length_insert.
    + intros i Hi. destruct (decide (i = a)) as [->|Hne].
      * split; [|lia]. rewrite Hother.
        -- apply list_lookup_insert_eq. lia.
        -- intros (i & Hi' & Heq). lia.
      * apply Hlabels. lia.
    + intros k Hk. rewrite Hother.
      * apply list_lookup_insert_ne. intros <-. apply Hk. exists a. lia.
      * intros (i & Hi & ->). apply Hk. exists i. lia.
Qed.

(** The labels of the wires: [prefix] has an entry per row, the label of
    qudit [i] in row [2 i + 1] and the empty string elsewhere, and
    [prefix_size] is the length of the longest label. *)
Lemma wire_labels_spec (n : Z) :
  0 ≤ n → 2 * n + 1 < 2 ^ 31 →
  ∃ prefix prefix_size,
    wire_labels (Diagram_new n) n = Some (prefix, prefix_size)
    ∧ length prefix = Z.to_nat (2 * n + 1)
    ∧ 0 ≤ prefix_size ≤ 14
    ∧ (∀ i, 0 ≤ i < n →
            prefix !! Z.to_nat (2 * i + 1) = Some (wire_label i))
    ∧ (∀ k : nat, (k < Z.to_nat (2 * n + 1))%nat → Nat.even k = true →
                  prefix !! k = Some [])
    ∧ Forall (λ p, Z.of_nat (length p) ≤ prefix_size) prefix.
Proof.
  intros Hn0 Hn. unfold wire_labels. simpl height_.
  destruct (Z.ltb_spec (2 * n + 1) 0); [lia|].
  destruct (wire_labels_loop n (Diagram_new n) (Z.to_nat n) Hn eq_refl 0
              (replicate (Z.to_nat (2 * n + 1)) []) 0)
    as (prefix & size & Hrun & Hlen & Hsize & Hlabels & Hother);
    [lia|lia|by rewrite length_replicate|].
  rewrite Z2Nat.id in Hrun, Hlabels, Hother by done.
  cbv zeta in Hrun. unfold upto. rewrite Z.sub_0_r, Hrun.
  rewrite length_replicate in Hlen.
  exists prefix, size. split_and!; [done|done|lia|lia| | |].
  - intros i Hi. by apply Hlabels.
  - intros k Hk Heven. rewrite Hother; [by apply lookup_replicate_2|].
    intros (i & Hi & ->).
    replace (Z.to_nat (2 * i + 1)) with (S (2 * Z.to_nat i)) in Heven by lia.
    rewrite Nat.even_succ, <- Nat.negb_even in Heven.
    assert (Nat.even (2 * Z.to_nat i) = true) as He
      by (apply Nat.even_spec; by exists (Z.to_nat i)).
    by rewrite He in Heven.
  - apply Forall_lookup_2. intros k p Hp.
    destruct (Nat.even k) eqn:Heven.
    + rewrite Hother in Hp.
      * apply lookup_replicate in Hp as [-> _]. simpl. lia.
      * intros (i & Hi & ->).
        replace (Z.to_nat (2 * i + 1)) with (S (2 * Z.to_nat i))
          in Heven by lia.
        rewrite Nat.even_succ, <- Nat.negb_even in Heven.
        assert (Nat.even (2 * Z.to_nat i) = true) as He
          by (apply Nat.even_spec; by exists (Z.to_nat i)).
        by rewrite He in Heven.
    + apply lookup_lt_Some in Hp as Hk. rewrite Hlen in Hk.
      assert (∃ i, 0 ≤ i < n ∧ k = Z.to_nat (2 * i + 1)) as (i & Hi & ->).
      { rewrite <- Nat.negb_odd in Heven. apply negb_false_iff in Heven.
        apply Nat.odd_spec in Heven as [m ->].
        exists (Z.of_nat m). lia. }
      destruct (Hlabels i Hi) as [Hl Hle]. rewrite Hl in Hp.
      by injection Hp as <-.
Qed.

Section Chunks.

Variables (n W : Z) (d : Diagram) (prefix : list (list Z)) (prefix_size : Z).
Hypothesis Hgrid : grid n W d.
Hypothesis Hprefix : length prefix = Z.to_nat (2 * n + 1).

(** One row of a chunk whose two ends are columns of the diagram. *)
Lemma render_line_spec (i : nat) (last_chunk : bool) (start cut : Z)
    (str : list Z) (row : Z) :
  0 ≤ row < 2 * n + 1 → 0 ≤ start → start ≤ cut → cut ≤ W →
  ∃ r p,
    rows_ d !! Z.to_nat row = Some r ∧ prefix !! Z.to_nat row = Some p
    ∧ render_line prefix prefix_size d i last_chunk start cut str row
      = Some (str
              ++ (match i with O => pad_left p prefix_size | S _ => [] end)
              ++ render_chars (take (Z.to_nat (cut - start))
                                    (drop (Z.to_nat start) r))
              ++ (if last_chunk then [] else [194; 187]) ++ [10]).
Proof using All.
  intros Hrow Hs Hsc Hc.
  destruct (row_of_grid n W d row Hgrid Hrow) as (r & Hr_ & Hr & Hlen).
  destruct (at_in_range prefix row) as [p Hp]; [lia|].
  exists r, p. apply at_Some in Hr as [_ Hr]. split; [done|].
  split; [by apply at_Some in Hp as [_ Hp]|].
  unfold render_line. rewrite Hr_. cbn [mbind option_bind].
  unfold sub_range.
  destruct (Z.leb_spec 0 start); [|lia].
  destruct (Z.leb_spec 0 (cut - start)); [|lia].
  destruct (Z.leb_spec (start + (cut - start)) (Z.of_nat (length r)));
    [|lia].
  cbn [andb mbind option_bind].
  destruct i; [rewrite Hp|]; done.
Qed.

Lemma render_rows_runs (i : nat) (last_chunk : bool) (start cut : Z)
    (str : list Z) :
  0 ≤ start → start ≤ cut → cut ≤ W →
  ∃ str',
    for_each (render_line prefix prefix_size d i last_chunk start cut)
             str (upto 0 (height_ d))
    = Some str'.
Proof using All.
  intros Hs Hsc Hc.
  destruct (for_each_runs (λ _, True)
              (render_line prefix prefix_size d i last_chunk start cut)
              (upto 0 (height_ d))) with (b := str) as (str' & Hstr' & _);
    [|done|by exists str'].
  intros b row Hrow%elem_of_upto _.
  destruct Hgrid as (_ & Hh & _). rewrite Hh in Hrow.
  destruct (render_line_spec i last_chunk start cut b row)
    as (r & p & _ & _ & Hline); [lia..|].
  by eexists.
Qed.

(** The loop over the chunks runs to its end when the cutting points are
    columns of the diagram, in increasing order. *)
Lemma render_chunks_runs (cuts : list Z) :
  ∀ (i : nat) (start : Z) (str : list Z),
    0 ≤ start → StronglySorted Z.le (start :: cuts) →
    Forall (λ c, c ≤ W) cuts →
    ∃ str', render_chunks prefix prefix_size d cuts i start str = Some str'.
Proof using All.
  induction cuts as [|cut cuts IH]; intros i start str Hs Hsorted Hle.
  - by exists str.
  - cbn [render_chunks]. cbv zeta.
    apply StronglySorted_inv in Hsorted as [Hsorted Hall].
    apply Forall_cons in Hall as [Hsc _].
    apply Forall_cons in Hle as [Hc Hle].
    destruct (render_rows_runs i (match cuts with [] => true | _ => false end)
                start cut (match i with O => str | S _ => str ++ separator end))
      as [str1 ->]; [done..|].
    cbn [mbind option_bind]. apply IH; [lia|done|done].
Qed.

(** The rows of a diagram that is printed in one chunk, from row [a]
    on. *)
Lemma render_rows_one_chunk (len : nat) :
  ∀ (a : Z) (str : list Z),
    0 ≤ W → 0 ≤ a → a + Z.of_nat len ≤ 2 * n + 1 →
    for_each (render_line prefix prefix_size d 0 true 0 W) str
             (seqZ a (Z.of_nat len))
    = Some (str
            ++ concat (zip_with (λ p r, pad_left p prefix_size
                                        ++ render_chars r ++ [10])
                                (take len (drop (Z.to_nat a) prefix))
                                (take len (drop (Z.to_nat a) (rows_ d))))).
Proof using All.
  induction len as [|len IH]; intros a str HW Ha Hlen.
  - simpl. by rewrite app_nil_r.
  - rewrite seqZ_succ. cbn [for_each].
    destruct (render_line_spec 0 true 0 W str a)
      as (r & p & Hr & Hp & ->); [lia..|].
    cbn [mbind option_bind]. rewrite IH by lia.
    assert (length r = Z.to_nat W) as Hlenr.
    { destruct Hgrid as (_ & _ & _ & _ & Hrows).
      by apply (Forall_lookup_1 _ _ _ _ Hrows Hr). }
    rewrite Z.sub_0_r. change (Z.to_nat 0) with 0%nat. rewrite drop_0.
    rewrite take_ge by lia.
    rewrite (drop_S _ _ _ Hp), (drop_S _ _ _ Hr).
    replace (Z.to_nat (a + 1)) with (S (Z.to_nat a)) by lia.
    cbn [take zip_with concat]. rewrite <- !app_assoc. done.
Qed.

End Chunks.

Lemma layering_columns_no_cut (trace : Trace) (prefix_size : Z)
    (s : Layering) (c : Columns) :
  layering_inv (getNumQudits trace) (instructions trace) s →
  layering_inv2 format_name (instructions trace) s →
  total (layer_width s) < 2 ^ 31 →
  0 ≤ prefix_size < max_columns - 1 →
  prefix_size + total (layer_width s) < max_columns - 1 →
  compute_width s prefix_size = Some c →
  cutting_point c = [to_int (curr_width c)].
Proof.
  intros Hinv Hinv2 HW Hprefix.
  apply compute_width_no_cut; [| | | | |done..].
  - intros L k (i & ? & ? & Hd & _)%(inv_members _ _ _ Hinv).
    rewrite (inv2_boxes _ _ _ Hinv2), (inv_ref _ _ _ Hinv).
    by apply lookup_lt_Some in Hd.
  - apply (inv2_unique _ _ _ Hinv2).
  - intros L k b w Hk Hb Hw.
    destruct (inv2_width_ge _ _ _ Hinv2 _ k b Hk Hb) as (w' & Hw' & Hle).
    apply at_Some in Hw' as [_ Hw']. rewrite Nat2Z.id, Hw in Hw'.
    injection Hw' as <-. pose proof (width_pos b). lia.
  - apply (inv_widths _ _ _ Hinv).
  - apply Forall_lookup_2. intros L w Hw.
    destruct (inv2_width_max _ _ _ Hinv2 (Z.of_nat L) w)
      as (k & b & _ & _ & <-).
    { apply at_Some. rewrite Nat2Z.id. split; [lia|done]. }
    pose proof (width_pos b). lia.
Qed.

Lemma placeable_qudits (trace : Trace) :
  instructions trace ≠ [] →
  Forall (placeable (getNumQudits trace)) (instructions trace) →
  0 < getNumQudits trace.
Proof.
  intros Hne Hall.
  destruct (instructions trace) as [|inst insts]; [done|].
  apply Forall_cons in Hall as [[Hts Hin] _].
  destruct (targets inst) as [|t ts] eqn:Ht; [done|].
  assert (0 ≤ id t < getNumQudits trace); [|lia].
  apply Hin. unfold inst_ids, convertToIDs. rewrite Ht. simpl. left.
Qed.

(** [draw] on a trace of placeable instructions: the labels, the diagram
    and the text. *)
Lemma draw_spec (trace : Trace) :
  instructions trace ≠ [] →
  Forall (placeable (getNumQudits trace)) (instructions trace) →
  Forall (swaps_two format_name) (instructions trace) →
  2 * getNumQudits trace + 1 < 2 ^ 31 →
  ∃ prefix prefix_size s,
    wire_labels (Diagram_new (getNumQudits trace)) (getNumQudits trace)
    = Some (prefix, prefix_size)
    ∧ 0 ≤ prefix_size ≤ 14
    ∧ layering format_name trace = Some s
    ∧ (total (layer_width s) < 2 ^ 31 →
       ∃ c d str,
         draw_diagram format_name trace prefix_size = Some (Drawn c d)
         ∧ draw format_name trace = Some str
         ∧ (prefix_size + total (layer_width s) < max_columns - 1 →
            str = concat (zip_with (λ p r, pad_left p prefix_size
                                           ++ render_chars r ++ [10])
                                   prefix (rows_ d)))).
Proof.
  intros Hne Hall Hswaps Hn.
  pose proof (placeable_qudits trace Hne Hall) as Hnq.
  set (nq := getNumQudits trace) in *.
  destruct (wire_labels_spec nq)
    as (prefix & size & Hlabels & Hplen & Hsize & _);
    [lia|done|].
  assert (0 ≤ size < max_columns - 1) as Hprefix
    by (unfold max_columns; lia).
  destruct (draw_diagram_spec format_name trace size
              Hne Hall Hswaps Hn Hprefix) as (s & Hs & Hdraw).
  exists prefix, size, s. split_and!; [done|lia|lia|done|]. intros HW.
  destruct (Hdraw HW) as (c & d & Hc & Hd & Hgrid & _).
  destruct (layering_spec2 format_name trace Hall)
    as (s' & Hs' & Hinv & Hinv2).
  rewrite Hs in Hs'. injection Hs' as <-.
  destruct (layering_columns_spec format_name trace size s
              Hinv Hinv2 HW Hprefix)
    as (c' & Hc' & Hcurr & _ & _ & Hsorted & Hlast & Hcuts & _).
  rewrite Hc in Hc'. injection Hc' as <-.
  set (Wd := total (layer_width s)) in *.
  assert (Forall (λ w, 0 ≤ w) (layer_width s)) as Hpos.
  { apply Forall_lookup_2. intros L w Hw.
    destruct (inv2_width_max _ _ _ Hinv2 (Z.of_nat L) w)
      as (k & b & _ & _ & <-).
    { apply at_Some. rewrite Nat2Z.id. split; [lia|done]. }
    pose proof (width_pos b). lia. }
  assert (0 ≤ Wd) as HWd by (by apply total_nonneg).
  destruct (render_chunks_runs nq Wd d prefix size Hgrid Hplen
              (cutting_point c) 0 0 []) as [str Hstr]; [lia| |  |].
  { apply SSorted_cons; [done|]. apply Forall_forall.
    intros x Hx. destruct (Hcuts x Hx) as [L ->].
    by apply band_start_bounds. }
  { apply Forall_forall. intros x Hx.
    by apply (sorted_last_ge (cutting_point c)). }
  assert (draw format_name trace
          = render_chunks prefix size d (cutting_point c) 0 0 []) as Heq.
  { unfold draw. destruct (instructions trace) as [|inst0 insts0]; [done|].
    fold nq. rewrite Hlabels. cbn [mbind option_bind]. by rewrite Hd. }
  exists c, d, str. split_and!; [done|by rewrite Heq|].
  intros Hfit. subst nq.
  rewrite (layering_columns_no_cut trace size s c Hinv Hinv2 HW Hprefix
             Hfit Hc) in Hstr.
  assert (to_int (curr_width c) = Wd) as Hint.
  { rewrite Hcurr. unfold to_int. rewrite Z.mod_small by lia. lia. }
  rewrite Hint in Hstr. cbn [render_chunks] in Hstr.
  pose proof Hgrid as (Hq & Hh & Hw & Hrlen & Hrows).
  unfold upto in Hstr. rewrite Hh, Z.sub_0_r in Hstr.
  rewrite <- (Z2Nat.id (2 * getNumQudits trace + 1)) in Hstr by lia.
  rewrite (render_rows_one_chunk (getNumQudits trace) Wd d prefix size
             Hgrid Hplen) in Hstr by lia.
  cbn [mbind option_bind app] in Hstr. injection Hstr as <-.
  change (Z.to_nat 0) with 0%nat. rewrite !drop_0.
  rewrite <- Hplen at 1. rewrite <- Hrlen. by rewrite !firstn_all.
Qed.

End Rendering.

(** *** The labels and the text [draw] returns *)

Section TextProperties.
Import Draw.

Variable format_name : string → list Z → string.

(** X27.  The label is the last thing the [draw] of a box writes, so it
    is whole in the diagram.  On the grid, for a drawable shape whose
    columns are columns of the grid: the [draw] of a [Box] returns, and
    the characters of its label are in the middle row of the box, the
    row [top + bot + 1] with [top] and [bot] its least and greatest
    wire, from the column after the left side on, or after the mark [>]
    when the box has controls; the [draw] of a [ControlledBox] returns,
    and the characters of its label are in the row [top + bot + 1] with
    [top] and [bot] its least and greatest target, from the column after
    the left side on. *)
Theorem the_label_is_in_the_middle_row (n W : Z) (label : string)
    (wires : list Z) (nt nc left_col : Z) (d : Diagram) :
  2 * n + 1 < 2 ^ 31 → grid n W d → 0 ≤ left_col →
  (drawable n (Box label wires nt nc) →
   left_col + width (Box label wires nt nc) ≤ W →
   ∃ d' top bot,
     draw_shape left_col (left_col + width (Box label wires nt nc) - 1)
                (Box label wires nt nc) d = Some d'
     ∧ min_element wires = Some top ∧ max_element wires = Some bot
     ∧ ∀ (k : nat) ch,
         chars_of label !! k = Some ch →
         cell d' (top + bot + 1)
              (left_col + 1 + (if nc >? 0 then 1 else 0) + Z.of_nat k)
         = Some ch)
  ∧ (drawable n (ControlledBox label wires nt nc) →
     left_col + width (ControlledBox label wires nt nc) ≤ W →
     ∃ d' targets top bot,
       draw_shape left_col
                  (left_col + width (ControlledBox label wires nt nc) - 1)
                  (ControlledBox label wires nt nc) d = Some d'
       ∧ sub_range wires 0 nt = Some targets
       ∧ min_element targets = Some top ∧ max_element targets = Some bot
       ∧ ∀ (k : nat) ch,
           chars_of label !! k = Some ch →
           cell d' (top + bot + 1) (left_col + 1 + Z.of_nat k) = Some ch).
Proof.
  intros Hn Hgrid Hl. split; intros Hshape HW.
  - by apply (Box_label_written n W Hn).
  - by apply (ControlledBox_label_written n W Hn).
Qed.

(** X28.  [draw] returns a text for every trace it can place: when the
    trace is not empty and every instruction has a target, names qudits
    of the trace only and, if it is named [swap], has two targets, the
    labels of the wires are written in [prefix], the diagram is built,
    and the loop over the chunks of the diagram reads every row between
    two columns of the diagram, in increasing order. *)
Theorem draw_returns_a_text (trace : Trace) :
  instructions trace ≠ [] →
  Forall (placeable (getNumQudits trace)) (instructions trace) →
  Forall (swaps_two format_name) (instructions trace) →
  2 * getNumQudits trace + 1 < 2 ^ 31 →
  ∃ s,
    layering format_name trace = Some s
    ∧ (total (layer_width s) < 2 ^ 31 →
       ∃ str, draw format_name trace = Some str).
Proof.
  intros Hne Hall Hswaps Hn.
  destruct (draw_spec format_name trace Hne Hall Hswaps Hn)
    as (prefix & size & s & _ & _ & Hs & Hdraw).
  exists s. split; [done|]. intros HW.
  destruct (Hdraw HW) as (c & d & str & _ & Hstr & _). by exists str.
Qed.

(** X29.  A diagram that fits in the page is printed in one piece: when
    the width of the labels and the widths of the layers are together
    less than [max_columns - 1], the text is the rows of the diagram
    from the first to the last, each one the label of its wire
    (nothing for a row between two wires) after the blanks that bring
    it to the width of the longest label, then the cells of the row
    rendered, then a line feed; there is no separator and no mark of a
    cut. *)
Theorem a_narrow_diagram_is_printed_in_one_piece (trace : Trace) :
  instructions trace ≠ [] →
  Forall (placeable (getNumQudits trace)) (instructions trace) →
  Forall (swaps_two format_name) (instructions trace) →
  2 * getNumQudits trace + 1 < 2 ^ 31 →
  ∃ prefix prefix_size s,
    wire_labels (Diagram_new (getNumQudits trace)) (getNumQudits trace)
    = Some (prefix, prefix_size)
    ∧ layering format_name trace = Some s
    ∧ (prefix_size + total (layer_width s) < max_columns - 1 →
       ∃ c d,
         draw_diagram format_name trace prefix_size = Some (Drawn c d)
         ∧ draw format_name trace
           = Some (concat (zip_with (λ p r, pad_left p prefix_size
                                            ++ render_chars r ++ [10])
                                    prefix (rows_ d)))).
Proof.
  intros Hne Hall Hswaps Hn.
  destruct (draw_spec format_name trace Hne Hall Hswaps Hn)
    as (prefix & size & s & Hlabels & Hsize & Hs & Hdraw).
  exists prefix, size, s. split_and!; [done..|]. intros Hfit.
  destruct Hdraw as (c & d & str & Hd & Hstr & Hone);
    [unfold max_columns in Hfit; lia|].
  exists c, d. split; [done|]. by rewrite Hstr, (Hone Hfit).
Qed.

(** X30.  The labels of the wires.  For a diagram of [n] qudits the loop
    over the qudits runs to its end; [prefix] has one entry per row of
    the diagram, the label [q<i> : ] of qudit [i] in row [2 i + 1] and
    the empty string in the rows between the wires; and [prefix_size],
    at most 14, is at least the length of every entry. *)
Theorem the_wire_labels_are_in_the_rows_of_the_wires (n : Z) :
  0 ≤ n → 2 * n + 1 < 2 ^ 31 →
  ∃ prefix prefix_size,
    wire_labels (Diagram_new n) n = Some (prefix, prefix_size)
    ∧ length prefix = Z.to_nat (2 * n + 1)
    ∧ 0 ≤ prefix_size ≤ 14
    ∧ (∀ i, 0 ≤ i < n →
            prefix !! Z.to_nat (2 * i + 1) = Some (wire_label i))
    ∧ (∀ k : nat, (k < Z.to_nat (2 * n + 1))%nat → Nat.even k = true →
                  prefix !! k = Some [])
    ∧ Forall (λ p, Z.of_nat (length p) ≤ prefix_size) prefix.
Proof. apply wire_labels_spec. Qed.

End TextProperties.

(** *** The converter and the host memory *)

Section HostMemory.
Import ArgConv.
Variable target : Target.

Ltac run_bind H :=
  let a := fresh "a" in
  let w := fresh "w" in
  let H1 := fresh H in
  apply bind_Ok in H as (a & w & H1 & H).

Lemma keeps_ret {A} (a : A) : keeps_heap (ret a).
Proof. by intros w a' w' [= <- <-]. Qed.

Lemma keeps_fatal {A} (e : Error) : keeps_heap (@fatal A e).
Proof. by intros w a w' ?. Qed.

Lemma keeps_gets {A} (f : World → A) : keeps_heap (gets f).
Proof. by intros w a w' [= <- <-]. Qed.

Lemma keeps_assert (c : bool) (what : string) : keeps_heap (assert c what).
Proof. destruct c; [apply keeps_ret|apply keeps_fatal]. Qed.

Lemma keeps_bind {A B} (m : M A) (k : A → M B) :
  keeps_heap m → (∀ a, keeps_heap (k a)) → keeps_heap (bind m k).
Proof.
  intros Hm Hk w b w' Hrun. run_bind Hrun.
  destruct (Hm _ _ _ Hrun0) as [? ?]. destruct (Hk _ _ _ _ Hrun) as [? ?].
  split; congruence.
Qed.

Lemma keeps_create (new : Operation) : keeps_heap (create new).
Proof.
  intros w v w' Hrun. unfold create in Hrun.
  destruct (block_at _ _); [|done]. destruct (append_at _ _ _); [|done].
  by injection Hrun as <- <-.
Qed.

Lemma keeps_setInsertionPointToEnd (p : InsertionPoint) :
  keeps_heap (setInsertionPointToEnd p).
Proof. by intros w a w' [= <- <-]. Qed.

Create HintDb keeps.

#[local] Hint Resolve keeps_ret keeps_fatal keeps_gets keeps_assert
  keeps_create keeps_setInsertionPointToEnd : keeps.

Ltac keeps :=
  repeat first
    [ apply keeps_bind; [|intros ?]
    | solve [eauto with keeps] ].

Lemma keeps_load_bool p : keeps_heap (load_bool p).
Proof. apply keeps_gets. Qed.
Lemma keeps_load_int bits p : keeps_heap (load_int bits p).
Proof. apply keeps_gets. Qed.
Lemma keeps_load_bits n p : keeps_heap (load_bits n p).
Proof. apply keeps_gets. Qed.

#[local] Hint Resolve keeps_load_bool keeps_load_int keeps_load_bits : keeps.

Lemma keeps_genCStringLiteralAppendNul S cstring :
  keeps_heap (genCStringLiteralAppendNul target S cstring).
Proof.
  intros w g w' Hrun. unfold genCStringLiteralAppendNul in Hrun.
  destruct (modules w !! S) as [md|]; [|done].
  destruct (find_literal _ _); by injection Hrun as <- <-.
Qed.

Lemma keeps_genConstant_string v S :
  keeps_heap (genConstant_string target v S).
Proof.
  unfold genConstant_string.
  apply keeps_bind; [apply keeps_genCStringLiteralAppendNul|intros ?]. keeps.
Qed.

Lemma keeps_dispatch_ComplexType elementType p S layout platform :
  keeps_heap (dispatch_ComplexType elementType p S layout platform).
Proof.
  unfold dispatch_ComplexType, genConstant_complex_float,
    genConstant_complex_double, genComplexConstant.
  destruct elementType; keeps.
Qed.

Lemma keeps_array_loop recur arrTy eleSize S layout platform n :
  keeps_emitter platform recur →
  ∀ i cursor aggie,
    keeps_heap (array_loop recur arrTy eleSize S layout platform n i cursor
                           aggie).
Proof.
  intros Hrecur. induction n as [|n IH]; intros i cursor aggie; simpl.
  - keeps.
  - apply keeps_bind; [apply Hrecur|intros v].
    apply keeps_bind; [destruct v; keeps|intros ?]. apply IH.
Qed.

Lemma keeps_stdvec_loop recur elePtrTy buffer eleSize S layout platform n :
  keeps_emitter platform recur →
  ∀ i cursor,
    keeps_heap (stdvec_loop recur elePtrTy buffer eleSize S layout platform
                            n i cursor).
Proof.
  intros Hrecur. induction n as [|n IH]; intros i cursor; simpl.
  - keeps.
  - apply keeps_bind; [apply Hrecur|intros v].
    apply keeps_bind; [destruct v; keeps|intros ?]. apply IH.
Qed.

Lemma keeps_struct_loop strTy cursor S layout platform recur :
  Forall (keeps_emitter platform) recur →
  ∀ i aggie,
    keeps_heap (struct_loop target strTy cursor S layout platform recur i
                            aggie).
Proof.
  induction 1 as [|member recur Hmember _ IH]; intros i aggie; simpl.
  - keeps.
  - apply keeps_bind; [apply Hmember|intros v].
    apply keeps_bind; [destruct v; keeps|intros ?]. apply IH.
Qed.

Lemma keeps_tuple_loop fwdTy revCon n members :
  ∀ i aggie, keeps_heap (tuple_loop fwdTy revCon n members i aggie).
Proof.
  induction members as [|ty members IH]; intros i aggie; simpl.
  - keeps.
  - apply keeps_bind; [keeps|intros ?].
    apply keeps_bind; [keeps|intros ?]. apply IH.
Qed.

Lemma keeps_genArray platform recur eleTy size :
  keeps_emitter platform recur →
  keeps_emitter platform (genArray target recur eleTy size).
Proof.
  intros Hrecur p S layout. unfold genArray. destruct size; [|keeps].
  apply keeps_bind; [keeps|intros ?]. by apply keeps_array_loop.
Qed.

Lemma keeps_genStdvec platform recur eleTy :
  keeps_emitter platform recur →
  keeps_emitter platform (genStdvec target recur eleTy).
Proof.
  intros Hrecur p S layout. unfold genStdvec.
  apply keeps_bind; [keeps|intros begin].
  apply keeps_bind; [keeps|intros end_].
  destruct (_ =? 0); [keeps|].
  apply keeps_bind; [keeps|intros ?].
  apply keeps_bind; [keeps|intros ?].
  apply keeps_bind; [by apply keeps_stdvec_loop|intros ?]. keeps.
Qed.

Lemma keeps_genStruct platform recur members :
  Forall (keeps_emitter platform) recur →
  keeps_emitter platform (genStruct target recur members).
Proof.
  intros Hrecur p S layout. unfold genStruct. destruct members; [keeps|].
  apply keeps_bind; [keeps|intros ?]. by apply keeps_struct_loop.
Qed.

Lemma keeps_genTuple platform revWalk types :
  keeps_emitter platform revWalk →
  keeps_emitter platform (genTuple revWalk types).
Proof.
  intros Hrev p S layout. unfold genTuple. destruct types; [keeps|].
  apply keeps_bind; [apply Hrev|intros ?].
  apply keeps_bind; [keeps|intros ?]. apply keeps_tuple_loop.
Qed.

(** Off a remote simulator the state emitter does not read the state. *)
Lemma keeps_genConstant_state platform :
  isSimulator platform && isRemote platform = false →
  keeps_emitter platform (genConstant_state target).
Proof.
  intros Hlocal p S layout. unfold genConstant_state. rewrite Hlocal.
  destruct (isSimulator platform && negb (isRemote platform)); [keeps|].
  unfold TODO. keeps.
Qed.

Lemma keeps_dispatchSubtype platform (ty : Ty) :
  isSimulator platform && isRemote platform = false →
  keeps_emitter platform (dispatchSubtype target ty).
Proof.
  intros Hlocal.
  induction ty as [w| | |w|e _| | |e _|e IHe|ms IHms|e n IHe|ts IHts|s]
    using Ty_nested_ind; simpl.
  - intros p S layout.
    unfold genConstant_bool, genConstant_char, genConstant_int16,
      genConstant_int32, genConstant_int64, genIntegerConstant.
    repeat (destruct (_ =? _); [keeps|]). keeps.
  - intros p S layout. unfold genConstant_float. keeps.
  - intros p S layout. unfold genConstant_double. keeps.
  - intros p S layout. unfold genConstant_long_double. keeps.
  - intros p S layout. apply keeps_dispatch_ComplexType.
  - intros p S layout. apply keeps_genConstant_string.
  - intros p S layout. keeps.
  - destruct e; try (intros p S layout; keeps).
    by apply keeps_genConstant_state.
  - by apply keeps_genStdvec.
  - apply keeps_genStruct. by apply Forall_fmap.
  - by apply keeps_genArray.
  - apply keeps_genTuple, keeps_genStruct. by apply Forall_rev, Forall_fmap.
  - intros p S layout. keeps.
Qed.

Lemma keeps_open_substitution (self : ArgumentConverter) (i : Z) :
  keeps_heap (open_substitution self i).
Proof.
  unfold open_substitution.
  apply keeps_bind; [keeps|intros ?].
  apply keeps_bind; [keeps|intros [r|]]; [|keeps].
  intros w0 r0 w' Hrun.
  destruct (push_back_block _ _ _) as [[ms b]|]; [|done].
  by injection Hrun as <- <-.
Qed.

Lemma keeps_buildSubst (self : ArgumentConverter) (i : Z) (e : M Value) :
  keeps_heap e → keeps_heap (buildSubst self i e).
Proof.
  intros He. unfold buildSubst.
  apply keeps_bind; [apply keeps_open_substitution|intros ?].
  apply keeps_bind; [done|intros ?]. keeps.
Qed.

Lemma keeps_gen_switch (self : ArgumentConverter) (i : Z) (argTy : Ty)
    (argPtr : Z) (dataLayout : string) :
  isSimulator (platform self) && isRemote (platform self) = false →
  keeps_heap (gen_switch target self i argTy argPtr dataLayout).
Proof.
  intros Hlocal.
  pose proof (λ ty, keeps_dispatchSubtype (platform self) ty Hlocal) as Hd.
  destruct argTy as [w| | |w|e| | |e|e|ms|e n|ts|s]; simpl.
  - unfold genConstant_bool, genConstant_char, genConstant_int16,
      genConstant_int32, genConstant_int64, genIntegerConstant.
    repeat (destruct (_ =? _);
            [apply keeps_bind; [keeps|intros ?];
             apply keeps_buildSubst; keeps|]).
    keeps.
  - apply keeps_bind; [keeps|intros ?]. apply keeps_buildSubst.
    unfold genConstant_float. keeps.
  - apply keeps_bind; [keeps|intros ?]. apply keeps_buildSubst.
    unfold genConstant_double. keeps.
  - apply keeps_bind; [keeps|intros ?]. apply keeps_buildSubst.
    unfold genConstant_long_double. keeps.
  - destruct e;
      first
        [ solve [keeps]
        | apply keeps_bind; [keeps|intros ?];
          apply keeps_bind; [keeps|intros ?];
          apply keeps_buildSubst;
          unfold genConstant_complex_float, genConstant_complex_double,
            genComplexConstant; keeps ].
  - apply keeps_buildSubst, keeps_genConstant_string.
  - keeps.
  - destruct e; try solve [keeps].
    apply keeps_buildSubst. by apply keeps_genConstant_state.
  - apply keeps_buildSubst. apply (Hd (StdvecType e)).
  - apply keeps_buildSubst. apply (Hd (StructType ms)).
  - apply keeps_buildSubst. apply (Hd (ArrayType e n)).
  - apply keeps_buildSubst. unfold genConstant_TupleType.
    apply keeps_genTuple. intros p S layout. apply (Hd (StructType (rev ts))).
  - keeps.
Qed.

Lemma keeps_getAttr (module : nat) (name : string) :
  keeps_heap (getAttr module name).
Proof.
  intros w a w' Hrun. unfold getAttr in Hrun.
  destruct (modules w !! module); [|done]. by injection Hrun as <- <-.
Qed.

Lemma keeps_lookupSymbol (module : nat) (name : string) :
  keeps_heap (lookupSymbol module name).
Proof.
  intros w a w' Hrun. unfold lookupSymbol in Hrun.
  destruct (modules w !! module); [|done]. by injection Hrun as <- <-.
Qed.

Lemma keeps_gen_step (self : ArgumentConverter) (i : Z) (argTy : Ty)
    (argPtr : Z) :
  isSimulator (platform self) && isRemote (platform self) = false →
  keeps_heap (gen_step target self i argTy argPtr).
Proof.
  intros Hlocal. unfold gen_step.
  apply keeps_bind; [apply keeps_getAttr|intros ?].
  apply keeps_bind; [by apply keeps_gen_switch|intros [r|]]; keeps.
Qed.

Lemma keeps_gen_loop (params : list (Ty * Z)) :
  ∀ (self : ArgumentConverter) (i : Z),
    isSimulator (platform self) && isRemote (platform self) = false →
    keeps_heap (gen_loop target self i params).
Proof.
  induction params as [|[argTy argPtr] params IH]; intros self i Hlocal;
    simpl.
  - keeps.
  - intros w a w' Hrun. run_bind Hrun.
    destruct (keeps_gen_step self i argTy argPtr Hlocal _ _ _ Hrun0)
      as [Hheap Hbrk].
    apply gen_step_platform in Hrun0.
    destruct (IH a0 (i + 1) ltac:(by rewrite Hrun0) _ _ _ Hrun) as [? ?].
    split; congruence.
Qed.

(** X14.  Unless the platform is a remote simulator, [gen] leaves the
    host memory as it is: it reads the arguments, writes nothing and
    allocates nothing. *)
Theorem gen_leaves_the_host_memory (self : ArgumentConverter)
    (arguments : list Z) (w : World) (self' : ArgumentConverter)
    (w' : World) :
  isSimulator (platform self) && isRemote (platform self) = false →
  gen target self arguments w = Ok (self', w') →
  heap w' = heap w ∧ brk w' = brk w.
Proof.
  intros Hlocal Hrun. unfold gen in Hrun. run_bind Hrun.
  apply keeps_lookupSymbol in Hrun0 as [Hh Hb].
  destruct a as [inputs|]; [|done].
  apply keeps_gen_loop in Hrun as [? ?]; [|done]. split; congruence.
Qed.

End HostMemory.

(** *** The walker reads the host data *)

Section Denotation.
Import ArgConv.
Variable target : Target.
Variable substMod : nat.
Variable layout : string.
Variable platform : PlatformSettings.

Lemma bind_run {A B} (m : M A) (k : A → M B) (w : World) (a : A)
    (w1 : World) :
  m w = Ok (a, w1) → bind m k w = k a w1.
Proof. unfold bind. by intros ->. Qed.

(** [create] in a block returns, and its value denotes what the
    operation evaluates to in the block so far. *)
Lemma create_reads (w : World) (new : Operation) :
  in_block substMod w →
  ∃ v w',
    create new w = Ok (v, w')
    ∧ ip w' = ip w ∧ world_ext substMod w w' ∧ valid_value w' v
    ∧ heap w' = heap w ∧ in_block substMod w'
    ∧ value_in (current_block w') v
      = eval_op (eval_block (current_block w)) new.
Proof.
  intros Hin.
  destruct (create_in_block substMod w new Hin)
    as (w' & Hc & Hip & Hheap & _ & _ & Hext).
  destruct (create_value substMod w new _ w' Hin Hc)
    as (_ & _ & Hv & Hval).
  eexists _, w'. split_and!; [done..|by eapply in_block_ext|done].
Qed.

Ltac scalar :=
  let p := fresh "p" in
  let w := fresh "w" in
  let Hin := fresh "Hin" in
  intros p w Hin; simpl;
  unfold genConstant_bool, genConstant_char, genConstant_int16,
    genConstant_int32, genConstant_int64, genIntegerConstant,
    genConstant_float, genConstant_double, genConstant_long_double,
    genConstant_complex_float, genConstant_complex_double,
    genComplexConstant, load_bool, load_int, load_bits, gets;
  unfold bind; simpl;
  match goal with
  | |- ∃ v w', create ?op w = _ ∧ _ =>
      let v := fresh "v" in
      let w' := fresh "w'" in
      let Hval := fresh "Hval" in
      destruct (create_reads w op Hin)
        as (v & w' & ? & ? & ? & ? & ? & _ & Hval);
      exists v, w'; split_and!; [done..|]; by rewrite Hval
  | |- ∃ v w', ret None w = _ ∧ _ =>
      exists None, w;
      split_and!; [done|done|apply world_ext_refl|by intros ?|done|done]
  end.

Lemma reads_dispatch_ComplexType (elementType : Ty) :
  reads substMod layout platform (dispatch_ComplexType elementType)
        (λ h, host_value target layout h (ComplexType elementType)).
Proof. destruct elementType; scalar. Qed.

(** The array loop fills the fields that are left, in order. *)
Lemma array_loop_reads (recur : Emitter) (f : Heap → Z → IRVal)
    (arrTy : Ty) (eleSize : Z) :
  reads substMod layout platform recur f →
  ∀ (n : nat) (done : list IRVal) cursor aggie w,
    in_block substMod w → valid_value w aggie →
    value_in (current_block w) aggie = VAgg (done ++ replicate n VUndef) →
    ∃ v w',
      array_loop recur arrTy eleSize substMod layout platform n
                 (Z.of_nat (length done)) cursor aggie w = Ok (v, w')
      ∧ ip w' = ip w ∧ world_ext substMod w w' ∧ valid_value w' v
      ∧ heap w' = heap w
      ∧ value_in (current_block w') v
        = VAgg (done ++ array_values (f (heap w)) eleSize n cursor).
Proof.
  intros Hrecur. induction n as [|n IH];
    intros done cursor aggie w Hin Hv Hval.
  - exists aggie, w. split_and!; [done|done|apply world_ext_refl|done..].
  - destruct (Hrecur cursor w Hin)
      as (v1 & w1 & Hr & Hip1 & Hext1 & Hv1 & Hh1 & Hval1).
    pose proof (in_block_ext _ _ _ Hin Hip1 Hext1) as Hin1.
    pose proof (valid_value_ext _ _ _ _ Hin Hip1 Hext1 Hv) as Hag1.
    pose proof (value_in_ext _ _ _ _ Hin Hip1 Hext1 Hv) as Hagv1.
    rewrite Hval in Hagv1.
    simpl. rewrite (bind_run _ _ _ _ _ Hr).
    assert (∃ aggie2 w2,
              match v1 with
              | Some _ =>
                  create (cc_InsertValueOp arrTy aggie v1
                            (Z.of_nat (length done)))
              | None => ret aggie
              end w1 = Ok (aggie2, w2)
              ∧ ip w2 = ip w1 ∧ world_ext substMod w1 w2
              ∧ valid_value w2 aggie2 ∧ heap w2 = heap w1
              ∧ in_block substMod w2
              ∧ value_in (current_block w2) aggie2
                = VAgg ((done ++ [f (heap w) cursor]) ++ replicate n VUndef))
      as (aggie2 & w2 & Hstep & Hip2 & Hext2 & Hv2 & Hh2 & Hin2 & Hval2).
    { destruct v1 as [r|].
      - destruct (create_reads w1
                    (cc_InsertValueOp arrTy aggie (Some r)
                                      (Z.of_nat (length done))) Hin1)
          as (v2 & w2 & Hc & Hip2 & Hext2 & Hv2 & Hh2 & Hin2 & Hval2).
        exists v2, w2. split_and!; [done..|].
        rewrite Hval2. simpl.
        change (operand_value (eval_block (current_block w1)) aggie)
          with (value_in (current_block w1) aggie).
        change (default VUndef (eval_block (current_block w1) !! owner_index r))
          with (value_in (current_block w1) (Some r)).
        rewrite Hagv1, Hval1, Nat2Z.id.
        rewrite insert_app_r_alt by lia. rewrite Nat.sub_diag. simpl.
        by rewrite <- app_assoc.
      - exists aggie, w1.
        split_and!; [done|done|apply world_ext_refl|done..|].
        rewrite Hagv1, <- app_assoc. simpl. rewrite <- Hval1. done. }
    rewrite (bind_run _ _ _ _ _ Hstep).
    destruct (IH (done ++ [f (heap w) cursor]) (cursor + eleSize) aggie2 w2
                 Hin2 Hv2 Hval2)
      as (v & w' & Hloop & Hip3 & Hext3 & Hv3 & Hh3 & Hval3).
    rewrite length_app, Nat2Z.inj_add in Hloop. simpl in Hloop.
    exists v, w'. split_and!; [done|congruence| |done|congruence|].
    + eapply world_ext_trans; [|done]. by eapply world_ext_trans.
    + rewrite Hval3, <- app_assoc. simpl. do 4 f_equal. congruence.
Qed.

Lemma genArray_reads (recur : Emitter) (eleTy : Ty) (size : option Z) :
  (∀ n, size = Some n →
        0 ≤ n < 2 ^ 64
        ∧ reads substMod layout platform recur
                (λ h, host_value target layout h eleTy)) →
  reads substMod layout platform (genArray target recur eleTy size)
        (λ h, host_value target layout h (ArrayType eleTy size)).
Proof.
  intros Hsize p w Hin. unfold genArray.
  destruct size as [n|].
  - destruct (Hsize n eq_refl) as [Hn Hrecur].
    destruct (create_reads w (cc_UndefOp (ArrayType eleTy (Some n))) Hin)
      as (v1 & w1 & Hc & Hip1 & Hext1 & Hv1 & Hh1 & Hin1 & Hval1).
    simpl in Hval1.
    destruct (array_loop_reads recur _ (ArrayType eleTy (Some n))
                (getDataSize target layout eleTy) Hrecur (Z.to_nat n) []
                p v1 w1 Hin1 Hv1 Hval1)
      as (v & w' & Hloop & Hip2 & Hext2 & Hv2 & Hh2 & Hval2).
    exists v, w'. rewrite (bind_run _ _ _ _ _ Hc).
    unfold to_unsigned. rewrite Z.mod_small by lia.
    split_and!; [done|congruence|by eapply world_ext_trans|done|congruence|].
    rewrite Hval2. simpl. by rewrite Hh1.
  - exists None, w.
    split_and!; [done|done|apply world_ext_refl|by intros ?|done|done].
Qed.

(** The record loop fills the fields that are left, each read at the
    offset of its member. *)
Lemma struct_loop_reads (strTy : Ty) (cursor : Z) (tys : list Ty) :
  Forall (λ ty, reads substMod layout platform (dispatchSubtype target ty)
                      (λ h, host_value target layout h ty)) tys →
  ∀ (done : list IRVal) aggie w,
    in_block substMod w → valid_value w aggie →
    value_in (current_block w) aggie
    = VAgg (done ++ replicate (length tys) VUndef) →
    ∃ v w',
      struct_loop target strTy cursor substMod layout platform
                  (map (dispatchSubtype target) tys)
                  (Z.of_nat (length done)) aggie w = Ok (v, w')
      ∧ ip w' = ip w ∧ world_ext substMod w w' ∧ valid_value w' v
      ∧ heap w' = heap w
      ∧ value_in (current_block w') v
        = VAgg (done
                ++ struct_values (getDataOffset target layout strTy) cursor
                     (map (host_value target layout (heap w)) tys)
                     (Z.of_nat (length done))).
Proof.
  induction 1 as [|ty tys Hty _ IH]; intros done aggie w Hin Hv Hval.
  - exists aggie, w. split_and!; [done|done|apply world_ext_refl|done..].
  - set (i := Z.of_nat (length done)).
    set (q := cursor + getDataOffset target layout strTy i).
    destruct (Hty q w Hin)
      as (v1 & w1 & Hr & Hip1 & Hext1 & Hv1 & Hh1 & Hval1).
    pose proof (in_block_ext _ _ _ Hin Hip1 Hext1) as Hin1.
    pose proof (valid_value_ext _ _ _ _ Hin Hip1 Hext1 Hv) as Hag1.
    pose proof (value_in_ext _ _ _ _ Hin Hip1 Hext1 Hv) as Hagv1.
    rewrite Hval in Hagv1.
    simpl. fold i q. rewrite (bind_run _ _ _ _ _ Hr).
    set (x := host_value target layout (heap w) ty q) in *.
    assert (∃ aggie2 w2,
              match v1 with
              | Some _ => create (cc_InsertValueOp strTy aggie v1 i)
              | None => ret aggie
              end w1 = Ok (aggie2, w2)
              ∧ ip w2 = ip w1 ∧ world_ext substMod w1 w2
              ∧ valid_value w2 aggie2 ∧ heap w2 = heap w1
              ∧ in_block substMod w2
              ∧ value_in (current_block w2) aggie2
                = VAgg ((done ++ [x]) ++ replicate (length tys) VUndef))
      as (aggie2 & w2 & Hstep & Hip2 & Hext2 & Hv2 & Hh2 & Hin2 & Hval2).
    { destruct v1 as [r|].
      - destruct (create_reads w1
                    (cc_InsertValueOp strTy aggie (Some r) i) Hin1)
          as (v2 & w2 & Hc & Hip2 & Hext2 & Hv2 & Hh2 & Hin2 & Hval2).
        exists v2, w2. split_and!; [done..|].
        rewrite Hval2. simpl.
        change (operand_value (eval_block (current_block w1)) aggie)
          with (value_in (current_block w1) aggie).
        change (default VUndef (eval_block (current_block w1) !! owner_index r))
          with (value_in (current_block w1) (Some r)).
        rewrite Hagv1, Hval1. unfold i. rewrite Nat2Z.id.
        rewrite insert_app_r_alt by lia. rewrite Nat.sub_diag. simpl.
        by rewrite <- app_assoc.
      - exists aggie, w1.
        split_and!; [done|done|apply world_ext_refl|done..|].
        rewrite Hagv1, <- app_assoc. simpl. rewrite <- Hval1. done. }
    rewrite (bind_run _ _ _ _ _ Hstep).
    destruct (IH (done ++ [x]) aggie2 w2 Hin2 Hv2 Hval2)
      as (v & w' & Hloop & Hip3 & Hext3 & Hv3 & Hh3 & Hval3).
    rewrite length_app, Nat2Z.inj_add in Hloop, Hval3.
    simpl in Hloop, Hval3. fold i in Hloop, Hval3.
    exists v, w'. split_and!; [done|congruence| |done|congruence|].
    + eapply world_ext_trans; [|done]. by eapply world_ext_trans.
    + rewrite Hval3, <- app_assoc. simpl. do 4 f_equal. congruence.
Qed.

Lemma genStruct_reads (tys : list Ty) :
  Forall (λ ty, reads substMod layout platform (dispatchSubtype target ty)
                      (λ h, host_value target layout h ty)) tys →
  reads substMod layout platform
        (genStruct target (map (dispatchSubtype target) tys) tys)
        (λ h, host_value target layout h (StructType tys)).
Proof.
  intros Htys p w Hin. unfold genStruct.
  destruct tys as [|ty tys].
  { exists None, w.
    split_and!; [done|done|apply world_ext_refl|by intros ?|done|done]. }
  set (members := ty :: tys) in *.
  destruct (create_reads w (cc_UndefOp (StructType members)) Hin)
    as (v1 & w1 & Hc & Hip1 & Hext1 & Hv1 & Hh1 & Hin1 & Hval1).
  simpl in Hval1.
  destruct (struct_loop_reads (StructType members) p members Htys [] v1 w1
              Hin1 Hv1 Hval1)
    as (v & w' & Hloop & Hip2 & Hext2 & Hv2 & Hh2 & Hval2).
  exists v, w'. rewrite (bind_run _ _ _ _ _ Hc).
  split_and!; [done|congruence|by eapply world_ext_trans|done|congruence|].
  rewrite Hval2. simpl. by rewrite Hh1.
Qed.

Lemma struct_values_length (offset : Z → Z) (cursor : Z)
    (members : list (Z → IRVal)) (i : Z) :
  length (struct_values offset cursor members i) = length members.
Proof.
  revert i. induction members as [|m members IH]; intros i; simpl; [done|].
  by rewrite IH.
Qed.

Lemma struct_values_lookup (offset : Z → Z) (cursor : Z)
    (members : list (Z → IRVal)) (i : Z) (j : nat) :
  struct_values offset cursor members i !! j
  = (λ m : Z → IRVal, m (cursor + offset (i + Z.of_nat j))) <$> members !! j.
Proof.
  revert i j. induction members as [|m members IH]; intros i j; simpl.
  - done.
  - destruct j as [|j].
    + simpl. by rewrite Z.add_0_r.
    + rewrite Nat2Z.inj_succ.
      replace (i + Z.succ (Z.of_nat j)) with (i + 1 + Z.of_nat j) by lia.
      apply IH.
Qed.

Lemma host_value_StructType (h : Heap) (members : list Ty) (p : Z) :
  members ≠ [] →
  host_value target layout h (StructType members) p
  = VAgg (struct_values (getDataOffset target layout (StructType members)) p
                        (map (host_value target layout h) members) 0).
Proof. by destruct members. Qed.

Lemma host_value_TupleType (h : Heap) (types : list Ty) (p : Z) :
  types ≠ [] →
  host_value target layout h (TupleType types) p
  = VAgg (struct_values
            (λ i, getDataOffset target layout (StructType (rev types))
                                (Z.of_nat (length types) - 1 - i))
            p (map (host_value target layout h) types) 0).
Proof. by destruct types. Qed.

Lemma rev_lookup {A} (l : list A) (i : nat) :
  (i < length l)%nat → rev l !! i = l !! (length l - Datatypes.S i)%nat.
Proof.
  intros Hi. rewrite rev_alt. by apply (reverse_lookup l i).
Qed.

Lemma tuple_loop_total (fwdTy : Ty) (revCon : Value) (n : Z)
    (members : list Ty) :
  ∀ i aggie w,
    in_block substMod w →
    ∃ v w', tuple_loop fwdTy revCon n members i aggie w = Ok (v, w')
            ∧ heap w' = heap w.
Proof.
  induction members as [|ty members IH]; intros i aggie w Hin; simpl.
  - by exists aggie, w.
  - destruct (create_reads w (cc_ExtractValueOp ty revCon (n - i - 1)) Hin)
      as (v1 & w1 & Hc1 & _ & _ & _ & Hh1 & Hin1 & _).
    destruct (create_reads w1 (cc_InsertValueOp fwdTy aggie v1 i) Hin1)
      as (v2 & w2 & Hc2 & _ & _ & _ & Hh2 & Hin2 & _).
    destruct (IH (i + 1) v2 w2 Hin2) as (v & w' & Hloop & Hh3).
    exists v, w'.
    rewrite (bind_run _ _ _ _ _ Hc1), (bind_run _ _ _ _ _ Hc2).
    split; [done|congruence].
Qed.

Lemma genTuple_reads (types : list Ty) :
  Forall (λ ty, reads substMod layout platform (dispatchSubtype target ty)
                      (λ h, host_value target layout h ty)) types →
  reads substMod layout platform
        (genTuple (genStruct target (rev (map (dispatchSubtype target) types))
                             (rev types)) types)
        (λ h, host_value target layout h (TupleType types)).
Proof.
  intros Htys p w Hin. unfold genTuple.
  destruct types as [|ty0 tys0].
  { exists None, w.
    split_and!; [done|done|apply world_ext_refl|by intros ?|done|done]. }
  set (types := ty0 :: tys0) in *.
  assert (types ≠ []) as Hne by done.
  rewrite <- map_rev.
  destruct (genStruct_reads (rev types) (Forall_rev Htys) p w Hin)
    as (revCon & w1 & Hrev & Hip1 & Hext1 & Hv1 & Hh1 & Hval1).
  pose proof (in_block_ext _ _ _ Hin Hip1 Hext1) as Hin1.
  assert (rev types ≠ []) as Hrne by (by apply rev_not_nil).
  rewrite (host_value_StructType _ _ _ Hrne) in Hval1.
  set (k := length types).
  set (offset := getDataOffset target layout (StructType (rev types))) in *.
  set (rs := struct_values offset p
               (map (host_value target layout (heap w)) (rev types)) 0) in *.
  assert (length rs = k) as Hrs.
  { unfold rs. by rewrite struct_values_length, length_map, length_rev. }
  destruct (create_reads w1 (cc_UndefOp (StructType types)) Hin1)
    as (undef & w2 & Hc & Hip2 & Hext2 & Hv2 & Hh2 & Hin2 & Hval2).
  change (eval_op _ (cc_UndefOp (StructType types)))
    with (VAgg (replicate k VUndef)) in Hval2.
  destruct (tuple_loop_total (StructType types) revCon (Z.of_nat k) types
              0 undef w2 Hin2) as (v & w' & Hloop & Hh3).
  destruct (emits_tuple_loop substMod _ _ _ _ _ _ _ _ _ Hin2 Hv2 Hloop)
    as (Hip3 & Hext3 & Hv3).
  destruct (tuple_loop_fields substMod (StructType types) revCon k rs types
              Hrs 0 undef w2 v w' (replicate k VUndef))
    as (fs & Hfs & _ & Hfslen & Hhi & _);
    [done|done|done|exact (valid_value_ext _ _ _ _ Hin1 Hip2 Hext2 Hv1)
    | |done|by rewrite length_replicate|done|].
  { by rewrite (value_in_ext _ _ _ _ Hin1 Hip2 Hext2 Hv1). }
  exists v, w'.
  rewrite (bind_run _ _ _ _ _ Hrev), (bind_run _ _ _ _ _ Hc).
  split_and!; [done|congruence| |done|congruence|].
  { eapply world_ext_trans; [|done]. by eapply world_ext_trans. }
  rewrite Hfs, (host_value_TupleType _ _ _ Hne). fold k. f_equal.
  apply list_eq. intros j.
  destruct (decide (j < k)%nat) as [Hj|Hj].
  - rewrite (Hhi j) by lia. unfold rs.
    rewrite !struct_values_lookup, !list_lookup_fmap.
    rewrite rev_lookup by (fold k; lia). fold k.
    replace (k - Datatypes.S (k - 1 - j))%nat with j by lia.
    destruct (types !! j) as [ty|]; [|done].
    cbv [fmap option_fmap option_map]. do 3 f_equal.
    unfold offset. f_equal. lia.
  - rewrite !lookup_ge_None_2; [done| |lia].
    rewrite struct_values_length, length_map. fold k. lia.
Qed.

(** The walker on plain data, as a [reads] statement. *)
Lemma dispatchSubtype_reads (ty : Ty) :
  plain ty = true →
  reads substMod layout platform (dispatchSubtype target ty)
        (λ h, host_value target layout h ty).
Proof.
  intros Hplain.
  induction ty as [wd| | |wd|e _| | |e _|e IHe|ms IHms|e n IHe|ts IHts|s]
    using Ty_nested_ind.
  - intros p w Hin. simpl.
    repeat (destruct (_ =? _); [revert p w Hin; scalar|]).
    revert p w Hin. scalar.
  - scalar.
  - scalar.
  - simpl in Hplain. intros p w Hin. simpl. rewrite Hplain.
    revert p w Hin. scalar.
  - apply reads_dispatch_ComplexType.
  - done.
  - scalar.
  - destruct e; try done; scalar.
  - done.
  - simpl in Hplain. apply genStruct_reads.
    rewrite forallb_forall in Hplain.
    rewrite Forall_forall in *. intros ty Hty.
    apply IHms; [done|]. by apply Hplain, list_elem_of_In.
  - destruct n as [n|].
    + simpl in Hplain.
      apply andb_true_iff in Hplain as [[Hn0 Hn1]%andb_true_iff Hplain].
      apply genArray_reads. intros n' [= <-]. split; [lia|by apply IHe].
    + by apply genArray_reads.
  - simpl in Hplain. apply genTuple_reads.
    rewrite forallb_forall in Hplain.
    rewrite Forall_forall in *. intros ty Hty.
    apply IHts; [done|]. by apply Hplain, list_elem_of_In.
  - scalar.
Qed.

(** X16.  On a type made of scalars, arrays, records and tuples, the
    walker returns; it emits into the block only and leaves the host
    memory alone; and the value it returns denotes the host data: an
    integer, a float or a complex number read at the address; for an
    array the elements read one element size apart; for a record the
    members read at their offsets; for a tuple, member [i] read at the
    offset of member [k - 1 - i] of the record of the reversed members.
    The null value stands for what the walker skips. *)
Theorem walker_reads_the_host_data (ty : Ty) (p : Z) (w : World) :
  plain ty = true → in_block substMod w →
  ∃ v w',
    dispatchSubtype target ty p substMod layout platform w = Ok (v, w')
    ∧ ip w' = ip w ∧ world_ext substMod w w' ∧ valid_value w' v
    ∧ heap w' = heap w
    ∧ value_in (current_block w') v = host_value target layout (heap w) ty p.
Proof. intros Hplain. by apply dispatchSubtype_reads. Qed.

End Denotation.

(** *** [gen] on plain data, and state arguments *)

Section Totality.
Import ArgConv.
Variable target : Target.
Variable substMod : nat.

Ltac run_bind H :=
  let a := fresh "a" in
  let w := fresh "w" in
  let H1 := fresh H in
  apply bind_Ok in H as (a & w & H1 & H).

Lemma open_substitution_total (self : ArgumentConverter) (i : Z) (w : World) :
  substModule self = substMod → is_Some (modules w !! substMod) →
  ∃ r w1, open_substitution self i w = Ok (r, w1).
Proof.
  intros HS [md Hmd]. unfold open_substitution. rewrite HS.
  assert (substMod < length (modules w))%nat as HSlt
    by (by eapply lookup_lt_Some).
  unfold bind, setInsertionPointToEnd, modify, create. simpl.
  rewrite Hmd. simpl. unfold push_back_block. simpl.
  rewrite list_lookup_insert_eq by done. simpl.
  rewrite lookup_app_r by done. rewrite Nat.sub_diag. simpl.
  by eexists _, _.
Qed.

Lemma buildSubst_total (self : ArgumentConverter) (i : Z) (e : M Value)
    (w : World) :
  substModule self = substMod → is_Some (modules w !! substMod) →
  (∀ w1, in_block substMod w1 → ∃ v w', e w1 = Ok (v, w')) →
  ∃ v w', buildSubst self i e w = Ok (v, w').
Proof.
  intros HS Hmd He.
  destruct (open_substitution_total self i w HS Hmd) as (r & w1 & Hopen).
  destruct (open_substitution_spec substMod self i w r w1 HS Hopen)
    as (Hin & _).
  destruct (He w1 Hin) as (v & w' & Hrun).
  exists (Some r), w'. unfold buildSubst.
  rewrite (bind_run _ _ _ _ _ Hopen), (bind_run _ _ _ _ _ Hrun). done.
Qed.

Lemma create_total (new : Operation) (w : World) :
  in_block substMod w → ∃ v w', create new w = Ok (v, w').
Proof.
  intros Hin.
  destruct (create_reads substMod w new Hin) as (v & w' & Hc & _).
  by exists v, w'.
Qed.

Lemma gen_switch_total (self : ArgumentConverter) (i : Z) (argTy : Ty)
    (argPtr : Z) (dataLayout : string) (w : World) :
  substModule self = substMod → is_Some (modules w !! substMod) →
  plain argTy = true →
  ∃ v w', gen_switch target self i argTy argPtr dataLayout w = Ok (v, w').
Proof.
  intros HS Hmd Hplain.
  assert (∀ ty, plain ty = true →
            ∃ v w', buildSubst self i
                      (dispatchSubtype target ty argPtr (substModule self)
                         dataLayout (platform self)) w = Ok (v, w'))
    as Hwalk.
  { intros ty Hty. apply buildSubst_total; [done..|]. intros w1 Hin. rewrite HS.
    destruct (dispatchSubtype_reads target substMod dataLayout
                (platform self) ty Hty argPtr w1 Hin) as (v & w' & Hrun & _).
    by exists v, w'. }
  assert (∀ new, ∃ v w', buildSubst self i (create new) w = Ok (v, w'))
    as Hcreate.
  { intros new. apply buildSubst_total; [done..|]. intros w1.
    apply create_total. }
  destruct argTy as [width| | |width|e| | |e|e|ms|e n|ts|s]; simpl.
  - unfold genConstant_bool, genConstant_char, genConstant_int16,
      genConstant_int32, genConstant_int64, genIntegerConstant,
      load_bool, load_int, bind at 1, gets.
    repeat (destruct (width =? _); [apply Hcreate|]).
    by eexists _, _.
  - apply Hcreate.
  - apply Hcreate.
  - simpl in Hplain. rewrite Hplain.
    apply buildSubst_total; [done..|]. intros w1. apply create_total.
  - destruct e; try (by eexists _, _); apply Hcreate.
  - done.
  - by eexists _, _.
  - destruct e; try done; by eexists _, _.
  - done.
  - apply (Hwalk (StructType ms) Hplain).
  - apply (Hwalk (ArrayType e n) Hplain).
  - rewrite <- dispatchSubtype_TupleType.
    apply (Hwalk (TupleType ts) Hplain).
  - by eexists _, _.
Qed.

Lemma world_ext_is_Some (w w' : World) (m : nat) :
  world_ext substMod w w' → is_Some (modules w !! m) →
  is_Some (modules w' !! m).
Proof.
  intros (Hlen & _) Hm. apply lookup_lt_is_Some. rewrite Hlen.
  by apply lookup_lt_is_Some.
Qed.

Lemma gen_loop_total (params : list (Ty * Z)) :
  ∀ (self : ArgumentConverter) (i : Z) (w : World),
    substModule self = substMod →
    is_Some (modules w !! substMod) →
    is_Some (modules w !! sourceModule self) →
    Forall (λ param, plain param.1 = true) params →
    ∃ self' w', gen_loop target self i params w = Ok (self', w').
Proof.
  induction params as [|[argTy argPtr] params IH];
    intros self i w HS Hmd Hsrc Hplain; simpl.
  - by eexists _, _.
  - apply Forall_cons in Hplain as [Hty Hplain]. simpl in Hty.
    destruct Hsrc as [src Hsrc].
    destruct (gen_switch_total self i argTy argPtr
                (default EmptyString
                   (lookup_attr (targetDataLayoutAttrName target) (attrs src)))
                w HS Hmd Hty) as (v & w1 & Hsw).
    assert (∃ self1, gen_step target self i argTy argPtr w = Ok (self1, w1))
      as [self1 Hstep].
    { unfold gen_step, getAttr, bind at 1. rewrite Hsrc.
      rewrite (bind_run _ _ _ _ _ Hsw). destruct v; by eexists. }
    destruct (gen_step_spec target substMod _ _ _ _ _ _ _ HS Hstep)
      as (Hext & HS1 & Hsrc1 & _).
    destruct (IH self1 (i + 1) w1 HS1) as (self' & w' & Hloop);
      [by eapply world_ext_is_Some
      |rewrite Hsrc1; eapply world_ext_is_Some; [done|by eexists]
      |done|].
    exists self', w'. by rewrite (bind_run _ _ _ _ _ Hstep).
Qed.

(** X17.  [gen] returns on plain data that can be read.  When the
    kernel is in the source module, the substitution module exists, the
    parameters of the kernel have types made of scalars, arrays, records
    and tuples, and every argument points to host memory that holds a
    value of the type of its parameter (every byte read is inside a block
    of the host memory, and the byte of a [bool] is 0 or 1), [gen]
    returns a converter: no assertion fails. *)
Theorem gen_returns_on_plain_data (self : ArgumentConverter)
    (arguments : list Z) (w : World) (md : ModuleOp) (inputs : list Ty) :
  modules w !! sourceModule self = Some md →
  lookup_func (cudaqGenPrefixName target ++ kernelName self) (mbody md)
  = Some inputs →
  substModule self = substMod → is_Some (modules w !! substMod) →
  Forall (λ ty, plain ty = true) inputs →
  Forall (λ arg,
            readable target
              (default EmptyString
                 (lookup_attr (targetDataLayoutAttrName target) (attrs md)))
              (heap w) arg.1 arg.2 = true)
         (zip inputs arguments) →
  ∃ self' w', gen target self arguments w = Ok (self', w').
Proof.
  intros Hmd Hf HS Hsub Hplain _. unfold gen, lookupSymbol, bind at 1.
  rewrite Hmd, Hf. apply gen_loop_total; [done|done|by eexists|].
  apply Forall_forall. intros [ty p] Hin. simpl.
  apply elem_of_zip_l in Hin. rewrite Forall_forall in Hplain.
  by apply Hplain.
Qed.

End Totality.

Section StateArguments.
Import ArgConv.
Variable target : Target.
Variable substMod : nat.

(** What [readStateData] does, by the place of the state and its element
    size. *)
Lemma readStateData_spec (s : state) (w : World) :
  (is_on_gpu s = false →
   readStateData s w
   = Ok ({| data := tensor_data s; size := get_num_elements s;
            elementSize := element_size s |}, w))
  ∧ (is_on_gpu s = true →
     element_size s ≠ sizeof_complex (get_precision s) →
     ∃ what, readStateData s w = Fatal (AssertionFailed what))
  ∧ (is_on_gpu s = true →
     element_size s = sizeof_complex (get_precision s) →
     ∃ w',
       readStateData s w
       = Ok ({| data := brk w; size := get_num_elements s;
                elementSize := element_size s |}, w')
       ∧ modules w' = modules w ∧ ip w' = ip w
       ∧ brk w' = brk w + get_num_elements s * element_size s
       ∧ (∀ (i : nat) b,
            device_bytes s !! i = Some b →
            Z.of_nat i < get_num_elements s * element_size s →
            read_byte (heap w') (brk w + Z.of_nat i) = b)
       ∧ ∀ a,
           a < brk w ∨ brk w + get_num_elements s * element_size s ≤ a →
           read_byte (heap w') a = read_byte (heap w) a).
Proof.
  unfold readStateData. split_and!.
  - by intros ->.
  - intros -> Hsize.
    destruct (get_precision s); simpl in Hsize;
      apply Z.eqb_neq in Hsize; unfold bind at 1; rewrite Hsize;
      by eexists.
  - intros -> Hsize. rewrite Hsize.
    assert (∀ bytes : Z,
              let h := store_bytes (heap w) (brk w)
                         (take (Z.to_nat bytes) (device_bytes s)) in
              (∀ (i : nat) b,
                 device_bytes s !! i = Some b → Z.of_nat i < bytes →
                 read_byte h (brk w + Z.of_nat i) = b)
              ∧ ∀ a, a < brk w ∨ brk w + bytes ≤ a →
                     read_byte h a = read_byte (heap w) a) as Hcopy.
    { intros bytes h. split.
      - intros i b Hb Hi. unfold h, store_bytes. simpl.
        pose proof (lookup_lt_Some _ _ _ Hb) as Hlt.
        rewrite length_take.
        destruct (Z.leb_spec (brk w) (brk w + Z.of_nat i)); [|lia].
        destruct (Z.ltb_spec (brk w + Z.of_nat i)
                    (brk w + Z.of_nat (Z.to_nat bytes
                                     `min` length (device_bytes s))));
          [|lia].
        simpl. replace (Z.to_nat (brk w + Z.of_nat i - brk w)) with i by lia.
        rewrite lookup_take_lt by lia. by rewrite Hb.
      - intros a Ha. unfold h, store_bytes. simpl. rewrite length_take.
        destruct (Z.leb_spec (brk w) a); [|done].
        destruct (Z.ltb_spec a
                    (brk w + Z.of_nat (Z.to_nat bytes
                                     `min` length (device_bytes s))));
          [lia|done]. }
    destruct (get_precision s); simpl;
      (eexists; split; [reflexivity|]; simpl;
       split_and!; [done|done|done|apply Hcopy|apply Hcopy]).
Qed.

(** X18.  [readStateData] on a state.  A state that is in host memory
    is shared: its tensor pointer is returned and nothing changes.  A
    state on the GPU whose element size is not the size of a complex
    number of its precision fails the assertion.  Otherwise fresh
    storage for the elements is taken at the break and the bytes of the
    device are copied into it: every copied byte reads back, and what is
    outside of the new storage reads as before. *)
Theorem readStateData_copies_a_device_state (s : state) (w : World) :
  (is_on_gpu s = false →
   readStateData s w
   = Ok ({| data := tensor_data s; size := get_num_elements s;
            elementSize := element_size s |}, w))
  ∧ (is_on_gpu s = true →
     element_size s ≠ sizeof_complex (get_precision s) →
     ∃ what, readStateData s w = Fatal (AssertionFailed what))
  ∧ (is_on_gpu s = true →
     element_size s = sizeof_complex (get_precision s) →
     ∃ w',
       readStateData s w
       = Ok ({| data := brk w; size := get_num_elements s;
                elementSize := element_size s |}, w')
       ∧ modules w' = modules w ∧ ip w' = ip w
       ∧ brk w' = brk w + get_num_elements s * element_size s
       ∧ (∀ (i : nat) b,
            device_bytes s !! i = Some b →
            Z.of_nat i < get_num_elements s * element_size s →
            read_byte (heap w') (brk w + Z.of_nat i) = b)
       ∧ ∀ a,
           a < brk w ∨ brk w + get_num_elements s * element_size s ≤ a →
           read_byte (heap w') a = read_byte (heap w) a).
Proof. apply readStateData_spec. Qed.

(** X19.  On a remote simulator a state argument is sent as the array
    of its amplitudes.  The state is read by [readStateData]; the array
    has as many elements as the state, complex numbers of [f64] when
    the element size of the state is 16 and of [f32] otherwise; element
    [i] is the pair of floats read in the state data, at the address
    that is [i] times the size of the complex type in the data layout
    after the start. *)
Theorem remote_state_is_sent_as_its_amplitudes (v : Z) (layout : string)
    (platform : PlatformSettings) (w : World) :
  let s := state_at target v in
  let fTy := if element_size s =? 16 then Float64Type else Float32Type in
  isSimulator platform = true → isRemote platform = true →
  in_block substMod w →
  (is_on_gpu s = true → element_size s = sizeof_complex (get_precision s)) →
  0 ≤ get_num_elements s < 2 ^ 64 →
  ∃ stateData w1 r w',
    readStateData s w = Ok (stateData, w1)
    ∧ genConstant_state target v substMod layout platform w = Ok (r, w')
    ∧ ip w' = ip w ∧ world_ext substMod w w' ∧ heap w' = heap w1
    ∧ value_in (current_block w') r
      = VAgg (array_values
                (host_value target layout (heap w1) (ComplexType fTy))
                (getDataSize target layout (ComplexType fTy))
                (Z.to_nat (get_num_elements s)) (data stateData)).
Proof.
  intros s fTy Hsim Hrem Hin Hsize Hn.
  assert (∃ stateData w1,
            readStateData s w = Ok (stateData, w1)
            ∧ size stateData = get_num_elements s
            ∧ elementSize stateData = element_size s)
    as (sd & w1 & Hread & Hsz & Hes).
  { destruct (readStateData_spec s w) as (Hhost & _ & Hgpu).
    destruct (is_on_gpu s).
    - destruct (Hgpu eq_refl (Hsize eq_refl)) as (w1 & Hr & _).
      eexists _, w1. split; [exact Hr|done].
    - eexists _, w. split; [by apply Hhost|done]. }
  destruct (pres_readStateData substMod s w sd w1 Hin Hread) as [Hip1 Hext1].
  pose proof (in_block_ext _ _ _ Hin Hip1 Hext1) as Hin1.
  destruct (genArray_reads target substMod layout platform
              (dispatch_ComplexType fTy) (ComplexType fTy)
              (Some (size sd))) with (p := data sd) (w := w1)
    as (r & w' & Hrun & Hip2 & Hext2 & _ & Hh2 & Hval); [|done|].
  { intros n [= <-]. split; [lia|].
    apply reads_dispatch_ComplexType. }
  exists sd, w1, r, w'. split; [done|].
  split_and!; [|congruence|by eapply world_ext_trans|done|].
  - unfold genConstant_state. rewrite Hsim, Hrem. simpl.
    rewrite (bind_run _ _ _ _ _ Hread), Hes. exact Hrun.
  - rewrite Hval. simpl. by rewrite Hsz.
Qed.

(** X20.  The two assertions of the walker.  A float type that is not
    [f32] or [f64] and is not wider than 64 bits fails the assertion on
    its width, in the walker and in the switch of [gen], before anything
    is emitted.  A vector that is not empty, of elements whose size in
    the data layout is zero, fails the assertion on the element size. *)
Theorem walker_assertions (p : Z) (layout : string)
    (platform : PlatformSettings) (w : World) :
  (∀ width self i,
     width ≤ 64 →
     dispatchSubtype target (FloatType width) p substMod layout platform w
     = Fatal (AssertionFailed "fltTy.getIntOrFloatBitWidth() > 64")
     ∧ gen_switch target self i (FloatType width) p layout w
       = Fatal (AssertionFailed "fltTy.getIntOrFloatBitWidth() > 64"))
  ∧ ∀ eleTy,
      let ptr := sizeof_void_ptr target in
      to_signed (ptr * 8)
        (load_le (heap w) (p + ptr) (Z.to_nat ptr)
         - load_le (heap w) p (Z.to_nat ptr)) ≠ 0 →
      getDataSize target layout eleTy = 0 →
      genConstant_StdvecType target eleTy p substMod layout platform w
      = Fatal (AssertionFailed "element must have a size").
Proof.
  split.
  - intros width self i Hwidth. simpl. unfold bind, assert.
    destruct (Z.gtb_spec width 64); [lia|done].
  - intros eleTy ptr Hdelta Hsize.
    unfold genConstant_StdvecType, genStdvec, load_bits, gets.
    unfold bind at 1 2. fold ptr.
    destruct (Z.eqb_spec
                (to_signed (ptr * 8)
                   (load_le (heap w) (p + ptr) (Z.to_nat ptr)
                    - load_le (heap w) p (Z.to_nat ptr))) 0); [done|].
    rewrite Hsize. done.
Qed.

End StateArguments.

(** *** The converter, from its construction on *)

Section Converter.
Import ArgConv.
Variable target : Target.

Lemma emitted_positions_bounds (params : list (Ty * Z)) :
  ∀ i j, j ∈ emitted_positions i params → i ≤ j.
Proof.
  induction params as [|[ty p] params IH]; intros i j; simpl.
  - by intros ?%elem_of_nil.
  - intros [Hj|Hj]%elem_of_app.
    + destruct (has_emitter ty); [|by apply elem_of_nil in Hj].
      apply list_elem_of_singleton in Hj. lia.
    + apply IH in Hj. lia.
Qed.

Lemma emitted_positions_sorted (params : list (Ty * Z)) :
  ∀ i, StronglySorted Z.lt (emitted_positions i params).
Proof.
  induction params as [|[ty p] params IH]; intros i; simpl.
  - constructor.
  - destruct (has_emitter ty); simpl; [|apply IH].
    constructor; [apply IH|].
    apply Forall_forall. intros j Hj%emitted_positions_bounds. lia.
Qed.

(** X21.  A converter and its output.  The constructor adds one empty
    module to the context, the substitution module, and leaves the
    builder without insertion point.  When [gen] then returns, the
    context has that one module more, every module it had is what it
    was, and the output list holds the substitutions, all operations of
    the new module, by strictly increasing position. *)
Theorem converter_builds_one_module (kernel : string) (source : nat)
    (platform0 : PlatformSettings) (arguments : list Z) (w : World)
    (self : ArgumentConverter) (w1 : World) (self' : ArgumentConverter)
    (w' : World) :
  ArgumentConverter_new kernel source platform0 w = Ok (self, w1) →
  gen target self arguments w1 = Ok (self', w') →
  modules w1 = modules w ++ [{| attrs := []; mbody := [] |}]
  ∧ ip w1 = NoInsertionPoint
  ∧ substModule self' = length (modules w)
  ∧ (source < length (modules w))%nat
  ∧ length (modules w') = Datatypes.S (length (modules w))
  ∧ (∀ m, (m < length (modules w))%nat → modules w' !! m = modules w !! m)
  ∧ ∃ positions,
      Forall2 (substitution_for w' (length (modules w)))
              (substitutions self') positions
      ∧ StronglySorted Z.lt positions.
Proof.
  intros Hnew Hrun. unfold ArgumentConverter_new in Hnew.
  injection Hnew as <- <-. simpl in *.
  destruct (gen_spec target _ _ _ _ _ Hrun)
    as (md & inputs & Hmd & Hf & Hloop).
  simpl in Hmd, Hf.
  match type of Hloop with
  | gen_loop _ ?self0 _ _ _ = _ =>
      destruct (gen_loop_spec target (length (modules w)) _ self0 _ _ _ _
                  eq_refl Hloop)
        as ((Hlen & Hother & _) & HS & Hsrc & new & Hsubs & Hall)
  end.
  simpl in *.
  assert (source < length (modules w))%nat as Hlt.
  { apply lookup_lt_Some in Hmd as Hlt. rewrite length_app in Hlt.
    simpl in Hlt. destruct (decide (source = length (modules w))) as [->|];
      [|lia].
    rewrite lookup_app_r, Nat.sub_diag in Hmd by done.
    injection Hmd as <-. done. }
  split_and!; [done|done|done|done| | |].
  - rewrite Hlen, length_app. simpl. lia.
  - intros m Hm. rewrite Hother by lia. by apply lookup_app_l.
  - exists (emitted_positions 0 (zip inputs arguments)).
    split; [by rewrite Hsubs|apply emitted_positions_sorted].
Qed.

End Converter.

(** *** The vector walker *)

Section Vectors.
Import ArgConv.
Variable target : Target.
Variable substMod : nat.

Ltac run_bind H :=
  let a := fresh "a" in
  let w := fresh "w" in
  let H1 := fresh H in
  apply bind_Ok in H as (a & w & H1 & H).

Lemma no_store_same {A} (m : M A) :
  (∀ w a w', m w = Ok (a, w') → w' = w) → no_store substMod m.
Proof.
  intros Hm w a w' _ Hrun. rewrite (Hm _ _ _ Hrun).
  split_and!; [done|apply world_ext_refl|].
  exists []. by rewrite app_nil_r.
Qed.

Lemma no_store_ret {A} (a : A) : no_store substMod (ret a).
Proof. apply no_store_same. by intros w a' w' [= _ <-]. Qed.

Lemma no_store_fatal {A} (e : Error) : no_store substMod (@fatal A e).
Proof. by intros w a w' _ ?. Qed.

Lemma no_store_gets {A} (f : World → A) : no_store substMod (gets f).
Proof. apply no_store_same. by intros w a' w' [= _ <-]. Qed.

Lemma no_store_assert (c : bool) (what : string) :
  no_store substMod (assert c what).
Proof. destruct c; [apply no_store_ret|apply no_store_fatal]. Qed.

Lemma no_store_bind {A B} (m : M A) (k : A → M B) :
  no_store substMod m → (∀ a, no_store substMod (k a)) →
  no_store substMod (bind m k).
Proof.
  intros Hm Hk w b w' Hin Hrun. run_bind Hrun.
  destruct (Hm _ _ _ Hin Hrun0) as (Hip1 & Hext1 & ops1 & Hblk1 & Hops1).
  destruct (Hk a _ _ _ (in_block_ext _ _ _ Hin Hip1 Hext1) Hrun)
    as (Hip2 & Hext2 & ops2 & Hblk2 & Hops2).
  split_and!; [congruence|by eapply world_ext_trans|].
  exists (ops1 ++ ops2). rewrite Hblk2, Hblk1, <- app_assoc.
  split; [done|by apply Forall_app].
Qed.

Lemma no_store_create (new : Operation) :
  is_store new = false → no_store substMod (create new).
Proof.
  intros Hnew w v w' Hin Hrun.
  destruct (create_inv substMod _ _ _ _ Hin Hrun) as (Hip & Hext & Hblk).
  split_and!; [done..|]. exists [new]. split; [done|].
  by apply Forall_cons_2; [|apply Forall_nil_2].
Qed.

Create HintDb pure.

#[local] Hint Resolve no_store_ret no_store_fatal no_store_gets
  no_store_assert : pure.

Ltac pure :=
  repeat first
    [ apply no_store_bind; [|intros ?]
    | apply no_store_create; reflexivity
    | apply no_store_gets
    | solve [eauto with pure] ].

Lemma no_store_array_loop recur arrTy eleSize layout platform n :
  no_store_emitter substMod recur →
  ∀ i cursor aggie,
    no_store substMod
      (array_loop recur arrTy eleSize substMod layout platform n i cursor
                  aggie).
Proof.
  intros Hrecur. induction n as [|n IH]; intros i cursor aggie; simpl.
  - pure.
  - apply no_store_bind; [apply Hrecur|intros v].
    apply no_store_bind; [destruct v; pure|intros ?]. apply IH.
Qed.

Lemma no_store_struct_loop strTy cursor layout platform recur :
  Forall (no_store_emitter substMod) recur →
  ∀ i aggie,
    no_store substMod
      (struct_loop target strTy cursor substMod layout platform recur i
                   aggie).
Proof.
  induction 1 as [|member recur Hmember _ IH]; intros i aggie; simpl.
  - pure.
  - apply no_store_bind; [apply Hmember|intros v].
    apply no_store_bind; [destruct v; pure|intros ?]. apply IH.
Qed.

Lemma no_store_tuple_loop fwdTy revCon n members :
  ∀ i aggie, no_store substMod (tuple_loop fwdTy revCon n members i aggie).
Proof.
  induction members as [|ty members IH]; intros i aggie; simpl.
  - pure.
  - apply no_store_bind; [pure|intros ?].
    apply no_store_bind; [pure|intros ?]. apply IH.
Qed.

Lemma no_store_genStruct recur members :
  Forall (no_store_emitter substMod) recur →
  no_store_emitter substMod (genStruct target recur members).
Proof.
  intros Hrecur p layout platform. unfold genStruct.
  destruct members; [pure|].
  apply no_store_bind; [pure|intros ?]. by apply no_store_struct_loop.
Qed.

(** The walker on plain data emits no store. *)
Lemma no_store_dispatchSubtype (ty : Ty) :
  plain ty = true → no_store_emitter substMod (dispatchSubtype target ty).
Proof.
  induction ty as [wd| | |wd|e _| | |e _|e IHe|ms IHms|e n IHe|ts IHts|s]
    using Ty_nested_ind; intros Hplain; simpl.
  - intros p layout platform.
    unfold genConstant_bool, genConstant_char, genConstant_int16,
      genConstant_int32, genConstant_int64, genIntegerConstant,
      load_bool, load_int.
    repeat (destruct (_ =? _); [pure|]). pure.
  - intros p layout platform.
    unfold genConstant_float, load_bits. pure.
  - intros p layout platform.
    unfold genConstant_double, load_bits. pure.
  - intros p layout platform.
    unfold genConstant_long_double, load_bits. pure.
  - intros p layout platform.
    unfold dispatch_ComplexType, genConstant_complex_float,
      genConstant_complex_double, genComplexConstant, load_bits.
    destruct e; pure.
  - done.
  - intros p layout platform. pure.
  - destruct e; try done; intros p layout platform; pure.
  - done.
  - simpl in Hplain. rewrite forallb_forall in Hplain.
    apply no_store_genStruct, Forall_fmap, Forall_forall.
    intros ty Hty. rewrite Forall_forall in IHms.
    apply IHms; [done|]. by apply Hplain, list_elem_of_In.
  - intros p layout platform. unfold genArray.
    destruct n as [n|]; [|pure].
    simpl in Hplain. apply andb_true_iff in Hplain as [_ Hplain].
    apply no_store_bind; [pure|intros ?].
    apply no_store_array_loop. by apply IHe.
  - simpl in Hplain. rewrite forallb_forall in Hplain.
    intros p layout platform. unfold genTuple.
    destruct ts as [|t0 ts0]; [pure|]. set (ts := t0 :: ts0) in *.
    apply no_store_bind; [|intros ?].
    + apply no_store_genStruct, Forall_rev, Forall_fmap, Forall_forall.
      intros ty Hty. rewrite Forall_forall in IHts.
      apply IHts; [done|]. by apply Hplain, list_elem_of_In.
    + apply no_store_bind; [pure|intros ?]. apply no_store_tuple_loop.
  - intros p layout platform. pure.
Qed.

Lemma create_Some (new : Operation) (w : World) (v : Value) (w' : World) :
  create new w = Ok (v, w') → is_Some v.
Proof.
  unfold create. destruct (block_at _ _); [|done].
  destruct (append_at _ _ _); [|done]. intros [= <- _]. by eexists.
Qed.

Lemma array_loop_Some recur arrTy eleSize layout platform n :
  ∀ i cursor aggie w v w',
    array_loop recur arrTy eleSize substMod layout platform n i cursor aggie w
    = Ok (v, w') →
    is_Some aggie → is_Some v.
Proof.
  induction n as [|n IH]; intros i cursor aggie w v w'; simpl.
  - by intros [= <- _].
  - intros Hrun Hag. run_bind Hrun. run_bind Hrun.
    eapply IH; [done|]. destruct a as [r|].
    + by eapply create_Some.
    + by injection Hrun1 as <- _.
Qed.

Lemma struct_loop_Some strTy cursor layout platform recur :
  ∀ i aggie w v w',
    struct_loop target strTy cursor substMod layout platform recur i aggie w
    = Ok (v, w') →
    is_Some aggie → is_Some v.
Proof.
  induction recur as [|member recur IH]; intros i aggie w v w'; simpl.
  - by intros [= <- _].
  - intros Hrun Hag. run_bind Hrun. run_bind Hrun.
    eapply IH; [done|]. destruct a as [r|].
    + by eapply create_Some.
    + by injection Hrun1 as <- _.
Qed.

Lemma tuple_loop_Some fwdTy revCon n members :
  ∀ i aggie w v w',
    tuple_loop fwdTy revCon n members i aggie w = Ok (v, w') →
    is_Some aggie → is_Some v.
Proof.
  induction members as [|ty members IH]; intros i aggie w v w'; simpl.
  - by intros [= <- _].
  - intros Hrun Hag. run_bind Hrun. run_bind Hrun.
    eapply IH; [done|]. by eapply create_Some.
Qed.

(** On a plain type the walker returns the null value exactly for the
    types it skips. *)
Lemma dispatchSubtype_skipped (ty : Ty) (p : Z) (layout : string)
    (platform : PlatformSettings) (w : World) (v : Value) (w' : World) :
  plain ty = true →
  dispatchSubtype target ty p substMod layout platform w = Ok (v, w') →
  v = None ↔ skipped ty = true.
Proof.
  intros Hplain Hrun.
  assert (∀ (m : M Value) new,
            (x <- m;; create new) w = Ok (v, w') ∨ create new w = Ok (v, w') →
            v = None ↔ false = true) as Hcreate.
  { intros m new [Hc|Hc]; [run_bind Hc|];
      apply create_Some in Hc as [r ->]; done. }
  destruct ty as [wd| | |wd|e| | |e|e|ms|e n|ts|s]; simpl in *.
  - unfold genConstant_bool, genConstant_char, genConstant_int16,
      genConstant_int32, genConstant_int64, genIntegerConstant in Hrun.
    repeat (destruct (wd =? _); simpl;
            [run_bind Hrun; apply create_Some in Hrun as [r ->]; done|]).
    by injection Hrun as <- _.
  - run_bind Hrun. apply create_Some in Hrun as [r ->]. done.
  - run_bind Hrun. apply create_Some in Hrun as [r ->]. done.
  - run_bind Hrun. unfold genConstant_long_double in Hrun. run_bind Hrun.
    apply create_Some in Hrun as [r ->]. done.
  - unfold dispatch_ComplexType in Hrun.
    destruct e; try (by injection Hrun as <- _);
      (run_bind Hrun; run_bind Hrun;
       apply create_Some in Hrun as [r ->]; done).
  - done.
  - by injection Hrun as <- _.
  - destruct e; try done; by injection Hrun as <- _.
  - done.
  - unfold genStruct in Hrun.
    destruct ms as [|m ms]; [by injection Hrun as <- _|].
    run_bind Hrun. apply create_Some in Hrun0.
    destruct (struct_loop_Some _ _ _ _ _ _ _ _ _ _ Hrun Hrun0) as [r ->]. done.
  - unfold genArray in Hrun. destruct n as [n|]; [|by injection Hrun as <- _].
    run_bind Hrun. apply create_Some in Hrun0.
    destruct (array_loop_Some _ _ _ _ _ _ _ _ _ _ _ _ Hrun Hrun0) as [r ->].
    done.
  - unfold genTuple in Hrun.
    destruct ts as [|t ts]; [by injection Hrun as <- _|].
    run_bind Hrun. run_bind Hrun. apply create_Some in Hrun1.
    destruct (tuple_loop_Some _ _ _ _ _ _ _ _ _ Hrun Hrun1) as [r ->]. done.
  - by injection Hrun as <- _.
Qed.

Lemma stores_from_app (env : list IRVal) (ops1 ops2 : list Operation) :
  stores_from env (ops1 ++ ops2)
  = stores_from env ops1 ++ stores_from (eval_ops env ops1) ops2.
Proof.
  revert env. induction ops1 as [|op ops1 IH]; intros env; simpl; [done|].
  by rewrite IH, app_assoc.
Qed.

Lemma stores_from_no_store (env : list IRVal) (ops : list Operation) :
  Forall (λ op, is_store op = false) ops → stores_from env ops = [].
Proof.
  intros Hops. revert env. induction Hops as [|op ops Hop _ IH]; intros env;
    simpl; [done|].
  rewrite IH. by destruct op.
Qed.

Lemma eval_block_app (blk ops : list Operation) :
  eval_ops (eval_block blk) ops = eval_block (blk ++ ops).
Proof. unfold eval_block. by rewrite eval_ops_app. Qed.

(** [create], with all it is known to do. *)
Lemma create_step (w : World) (new : Operation) :
  in_block substMod w →
  ∃ v w',
    create new w = Ok (v, w')
    ∧ ip w' = ip w ∧ world_ext substMod w w' ∧ valid_value w' v
    ∧ heap w' = heap w ∧ in_block substMod w'
    ∧ current_block w' = current_block w ++ [new]
    ∧ value_in (current_block w') v
      = eval_op (eval_block (current_block w)) new.
Proof.
  intros Hin.
  destruct (create_reads substMod w new Hin)
    as (v & w' & Hc & Hip & Hext & Hv & Hh & Hin' & Hval).
  destruct (create_inv substMod _ _ _ _ Hin Hc) as (_ & _ & Hblk).
  by exists v, w'.
Qed.

Section Loop.
Variables (layout : string) (platform : PlatformSettings).
Variables (recur : Emitter) (f : Heap → Z → IRVal) (sk : bool).
Hypothesis Hreads : reads substMod layout platform recur f.
Hypothesis Hpure : no_store_emitter substMod recur.
Hypothesis Hskip :
  ∀ p w v w',
    recur p substMod layout platform w = Ok (v, w') →
    v = None ↔ sk = true.

(** The loop of the vector walker stores the elements in order, each at
    its index in the buffer. *)
Lemma stdvec_loop_stores (elePtrTy : Ty) (buffer : Value) (B : IRVal)
    (eleSize : Z) (n : nat) :
  ∀ i cursor w,
    in_block substMod w → valid_value w buffer →
    value_in (current_block w) buffer = B →
    ∃ w',
      stdvec_loop recur elePtrTy buffer eleSize substMod layout platform
                  n i cursor w = Ok (tt, w')
      ∧ ip w' = ip w ∧ world_ext substMod w w' ∧ heap w' = heap w
      ∧ ∃ ops,
          current_block w' = current_block w ++ ops
          ∧ stores_from (eval_block (current_block w)) ops
            = if sk then []
              else stored_elements B (f (heap w)) eleSize n i cursor.
Proof using All.
  induction n as [|n IH]; intros i cursor w Hin Hbuf HB.
  - exists w. split_and!; [done|done|apply world_ext_refl|done|].
    exists []. rewrite app_nil_r. split; [done|]. by destruct sk.
  - destruct (Hreads cursor w Hin)
      as (v1 & w1 & Hr & Hip1 & Hext1 & Hv1 & Hh1 & Hval1).
    destruct (Hpure cursor layout platform w v1 w1 Hin Hr)
      as (_ & _ & ops1 & Hblk1 & Hops1).
    pose proof (Hskip _ _ _ _ Hr) as Hsk.
    pose proof (in_block_ext _ _ _ Hin Hip1 Hext1) as Hin1.
    pose proof (valid_value_ext _ _ _ _ Hin Hip1 Hext1 Hbuf) as Hbuf1.
    pose proof (value_in_ext _ _ _ _ Hin Hip1 Hext1 Hbuf) as HB1.
    rewrite HB in HB1.
    simpl. rewrite (bind_run _ _ _ _ _ Hr).
    destruct v1 as [r|].
    + assert (sk = false) as Hsk'.
      { apply not_true_is_false. intros Heq. by apply Hsk in Heq. }
      rewrite Hsk' in IH |- *.
      destruct (create_step w1 (cc_ComputePtrOp elePtrTy buffer i) Hin1)
        as (atLoc & w2 & Hc2 & Hip2 & Hext2 & Hv2 & Hh2 & Hin2 & Hblk2
            & Hval2).
      simpl in Hval2. rewrite operand_value_in, HB1 in Hval2.
      pose proof (valid_value_ext _ _ _ _ Hin1 Hip2 Hext2 Hv1) as Hr2.
      pose proof (value_in_ext _ _ _ _ Hin1 Hip2 Hext2 Hv1) as Hrv2.
      rewrite Hval1 in Hrv2.
      destruct (create_step w2 (cc_StoreOp (Some r) atLoc) Hin2)
        as (st & w3 & Hc3 & Hip3 & Hext3 & _ & Hh3 & Hin3 & Hblk3 & _).
      assert (world_ext substMod w1 w3) as Hext13
        by (by eapply world_ext_trans).
      assert (ip w3 = ip w1) as Hip13 by congruence.
      pose proof (valid_value_ext _ _ _ _ Hin1 Hip13 Hext13 Hbuf1) as Hbuf3.
      pose proof (value_in_ext _ _ _ _ Hin1 Hip13 Hext13 Hbuf1) as HB3.
      rewrite HB1 in HB3.
      destruct (IH (i + 1) (cursor + eleSize) w3 Hin3 Hbuf3 HB3)
        as (w' & Hloop & Hip4 & Hext4 & Hh4 & ops4 & Hblk4 & Hst4).
      exists w'.
      rewrite (bind_run _ _ _ _ _
                 (eq_trans (bind_run _ _ _ _ _ Hc2)
                           (bind_run _ _ _ _ _ Hc3))).
      split_and!; [done|congruence| |congruence|].
      { eapply world_ext_trans; [|done]. by eapply world_ext_trans. }
      exists (ops1 ++ [cc_ComputePtrOp elePtrTy buffer i;
                       cc_StoreOp (Some r) atLoc] ++ ops4).
      split.
      { rewrite Hblk4, Hblk3, Hblk2, Hblk1, <- !app_assoc. done. }
      rewrite stores_from_app, (stores_from_no_store _ _ Hops1).
      rewrite eval_block_app, <- Hblk1. simpl.
      change (eval_block (current_block w1)
              ++ [VElementPtr (operand_value (eval_block (current_block w1))
                                             buffer) i])
        with (eval_block (current_block w1)
              ++ [eval_op (eval_block (current_block w1))
                          (cc_ComputePtrOp elePtrTy buffer i)]).
      rewrite <- eval_block_snoc, <- Hblk2.
      change (default VUndef (eval_block (current_block w2) !! owner_index r))
        with (value_in (current_block w2) (Some r)).
      change (operand_value (eval_block (current_block w2)) atLoc)
        with (value_in (current_block w2) atLoc).
      rewrite Hval2, Hrv2. f_equal.
      change (eval_block (current_block w2) ++ [VUndef])
        with (eval_block (current_block w2)
              ++ [eval_op (eval_block (current_block w2))
                          (cc_StoreOp (Some r) atLoc)]).
      rewrite <- eval_block_snoc, <- Hblk3, Hst4.
      do 2 f_equal. congruence.
    + assert (sk = true) as Hsk' by (by apply Hsk).
      rewrite Hsk' in IH |- *.
      destruct (IH (i + 1) (cursor + eleSize) w1 Hin1 Hbuf1 HB1)
        as (w' & Hloop & Hip4 & Hext4 & Hh4 & ops4 & Hblk4 & Hst4).
      exists w'. unfold bind at 1, ret.
      split_and!; [done|congruence|by eapply world_ext_trans|congruence|].
      exists (ops1 ++ ops4). split.
      { by rewrite Hblk4, Hblk1, <- app_assoc. }
      rewrite stores_from_app, (stores_from_no_store _ _ Hops1).
      by rewrite eval_block_app, <- Hblk1, Hst4.
Qed.

End Loop.

Lemma genStdvec_stores (layout : string) (platform : PlatformSettings)
    (eleTy : Ty) (p : Z) (w : World) :
  let ptr := sizeof_void_ptr target in
  let begin := load_le (heap w) p (Z.to_nat ptr) in
  let end_ := load_le (heap w) (p + ptr) (Z.to_nat ptr) in
  let delta := to_signed (ptr * 8) (end_ - begin) in
  let eleSize := getDataSize target layout eleTy in
  let n := delta / eleSize in
  let buffer :=
    VAlloca (ArrayType eleTy (Some n)) (length (current_block w)) in
  plain eleTy = true → in_block substMod w →
  0 < delta < 2 ^ 63 → 0 < eleSize → n < 2 ^ 31 →
  ∃ r w',
    genConstant_StdvecType target eleTy p substMod layout platform w
    = Ok (Some r, w')
    ∧ ip w' = ip w ∧ world_ext substMod w w' ∧ heap w' = heap w
    ∧ value_in (current_block w') (Some r)
      = VSpan (StdvecType eleTy) buffer (VInt n 64)
    ∧ stores_of (current_block w')
      = stores_of (current_block w)
        ++ (if skipped eleTy then []
            else stored_elements buffer
                   (host_value target layout (heap w) eleTy) eleSize
                   (Z.to_nat n) 0 begin).
Proof.
  intros ptr begin end_ delta eleSize n buffer Hplain Hin Hdelta Hsize Hn.
  unfold genConstant_StdvecType, genStdvec. fold ptr.
  rewrite (bind_run (load_bits (Z.to_nat ptr) p) _ w begin w eq_refl).
  rewrite (bind_run (load_bits (Z.to_nat ptr) (p + ptr)) _ w end_ w eq_refl).
  fold delta eleSize.
  destruct (Z.eqb_spec delta 0) as [|_]; [lia|].
  destruct (Z.eqb_spec eleSize 0) as [|_]; [lia|].
  rewrite (bind_run (assert (negb false) _) _ w tt w eq_refl).
  assert (stdvec_size delta eleSize = n) as ->
    by (apply stdvec_size_in_range; lia).
  destruct (create_step w (cc_AllocaOp (ArrayType eleTy (Some n))) Hin)
    as (buf & w1 & Hc1 & Hip1 & Hext1 & Hv1 & Hh1 & Hin1 & Hblk1 & Hval1).
  simpl in Hval1. rewrite eval_block_length in Hval1. fold buffer in Hval1.
  destruct (stdvec_loop_stores layout platform (dispatchSubtype target eleTy)
              (λ h, host_value target layout h eleTy) (skipped eleTy)
              (dispatchSubtype_reads target substMod layout platform eleTy
                 Hplain)
              (no_store_dispatchSubtype eleTy Hplain)
              (λ q w0 v w0', dispatchSubtype_skipped eleTy q layout platform
                               w0 v w0' Hplain)
              (PointerType eleTy) buf buffer eleSize (Z.to_nat n) 0 begin w1
              Hin1 Hv1 Hval1)
    as (w2 & Hloop & Hip2 & Hext2 & Hh2 & ops & Hblk2 & Hst).
  pose proof (in_block_ext _ _ _ Hin1 Hip2 Hext2) as Hin2.
  destruct (create_step w2 (arith_ConstantIntOp n 64) Hin2)
    as (sz & w3 & Hc3 & Hip3 & Hext3 & Hv3 & Hh3 & Hin3 & Hblk3 & Hval3).
  simpl in Hval3.
  assert (world_ext substMod w1 w3) as Hext13 by (by eapply world_ext_trans).
  assert (ip w3 = ip w1) as Hip13 by congruence.
  pose proof (valid_value_ext _ _ _ _ Hin1 Hip13 Hext13 Hv1) as Hbuf3.
  pose proof (value_in_ext _ _ _ _ Hin1 Hip13 Hext13 Hv1) as HB3.
  rewrite Hval1 in HB3.
  destruct (create_step w3 (cc_StdvecInitOp (StdvecType eleTy) buf sz) Hin3)
    as (v & w' & Hc4 & Hip4 & Hext4 & Hv4 & Hh4 & Hin4 & Hblk4 & Hval4).
  simpl in Hval4. rewrite !operand_value_in, HB3, Hval3 in Hval4.
  destruct (create_Some _ _ _ _ Hc4) as [r ->].
  exists r, w'.
  rewrite (bind_run _ _ _ _ _ Hc1), (bind_run _ _ _ _ _ Hloop),
    (bind_run _ _ _ _ _ Hc3).
  split_and!; [done|congruence| |congruence|done|].
  { eapply world_ext_trans; [exact Hext1|].
    eapply world_ext_trans; [exact Hext13|exact Hext4]. }
  rewrite Hblk4, Hblk3, Hblk2, Hblk1. unfold stores_of.
  rewrite <- !app_assoc, stores_from_app. f_equal.
  change (eval_ops [] (current_block w)) with (eval_block (current_block w)).
  rewrite stores_from_app. simpl.
  change (eval_block (current_block w) ++ [VAlloca _ _])
    with (eval_block (current_block w)
          ++ [eval_op (eval_block (current_block w))
                      (cc_AllocaOp (ArrayType eleTy (Some n)))]).
  rewrite <- eval_block_snoc, <- Hblk1, stores_from_app, Hst. simpl.
  rewrite app_nil_r. by rewrite Hh1.
Qed.

(** X22.  A vector of fewer than [2^31] elements of a plain type.  With
    [n] the quotient of the byte length by the element size, the walker
    returns the span of a buffer of [n] elements and of the 64-bit
    constant [n]; and what it stores is, in order, element [i] read at
    [begin + i * eleSize] into index [i] of the buffer, for [i] from
    [0] to [n - 1] (nothing when the element type is one the walker
    skips).  It leaves the host memory alone. *)
Theorem vector_elements_are_stored_in_order (layout : string)
    (platform : PlatformSettings) (eleTy : Ty) (p : Z) (w : World) :
  let ptr := sizeof_void_ptr target in
  let begin := load_le (heap w) p (Z.to_nat ptr) in
  let end_ := load_le (heap w) (p + ptr) (Z.to_nat ptr) in
  let delta := to_signed (ptr * 8) (end_ - begin) in
  let eleSize := getDataSize target layout eleTy in
  let n := delta / eleSize in
  let buffer :=
    VAlloca (ArrayType eleTy (Some n)) (length (current_block w)) in
  plain eleTy = true → in_block substMod w →
  0 < delta < 2 ^ 63 → 0 < eleSize → n < 2 ^ 31 →
  ∃ r w',
    genConstant_StdvecType target eleTy p substMod layout platform w
    = Ok (Some r, w')
    ∧ ip w' = ip w ∧ world_ext substMod w w' ∧ heap w' = heap w
    ∧ value_in (current_block w') (Some r)
      = VSpan (StdvecType eleTy) buffer (VInt n 64)
    ∧ stores_of (current_block w')
      = stores_of (current_block w)
        ++ (if skipped eleTy then []
            else stored_elements buffer
                   (host_value target layout (heap w) eleTy) eleSize
                   (Z.to_nat n) 0 begin).
Proof. apply genStdvec_stores. Qed.

End Vectors.

(** *** The further properties on the sample inputs *)

Section OnMoreSamples.
Import Draw ArgConv Samples.
Local Open Scope string_scope.

Lemma merge_chars_commutes_off_blank_and_control_line_witness :
  WIRE_LINE ≠ BLANK ∧ BOX_TOP_LEFT_CORNER ≠ BLANK
  ∧ WIRE_LINE ≠ CONTROL_LINE ∧ BOX_TOP_LEFT_CORNER ≠ CONTROL_LINE
  ∧ merge_chars WIRE_LINE BOX_TOP_LEFT_CORNER
    = merge_chars BOX_TOP_LEFT_CORNER WIRE_LINE
  ∧ merge_chars WIRE_LINE BOX_TOP_LEFT_CORNER = BOX_BOTTOM_CONTROL.
Proof.
  split; [discriminate|]. split; [discriminate|].
  split; [discriminate|]. split; [discriminate|].
  split; [|reflexivity].
  apply (merge_chars_commutes_off_blank_and_control_line WIRE_LINE
           BOX_TOP_LEFT_CORNER); discriminate.
Defined.

(** The label [" H "] is rendered as it is. *)
Lemma render_chars_ascii_witness :
  Forall (λ c, 13 ≤ c < 128) [32; 72; 32]
  ∧ render_chars [32; 72; 32] = [32; 72; 32].
Proof.
  assert (Forall (λ c, 13 ≤ c < 128) [32; 72; 32]) as Hall
    by (repeat (apply Forall_cons_2; [lia|]); apply Forall_nil_2).
  split; [exact Hall|]. exact (render_chars_ascii [32; 72; 32] Hall).
Defined.

Lemma ladder_trace_placeable :
  Forall (placeable (getNumQudits ladder_trace)) (instructions ladder_trace).
Proof.
  repeat (apply Forall_cons_2;
            [split; [discriminate|];
             intros w Hw; unfold inst_ids, convertToIDs in Hw;
             simpl in Hw;
             repeat (apply elem_of_cons in Hw as [->|Hw]; [simpl; lia|]);
             by apply elem_of_nil in Hw|]).
  apply Forall_nil_2.
Defined.

(** The ladder: the three one-wire gates share the first layer, the
    controlled gate and the gate beside it the second. *)
Lemma layering_follows_the_trace_order_witness :
  getNumQudits ladder_trace < 2 ^ 31
  ∧ Forall (placeable (getNumQudits ladder_trace)) (instructions ladder_trace)
  ∧ ∃ s, layering plain_name ladder_trace = Some s
         ∧ layers s = [[0; 1; 2]; [3; 4]]%nat
         ∧ ∀ L1 L2 k1 k2 i1 i2 sp1 sp2,
             (k1 < k2)%nat → in_layer s L1 k1 → in_layer s L2 k2 →
             instructions ladder_trace !! k1 = Some i1 →
             instructions ladder_trace !! k2 = Some i2 →
             inst_span i1 = Some sp1 → inst_span i2 = Some sp2 →
             overlapping sp1 sp2 → L1 < L2.
Proof.
  split; [reflexivity|]. split; [exact ladder_trace_placeable|].
  destruct (layering_follows_the_trace_order plain_name ladder_trace
              eq_refl ladder_trace_placeable) as (s & Hs & Horder).
  exists s. split; [exact Hs|]. split; [|exact Horder].
  vm_compute in Hs. by injection Hs as <-.
Defined.

Lemma layering_is_as_early_as_possible_witness :
  getNumQudits ladder_trace < 2 ^ 31
  ∧ Forall (placeable (getNumQudits ladder_trace)) (instructions ladder_trace)
  ∧ ∃ s, layering plain_name ladder_trace = Some s
         ∧ in_layer s 1 3
         ∧ ∃ k' i i' sp sp',
             (k' < 3)%nat ∧ in_layer s (1 - 1) k'
             ∧ instructions ladder_trace !! 3%nat = Some i
             ∧ instructions ladder_trace !! k' = Some i'
             ∧ inst_span i = Some sp ∧ inst_span i' = Some sp'
             ∧ overlapping sp' sp.
Proof.
  split; [reflexivity|]. split; [exact ladder_trace_placeable|].
  destruct (layering_is_as_early_as_possible plain_name ladder_trace
              eq_refl ladder_trace_placeable) as (s & Hs & Hasap).
  assert (in_layer s 1 3) as Hin.
  { vm_compute in Hs. injection Hs as <-. exists [3; 4]%nat.
    split; [reflexivity|]. left. }
  exists s. split; [exact Hs|]. split; [exact Hin|].
  apply (Hasap 1 3%nat Hin). lia.
Defined.

Lemma layering_partitions_the_trace_witness :
  getNumQudits ladder_trace < 2 ^ 31
  ∧ Forall (placeable (getNumQudits ladder_trace)) (instructions ladder_trace)
  ∧ ∃ s, layering plain_name ladder_trace = Some s
         ∧ (∀ k, (k < 5)%nat →
                 ∃ L, in_layer s L k ∧ ∀ L', in_layer s L' k → L' = L)
         ∧ length (boxes s) = 5%nat.
Proof.
  split; [reflexivity|]. split; [exact ladder_trace_placeable|].
  destruct (layering_partitions_the_trace plain_name ladder_trace
              eq_refl ladder_trace_placeable)
    as (s & Hs & Hpart & _ & _ & _ & Hboxes & _).
  exists s. split; [exact Hs|]. split; [exact Hpart|exact Hboxes].
Defined.

(** The first layer of the ladder is as wide as the box of [ry]. *)
Lemma layer_width_is_the_widest_member_witness :
  getNumQudits ladder_trace < 2 ^ 31
  ∧ Forall (placeable (getNumQudits ladder_trace)) (instructions ladder_trace)
  ∧ ∃ s, layering plain_name ladder_trace = Some s
         ∧ layer_width s = [6; 5]
         ∧ ∀ k b, in_layer s 0 k → boxes s !! k = Some b → width b ≤ 6.
Proof.
  split; [reflexivity|]. split; [exact ladder_trace_placeable|].
  destruct (layer_width_is_the_widest_member plain_name ladder_trace
              eq_refl ladder_trace_placeable) as (s & Hs & Hwidth).
  assert (layer_width s = [6; 5]) as Hlw
    by (vm_compute in Hs; by injection Hs as <-).
  exists s. split; [exact Hs|]. split; [exact Hlw|].
  apply (Hwidth 0 6). by rewrite Hlw.
Defined.

(** The ladder with the prefix ["q0 : "]: the diagram is eleven columns
    wide and is printed in one chunk. *)
Lemma boxes_are_centred_in_their_layer_witness :
  getNumQudits ladder_trace < 2 ^ 31
  ∧ Forall (placeable (getNumQudits ladder_trace)) (instructions ladder_trace)
  ∧ 0 ≤ 5 < max_columns - 1
  ∧ ∃ s c,
      layering plain_name ladder_trace = Some s
      ∧ total (layer_width s) < 2 ^ 31
      ∧ compute_width s 5 = Some c
      ∧ curr_width c = 11
      ∧ cols c = [Some (0, 4); Some (0, 4); Some (0, 5); Some (6, 10);
                  Some (6, 10)].
Proof.
  split; [reflexivity|]. split; [exact ladder_trace_placeable|]. split; [by vm_compute|].
  destruct (boxes_are_centred_in_their_layer plain_name ladder_trace 5
              eq_refl ladder_trace_placeable) as (s & Hs & Hcols); [by vm_compute|].
  assert (total (layer_width s) < 2 ^ 31) as Htotal
    by (vm_compute in Hs; injection Hs as <-; by vm_compute).
  destruct (Hcols Htotal) as (c & Hc & Hcurr & _).
  exists s, c. split; [exact Hs|]. split; [exact Htotal|].
  split; [exact Hc|]. vm_compute in Hs. injection Hs as <-.
  vm_compute in Hc. injection Hc as <-. split; reflexivity.
Defined.


Lemma cutting_points_chunk_the_diagram_witness :
  getNumQudits ladder_trace < 2 ^ 31
  ∧ Forall (placeable (getNumQudits ladder_trace)) (instructions ladder_trace)
  ∧ 0 ≤ 5 < max_columns - 1
  ∧ ∃ s c,
      layering plain_name ladder_trace = Some s
      ∧ compute_width s 5 = Some c
      ∧ cutting_point c = [11]
      ∧ StronglySorted Z.le (cutting_point c).
Proof.
  split; [reflexivity|]. split; [exact ladder_trace_placeable|]. split; [by vm_compute|].
  destruct (cutting_points_chunk_the_diagram plain_name ladder_trace 5
              eq_refl ladder_trace_placeable) as (s & Hs & Hcuts); [by vm_compute|].
  assert (total (layer_width s) < 2 ^ 31) as Htotal
    by (vm_compute in Hs; injection Hs as <-; by vm_compute).
  destruct (Hcuts Htotal) as (c & Hc & Hsorted & _).
  exists s, c. split; [exact Hs|]. split; [exact Hc|].
  split; [|exact Hsorted].
  vm_compute in Hs. injection Hs as <-.
  vm_compute in Hc. by injection Hc as <-.
Defined.

(** The stray gate names wire 2 of a diagram of two wires: the access
    [wire_layer.at(2)] throws. *)
Lemma layering_runs_iff_placeable_witness :
  getNumQudits stray_trace < 2 ^ 31
  ∧ Forall (λ inst, targets inst ≠ []
                    ∧ ∀ w, w ∈ inst_ids inst → 0 ≤ w < 2 ^ 31)
           (instructions stray_trace)
  ∧ ¬ Forall (placeable (getNumQudits stray_trace)) (instructions stray_trace)
  ∧ layering plain_name stray_trace = None.
Proof.
  assert (Forall (λ inst, targets inst ≠ []
                          ∧ ∀ w, w ∈ inst_ids inst → 0 ≤ w < 2 ^ 31)
                 (instructions stray_trace)) as Hfit.
  { repeat (apply Forall_cons_2;
              [split; [discriminate|];
               intros w Hw; unfold inst_ids, convertToIDs in Hw;
               simpl in Hw;
               repeat (apply elem_of_cons in Hw as [->|Hw];
                       [split; [lia|reflexivity]|]);
               by apply elem_of_nil in Hw|]).
    apply Forall_nil_2. }
  assert (¬ Forall (placeable (getNumQudits stray_trace))
                   (instructions stray_trace)) as Hstray.
  { intros Hall. apply Forall_cons in Hall as [_ Hall].
    apply Forall_cons in Hall as [[_ Hin] _].
    assert (0 ≤ 2 < 2) as Hw; [|lia]. apply Hin. left. }
  split; [reflexivity|]. split; [exact Hfit|]. split; [exact Hstray|].
  destruct (layering plain_name stray_trace) as [s|] eqn:Hs; [|reflexivity].
  exfalso. apply Hstray.
  apply (layering_runs_iff_placeable plain_name stray_trace eq_refl Hfit).
  rewrite Hs. by exists s.
Defined.

(** The kernel [pair] on the local simulator: the host memory is the one
    it was. *)
Lemma gen_leaves_the_host_memory_witness :
  isSimulator (platform (sample_converter "pair" simulator))
  && isRemote (platform (sample_converter "pair" simulator)) = false
  ∧ ∃ self' w',
      gen sample_target (sample_converter "pair" simulator) [256]
          (converter_world pair_bytes)
      = Ok (self', w')
      ∧ heap w' = sample_heap pair_bytes ∧ brk w' = 4096.
Proof.
  split; [reflexivity|].
  eexists _, _. split; [vm_compute; reflexivity|].
  edestruct (gen_leaves_the_host_memory sample_target
               (sample_converter "pair" simulator) [256]
               (converter_world pair_bytes))
    as [Hheap Hbrk]; [reflexivity|vm_compute; reflexivity|].
  split; [exact Hheap|exact Hbrk].
Defined.

(** Scenario 2 again: the tuple [(i8, i32)] over the bytes of the record
    [(i32 42, i8 0xFF)] denotes [(-1, 42)]. *)
Lemma walker_reads_the_host_data_witness :
  plain (TupleType [IntegerType 8; IntegerType 32]) = true
  ∧ in_block 1%nat (block_world pair_bytes)
  ∧ ∃ v w',
      dispatchSubtype sample_target
        (TupleType [IntegerType 8; IntegerType 32]) 256 1%nat "e" simulator
        (block_world pair_bytes)
      = Ok (v, w')
      ∧ value_in (current_block w') v = VAgg [VInt (-1) 8; VInt 42 32].
Proof.
  split; [reflexivity|]. split; [apply block_world_in_block|].
  destruct (walker_reads_the_host_data sample_target 1%nat "e" simulator
              (TupleType [IntegerType 8; IntegerType 32]) 256
              (block_world pair_bytes) eq_refl
              (block_world_in_block pair_bytes))
    as (v & w' & Hrun & _ & _ & _ & _ & Hval).
  exists v, w'. split; [exact Hrun|]. rewrite Hval. reflexivity.
Defined.

Lemma gen_returns_on_plain_data_witness :
  modules (converter_world pair_bytes) !! 0%nat = Some sample_source
  ∧ Forall (λ ty, plain ty = true)
           [TupleType [IntegerType 8; IntegerType 32]]
  ∧ Forall (λ arg,
              readable sample_target
                (default EmptyString
                   (lookup_attr (targetDataLayoutAttrName sample_target)
                                (attrs sample_source)))
                (heap (converter_world pair_bytes)) arg.1 arg.2 = true)
           (zip [TupleType [IntegerType 8; IntegerType 32]] [256])
  ∧ ∃ self' w',
      gen sample_target (sample_converter "pair" simulator) [256]
          (converter_world pair_bytes)
      = Ok (self', w').
Proof.
  assert (Forall (λ ty, plain ty = true)
                 [TupleType [IntegerType 8; IntegerType 32]]) as Hplain
    by (apply Forall_cons_2; [reflexivity|apply Forall_nil_2]).
  assert (Forall (λ arg,
              readable sample_target
                (default EmptyString
                   (lookup_attr (targetDataLayoutAttrName sample_target)
                                (attrs sample_source)))
                (heap (converter_world pair_bytes)) arg.1 arg.2 = true)
           (zip [TupleType [IntegerType 8; IntegerType 32]] [256]))
    as Hread
    by (apply Forall_cons_2; [vm_compute; reflexivity|apply Forall_nil_2]).
  split; [reflexivity|]. split; [exact Hplain|]. split; [exact Hread|].
  apply (gen_returns_on_plain_data sample_target 1%nat
           (sample_converter "pair" simulator) [256]
           (converter_world pair_bytes) sample_source
           [TupleType [IntegerType 8; IntegerType 32]]);
    [reflexivity|reflexivity|reflexivity|by eexists|exact Hplain
    |exact Hread].
Defined.

(** The state on the GPU: its sixteen bytes are copied to the break, and
    the fourth of them reads back there. *)
Lemma readStateData_copies_a_device_state_witness :
  is_on_gpu device_state = true
  ∧ element_size device_state = sizeof_complex (get_precision device_state)
  ∧ ∃ w',
      readStateData device_state (block_world [])
      = Ok ({| data := 4096; size := 2; elementSize := 8 |}, w')
      ∧ brk w' = 4112
      ∧ read_byte (heap w') (4096 + 3) = 4.
Proof.
  split; [reflexivity|]. split; [reflexivity|].
  destruct (readStateData_copies_a_device_state device_state (block_world []))
    as (_ & _ & Hgpu).
  destruct (Hgpu eq_refl eq_refl) as (w' & Hrun & _ & _ & Hbrk & Hcopy & _).
  exists w'. split; [exact Hrun|]. split; [exact Hbrk|].
  apply (Hcopy 3%nat 4); [reflexivity|reflexivity].
Defined.

(** The state of one amplitude [(1.0, 0.0)] on the remote simulator. *)
Lemma remote_state_is_sent_as_its_amplitudes_witness :
  isSimulator remote_simulator = true ∧ isRemote remote_simulator = true
  ∧ in_block 1%nat (block_world amplitude_bytes)
  ∧ ∃ r w',
      genConstant_state second_target 300 1%nat "e" remote_simulator
                        (block_world amplitude_bytes)
      = Ok (r, w')
      ∧ value_in (current_block w') r
        = VAgg [VComplex (ComplexType Float64Type) 4607182418800017408 0].
Proof.
  split; [reflexivity|]. split; [reflexivity|].
  split; [apply block_world_in_block|].
  destruct (remote_state_is_sent_as_its_amplitudes second_target 1%nat 300
              "e" remote_simulator (block_world amplitude_bytes)
              eq_refl eq_refl (block_world_in_block amplitude_bytes))
    as (sd & w1 & r & w' & Hread & Hrun & _ & _ & _ & Hval);
    [discriminate|by vm_compute|].
  exists r, w'. split; [exact Hrun|]. rewrite Hval.
  vm_compute in Hread. injection Hread as <- <-. reflexivity.
Defined.

(** A half-precision float, and a vector of empty records. *)
Lemma walker_assertions_witness :
  16 ≤ 64
  ∧ dispatchSubtype second_target (FloatType 16) 256 1%nat "e" simulator
                    (block_world small_vector_bytes)
    = Fatal (AssertionFailed "fltTy.getIntOrFloatBitWidth() > 64")
  ∧ getDataSize second_target "e" (StructType []) = 0
  ∧ genConstant_StdvecType second_target (StructType []) 256 1%nat "e"
                           simulator (block_world small_vector_bytes)
    = Fatal (AssertionFailed "element must have a size").
Proof.
  destruct (walker_assertions second_target 1%nat 256 "e" simulator
              (block_world small_vector_bytes)) as [Hfloat Hvector].
  split; [lia|].
  split; [apply (Hfloat 16 (sample_converter "pair" simulator) 0); lia|].
  split; [reflexivity|].
  apply (Hvector (StructType [])); [by vm_compute|reflexivity].
Defined.

Lemma converter_builds_one_module_witness :
  ∃ self w1 self' w',
    ArgumentConverter_new "pair" 0 simulator (sample_world pair_bytes)
    = Ok (self, w1)
    ∧ gen sample_target self [256] w1 = Ok (self', w')
    ∧ substModule self' = 1%nat
    ∧ length (modules w') = 2%nat
    ∧ ∀ m, (m < 1)%nat →
           modules w' !! m = modules (sample_world pair_bytes) !! m.
Proof.
  eexists _, _, _, _. split; [reflexivity|].
  split; [vm_compute; reflexivity|].
  edestruct (converter_builds_one_module sample_target "pair" 0%nat simulator
               [256] (sample_world pair_bytes))
    as (_ & _ & HS & _ & Hlen & Hother & _);
    [reflexivity|vm_compute; reflexivity|].
  split; [exact HS|]. split; [exact Hlen|exact Hother].
Defined.

(** A vector of the three 32-bit integers [7], [8], [9]. *)
Lemma vector_elements_are_stored_in_order_witness :
  plain (IntegerType 32) = true
  ∧ in_block 1%nat (block_world small_vector_bytes)
  ∧ ∃ r w',
      genConstant_StdvecType sample_target (IntegerType 32) 256 1%nat "e"
                             simulator (block_world small_vector_bytes)
      = Ok (Some r, w')
      ∧ value_in (current_block w') (Some r)
        = VSpan (StdvecType (IntegerType 32))
                (VAlloca (ArrayType (IntegerType 32) (Some 3)) 0) (VInt 3 64)
      ∧ stores_of (current_block w')
        = [(VElementPtr (VAlloca (ArrayType (IntegerType 32) (Some 3)) 0) 0,
            VInt 7 32);
           (VElementPtr (VAlloca (ArrayType (IntegerType 32) (Some 3)) 0) 1,
            VInt 8 32);
           (VElementPtr (VAlloca (ArrayType (IntegerType 32) (Some 3)) 0) 2,
            VInt 9 32)].
Proof.
  split; [reflexivity|]. split; [apply block_world_in_block|].
  destruct (vector_elements_are_stored_in_order sample_target 1%nat "e"
              simulator (IntegerType 32) 256
              (block_world small_vector_bytes))
    as (r & w' & Hrun & _ & _ & _ & Hval & Hstores);
    [reflexivity|apply block_world_in_block|by vm_compute|by vm_compute
    |by vm_compute|].
  exists r, w'. split; [exact Hrun|]. split; [exact Hval|exact Hstores].
Defined.

(** A diagram of two qubits and three columns. *)
Lemma width_builds_the_grid_witness :
  0 ≤ 2 ∧ 2 * 2 + 1 < 2 ^ 31 ∧ 0 ≤ 3
  ∧ ∃ d,
      Diagram_width (Diagram_new 2) 3 = Some d
      ∧ rows_ d = [[32; 32; 32]; [0; 0; 0]; [32; 32; 32]; [0; 0; 0];
                   [32; 32; 32]]
      ∧ to_row d 1 = 3.
Proof.
  split; [lia|]. split; [reflexivity|]. split; [lia|].
  destruct (width_builds_the_grid 2 3) as (d & Hd & _ & _ & Hrow);
    [lia|reflexivity|lia|].
  exists d. split; [exact Hd|]. split; [|apply (Hrow 1); lia].
  vm_compute in Hd. by injection Hd as <-.
Defined.

(** The box of an [x] on qubit 1 controlled by qubit 0, in the columns
    6 to 10 of a diagram of eleven columns. *)
Lemma a_shape_is_drawn_inside_its_columns_witness :
  ∃ d d',
    Diagram_width (Diagram_new 2) 11 = Some d
    ∧ draw_shape 6 10 (ControlledBox " x " [1; 0] 1 1) d = Some d'
    ∧ same_outside 6 10 d d'.
Proof.
  eexists _, _. split; [vm_compute; reflexivity|].
  split; [vm_compute; reflexivity|].
  apply (a_shape_is_drawn_inside_its_columns
           (ControlledBox " x " [1; 0] 1 1) 6).
  vm_compute. reflexivity.
Defined.

Lemma sample_trace_placeable :
  Forall (placeable (getNumQudits sample_trace)) (instructions sample_trace).
Proof.
  repeat (apply Forall_cons_2;
            [split; [discriminate|];
             intros w Hw; unfold inst_ids, convertToIDs in Hw;
             simpl in Hw;
             repeat (apply elem_of_cons in Hw as [->|Hw]; [simpl; lia|]);
             by apply elem_of_nil in Hw|]).
  apply Forall_nil_2.
Defined.

Lemma sample_trace_swaps_two :
  Forall (swaps_two plain_name) (instructions sample_trace).
Proof.
  repeat (apply Forall_cons_2;
            [intros Hname; first [discriminate Hname|simpl; lia]|]).
  apply Forall_nil_2.
Defined.

Lemma ladder_trace_swaps_two :
  Forall (swaps_two plain_name) (instructions ladder_trace).
Proof.
  repeat (apply Forall_cons_2; [intros Hname; discriminate Hname|]).
  apply Forall_nil_2.
Defined.

(** The trace of scenario 6: the swap is drawn in the last three of the
    thirteen columns. *)
Lemma draw_draws_every_placeable_trace_witness :
  instructions sample_trace ≠ []
  ∧ Forall (placeable (getNumQudits sample_trace)) (instructions sample_trace)
  ∧ Forall (swaps_two plain_name) (instructions sample_trace)
  ∧ 2 * getNumQudits sample_trace + 1 < 2 ^ 31
  ∧ 0 ≤ 5 < max_columns - 1
  ∧ ∃ s c d,
      layering plain_name sample_trace = Some s
      ∧ total (layer_width s) < 2 ^ 31
      ∧ draw_diagram plain_name sample_trace 5 = Some (Drawn c d)
      ∧ cutting_point c = [13]
      ∧ rows_ d
        = [[8; 0; 0; 0; 9; 32; 32; 32; 32; 32; 32; 32; 32];
           [4; 32; 104; 32; 5; 0; 0; 3; 0; 0; 0; 12; 0];
           [10; 0; 0; 0; 11; 8; 0; 6; 0; 9; 32; 1; 32];
           [0; 0; 0; 0; 0; 4; 32; 120; 32; 5; 0; 12; 0];
           [32; 32; 32; 32; 32; 10; 0; 0; 0; 11; 32; 32; 32]].
Proof.
  split; [discriminate|]. split; [exact sample_trace_placeable|].
  split; [exact sample_trace_swaps_two|]. split; [reflexivity|].
  split; [by vm_compute|].
  destruct (draw_draws_every_placeable_trace plain_name sample_trace 5)
    as (s & Hs & Hdraw);
    [discriminate|exact sample_trace_placeable|exact sample_trace_swaps_two
    |reflexivity|by vm_compute|].
  assert (total (layer_width s) < 2 ^ 31) as Htotal
    by (vm_compute in Hs; injection Hs as <-; by vm_compute).
  destruct (Hdraw Htotal) as (c & d & _ & Hd & _).
  exists s, c, d. split; [exact Hs|]. split; [exact Htotal|].
  split; [exact Hd|]. vm_compute in Hd. injection Hd as <- <-.
  split; reflexivity.
Defined.

(** The ladder: in the row of qubit 0, the column after the box of the
    first [h] is in no box, and holds the wire. *)
Lemma outside_the_boxes_the_wires_run_through_witness :
  instructions ladder_trace ≠ []
  ∧ Forall (placeable (getNumQudits ladder_trace)) (instructions ladder_trace)
  ∧ Forall (swaps_two plain_name) (instructions ladder_trace)
  ∧ 2 * getNumQudits ladder_trace + 1 < 2 ^ 31
  ∧ 0 ≤ 5 < max_columns - 1
  ∧ ∃ s c d,
      layering plain_name ladder_trace = Some s
      ∧ total (layer_width s) < 2 ^ 31
      ∧ draw_diagram plain_name ladder_trace 5 = Some (Drawn c d)
      ∧ cell d 1 5 = Some WIRE_LINE.
Proof.
  split; [discriminate|]. split; [exact ladder_trace_placeable|].
  split; [exact ladder_trace_swaps_two|]. split; [reflexivity|].
  split; [by vm_compute|].
  destruct (outside_the_boxes_the_wires_run_through plain_name ladder_trace 5)
    as (s & Hs & Hdraw);
    [discriminate|exact ladder_trace_placeable|exact ladder_trace_swaps_two
    |reflexivity|by vm_compute|].
  assert (total (layer_width s) = 11) as Htotal
    by (vm_compute in Hs; injection Hs as <-; by vm_compute).
  destruct Hdraw as (c & d & Hd & Hcells); [rewrite Htotal; reflexivity|].
  exists s, c, d. split; [exact Hs|].
  split; [rewrite Htotal; reflexivity|]. split; [exact Hd|].
  apply (Hcells 1 5);
    [split; [lia|reflexivity]|rewrite Htotal; split; [lia|reflexivity]|].
  vm_compute in Hd. injection Hd as <- _.
  intros k inst mn mx l r Hk Hspan Hcol.
  do 5 (destruct k as [|k];
        [vm_compute in Hk, Hcol; injection Hk as <-;
         vm_compute in Hspan; injection Hspan as <- <-;
         injection Hcol as <- <-; lia|]).
  vm_compute in Hk. discriminate Hk.
Defined.

Lemma lone_swap_trace_placeable :
  Forall (placeable (getNumQudits lone_swap_trace))
         (instructions lone_swap_trace).
Proof.
  repeat (apply Forall_cons_2;
            [split; [discriminate|];
             intros w Hw; unfold inst_ids, convertToIDs in Hw;
             simpl in Hw;
             repeat (apply elem_of_cons in Hw as [->|Hw]; [simpl; lia|]);
             by apply elem_of_nil in Hw|]).
  apply Forall_nil_2.
Defined.

(** The [h] is drawn, then the swap of qubit 1 alone throws. *)
Lemma a_swap_of_one_target_stops_draw_witness :
  Forall (placeable (getNumQudits lone_swap_trace))
         (instructions lone_swap_trace)
  ∧ Forall (swaps_two plain_name) (take 1 (instructions lone_swap_trace))
  ∧ instructions lone_swap_trace !! 1%nat = Some lone_swap
  ∧ inst_name plain_name lone_swap = "swap"
  ∧ length (targets lone_swap) = 1%nat ∧ controls lone_swap = []
  ∧ 2 * getNumQudits lone_swap_trace + 1 < 2 ^ 31
  ∧ 0 ≤ 5 < max_columns - 1
  ∧ ∃ s d1,
      layering plain_name lone_swap_trace = Some s
      ∧ total (layer_width s) < 2 ^ 31
      ∧ boxes s !! 1%nat = Some (DiagramSwap [1] 0)
      ∧ rows_ d1 = [[8; 0; 0; 0; 9];
                    [4; 32; 104; 32; 5];
                    [10; 0; 0; 0; 11];
                    [0; 0; 0; 0; 0];
                    [32; 32; 32; 32; 32]]
      ∧ draw_shape 1 3 (DiagramSwap [1] 0) d1 = None
      ∧ draw_diagram plain_name lone_swap_trace 5 = None.
Proof.
  assert (Forall (swaps_two plain_name)
                 (take 1 (instructions lone_swap_trace))) as Hsw.
  { apply Forall_cons_2; [intros Hname; discriminate Hname|].
    apply Forall_nil_2. }
  assert (0 ≤ 5 < max_columns - 1) as Hprefix
    by (split; [lia|reflexivity]).
  split; [exact lone_swap_trace_placeable|]. split; [exact Hsw|].
  split; [reflexivity|]. split; [reflexivity|]. split; [reflexivity|].
  split; [reflexivity|]. split; [reflexivity|]. split; [exact Hprefix|].
  destruct (a_swap_of_one_target_stops_draw plain_name lone_swap_trace 5
              1%nat lone_swap lone_swap_trace_placeable Hsw eq_refl eq_refl
              eq_refl eq_refl eq_refl Hprefix) as (s & Hs & Hdraw).
  assert (total (layer_width s) < 2 ^ 31) as Htotal
    by (vm_compute in Hs; injection Hs as <-; reflexivity).
  destruct (Hdraw Htotal)
    as (c & d0 & d1 & wire & l & r & Hc & Hd0 & Hd1 & Hb & Hcol & _
        & Hstop & Hnone).
  exists s, d1. split; [exact Hs|]. split; [exact Htotal|].
  vm_compute in Hs. injection Hs as <-.
  vm_compute in Hc. injection Hc as <-.
  vm_compute in Hd0. injection Hd0 as <-.
  vm_compute in Hd1. injection Hd1 as <-.
  vm_compute in Hb. injection Hb as <-.
  vm_compute in Hcol. injection Hcol as <- <-.
  split; [reflexivity|]. split; [reflexivity|].
  split; [exact Hstop|exact Hnone].
Defined.

(** The box of an [x] on qubit 1 controlled by qubit 0: its label
    [" x "] is in row 3, in the columns 7 to 9. *)
Lemma the_label_is_in_the_middle_row_witness :
  ∃ d d',
    Diagram_width (Diagram_new 2) 11 = Some d
    ∧ draw_shape 6 10 (ControlledBox " x " [1; 0] 1 1) d = Some d'
    ∧ cell d' 3 7 = Some 32 ∧ cell d' 3 8 = Some 120
    ∧ cell d' 3 9 = Some 32.
Proof.
  destruct (Diagram_width_spec 2 11) as (d & Hd & Hgrid & _);
    [lia|reflexivity|lia|].
  destruct (the_label_is_in_the_middle_row 2 11 " x " [1; 0] 1 1 6 d)
    as [_ Hcb]; [reflexivity|exact Hgrid|lia|].
  destruct Hcb
    as (d' & targets & top & bot & Hd' & Htargets & Htop & Hbot & Hlabel).
  { unfold drawable. simpl. split; [lia|]. split; [lia|]. split; [lia|].
    repeat (apply Forall_cons_2; [lia|]). apply Forall_nil_2. }
  { simpl. lia. }
  vm_compute in Htargets. injection Htargets as <-.
  vm_compute in Htop, Hbot. injection Htop as <-. injection Hbot as <-.
  exists d, d'. split; [exact Hd|]. split; [exact Hd'|].
  split; [apply (Hlabel 0%nat 32); reflexivity|].
  split; [apply (Hlabel 1%nat 120); reflexivity|].
  apply (Hlabel 2%nat 32); reflexivity.
Defined.

(** The trace of scenario 6 is printed in 177 bytes. *)
Lemma draw_returns_a_text_witness :
  instructions sample_trace ≠ []
  ∧ Forall (placeable (getNumQudits sample_trace)) (instructions sample_trace)
  ∧ Forall (swaps_two plain_name) (instructions sample_trace)
  ∧ 2 * getNumQudits sample_trace + 1 < 2 ^ 31
  ∧ ∃ s str,
      layering plain_name sample_trace = Some s
      ∧ total (layer_width s) < 2 ^ 31
      ∧ draw plain_name sample_trace = Some str
      ∧ length str = 177%nat.
Proof.
  split; [discriminate|]. split; [exact sample_trace_placeable|].
  split; [exact sample_trace_swaps_two|]. split; [reflexivity|].
  destruct (draw_returns_a_text plain_name sample_trace)
    as (s & Hs & Hdraw);
    [discriminate|exact sample_trace_placeable|exact sample_trace_swaps_two
    |reflexivity|].
  assert (total (layer_width s) < 2 ^ 31) as Htotal
    by (vm_compute in Hs; injection Hs as <-; reflexivity).
  destruct (Hdraw Htotal) as (str & Hstr).
  exists s, str. split; [exact Hs|]. split; [exact Htotal|].
  split; [exact Hstr|]. vm_compute in Hstr. injection Hstr as <-.
  reflexivity.
Defined.

(** The ladder, sixteen columns with its labels, is printed in one
    piece: seven lines, the first of them the top of the first box. *)
Lemma a_narrow_diagram_is_printed_in_one_piece_witness :
  instructions ladder_trace ≠ []
  ∧ Forall (placeable (getNumQudits ladder_trace)) (instructions ladder_trace)
  ∧ Forall (swaps_two plain_name) (instructions ladder_trace)
  ∧ 2 * getNumQudits ladder_trace + 1 < 2 ^ 31
  ∧ ∃ s str,
      layering plain_name ladder_trace = Some s
      ∧ 5 + total (layer_width s) < max_columns - 1
      ∧ draw plain_name ladder_trace = Some str
      ∧ take 27 str
        = [32; 32; 32; 32; 32; 226; 149; 173; 226; 148; 128; 226; 148; 128;
           226; 148; 128; 226; 149; 174; 32; 32; 32; 32; 32; 32; 10].
Proof.
  split; [discriminate|]. split; [exact ladder_trace_placeable|].
  split; [exact ladder_trace_swaps_two|]. split; [reflexivity|].
  destruct (a_narrow_diagram_is_printed_in_one_piece plain_name ladder_trace)
    as (prefix & size & s & Hlabels & Hs & Hdraw);
    [discriminate|exact ladder_trace_placeable|exact ladder_trace_swaps_two
    |reflexivity|].
  vm_compute in Hlabels. injection Hlabels as <- <-.
  assert (5 + total (layer_width s) < max_columns - 1) as Hfit
    by (vm_compute in Hs; injection Hs as <-; reflexivity).
  destruct (Hdraw Hfit) as (c & d & Hd & Hstr).
  eexists s, _. split; [exact Hs|]. split; [exact Hfit|].
  split; [exact Hstr|]. vm_compute in Hd. injection Hd as <- <-.
  reflexivity.
Defined.

(** Two qudits: five rows, the labels [q0 : ] and [q1 : ]. *)
Lemma the_wire_labels_are_in_the_rows_of_the_wires_witness :
  0 ≤ 2 ∧ 2 * 2 + 1 < 2 ^ 31
  ∧ ∃ prefix prefix_size,
      wire_labels (Diagram_new 2) 2 = Some (prefix, prefix_size)
      ∧ prefix = [[]; [113; 48; 32; 58; 32]; []; [113; 49; 32; 58; 32]; []]
      ∧ prefix_size = 5.
Proof.
  split; [lia|]. split; [reflexivity|].
  destruct (the_wire_labels_are_in_the_rows_of_the_wires 2)
    as (prefix & size & Hlabels & _); [lia|reflexivity|].
  exists prefix, size. split; [exact Hlabels|].
  vm_compute in Hlabels. injection Hlabels as <- <-. split; reflexivity.
Defined.

End OnMoreSamples.
